(** * Adaptive Audio: the intensity mixing and multi-track playback engine

    A shallow embedding of [AdaptiveAudioPlayer] (src/scripts/main.js),
    with its hooks and setting callbacks, of the test of the patched
    [PlaylistSound.prototype.sync] (src/scripts/patching.js) and of the
    sidebar's intensity slider, and of the properties its specification
    states about it.

    Numbers.  JavaScript numbers are modelled as exact rationals [Q]: the
    decimal literals of the source ([0.25], [0.1], [0.2], ...) are written
    with the same digits, [Math.max]/[Math.min] are [Qmax]/[Qmin], and
    [Math.abs] is [Qabs].  Rounding error, [NaN] and the infinities are
    outside the model (a division by zero, which the source never performs
    on its own literals, is [0] in [Q]).

    Objects.  [foundry.audio.Sound] objects live in a store indexed by
    handles, so that the layers of a Track Set can still be inspected once
    the Track Set has been removed from [playingSounds].  Timers created
    by [setInterval] live in a second store; a timer callback is the data
    its closure captured.  The [debug] helper only prints and is left
    out; [console.warn], [console.error] and the host notifications are
    kept in a log.

    Limits.  A fade is followed for a positive duration only: with a
    duration of 0 the callback's [elapsed / duration] is [Infinity] or
    [NaN] in JavaScript, and no statement below is about such a fade.
    The [await sound.update(...)] of [_playAdaptiveSound] is taken to
    resolve; of its [catch] block only the path of a load that fails is
    followed. *)

From Stdlib Require Import QArith Qabs Qminmax Qround Lqa.
From stdpp Require Import gmap strings list fin_maps.

Local Open Scope Q_scope.

(** ** Comparisons on numbers *)

(** [x <= y] and [x < y] as the booleans JavaScript computes. *)
Definition Qleb (x y : Q) : bool := Qle_bool x y.
Definition Qltb (x y : Q) : bool := negb (Qle_bool y x).

(** [Math.max(0, Math.min(1, x))] *)
Definition clamp01 (x : Q) : Q := Qmax 0 (Qmin 1 x).

(** [Math.round(x)]: the nearest integer, halves rounded up. *)
Definition Math_round (x : Q) : Z := Qfloor (x + 0.5).

(** ** The Mix Curve Calculator *)

(** A control point [{p: intensity, v: volume}]. *)
Record Point := mkPoint { pt_p : Q; pt_v : Q }.

(** The three volumes [calculateMix] returns. *)
Record Mix := mkMix { low : Q; mid : Q; high : Q }.

Inductive Layer := Low | Mid | High.

#[global] Instance Layer_eq_dec : EqDecision Layer.
Proof. solve_decision. Defined.

(** The [interp] helper of [calculateMix].  Its [points] array is never
    empty (the three call sites pass array literals), so it is given as
    its first element [p1] and the elements after it.  The loop looks at
    consecutive pairs [(points[i], points[i+1])] from the left and returns
    from the first pair whose interval contains [val]; when no pair
    matches, the value of the last point is returned. *)
Fixpoint interp (val : Q) (p1 : Point) (rest : list Point) : Q :=
  match rest with
  | [] => pt_v p1
  | p2 :: rest' =>
      if Qleb (pt_p p1) val && Qleb val (pt_p p2) then
        let range := pt_p p2 - pt_p p1 in
        let progress := (val - pt_p p1) / range in
        pt_v p1 + (pt_v p2 - pt_v p1) * progress
      else interp val p2 rest'
  end.

Definition calculateMix (intensity : Q) : Mix :=
  let low := interp intensity (mkPoint 0.00 1.0)
               [mkPoint 0.25 0.0; mkPoint 0.50 1.0; mkPoint 0.75 0.0; mkPoint 1.00 1.0] in
  let mid := interp intensity (mkPoint 0.00 0.0)
               [mkPoint 0.25 1.0; mkPoint 1.00 1.0] in
  let high := interp intensity (mkPoint 0.00 0.0)
               [mkPoint 0.50 0.0; mkPoint 0.75 1.0; mkPoint 1.00 1.0] in
  {| low := low; mid := mid; high := high |}.

(** The volume of one layer in a mix, and the layers that are audible
    (volume > 0), listed in the order Low, Mid, High. *)
Definition layerVolume (m : Mix) (l : Layer) : Q :=
  match l with Low => low m | Mid => mid m | High => high m end.

Definition activeLayers (m : Mix) : list Layer :=
  List.filter (fun l => Qltb 0 (layerVolume m l)) [Low; Mid; High].

(** Two mixes with equal volumes (as rationals). *)
Definition Mix_equiv (a b : Mix) : Prop :=
  low a == low b /\ mid a == mid b /\ high a == high b.

(** ** Host objects *)

(** [foundry.audio.Sound], the playback primitive of the host, with the
    interface the engine consumes: [load()], [play({volume, loop,
    offset})], [stop()], a readable and writable [volume] and readable
    [playing], [currentTime] and [duration]. *)
Module Sound.
Record t := mk {
  src : string;
  playing : bool;
  volume : Q;
  currentTime : Q;
  duration : Q;
  loop : bool
}.

(** [new foundry.audio.Sound(src)] *)
Definition create (src : string) : t := mk src false 0 0 0 false.

(** [load()] resolving: the media is decoded and its length known. *)
Definition load (d : Q) (s : t) : t :=
  mk (src s) (playing s) (volume s) (currentTime s) d (loop s).

(** [play({volume, loop, offset})]; without [offset] playback starts at 0. *)
Definition play (vol : Q) (lp : bool) (offset : Q) (s : t) : t :=
  mk (src s) true vol offset (duration s) lp.

Definition stop (s : t) : t :=
  mk (src s) false (volume s) (currentTime s) (duration s) (loop s).

(** [sound.volume = v] *)
Definition setVolume (v : Q) (s : t) : t :=
  mk (src s) (playing s) v (currentTime s) (duration s) (loop s).
End Sound.

(** [CONST.PLAYLIST_MODES] *)
Inductive PlaylistMode := DISABLED | SEQUENTIAL | SHUFFLE | SIMULTANEOUS.

#[global] Instance PlaylistMode_eq_dec : EqDecision PlaylistMode.
Proof. solve_decision. Defined.

Module Playlist.
Record t := mk { id : string; mode : PlaylistMode }.
End Playlist.

(** A [PlaylistSound] document.  [path] is the High layer; the two flags
    are the optional Mid and Low layers ([None] when the flag is unset).
    The object literal of the legacy quick-test entry has neither
    [volume] nor [parent]. *)
Module PlaylistSound.
Record t := mk {
  id : string;
  name : string;
  path : option string;
  midIntensityPath : option string;
  lowIntensityPath : option string;
  volume : option Q;
  repeat : bool;
  isOwner : bool;
  playing : bool;
  parent : option Playlist.t
}.
End PlaylistSound.

(** JavaScript truthiness of an optional string: unset and the empty
    string are falsy. *)
Definition truthy (o : option string) : bool :=
  match o with
  | Some s => negb (String.eqb s "")
  | None => false
  end.

Module Combat.
Record t := mk { id : string; started : bool }.
End Combat.

(** The module settings the engine reads and writes through
    [game.settings]. *)
Module Settings.
Record t := mk {
  autoSetCombatIntensity : bool;
  combatIntensity : Q;
  currentIntensity : Z;
  masterVolume : Q;
  customMixEnabled : bool;
  customHighVolume : Q;
  customMidVolume : Q;
  customLowVolume : Q
}.
End Settings.

(** The data a [setInterval] callback of the engine closes over: the
    fade callback of [fadeTo], or the drift monitor callback. *)
Record Fade := mkFade {
  startIntensity : Q;
  delta : Q;
  startTime : Q;
  fadeDuration : Q;
  targetIntensity : Q;
  updateUI : bool
}.

Inductive Timer := FadeTimer (f : Fade) | DriftTimer.

(** What the engine writes to the console and to the notification area. *)
Inductive LogEvent :=
  | WarnMissingTracks (name : string)
  | WarnDrift (name label : string) (drift : Q)
  | ErrorPlaying (name : string)
  | InfoBuffering (layers : nat).

(** Document updates the engine asks the host for:
    [sound.update({playing}, {adaptiveAudioInternal: true})]. *)
Inductive Request := UpdatePlaying (soundId : string) (playing : bool).

(** ** The engine state *)

(** One value of the [playingSounds] map: a Track Set. *)
Record Entry := mkEntry {
  highSound : option nat;
  midSound : option nat;
  lowSound : option nat;
  sound : PlaylistSound.t;
  needsInitialSync : bool
}.

(** The fields of an [AdaptiveAudioPlayer] (the legacy quick-test fields
    and the preload cache are left out). *)
Record Player := mkPlayer {
  playingSounds : gmap string Entry;
  loadingSounds : gset string;
  intensity : Q;
  masterVolume : Q;
  customMixEnabled : bool;
  customHighVolume : option Q;
  customMidVolume : option Q;
  customLowVolume : option Q;
  preCombatIntensity : option Q;
  userOverrideDuringCombat : bool;
  fadeInterval : option positive;
  driftMonitorInterval : option positive
}.

(** What the engine reaches outside itself: the sound objects, the
    timers, the media the host can decode (path to length), the settings,
    the documents and the user interface. *)
Record Host := mkHost {
  audio : gmap nat Sound.t;
  nextSound : nat;
  timers : gmap positive Timer;
  nextTimer : positive;
  media : gmap string Q;
  settings : Settings.t;
  isGM : bool;
  playlists : gset string;
  combats : list Combat.t;
  slider : Z;
  log : list LogEvent;
  requests : list Request
}.

Record State := mkState { player : Player; host : Host }.

(** *** Field updates *)

Definition set_playingSounds (x : gmap string Entry) (p : Player) : Player :=
  mkPlayer x (loadingSounds p) (intensity p) (masterVolume p) (customMixEnabled p)
    (customHighVolume p) (customMidVolume p) (customLowVolume p)
    (preCombatIntensity p) (userOverrideDuringCombat p) (fadeInterval p)
    (driftMonitorInterval p).

Definition set_loadingSounds (x : gset string) (p : Player) : Player :=
  mkPlayer (playingSounds p) x (intensity p) (masterVolume p) (customMixEnabled p)
    (customHighVolume p) (customMidVolume p) (customLowVolume p)
    (preCombatIntensity p) (userOverrideDuringCombat p) (fadeInterval p)
    (driftMonitorInterval p).

Definition set_intensity (x : Q) (p : Player) : Player :=
  mkPlayer (playingSounds p) (loadingSounds p) x (masterVolume p) (customMixEnabled p)
    (customHighVolume p) (customMidVolume p) (customLowVolume p)
    (preCombatIntensity p) (userOverrideDuringCombat p) (fadeInterval p)
    (driftMonitorInterval p).

Definition set_masterVolume (x : Q) (p : Player) : Player :=
  mkPlayer (playingSounds p) (loadingSounds p) (intensity p) x (customMixEnabled p)
    (customHighVolume p) (customMidVolume p) (customLowVolume p)
    (preCombatIntensity p) (userOverrideDuringCombat p) (fadeInterval p)
    (driftMonitorInterval p).

Definition set_customMixEnabled (x : bool) (p : Player) : Player :=
  mkPlayer (playingSounds p) (loadingSounds p) (intensity p) (masterVolume p) x
    (customHighVolume p) (customMidVolume p) (customLowVolume p)
    (preCombatIntensity p) (userOverrideDuringCombat p) (fadeInterval p)
    (driftMonitorInterval p).

Definition set_customHighVolume (x : option Q) (p : Player) : Player :=
  mkPlayer (playingSounds p) (loadingSounds p) (intensity p) (masterVolume p)
    (customMixEnabled p) x (customMidVolume p) (customLowVolume p)
    (preCombatIntensity p) (userOverrideDuringCombat p) (fadeInterval p)
    (driftMonitorInterval p).

Definition set_customMidVolume (x : option Q) (p : Player) : Player :=
  mkPlayer (playingSounds p) (loadingSounds p) (intensity p) (masterVolume p)
    (customMixEnabled p) (customHighVolume p) x (customLowVolume p)
    (preCombatIntensity p) (userOverrideDuringCombat p) (fadeInterval p)
    (driftMonitorInterval p).

Definition set_customLowVolume (x : option Q) (p : Player) : Player :=
  mkPlayer (playingSounds p) (loadingSounds p) (intensity p) (masterVolume p)
    (customMixEnabled p) (customHighVolume p) (customMidVolume p) x
    (preCombatIntensity p) (userOverrideDuringCombat p) (fadeInterval p)
    (driftMonitorInterval p).

Definition set_preCombatIntensity (x : option Q) (p : Player) : Player :=
  mkPlayer (playingSounds p) (loadingSounds p) (intensity p) (masterVolume p)
    (customMixEnabled p) (customHighVolume p) (customMidVolume p) (customLowVolume p)
    x (userOverrideDuringCombat p) (fadeInterval p) (driftMonitorInterval p).

Definition set_userOverrideDuringCombat (x : bool) (p : Player) : Player :=
  mkPlayer (playingSounds p) (loadingSounds p) (intensity p) (masterVolume p)
    (customMixEnabled p) (customHighVolume p) (customMidVolume p) (customLowVolume p)
    (preCombatIntensity p) x (fadeInterval p) (driftMonitorInterval p).

Definition set_fadeInterval (x : option positive) (p : Player) : Player :=
  mkPlayer (playingSounds p) (loadingSounds p) (intensity p) (masterVolume p)
    (customMixEnabled p) (customHighVolume p) (customMidVolume p) (customLowVolume p)
    (preCombatIntensity p) (userOverrideDuringCombat p) x (driftMonitorInterval p).

Definition set_driftMonitorInterval (x : option positive) (p : Player) : Player :=
  mkPlayer (playingSounds p) (loadingSounds p) (intensity p) (masterVolume p)
    (customMixEnabled p) (customHighVolume p) (customMidVolume p) (customLowVolume p)
    (preCombatIntensity p) (userOverrideDuringCombat p) (fadeInterval p) x.

Definition set_audio (x : gmap nat Sound.t) (h : Host) : Host :=
  mkHost x (nextSound h) (timers h) (nextTimer h) (media h) (settings h) (isGM h)
    (playlists h) (combats h) (slider h) (log h) (requests h).

Definition set_nextSound (x : nat) (h : Host) : Host :=
  mkHost (audio h) x (timers h) (nextTimer h) (media h) (settings h) (isGM h)
    (playlists h) (combats h) (slider h) (log h) (requests h).

Definition set_timers (x : gmap positive Timer) (h : Host) : Host :=
  mkHost (audio h) (nextSound h) x (nextTimer h) (media h) (settings h) (isGM h)
    (playlists h) (combats h) (slider h) (log h) (requests h).

Definition set_nextTimer (x : positive) (h : Host) : Host :=
  mkHost (audio h) (nextSound h) (timers h) x (media h) (settings h) (isGM h)
    (playlists h) (combats h) (slider h) (log h) (requests h).

Definition set_settings (x : Settings.t) (h : Host) : Host :=
  mkHost (audio h) (nextSound h) (timers h) (nextTimer h) (media h) x (isGM h)
    (playlists h) (combats h) (slider h) (log h) (requests h).

Definition set_slider (x : Z) (h : Host) : Host :=
  mkHost (audio h) (nextSound h) (timers h) (nextTimer h) (media h) (settings h) (isGM h)
    (playlists h) (combats h) x (log h) (requests h).

Definition set_log (x : list LogEvent) (h : Host) : Host :=
  mkHost (audio h) (nextSound h) (timers h) (nextTimer h) (media h) (settings h) (isGM h)
    (playlists h) (combats h) (slider h) x (requests h).

Definition set_requests (x : list Request) (h : Host) : Host :=
  mkHost (audio h) (nextSound h) (timers h) (nextTimer h) (media h) (settings h) (isGM h)
    (playlists h) (combats h) (slider h) (log h) x.

Definition onPlayer (f : Player -> Player) (st : State) : State :=
  mkState (f (player st)) (host st).

Definition onHost (f : Host -> Host) (st : State) : State :=
  mkState (player st) (f (host st)).

(** [game.settings.set(MODULE_ID, key, value)] for the keys the engine
    writes. *)
Definition settings_set_currentIntensity (x : Z) (s : Settings.t) : Settings.t :=
  Settings.mk (Settings.autoSetCombatIntensity s) (Settings.combatIntensity s) x
    (Settings.masterVolume s) (Settings.customMixEnabled s)
    (Settings.customHighVolume s) (Settings.customMidVolume s)
    (Settings.customLowVolume s).

Definition settings_set_masterVolume (x : Q) (s : Settings.t) : Settings.t :=
  Settings.mk (Settings.autoSetCombatIntensity s) (Settings.combatIntensity s)
    (Settings.currentIntensity s) x (Settings.customMixEnabled s)
    (Settings.customHighVolume s) (Settings.customMidVolume s)
    (Settings.customLowVolume s).

Definition settings_set_customMixEnabled (x : bool) (s : Settings.t) : Settings.t :=
  Settings.mk (Settings.autoSetCombatIntensity s) (Settings.combatIntensity s)
    (Settings.currentIntensity s) (Settings.masterVolume s) x
    (Settings.customHighVolume s) (Settings.customMidVolume s)
    (Settings.customLowVolume s).

Definition settings_set_customHighVolume (x : Q) (s : Settings.t) : Settings.t :=
  Settings.mk (Settings.autoSetCombatIntensity s) (Settings.combatIntensity s)
    (Settings.currentIntensity s) (Settings.masterVolume s)
    (Settings.customMixEnabled s) x (Settings.customMidVolume s)
    (Settings.customLowVolume s).

Definition settings_set_customMidVolume (x : Q) (s : Settings.t) : Settings.t :=
  Settings.mk (Settings.autoSetCombatIntensity s) (Settings.combatIntensity s)
    (Settings.currentIntensity s) (Settings.masterVolume s)
    (Settings.customMixEnabled s) (Settings.customHighVolume s) x
    (Settings.customLowVolume s).

Definition settings_set_customLowVolume (x : Q) (s : Settings.t) : Settings.t :=
  Settings.mk (Settings.autoSetCombatIntensity s) (Settings.combatIntensity s)
    (Settings.currentIntensity s) (Settings.masterVolume s)
    (Settings.customMixEnabled s) (Settings.customHighVolume s)
    (Settings.customMidVolume s) x.

(** *** Timers and sound objects *)

(** [setInterval(callback, ms)]: a fresh handle for the new timer. *)
Definition setInterval (t : Timer) (h : Host) : positive * Host :=
  (nextTimer h,
   set_nextTimer (Pos.succ (nextTimer h)) (set_timers (<[nextTimer h := t]> (timers h)) h)).

Definition clearInterval (id : positive) (h : Host) : Host :=
  set_timers (delete id (timers h)) h.

(** [if (snd) snd.method(...)] on an optional layer handle. *)
Definition onSound (snd : option nat) (f : Sound.t -> Sound.t) (st : State) : State :=
  match snd with
  | Some i => onHost (fun h => set_audio (alter f i (audio h)) h) st
  | None => st
  end.

(** [new foundry.audio.Sound(path)] when [path] is truthy, [null] otherwise. *)
Definition newSound (path : option string) (st : State) : option nat * State :=
  match path with
  | Some src =>
      if truthy path then
        let i := nextSound (host st) in
        (Some i,
         onHost (fun h => set_nextSound (S i) (set_audio (<[i := Sound.create src]> (audio h)) h)) st)
      else (None, st)
  | None => (None, st)
  end.

Definition logEvent (e : LogEvent) (st : State) : State :=
  onHost (fun h => set_log (log h ++ [e]) h) st.

(** ** The engine: stopping, mixing, intensity *)

(** [!!x] on an optional value. *)
Definition isSome {A} (o : option A) : bool :=
  match o with Some _ => true | None => false end.

(** The keys of a [Map], as its iterator yields them.  A JavaScript
    [Map] iterates in insertion order and [map_to_list] in an order of
    its own; the loops of the engine visit every entry once and the
    states they reach do not depend on the order (only the order of the
    log entries does). *)
Definition keys {A} (m : gmap string A) : list string := (map_to_list m).*1.

(** [_stopDriftMonitoring()] *)
Definition stopDriftMonitoring (st : State) : State :=
  match driftMonitorInterval (player st) with
  | Some id => onPlayer (set_driftMonitorInterval None) (onHost (clearInterval id) st)
  | None => st
  end.

(** [_startDriftMonitoring()]: the callback it installs is [driftTick]
    below. *)
Definition startDriftMonitoring (st : State) : State :=
  let st := stopDriftMonitoring st in
  let '(id, h) := setInterval DriftTimer (host st) in
  mkState (set_driftMonitorInterval (Some id) (player st)) h.

(** [_stopAdaptiveSound(soundId, skipUpdate = false)] *)
Definition stopAdaptiveSound (soundId : string) (skipUpdate : bool) (st : State) : State :=
  match playingSounds (player st) !! soundId with
  | None => st
  | Some entry =>
      let st := onSound (lowSound entry) Sound.stop st in
      let st := onSound (midSound entry) Sound.stop st in
      let st := onSound (highSound entry) Sound.stop st in
      let st := onPlayer (fun p => set_playingSounds (delete soundId (playingSounds p)) p) st in
      let snd := sound entry in
      let st :=
        if negb skipUpdate && PlaylistSound.isOwner snd && PlaylistSound.playing snd
           && match PlaylistSound.parent snd with
              | Some pl => bool_decide (Playlist.id pl ∈ playlists (host st))
              | None => false
              end
        then onHost (fun h => set_requests
                                (requests h ++ [UpdatePlaying (PlaylistSound.id snd) false]) h) st
        else st in
      if (size (playingSounds (player st)) =? 0)%nat then stopDriftMonitoring st else st
  end.

(** The values of the locals [lowVolume], [midVolume] and [highVolume] of
    [_applyIntensityToSound] once its if/else chain has run. *)
Definition mixVolumes (p : Player) (entry : Entry) : Mix :=
  let hasLow := isSome (lowSound entry) in
  let hasMid := isSome (midSound entry) in
  let hasHigh := isSome (highSound entry) in
  let trackVolume := default 1.0 (PlaylistSound.volume (sound entry)) in
  let effectiveMasterVolume := masterVolume p * trackVolume in
  if customMixEnabled p then
    mkMix (default 1.0 (customLowVolume p) * effectiveMasterVolume)
          (default 1.0 (customMidVolume p) * effectiveMasterVolume)
          (default 1.0 (customHighVolume p) * effectiveMasterVolume)
  else if hasLow && hasMid && hasHigh then
    let mix := calculateMix (intensity p) in
    mkMix (low mix * effectiveMasterVolume)
          (mid mix * effectiveMasterVolume)
          (high mix * effectiveMasterVolume)
  else if negb hasLow && hasMid && hasHigh then
    let progress := intensity p in
    mkMix 0 ((1 - progress) * effectiveMasterVolume) (progress * effectiveMasterVolume)
  else if hasLow && negb hasMid && hasHigh then
    let progress := intensity p in
    mkMix ((1 - progress) * effectiveMasterVolume) 0 (progress * effectiveMasterVolume)
  else if hasLow && hasMid && negb hasHigh then
    let progress := intensity p in
    mkMix ((1 - progress) * effectiveMasterVolume) (progress * effectiveMasterVolume) 0
  else
    mkMix (if hasLow then effectiveMasterVolume else 0)
          (if hasMid then effectiveMasterVolume else 0)
          (if hasHigh then effectiveMasterVolume else 0).

(** [_applyIntensityToSound(soundId)] *)
Definition applyIntensityToSound (soundId : string) (st : State) : State :=
  match playingSounds (player st) !! soundId with
  | None => st
  | Some entry =>
      let vols := mixVolumes (player st) entry in
      let st := onSound (lowSound entry) (Sound.setVolume (low vols)) st in
      let st := onSound (midSound entry) (Sound.setVolume (mid vols)) st in
      onSound (highSound entry) (Sound.setVolume (high vols)) st
  end.

(** [setGlobalIntensity(intensity, fromSync = false)] *)
Definition setGlobalIntensity (value : Q) (fromSync : bool) (st : State) : State :=
  let st := onPlayer (set_intensity (clamp01 value)) st in
  let st :=
    if negb fromSync && isSome (preCombatIntensity (player st))
    then onPlayer (set_userOverrideDuringCombat true) st
    else st in
  let st :=
    foldl (fun st soundId => applyIntensityToSound soundId st) st
          (keys (playingSounds (player st))) in
  if negb fromSync && isGM (host st)
  then onHost (fun h => set_settings
                 (settings_set_currentIntensity
                    (Math_round (intensity (player st) * 100)) (settings h)) h) st
  else st.

(** [fadeTo(targetIntensity, duration, updateUI = false)], called when
    [Date.now()] is [now]. *)
Definition fadeTo (target duration : Q) (upd : bool) (now : Q) (st : State) : State :=
  let st :=
    match fadeInterval (player st) with
    | Some id => onPlayer (set_fadeInterval None) (onHost (clearInterval id) st)
    | None => st
    end in
  let start := intensity (player st) in
  let d := target - start in
  let '(id, h) := setInterval (FadeTimer (mkFade start d now duration target upd)) (host st) in
  mkState (set_fadeInterval (Some id) (player st)) h.

(** One run of the interval callback of [fadeTo], when [Date.now()] is
    [now]. *)
Definition fadeTick (f : Fade) (now : Q) (st : State) : State :=
  let elapsed := now - startTime f in
  let progress := Qmin (elapsed / fadeDuration f) 1.0 in
  let eased :=
    if Qltb progress 0.5
    then 2 * progress * progress
    else 1 - (-2 * progress + 2) ^ 2 / 2 in
  let newIntensity := startIntensity f + (delta f * eased) in
  let st := setGlobalIntensity newIntensity true st in
  let st :=
    if updateUI f
    then onHost (set_slider (Math_round (newIntensity * 100))) st
    else st in
  if Qleb 1.0 progress then
    let st :=
      match fadeInterval (player st) with
      | Some id => onHost (clearInterval id) st
      | None => st
      end in
    let st := onPlayer (set_fadeInterval None) st in
    if isGM (host st)
    then onHost (fun h => set_settings
                   (settings_set_currentIntensity
                      (Math_round (targetIntensity f * 100)) (settings h)) h) st
    else st
  else st.

(** [setCustomMixEnabled(enabled, fromSync = false)] *)
Definition setCustomMixEnabled (enabled fromSync : bool) (st : State) : State :=
  let st := onPlayer (set_customMixEnabled enabled) st in
  let st := setGlobalIntensity (intensity (player st)) true st in
  if negb fromSync && isGM (host st)
  then onHost (fun h => set_settings (settings_set_customMixEnabled enabled (settings h)) h) st
  else st.

(** [setCustomVolume(type, volume, fromSync = false)] *)
Definition setCustomVolume (type : string) (volume : Q) (fromSync : bool) (st : State) : State :=
  let volume := clamp01 volume in
  let st :=
    if String.eqb type "high" then onPlayer (set_customHighVolume (Some volume)) st
    else if String.eqb type "mid" then onPlayer (set_customMidVolume (Some volume)) st
    else if String.eqb type "low" then onPlayer (set_customLowVolume (Some volume)) st
    else st in
  let st :=
    if customMixEnabled (player st)
    then setGlobalIntensity (intensity (player st)) true st
    else st in
  if negb fromSync && isGM (host st) then
    if String.eqb type "high"
    then onHost (fun h => set_settings (settings_set_customHighVolume volume (settings h)) h) st
    else if String.eqb type "mid"
    then onHost (fun h => set_settings (settings_set_customMidVolume volume (settings h)) h) st
    else if String.eqb type "low"
    then onHost (fun h => set_settings (settings_set_customLowVolume volume (settings h)) h) st
    else st
  else st.

(** [setMasterVolume(volume)] *)
Definition setMasterVolume (volume : Q) (st : State) : State :=
  let st := onPlayer (set_masterVolume (clamp01 volume)) st in
  let st := onHost (fun h => set_settings
                      (settings_set_masterVolume (masterVolume (player st) * 100) (settings h)) h) st in
  setGlobalIntensity (intensity (player st)) false st.

(** ** The engine: starting a sound *)

(** [entry.sound.parent?.id === playlist.id] *)
Definition sameContainer (playlist : Playlist.t) (entry : Entry) : bool :=
  match PlaylistSound.parent (sound entry) with
  | Some q => String.eqb (Playlist.id q) (Playlist.id playlist)
  | None => false
  end.

(** The block ENFORCE PLAYLIST EXCLUSIVITY of [_playAdaptiveSound]: unless
    the playlist of [snd] plays its sounds simultaneously, every other
    Track Set of that playlist is stopped. *)
Definition enforceExclusivity (snd : PlaylistSound.t) (st : State) : State :=
  match PlaylistSound.parent snd with
  | Some playlist =>
      if negb (bool_decide (Playlist.mode playlist = SIMULTANEOUS)) then
        let soundsToStop :=
          (List.filter
             (fun '(otherId, entry) =>
                sameContainer playlist entry
                && negb (String.eqb otherId (PlaylistSound.id snd)))
             (map_to_list (playingSounds (player st)))).*1 in
        foldl (fun st id => stopAdaptiveSound id false st) st soundsToStop
      else st
  | None => st
  end.

(** [_playAdaptiveSound(sound)] up to its first [await]: either the call
    has returned ([None]), or the layers are created and their loads are
    pending ([Some (highSound, midSound, lowSound)]). *)
Definition playAdaptiveSound_begin (snd : PlaylistSound.t) (st : State)
  : State * option (option nat * option nat * option nat) :=
  if bool_decide (PlaylistSound.id snd ∈ loadingSounds (player st)) then (st, None)
  else
    let st := enforceExclusivity snd st in
    let highPath := PlaylistSound.path snd in
    let midPath := PlaylistSound.midIntensityPath snd in
    let lowPath := PlaylistSound.lowIntensityPath snd in
    if negb (truthy midPath) && negb (truthy lowPath) then
      (logEvent (WarnMissingTracks (PlaylistSound.name snd)) st, None)
    else
      let st :=
        if isSome (playingSounds (player st) !! PlaylistSound.id snd)
        then stopAdaptiveSound (PlaylistSound.id snd) false st
        else st in
      let st := onPlayer (fun p => set_loadingSounds
                            ({[PlaylistSound.id snd]} ∪ loadingSounds p) p) st in
      let '(highSound, st) := newSound highPath st in
      let '(midSound, st) := newSound midPath st in
      let '(lowSound, st) := newSound lowPath st in
      let promises :=
        ((if isSome highSound then 1 else 0) + (if isSome midSound then 1 else 0)
         + (if isSome lowSound then 1 else 0))%nat in
      let st := if (1 <? promises)%nat then logEvent (InfoBuffering promises) st else st in
      (st, Some (highSound, midSound, lowSound)).

(** [await snd.load()]: the host decodes the media at the sound's path;
    the promise is rejected when it cannot. *)
Definition loadSound (snd : option nat) (st : State) : option State :=
  match snd with
  | None => Some st
  | Some i =>
      s ← audio (host st) !! i;
      d ← media (host st) !! Sound.src s;
      Some (onSound snd (Sound.load d) st)
  end.

(** The [finally] block of [_playAdaptiveSound]. *)
Definition playAdaptiveSound_finally (snd : PlaylistSound.t) (st : State) : State :=
  onPlayer (fun p => set_loadingSounds (loadingSounds p ∖ {[PlaylistSound.id snd]}) p) st.

(** [_playAdaptiveSound] from the moment its loads settle: the rest of
    the [try] block up to the document update, or the [catch] block.  The
    result says whether the [try] block goes on ([sound.update], when the
    caller owns the document, is asked for and awaited here). *)
Definition playAdaptiveSound_loaded (snd : PlaylistSound.t)
    (layers : option nat * option nat * option nat) (st : State) : State * bool :=
  let '(highSound, midSound, lowSound) := layers in
  match (st1 ← loadSound highSound st; st2 ← loadSound midSound st1; loadSound lowSound st2) with
  | None =>
      (playAdaptiveSound_finally snd (logEvent (ErrorPlaying (PlaylistSound.name snd)) st),
       false)
  | Some st =>
      let entry := mkEntry highSound midSound lowSound snd false in
      let st := onPlayer (fun p => set_playingSounds
                            (<[PlaylistSound.id snd := entry]> (playingSounds p)) p) st in
      let lp := PlaylistSound.repeat snd in
      let st := onSound highSound (Sound.play 0 lp 0) st in
      let st := onSound midSound (Sound.play 0 lp 0) st in
      let st := onSound lowSound (Sound.play 0 lp 0) st in
      let st := applyIntensityToSound (PlaylistSound.id snd) st in
      let st :=
        if PlaylistSound.isOwner snd
        then onHost (fun h => set_requests
                       (requests h ++ [UpdatePlaying (PlaylistSound.id snd) true]) h) st
        else st in
      (st, true)
  end.

(** The end of the [try] block (the drift monitor is started unless it
    runs) and the [finally] block. *)
Definition playAdaptiveSound_finish (snd : PlaylistSound.t) (st : State) : State :=
  let st :=
    if isSome (driftMonitorInterval (player st)) then st else startDriftMonitoring st in
  playAdaptiveSound_finally snd st.

(** A whole call of [_playAdaptiveSound] during which no other event is
    served. *)
Definition playAdaptiveSound (snd : PlaylistSound.t) (st : State) : State :=
  match playAdaptiveSound_begin snd st with
  | (st, None) => st
  | (st, Some layers) =>
      match playAdaptiveSound_loaded snd layers st with
      | (st, true) => playAdaptiveSound_finish snd st
      | (st, false) => st
      end
  end.

(** ** The drift monitor *)

(** [lowSound || midSound || highSound] *)
Definition primaryOf (entry : Entry) : option nat :=
  match lowSound entry with
  | Some i => Some i
  | None =>
      match midSound entry with
      | Some i => Some i
      | None => highSound entry
      end
  end.

(** The [checkDrift(secondary, label)] closure of the monitor callback;
    [primary] and [baseTime] are the variables it captures. *)
Definition checkDrift (soundId : string) (entry : Entry) (primary : nat) (baseTime : Q)
    (secondary : option nat) (label : string) (st : State) : State :=
  match secondary with
  | None => st
  | Some i =>
      match audio (host st) !! i with
      | None => st
      | Some s =>
          if negb (Sound.playing s) then st
          else
            let drift := Qabs (Sound.currentTime s - baseTime) in
            if Qltb 0.1 drift then
              let st := logEvent (WarnDrift (PlaylistSound.name (sound entry)) label drift) st in
              let st := onSound secondary Sound.stop st in
              let offset :=
                match audio (host st) !! primary with
                | Some p => Sound.currentTime p
                | None => baseTime
                end in
              let st := onSound secondary
                          (Sound.play 0 (PlaylistSound.repeat (sound entry)) offset) st in
              applyIntensityToSound soundId st
            else st
      end
  end.

(** The body of the monitor's loop for one Track Set. *)
Definition driftCheckEntry (soundId : string) (entry : Entry) (st : State) : State :=
  match primaryOf entry with
  | None => st
  | Some pi =>
      match audio (host st) !! pi with
      | None => st
      | Some primarySound =>
          if negb (Sound.playing primarySound) then st
          else if negb (PlaylistSound.repeat (sound entry))
                  && Qltb 0 (Sound.duration primarySound)
                  && Qleb (Sound.duration primarySound - 0.2) (Sound.currentTime primarySound)
          then stopAdaptiveSound soundId false st
          else
            let baseTime := Sound.currentTime primarySound in
            let st :=
              if negb (bool_decide (Some pi = highSound entry))
              then checkDrift soundId entry pi baseTime (highSound entry) "High" st
              else st in
            let st :=
              if negb (bool_decide (Some pi = midSound entry))
              then checkDrift soundId entry pi baseTime (midSound entry) "Mid" st
              else st in
            if negb (bool_decide (Some pi = lowSound entry))
            then checkDrift soundId entry pi baseTime (lowSound entry) "Low" st
            else st
      end
  end.

(** One run of the interval callback of [_startDriftMonitoring]. *)
Definition driftTick (st : State) : State :=
  if (size (playingSounds (player st)) =? 0)%nat then stopDriftMonitoring st
  else
    foldl (fun st '(soundId, entry) => driftCheckEntry soundId entry st) st
          (map_to_list (playingSounds (player st))).

(** The event loop firing the timer [id] when [Date.now()] is [now]; a
    cleared timer does not fire. *)
Definition runTimer (id : positive) (now : Q) (st : State) : State :=
  match timers (host st) !! id with
  | Some (FadeTimer f) => fadeTick f now st
  | Some DriftTimer => driftTick st
  | None => st
  end.

(** ** The combat hooks *)

(** The [combatStart] hook, when [Date.now()] is [now]. *)
Definition combatStart (now : Q) (st : State) : State :=
  if negb (Settings.autoSetCombatIntensity (settings (host st))) then st
  else
    let target := Settings.combatIntensity (settings (host st)) / 100 in
    let st :=
      match preCombatIntensity (player st) with
      | None =>
          onPlayer (fun p => set_userOverrideDuringCombat false
                               (set_preCombatIntensity (Some (intensity p)) p)) st
      | Some _ => st
      end in
    fadeTo target 2000 true now st.

(** [game.combats.filter(c => c.started && c.id !== combat.id)] *)
Definition otherActiveCombats (combat : Combat.t) (st : State) : list Combat.t :=
  List.filter
    (fun c => Combat.started c && negb (String.eqb (Combat.id c) (Combat.id combat)))
    (combats (host st)).

(** The [deleteCombat] hook for the encounter [combat], when [Date.now()]
    is [now]. *)
Definition deleteCombat (combat : Combat.t) (now : Q) (st : State) : State :=
  if negb (Settings.autoSetCombatIntensity (settings (host st))) then st
  else if (0 <? length (otherActiveCombats combat st))%nat then st
  else
    let st :=
      if negb (userOverrideDuringCombat (player st))
         && isSome (preCombatIntensity (player st))
      then
        match preCombatIntensity (player st) with
        | Some q => fadeTo q 2000 true now st
        | None => st
        end
      else st in
    onPlayer (fun p => set_userOverrideDuringCombat false (set_preCombatIntensity None p)) st.

(** ** Vocabulary of the curve properties *)

(** [f] is continuous at every point of [0,1] (relative to [0,1]). *)
Definition continuousOnUnit (f : Q -> Q) : Prop :=
  forall x, 0 <= x <= 1 -> forall eps, 0 < eps ->
  exists dlt, 0 < dlt /\
    forall y, 0 <= y <= 1 -> Qabs (y - x) < dlt -> Qabs (f y - f x) < eps.

(** On [a, b], [f] is the straight line through [(a, f a)] and [(b, f b)]. *)
Definition linearBetween (f : Q -> Q) (a b : Q) : Prop :=
  forall x, a <= x <= b -> f x == f a + (f b - f a) * ((x - a) / (b - a)).

(** The intervals between consecutive control intensities 0, 25, 50, 75
    and 100 percent. *)
Definition controlIntervals : list (Q * Q) :=
  [(0, 0.25); (0.25, 0.5); (0.5, 0.75); (0.75, 1)].

(** ** Vocabulary of the combat policy properties *)

(** [st'] is [st] after [fadeTo(target, duration, true)] was called in it
    at time [now]: a new timer was created, it runs the fade from the
    intensity of [st] to [target], and it is the current [fadeInterval]. *)
Definition fadeStarted (target duration now : Q) (st st' : State) : Prop :=
  nextTimer (host st') = Pos.succ (nextTimer (host st))
  /\ fadeInterval (player st') = Some (nextTimer (host st))
  /\ timers (host st') !! nextTimer (host st)
     = Some (FadeTimer (mkFade (intensity (player st)) (target - intensity (player st))
                               now duration target true)).

(** ** Vocabulary of the drift monitor properties *)

(** [s'] is [s] with, at most, another volume: its source, playing flag,
    position, length and loop flag are as they were. *)
Definition unmoved (s s' : Sound.t) : Prop :=
  Sound.src s' = Sound.src s
  /\ Sound.playing s' = Sound.playing s
  /\ Sound.currentTime s' = Sound.currentTime s
  /\ Sound.duration s' = Sound.duration s
  /\ Sound.loop s' = Sound.loop s.

(** The volume [_applyIntensityToSound] leaves in the sound object [i]
    when it writes [vols] to the layers of [entry] (Low, then Mid, then
    High), if [i] is one of them. *)
Definition assignedVolume (vols : Mix) (entry : Entry) (i : nat) : option Q :=
  if decide (highSound entry = Some i) then Some (high vols)
  else if decide (midSound entry = Some i) then Some (mid vols)
  else if decide (lowSound entry = Some i) then Some (low vols)
  else None.

(** The volume of [s'] is that of [s], or the one the mix assigns to the
    sound object [i]. *)
Definition remixed (vols : Mix) (entry : Entry) (i : nat) (s s' : Sound.t) : Prop :=
  Sound.volume s' = Sound.volume s
  \/ Some (Sound.volume s') = assignedVolume vols entry i.

(** A sound that plays more than 0.1 s away from the position [base]. *)
Definition drifted (base : Q) (s : Sound.t) : bool :=
  Sound.playing s && Qltb 0.1 (Qabs (Sound.currentTime s - base)).

(** [s'] plays at the position [base] with the volume the mix assigns to
    the sound object [i]. *)
Definition resynced (vols : Mix) (entry : Entry) (base : Q) (i : nat) (s' : Sound.t) : Prop :=
  Sound.playing s' = true
  /\ Sound.currentTime s' = base
  /\ Some (Sound.volume s') = assignedVolume vols entry i.

(** From the sound objects [a] to the sound objects [a']: every drifted
    sound selected by [g] has been resynchronised, every other sound is
    unmoved, and no object has appeared or disappeared. *)
Definition resyncStep (vols : Mix) (entry : Entry) (base : Q) (g : nat -> bool)
    (a a' : gmap nat Sound.t) : Prop :=
  forall i,
    match a !! i with
    | None => a' !! i = None
    | Some s =>
        exists s', a' !! i = Some s'
          /\ if g i && drifted base s
             then resynced vols entry base i s'
             else unmoved s s' /\ remixed vols entry i s s'
    end.

(** What one tick of the drift monitor is asked to do to the Track Set
    [entry], taking [st] to [st']: the primary layer keeps playing where
    it was, every other present layer that plays more than 0.1 s away
    from the primary is restarted at the primary's position with its
    volume set by the mix, and the remaining layers are not restarted. *)
Definition driftCorrected (entry : Entry) (st st' : State) : Prop :=
  forall pi p,
    primaryOf entry = Some pi ->
    audio (host st) !! pi = Some p ->
    (exists p', audio (host st') !! pi = Some p'
       /\ unmoved p p'
       /\ remixed (mixVolumes (player st) entry) entry pi p p')
    /\ forall si s,
         Some si ∈ [highSound entry; midSound entry; lowSound entry] ->
         si <> pi ->
         audio (host st) !! si = Some s ->
         exists s', audio (host st') !! si = Some s'
           /\ if drifted (Sound.currentTime p) s
              then resynced (mixVolumes (player st) entry) entry (Sound.currentTime p) si s'
              else unmoved s s'.

(** No sound object is a layer of two Track Sets: every layer is created
    by [new foundry.audio.Sound] for its own Track Set. *)
Definition separateLayers (st : State) : Prop :=
  forall id1 id2 e1 e2 i,
    playingSounds (player st) !! id1 = Some e1 ->
    playingSounds (player st) !! id2 = Some e2 ->
    id1 <> id2 ->
    Some i ∈ [highSound e1; midSound e1; lowSound e1] ->
    Some i ∉ [highSound e2; midSound e2; lowSound e2].

(** What a Track Set [entry] registered as [soundId] can see of a state:
    its registration, its own sound objects and the volumes the mix
    gives it. *)
Definition sameView (soundId : string) (entry : Entry) (st st' : State) : Prop :=
  playingSounds (player st') !! soundId = playingSounds (player st) !! soundId
  /\ mixVolumes (player st') entry = mixVolumes (player st) entry
  /\ forall i, Some i ∈ [highSound entry; midSound entry; lowSound entry] ->
               audio (host st') !! i = audio (host st) !! i.

(** ** Host events *)

(** The [sound] of an entry is the live document: when the host changes
    the document, the entry sees the new field values. *)
Definition documentChanged (snd : PlaylistSound.t) (st : State) : State :=
  onPlayer
    (fun p => set_playingSounds
       (alter (fun e => mkEntry (highSound e) (midSound e) (lowSound e) snd
                                (needsInitialSync e))
              (PlaylistSound.id snd) (playingSounds p)) p) st.

(** Playback moves on: the host reports [t] as [currentTime] of the
    sound object [i]. *)
Definition audioClock (i : nat) (t : Q) (st : State) : State :=
  onSound (Some i)
    (fun s => Sound.mk (Sound.src s) (Sound.playing s) (Sound.volume s) t
                       (Sound.duration s) (Sound.loop s)) st.

(** ** A session used in the examples *)

(** A sequential playlist with a looping three-layer sound, a sound
    without alternate layers, and a three-layer sound that does not loop. *)
Definition playlistP : Playlist.t := Playlist.mk "P" SEQUENTIAL.

Definition soundA : PlaylistSound.t :=
  PlaylistSound.mk "A" "Battle" (Some "battle-main.ogg") (Some "battle-mid.ogg")
    (Some "battle-low.ogg") (Some 1.0) true true false (Some playlistP).

Definition soundB : PlaylistSound.t :=
  PlaylistSound.mk "B" "Tavern" (Some "tavern.ogg") None None
    (Some 1.0) true true false (Some playlistP).

Definition soundC : PlaylistSound.t :=
  PlaylistSound.mk "C" "Finale" (Some "finale-main.ogg") (Some "finale-mid.ogg")
    (Some "finale-low.ogg") (Some 1.0) false true false (Some playlistP).

Definition session0 : State :=
  mkState
    (mkPlayer ∅ ∅ (50 / 100) (80 / 100) false (Some 1.0) (Some 1.0) (Some 1.0)
              None false None None)
    (mkHost ∅ 0 ∅ 1
       (list_to_map [("battle-main.ogg", 180); ("battle-mid.ogg", 180);
                     ("battle-low.ogg", 180); ("tavern.ogg", 60);
                     ("finale-main.ogg", 90); ("finale-mid.ogg", 90);
                     ("finale-low.ogg", 90); ("rain-main.ogg", 600);
                     ("rain-mid.ogg", 600)])
       (Settings.mk true 100 50 80 false 1.0 1.0 1.0)
       true {["P"]} [] 50 [] []).

(** The document of a sound once the host has recorded it as playing. *)
Definition nowPlaying (snd : PlaylistSound.t) : PlaylistSound.t :=
  PlaylistSound.mk (PlaylistSound.id snd) (PlaylistSound.name snd) (PlaylistSound.path snd)
    (PlaylistSound.midIntensityPath snd) (PlaylistSound.lowIntensityPath snd)
    (PlaylistSound.volume snd) (PlaylistSound.repeat snd) (PlaylistSound.isOwner snd)
    true (PlaylistSound.parent snd).

(** Sound A is playing: High, Mid and Low are the sound objects 0, 1 and
    2, the drift monitor is timer 1, and the host has served the update
    of the document. *)
Definition sessionA : State :=
  documentChanged (nowPlaying soundA) (playAdaptiveSound soundA session0).

(** Combat starts at time 0 (the fade to 100 percent is timer 2) and the
    fade has ticked once, at 16 ms. *)
Definition sessionCombat : State := runTimer 2 16 (combatStart 0 sessionA).

(** Sound C is playing and close to its end; its Mid layer is 0.15 s
    behind the Low layer. *)
Definition sessionEnding : State :=
  audioClock 0 89.9 (audioClock 1 89.75 (audioClock 2 89.9
    (documentChanged (nowPlaying soundC) (playAdaptiveSound soundC session0)))).

(** Sound A is playing; its Mid layer is 0.15 s behind the Low layer. *)
Definition sessionDrift : State :=
  audioClock 0 42 (audioClock 1 41.85 (audioClock 2 42 sessionA)).

(** The Track Sets of sounds A and C as [_playAdaptiveSound] registered
    them. *)
Definition entryA : Entry :=
  mkEntry (Some 0%nat) (Some 1%nat) (Some 2%nat) (nowPlaying soundA) false.

Definition entryC : Entry :=
  mkEntry (Some 0%nat) (Some 1%nat) (Some 2%nat) (nowPlaying soundC) false.

(** Sound A is playing with the custom mix enabled and the custom
    volumes High 1.0, Mid 0.3 and Low 0.0. *)
Definition sessionCustom : State :=
  setCustomVolume "low" 0.0 false
    (setCustomVolume "mid" 0.3 false
       (setCustomVolume "high" 1.0 false (setCustomMixEnabled true false sessionA))).

(** A playlist that plays its sounds together, with a two-layer sound. *)
Definition playlistS : Playlist.t := Playlist.mk "S" SIMULTANEOUS.

Definition soundS : PlaylistSound.t :=
  PlaylistSound.mk "S" "Rain" (Some "rain-main.ogg") (Some "rain-mid.ogg") None
    (Some 0.5) true true false (Some playlistS).

Definition entryS : Entry :=
  mkEntry (Some 3%nat) (Some 4%nat) None (nowPlaying soundS) false.

(** Sounds A and S are both playing; A's Mid layer is 0.15 s behind A's
    Low layer, and S's High layer is 0.3 s ahead of S's Mid layer. *)
Definition sessionTwo : State :=
  audioClock 3 7.3 (audioClock 4 7
    (documentChanged (nowPlaying soundS) (playAdaptiveSound soundS sessionDrift))).

(** The host's list of encounters, [game.combats], becomes [cs]. *)
Definition withCombats (cs : list Combat.t) (st : State) : State :=
  onHost (fun h => mkHost (audio h) (nextSound h) (timers h) (nextTimer h) (media h)
                          (settings h) (isGM h) (playlists h) cs (slider h) (log h)
                          (requests h)) st.

(** Two overlapping encounters.  The first starts at time 0 and its fade
    (timer 2) runs to its end; the second starts at 2500 ms and its fade
    (timer 3) runs to its end too. *)
Definition combat1 : Combat.t := Combat.mk "c1" true.
Definition combat2 : Combat.t := Combat.mk "c2" true.

Definition sessionTwoCombats : State :=
  runTimer 3 4500
    (combatStart 2500
       (withCombats [combat1; combat2]
          (runTimer 2 2000 (combatStart 0 (withCombats [combat1] sessionA))))).

(** ** Two more host events, and the sessions they lead to *)

(** The playback of the sound object [i] ends or is halted by the host:
    the object stays where it was and no longer plays. *)
Definition audioHalted (i : nat) (st : State) : State :=
  onSound (Some i) Sound.stop st.

(** The GM switches the world setting [autoSetCombatIntensity], which is
    registered without an [onChange] handler. *)
Definition autoSetCombatIntensityChanged (b : bool) (st : State) : State :=
  onHost
    (fun h => set_settings
                (Settings.mk b
                   (Settings.combatIntensity (settings h))
                   (Settings.currentIntensity (settings h))
                   (Settings.masterVolume (settings h))
                   (Settings.customMixEnabled (settings h))
                   (Settings.customHighVolume (settings h))
                   (Settings.customMidVolume (settings h))
                   (Settings.customLowVolume (settings h))) h) st.

(** Sound A is playing with its Mid layer 0.15 s behind the Low layer,
    and the Low layer, the primary one, has halted. *)
Definition sessionPrimaryHalted : State := audioHalted 2 sessionDrift.

(** An encounter started at time 0 and its fade (timer 2) ran to its
    end; the GM then switched the automatic combat intensity off. *)
Definition sessionSettingOff : State :=
  autoSetCombatIntensityChanged false
    (runTimer 2 2000 (combatStart 0 (withCombats [combat1] sessionA))).

(** ** Layers of a Track Set *)

(** The handle of one layer of an entry. *)
Definition layerHandle (entry : Entry) (l : Layer) : option nat :=
  match l with
  | Low => lowSound entry
  | Mid => midSound entry
  | High => highSound entry
  end.

(** [this.masterVolume * trackVolume] of [_applyIntensityToSound]. *)
Definition effectiveMasterVolume (p : Player) (entry : Entry) : Q :=
  masterVolume p * default 1.0 (PlaylistSound.volume (sound entry)).

(** An optional number that, when set, lies in [0,1]. *)
Definition unitOrUnset (o : option Q) : Prop :=
  match o with
  | Some x => 0 <= x <= 1
  | None => True
  end.

(** ** The setting callbacks *)

(** The [onChange] callbacks registered for the world settings
    [currentIntensity], [customMixEnabled] and [custom{High,Mid,Low}Volume]
    and for the client setting [masterVolume]; [value] is the new value
    of the setting. *)
Definition onChange_currentIntensity (value : Q) (st : State) : State :=
  setGlobalIntensity (value / 100) true st.

Definition onChange_customMixEnabled (value : bool) (st : State) : State :=
  setCustomMixEnabled value true st.

Definition onChange_customVolume (type : string) (value : Q) (st : State) : State :=
  setCustomVolume type value true st.

Definition onChange_masterVolume (value : Q) (st : State) : State :=
  setMasterVolume (value / 100) st.

(** ** Well-formed stores and the applied mix *)

(** Every layer of a registered Track Set is a sound object of the
    store. *)
Definition layersExist (st : State) : Prop :=
  forall k e i,
    playingSounds (player st) !! k = Some e ->
    Some i ∈ [highSound e; midSound e; lowSound e] ->
    is_Some (audio (host st) !! i).

(** Every layer of every registered Track Set carries the volume the
    current mix assigns to it. *)
Definition mixApplied (st : State) : Prop :=
  forall k e i v,
    playingSounds (player st) !! k = Some e ->
    assignedVolume (mixVolumes (player st) e) e i = Some v ->
    Sound.volume <$> audio (host st) !! i = Some v.

(** From [st] to [st'] nothing of the host but the sound objects has
    changed (no setting written, no request, no timer, no log entry),
    and the combat state and the fade handle of the engine are as they
    were. *)
Definition silent (st st' : State) : Prop :=
  set_audio ∅ (host st') = set_audio ∅ (host st)
  /\ preCombatIntensity (player st') = preCombatIntensity (player st)
  /\ userOverrideDuringCombat (player st') = userOverrideDuringCombat (player st)
  /\ fadeInterval (player st') = fadeInterval (player st)
  /\ driftMonitorInterval (player st') = driftMonitorInterval (player st)
  /\ playingSounds (player st') = playingSounds (player st).

(** ** The fade *)

(** The local [eased] of the interval callback of [fadeTo], as a function
    of its local [progress]. *)
Definition easeInOut (progress : Q) : Q :=
  if Qltb progress 0.5
  then 2 * progress * progress
  else 1 - (-2 * progress + 2) ^ 2 / 2.

(** ** The engine over time *)

(** [new AdaptiveAudioPlayer()] on the host [h], up to the call of
    [_restorePlayback]: the fields the constructor initialises from the
    settings. *)
Definition construct (h : Host) : State :=
  let s := settings h in
  mkState
    (mkPlayer ∅ ∅
       (inject_Z (Settings.currentIntensity s) / 100)
       (Settings.masterVolume s / 100)
       (Settings.customMixEnabled s)
       (Some (Settings.customHighVolume s))
       (Some (Settings.customMidVolume s))
       (Some (Settings.customLowVolume s))
       None false None None)
    h.

(** The [deletePlaylist] hook. *)
Definition deletePlaylist (playlist : Playlist.t) (st : State) : State :=
  foldl (fun st '(soundId, entry) =>
           if sameContainer playlist entry
           then stopAdaptiveSound soundId true st
           else st)
        st (map_to_list (playingSounds (player st))).

(** The [deletePlaylistSound] hook. *)
Definition deletePlaylistSound (snd : PlaylistSound.t) (st : State) : State :=
  stopAdaptiveSound (PlaylistSound.id snd) true st.

(** What happens to a running engine: a call of its API (from the
    sidebar, a macro, a hook or a setting's [onChange]), a timer firing,
    or the host changing a document, the playback position of a sound
    object or its list of encounters.  A call of [_playAdaptiveSound] is
    served as a whole, with the document update it awaits accepted by
    the host, and the legacy quick-test methods are not among the
    events. *)
Inductive Event :=
  | EvSetGlobalIntensity (value : Q) (fromSync : bool)
  | EvFadeTo (target duration : Q) (updateUI : bool)
  | EvSetCustomMixEnabled (enabled fromSync : bool)
  | EvSetCustomVolume (type : string) (volume : Q) (fromSync : bool)
  | EvSetMasterVolume (volume : Q)
  | EvPlayAdaptiveSound (snd : PlaylistSound.t)
  | EvStopAdaptiveSound (soundId : string) (skipUpdate : bool)
  | EvApplyIntensityToSound (soundId : string)
  | EvDeletePlaylist (playlist : Playlist.t)
  | EvCombatStart
  | EvDeleteCombat (combat : Combat.t)
  | EvTimer (id : positive)
  | EvDocumentChanged (snd : PlaylistSound.t)
  | EvAudioClock (i : nat) (t : Q)
  | EvCombats (cs : list Combat.t).

(** The engine serving the event [e] when [Date.now()] is [now]. *)
Definition serve (now : Q) (e : Event) (st : State) : State :=
  match e with
  | EvSetGlobalIntensity value fromSync => setGlobalIntensity value fromSync st
  | EvFadeTo target duration upd => fadeTo target duration upd now st
  | EvSetCustomMixEnabled enabled fromSync => setCustomMixEnabled enabled fromSync st
  | EvSetCustomVolume type volume fromSync => setCustomVolume type volume fromSync st
  | EvSetMasterVolume volume => setMasterVolume volume st
  | EvPlayAdaptiveSound snd => playAdaptiveSound snd st
  | EvStopAdaptiveSound soundId skipUpdate => stopAdaptiveSound soundId skipUpdate st
  | EvApplyIntensityToSound soundId => applyIntensityToSound soundId st
  | EvDeletePlaylist playlist => deletePlaylist playlist st
  | EvCombatStart => combatStart now st
  | EvDeleteCombat combat => deleteCombat combat now st
  | EvTimer id => runTimer id now st
  | EvDocumentChanged snd => documentChanged snd st
  | EvAudioClock i t => audioClock i t st
  | EvCombats cs => withCombats cs st
  end.

(** The stored settings are within the ranges they are registered with
    or written in. *)
Definition settingsInRange (s : Settings.t) : Prop :=
  (0 <= Settings.currentIntensity s <= 100)%Z
  /\ 0 <= Settings.masterVolume s <= 100
  /\ 0 <= Settings.customHighVolume s <= 1
  /\ 0 <= Settings.customMidVolume s <= 1
  /\ 0 <= Settings.customLowVolume s <= 1.

(** The events the model serves as the engine does: a fade is asked to
    last a positive time (every fade the module itself starts lasts
    2000 ms; with a duration of 0 the callback divides by zero). *)
Definition admissible (e : Event) : Prop :=
  match e with
  | EvFadeTo _ duration _ => 0 < duration
  | _ => True
  end.

(** The states a running engine goes through, from its construction on
    a freshly loaded page. *)
Inductive reachable : State -> Prop :=
  | reachable_construct (h : Host) :
      timers h = ∅ -> audio h = ∅ -> settingsInRange (settings h) ->
      reachable (construct h)
  | reachable_serve (now : Q) (e : Event) (st : State) :
      admissible e -> reachable st -> reachable (serve now e st).

(** Every timer of the page is one the engine holds the handle of: a
    fade timer is [fadeInterval], the drift monitor is
    [driftMonitorInterval], and the next handle is unused. *)
Definition timersTracked (st : State) : Prop :=
  (forall id t, timers (host st) !! id = Some t -> (id < nextTimer (host st))%positive)
  /\ (forall id, (exists f, timers (host st) !! id = Some (FadeTimer f))
                 <-> fadeInterval (player st) = Some id)
  /\ (forall id, timers (host st) !! id = Some DriftTimer
                 <-> driftMonitorInterval (player st) = Some id).

(** The layers of the registered Track Sets are existing sound objects,
    no two Track Sets share one, and the next handle is unused. *)
Definition layersAllocated (st : State) : Prop :=
  (forall i, is_Some (audio (host st) !! i) -> (i < nextSound (host st))%nat)
  /\ layersExist st
  /\ separateLayers st.

(** The numbers of the engine are within [0,1]. *)
Definition inRange (st : State) : Prop :=
  0 <= intensity (player st) <= 1
  /\ 0 <= masterVolume (player st) <= 1
  /\ unitOrUnset (customHighVolume (player st))
  /\ unitOrUnset (customMidVolume (player st))
  /\ unitOrUnset (customLowVolume (player st))
  /\ unitOrUnset (preCombatIntensity (player st)).

(** The drift monitor runs exactly while a Track Set is registered, and
    no load is pending between two events. *)
Definition monitorWhilePlaying (st : State) : Prop :=
  (driftMonitorInterval (player st) = None <-> playingSounds (player st) = ∅)
  /\ loadingSounds (player st) = ∅.

(** From [st] to [st'] no timer, handle, registration or pending load
    has changed and no sound object has appeared or disappeared. *)
Definition quiet (st st' : State) : Prop :=
  timers (host st') = timers (host st)
  /\ nextTimer (host st') = nextTimer (host st)
  /\ nextSound (host st') = nextSound (host st)
  /\ (forall i, is_Some (audio (host st') !! i) <-> is_Some (audio (host st) !! i))
  /\ fadeInterval (player st') = fadeInterval (player st)
  /\ driftMonitorInterval (player st') = driftMonitorInterval (player st)
  /\ loadingSounds (player st') = loadingSounds (player st)
  /\ playingSounds (player st') = playingSounds (player st).

(** The numbers of the engine are the same in [st] and [st']. *)
Definition sameNumbers (st st' : State) : Prop :=
  intensity (player st') = intensity (player st)
  /\ masterVolume (player st') = masterVolume (player st)
  /\ customHighVolume (player st') = customHighVolume (player st)
  /\ customMidVolume (player st') = customMidVolume (player st)
  /\ customLowVolume (player st') = customLowVolume (player st)
  /\ preCombatIntensity (player st') = preCombatIntensity (player st).

(** The four invariants of a running engine together. *)
Definition wellFormed (st : State) : Prop :=
  timersTracked st /\ layersAllocated st /\ inRange st /\ monitorWhilePlaying st.

(** From [st] to [st'] only new sound objects have been created, with
    the handles from [nextSound (host st)] on. *)
Definition grows (st st' : State) : Prop :=
  player st' = player st
  /\ timers (host st') = timers (host st)
  /\ nextTimer (host st') = nextTimer (host st)
  /\ (nextSound (host st) <= nextSound (host st'))%nat
  /\ (forall i, is_Some (audio (host st) !! i) -> is_Some (audio (host st') !! i))
  /\ (forall i, is_Some (audio (host st') !! i) ->
        is_Some (audio (host st) !! i)
        \/ (nextSound (host st) <= i < nextSound (host st'))%nat).

(** ** Vocabulary of the monitor's other behaviours *)

(** From [st] to [st'] the host's playlists are the same and the
    requests made so far are still there, possibly followed by new
    ones. *)
Definition requestsGrow (st st' : State) : Prop :=
  playlists (host st') = playlists (host st)
  /\ exists rs, requests (host st') = requests (host st) ++ rs.

(** The Track Set [entry] gives the monitor nothing to do in [st]: its
    primary layer, if it plays, is not within 0.2 s of the end of a
    track that does not loop, and no layer plays more than 0.1 s away
    from it. *)
Definition inSync (st : State) (entry : Entry) : Prop :=
  forall pi p,
    primaryOf entry = Some pi ->
    audio (host st) !! pi = Some p ->
    Sound.playing p = true ->
    (PlaylistSound.repeat (sound entry) = true
     \/ Sound.duration p <= 0
     \/ Sound.currentTime p < Sound.duration p - 0.2)
    /\ forall i s,
         Some i ∈ [highSound entry; midSound entry; lowSound entry] ->
         audio (host st) !! i = Some s ->
         drifted (Sound.currentTime p) s = false.

(** ** Vocabulary of the start of a Track Set *)

(** The path of one layer of a sound: [sound.path] is the High layer,
    the flags name the other two. *)
Definition layerPath (snd : PlaylistSound.t) (l : Layer) : option string :=
  match l with
  | High => PlaylistSound.path snd
  | Mid => PlaylistSound.midIntensityPath snd
  | Low => PlaylistSound.lowIntensityPath snd
  end.

(** ** The document hooks and the patch of [PlaylistSound.prototype.sync] *)

(** The fields of the [changes] of a sound update the hooks read. *)
Record Changes := mkChanges {
  ch_playing : option bool;
  ch_volume : option Q
}.

(** The fields of the [options] of a sound update the hooks read and
    write. *)
Record Options := mkOptions {
  adaptiveAudioInternal : bool;
  adaptiveAudioPlay : bool;
  adaptiveAudioStop : bool
}.

(** [sound.parent?.getFlag(MODULE_ID, "isAdaptive")]; [flag] gives the
    flag of each playlist. *)
Definition isAdaptive (flag : Playlist.t -> bool) (snd : PlaylistSound.t) : bool :=
  match PlaylistSound.parent snd with
  | Some playlist => flag playlist
  | None => false
  end.

(** The test of the patched [sync]: native playback is blocked. *)
Definition blocksNativeSync (flag : Playlist.t -> bool) (snd : PlaylistSound.t) : bool :=
  isAdaptive flag snd
  && (truthy (PlaylistSound.midIntensityPath snd)
      || truthy (PlaylistSound.lowIntensityPath snd)).

(** The [preUpdatePlaylistSound] hook: the [changes] and [options] it
    leaves to the host. *)
Definition preUpdatePlaylistSound (flag : Playlist.t -> bool) (snd : PlaylistSound.t)
    (changes : Changes) (options : Options) : Changes * Options :=
  if adaptiveAudioInternal options then (changes, options)
  else if negb (isAdaptive flag snd) then (changes, options)
  else if negb (truthy (PlaylistSound.midIntensityPath snd))
          && negb (truthy (PlaylistSound.lowIntensityPath snd))
  then (changes, options)
  else
    match ch_playing changes with
    | Some true =>
        (mkChanges None (ch_volume changes),
         mkOptions (adaptiveAudioInternal options) true (adaptiveAudioStop options))
    | Some false =>
        (mkChanges None (ch_volume changes),
         mkOptions (adaptiveAudioInternal options) (adaptiveAudioPlay options) true)
    | None => (changes, options)
    end.

(** A call of [_playAdaptiveSound] that waits for its loads. *)
Definition Pending : Type := PlaylistSound.t * (option nat * option nat * option nat).

(** [this._playAdaptiveSound(sound)] inside a hook: the call runs up to
    its first [await] and the hook goes on. *)
Definition callPlay (snd : PlaylistSound.t) (x : State * list Pending)
  : State * list Pending :=
  match playAdaptiveSound_begin snd x.1 with
  | (st, None) => (st, x.2)
  | (st, Some layers) => (st, x.2 ++ [(snd, layers)])
  end.

(** A waiting call goes on when its loads have settled. *)
Definition resume (p : Pending) (st : State) : State :=
  match playAdaptiveSound_loaded p.1 p.2 st with
  | (st, true) => playAdaptiveSound_finish p.1 st
  | (st, false) => st
  end.

(** [_handleSoundUpdate(sound, changes)] *)
Definition handleSoundUpdate (flag : Playlist.t -> bool) (snd : PlaylistSound.t)
    (changes : Changes) (x : State * list Pending) : State * list Pending :=
  if negb (isAdaptive flag snd) then x
  else
    match ch_playing changes with
    | Some true => callPlay snd x
    | Some false => (stopAdaptiveSound (PlaylistSound.id snd) false x.1, x.2)
    | None =>
        if isSome (ch_volume changes)
           && isSome (playingSounds (player x.1) !! PlaylistSound.id snd)
        then (applyIntensityToSound (PlaylistSound.id snd) x.1, x.2)
        else x
    end.

(** The [updatePlaylistSound] hook (the volume of the host's native
    sound object, which the hook sets to 0, is not part of the state). *)
Definition updatePlaylistSound (flag : Playlist.t -> bool) (snd : PlaylistSound.t)
    (changes : Changes) (options : Options) (st : State) : State * list Pending :=
  if adaptiveAudioInternal options then (st, [])
  else
    let adaptive := isAdaptive flag snd in
    let x := (st, []) in
    let x := if adaptive && adaptiveAudioPlay options then callPlay snd x else x in
    let x :=
      if adaptive && adaptiveAudioStop options
      then (stopAdaptiveSound (PlaylistSound.id snd) false x.1, x.2)
      else x in
    handleSoundUpdate flag snd changes x.

(** ** The sidebar (sidebarIntensity.js) *)

(** The fallback of [calculateVolumes], used while the engine does not
    exist: a linear crossfade. *)
Definition fallbackVolumes (intensity : Q) : Mix :=
  if Qleb intensity 0.5 then
    let progress := intensity / 0.5 in
    mkMix (1 - progress) progress 0
  else
    let progress := (intensity - 0.5) / 0.5 in
    mkMix 0 (1 - progress) progress.

(** The [input] handler of the intensity slider, for the slider value
    [value], on a client whose engine exists (the slider is injected on
    the GM's client only). *)
Definition onIntensityInput (value : Z) (st : State) : State :=
  let intensity := inject_Z value / 100 in
  let st := onHost (set_slider value) st in
  let st := setGlobalIntensity intensity false st in
  let st :=
    if customMixEnabled (player st) then
      let volumes := calculateMix intensity in
      let st := setCustomVolume "high" (high volumes) false st in
      let st := setCustomVolume "mid" (mid volumes) false st in
      setCustomVolume "low" (low volumes) false st
    else st in
  onHost (fun h => set_settings (settings_set_currentIntensity value (settings h)) h) st.

(** ** Preloading and the quick-test mode *)

(** What these parts send to [ui.notifications] and to the console. *)
Inductive Note :=
  | NotePreloading (name : string)
  | NotePreloaded (count : nat) (name : string)
  | NotePreloadFailed (path : string)
  | NoteBothTracksRequired
  | NotePlaybackError.

(** The fields of an [AdaptiveAudioPlayer] that [Player] leaves out (the
    preload cache and the quick-test fields, whose paths are also what
    the client settings [lowTrackPath] and [highTrackPath] hold), with
    the notes sent so far. *)
Record Aux := mkAux {
  preloadedAudio : gset string;
  lowTrackPath : string;
  highTrackPath : string;
  isPlaying : bool;
  isPaused : bool;
  notes : list Note
}.

Definition note (n : Note) (a : Aux) : Aux :=
  mkAux (preloadedAudio a) (lowTrackPath a) (highTrackPath a) (isPlaying a) (isPaused a)
        (notes a ++ [n]).

Definition set_flags (playing paused : bool) (a : Aux) : Aux :=
  mkAux (preloadedAudio a) (lowTrackPath a) (highTrackPath a) playing paused (notes a).

(** [sound.pause()]: playback halts where it is. *)
Definition Sound_pause (s : Sound.t) : Sound.t :=
  Sound.mk (Sound.src s) false (Sound.volume s) (Sound.currentTime s) (Sound.duration s)
           (Sound.loop s).

(** [await foundry.audio.AudioHelper.play({src, volume, loop}, false)]:
    the host creates a sound object for [src] and loads it; when the
    media can be decoded it starts playing and the promise resolves to
    the object, otherwise the promise is rejected. *)
Definition audioHelperPlay (src : string) (vol : Q) (lp : bool) (st : State)
  : option nat * State :=
  let i := nextSound (host st) in
  let st :=
    onHost (fun h => set_nextSound (S i) (set_audio (<[i := Sound.create src]> (audio h)) h))
           st in
  match loadSound (Some i) st with
  | Some st => (Some i, onSound (Some i) (Sound.play vol lp 0) st)
  | None => (None, st)
  end.

(** [_preloadSound(path)] past its cache test. *)
Definition preloadUncached (path : string) (x : State * Aux) : State * Aux :=
  match audioHelperPlay path 0 false x.1 with
  | (Some i, st) =>
      (onSound (Some i) Sound.stop st,
       mkAux ({[path]} ∪ preloadedAudio x.2) (lowTrackPath x.2) (highTrackPath x.2)
             (isPlaying x.2) (isPaused x.2) (notes x.2))
  | (None, st) => (st, note (NotePreloadFailed path) x.2)
  end.

(** [await this._preloadSound(path)] *)
Definition preloadPath (path : string) (x : State * Aux) : State * Aux :=
  if bool_decide (path ∈ preloadedAudio x.2) then x else preloadUncached path x.

(** The paths of the layers of a sound that are truthy, High first. *)
Definition layerPaths (snd : PlaylistSound.t) : list string :=
  omap (fun p => if truthy p then p else None)
       [PlaylistSound.path snd; PlaylistSound.midIntensityPath snd;
        PlaylistSound.lowIntensityPath snd].

(** [preloadSound(sound)]: the three calls of [_preloadSound] are made
    before any of them is awaited, so each tests the cache as it was. *)
Definition preloadSound (snd : PlaylistSound.t) (x : State * Aux) : State * Aux :=
  let x0 := (x.1, note (NotePreloading (PlaylistSound.name snd)) x.2) in
  let paths := layerPaths snd in
  let todo := List.filter (fun p => negb (bool_decide (p ∈ preloadedAudio x.2))) paths in
  let x1 := foldl (fun x p => preloadUncached p x) x0 todo in
  (x1.1, note (NotePreloaded (length paths) (PlaylistSound.name snd)) x1.2).

(** [_preloadPlaylistInternal(playlist)] for a playlist with the sounds
    [sounds]: each path is awaited in turn; the result is the count. *)
Definition preloadPlaylistInternal (sounds : list PlaylistSound.t) (x : State * Aux)
  : nat * (State * Aux) :=
  foldl (fun '(count, x) snd =>
           foldl (fun '(count, x) p => (S count, preloadPath p x)) (count, x) (layerPaths snd))
        (0%nat, x) sounds.

(** The object literal [{ name: "Quick Test", id: "legacy-test" }]. *)
Definition legacySound : PlaylistSound.t :=
  PlaylistSound.mk "legacy-test" "Quick Test" None None None None false false false None.

(** The legacy [stop()] *)
Definition legacyStop (x : State * Aux) : State * Aux :=
  (stopAdaptiveSound "legacy-test" false x.1, set_flags false false x.2).

(** The legacy [loadTracks(lowPath, highPath)] *)
Definition legacyLoadTracks (lowPath highPath : string) (x : State * Aux) : State * Aux :=
  let x := legacyStop x in
  (x.1, mkAux (preloadedAudio x.2) lowPath highPath (isPlaying x.2) (isPaused x.2) (notes x.2)).

(** The legacy [play()], with its result. *)
Definition legacyPlay (x : State * Aux) : bool * (State * Aux) :=
  if negb (truthy (Some (lowTrackPath x.2))) || negb (truthy (Some (highTrackPath x.2)))
  then (false, (x.1, note NoteBothTracksRequired x.2))
  else
    let x := legacyStop x in
    let '(lowSound, st) := audioHelperPlay (lowTrackPath x.2) 1.0 true x.1 in
    let '(highSound, st) := audioHelperPlay (highTrackPath x.2) 1.0 true st in
    match lowSound, highSound with
    | Some _, Some _ =>
        let entry := mkEntry highSound None lowSound legacySound false in
        let st := onPlayer (fun p => set_playingSounds
                              (<["legacy-test" := entry]> (playingSounds p)) p) st in
        let st := applyIntensityToSound "legacy-test" st in
        let st := startDriftMonitoring st in
        (true, (st, set_flags true false x.2))
    | _, _ => (false, (st, note NotePlaybackError x.2))
    end.

(** The legacy [pause()] *)
Definition legacyPause (x : State * Aux) : State * Aux :=
  match playingSounds (player x.1) !! "legacy-test" with
  | None => x
  | Some entry =>
      let st := onSound (lowSound entry) Sound_pause x.1 in
      let st := onSound (highSound entry) Sound_pause st in
      (stopDriftMonitoring st, set_flags false true x.2)
  end.

(** From [st] to [st'] the engine's fields and the sound objects with a
    handle below [nextSound] are untouched, and a sound object that has
    appeared since is not playing. *)
Definition onlySilentObjectsAdded (st st' : State) : Prop :=
  player st' = player st
  /\ (nextSound (host st) <= nextSound (host st'))%nat
  /\ (forall i, (i < nextSound (host st))%nat -> audio (host st') !! i = audio (host st) !! i)
  /\ (forall i s, (nextSound (host st) <= i)%nat -> audio (host st') !! i = Some s ->
                  audio (host st) !! i = Some s \/ Sound.playing s = false)
  /\ timers (host st') = timers (host st)
  /\ requests (host st') = requests (host st)
  /\ settings (host st') = settings (host st)
  /\ media (host st') = media (host st).

(** ** More of the example session *)

(** A sound whose Mid layer names a file the host cannot decode. *)
Definition soundM : PlaylistSound.t :=
  PlaylistSound.mk "M" "Broken" (Some "battle-main.ogg") (Some "no-such-file.ogg") None
    (Some 1.0) true true false (Some playlistP).

(** * Properties *)

(** ** Numbers *)

Lemma Qleb_true x y : Qleb x y = true <-> x <= y.
Proof. apply Qle_bool_iff. Qed.

Lemma Qleb_false x y : Qleb x y = false <-> y < x.
Proof.
  unfold Qleb. rewrite <- not_true_iff_false, Qle_bool_iff.
  split; [apply Qnot_le_lt | apply Qlt_not_le].
Qed.

Lemma Qltb_true x y : Qltb x y = true <-> x < y.
Proof. unfold Qltb. rewrite negb_true_iff. apply Qleb_false. Qed.

Lemma Qltb_false x y : Qltb x y = false <-> y <= x.
Proof. unfold Qltb. rewrite negb_false_iff. apply Qleb_true. Qed.

(** Case analysis on every comparison [Qleb a b] of the goal, each case
    recorded as an inequality. *)
Ltac split_Qleb :=
  repeat match goal with
    | |- context [Qleb ?a ?b] =>
        let E := fresh "E" in
        destruct (Qleb a b) eqn:E;
        [apply Qleb_true in E | apply Qleb_false in E];
        cbn [andb]
    end.

(** ** The mix curve, segment by segment *)

Section Curve.

Variable v : Q.

Lemma low_seg1 : 0 <= v -> v <= 0.25 -> low (calculateMix v) == 1 - 4 * v.
Proof. intros. cbn. split_Qleb; first [lra | field]. Qed.

Lemma low_seg2 : 0.25 < v -> v <= 0.5 -> low (calculateMix v) == 4 * v - 1.
Proof. intros. cbn. split_Qleb; first [lra | field]. Qed.

Lemma low_seg3 : 0.5 < v -> v <= 0.75 -> low (calculateMix v) == 3 - 4 * v.
Proof. intros. cbn. split_Qleb; first [lra | field]. Qed.

Lemma low_seg4 : 0.75 < v -> v <= 1 -> low (calculateMix v) == 4 * v - 3.
Proof. intros. cbn. split_Qleb; first [lra | field]. Qed.

Lemma mid_seg1 : 0 <= v -> v <= 0.25 -> mid (calculateMix v) == 4 * v.
Proof. intros. cbn. split_Qleb; first [lra | field]. Qed.

Lemma mid_seg2 : 0.25 < v -> v <= 1 -> mid (calculateMix v) == 1.
Proof. intros. cbn. split_Qleb; first [lra | field]. Qed.

Lemma high_seg1 : 0 <= v -> v <= 0.5 -> high (calculateMix v) == 0.
Proof. intros. cbn. split_Qleb; first [lra | field]. Qed.

Lemma high_seg2 : 0.5 < v -> v <= 0.75 -> high (calculateMix v) == 4 * v - 2.
Proof. intros. cbn. split_Qleb; first [lra | field]. Qed.

Lemma high_seg3 : 0.75 < v -> v <= 1 -> high (calculateMix v) == 1.
Proof. intros. cbn. split_Qleb; first [lra | field]. Qed.

(** Outside [0,1] no interval matches and the loop falls through to the
    last control point. *)
Lemma calculateMix_outside :
  v < 0 \/ 1 < v -> calculateMix v = mkMix 1.0 1.0 1.0.
Proof.
  intros Hv. unfold calculateMix. cbn.
  split_Qleb; try reflexivity; exfalso; destruct Hv; lra.
Qed.

End Curve.

(** The three volumes on each of the four stages of the curve. *)
Lemma curve_cases v :
  0 <= v <= 1 ->
  (v <= 0.25 /\ low (calculateMix v) == 1 - 4 * v
             /\ mid (calculateMix v) == 4 * v /\ high (calculateMix v) == 0)
  \/ (0.25 < v <= 0.5 /\ low (calculateMix v) == 4 * v - 1
                      /\ mid (calculateMix v) == 1 /\ high (calculateMix v) == 0)
  \/ (0.5 < v <= 0.75 /\ low (calculateMix v) == 3 - 4 * v
                      /\ mid (calculateMix v) == 1 /\ high (calculateMix v) == 4 * v - 2)
  \/ (0.75 < v /\ low (calculateMix v) == 4 * v - 3
               /\ mid (calculateMix v) == 1 /\ high (calculateMix v) == 1).
Proof.
  intros [H0 H1].
  destruct (Qlt_le_dec 0.25 v) as [Ha|Ha].
  - destruct (Qlt_le_dec 0.5 v) as [Hb|Hb].
    + destruct (Qlt_le_dec 0.75 v) as [Hc|Hc].
      * right; right; right.
        repeat split; [assumption | apply low_seg4 | apply mid_seg2 | apply high_seg3]; lra.
      * right; right; left.
        repeat split; try assumption; [apply low_seg3 | apply mid_seg2 | apply high_seg2]; lra.
    + right; left.
      repeat split; try assumption; [apply low_seg2 | apply mid_seg2 | apply high_seg1]; lra.
  - left.
    repeat split; try assumption; [apply low_seg1 | apply mid_seg1 | apply high_seg1]; lra.
Qed.

(** Each volume changes at most four times as fast as the intensity. *)
Lemma curve_lipschitz (l : Layer) x y :
  0 <= x <= 1 -> 0 <= y <= 1 ->
  Qabs (layerVolume (calculateMix y) l - layerVolume (calculateMix x) l)
  <= 4 * Qabs (y - x).
Proof.
  intros Hx Hy.
  pose proof (Qle_Qabs (y - x)) as A1.
  pose proof (Qle_Qabs (- (y - x))) as A2. rewrite Qabs_opp in A2.
  apply Qabs_Qle_condition.
  destruct (curve_cases x Hx) as [C|[C|[C|C]]];
    destruct (curve_cases y Hy) as [D|[D|[D|D]]];
    destruct C as (? & ? & ? & ?); destruct D as (? & ? & ? & ?);
    destruct l; cbn [layerVolume]; split; lra.
Qed.

Lemma curve_continuous (l : Layer) :
  continuousOnUnit (fun v => layerVolume (calculateMix v) l).
Proof.
  intros x Hx eps Heps. exists (eps * (1 # 4)). split; [lra|].
  intros y Hy Hd.
  pose proof (curve_lipschitz l x y Hx Hy). cbv beta. lra.
Qed.

Lemma curve_linear (l : Layer) a b :
  In (a, b) controlIntervals ->
  linearBetween (fun v => layerVolume (calculateMix v) l) a b.
Proof.
  intros Hin x Hx. cbv beta.
  assert (V0 : Mix_equiv (calculateMix 0) (mkMix 1 0 0)) by (vm_compute; tauto).
  assert (V1 : Mix_equiv (calculateMix 0.25) (mkMix 0 1 0)) by (vm_compute; tauto).
  assert (V2 : Mix_equiv (calculateMix 0.5) (mkMix 1 1 0)) by (vm_compute; tauto).
  assert (V3 : Mix_equiv (calculateMix 0.75) (mkMix 0 1 1)) by (vm_compute; tauto).
  assert (V4 : Mix_equiv (calculateMix 1) (mkMix 1 1 1)) by (vm_compute; tauto).
  destruct V0 as (L0 & M0 & G0), V1 as (L1 & M1 & G1), V2 as (L2 & M2 & G2),
           V3 as (L3 & M3 & G3), V4 as (L4 & M4 & G4).
  cbn [low mid high] in *.
  assert (Hx01 : 0 <= x <= 1).
  { cbn in Hin. destruct Hin as [E|[E|[E|[E|[]]]]]; inversion E; subst; lra. }
  cbn in Hin.
  destruct Hin as [E|[E|[E|[E|[]]]]]; inversion E; subst; clear E;
    match goal with
    | |- context [(x - ?a) / (?b - ?a)] =>
        setoid_replace ((x - a) / (b - a)) with (4 * (x - a)) using relation Qeq by field
    end;
    destruct (curve_cases x Hx01) as [C|[C|[C|C]]];
    destruct C as (? & ? & ? & ?);
    destruct l; cbn [layerVolume];
    rewrite ?L0, ?M0, ?G0, ?L1, ?M1, ?G1, ?L2, ?M2, ?G2, ?L3, ?M3, ?G3, ?L4, ?M4, ?G4;
    lra.
Qed.

Lemma last_nonempty_default {A} (l : list A) (a d d' : A) :
  List.last (a :: l) d = List.last (a :: l) d'.
Proof.
  revert a. induction l as [|b l IH]; intros a; [reflexivity|].
  change (List.last (b :: l) d = List.last (b :: l) d'). apply IH.
Qed.

(** The loop of [interp] matches no pair of control points when the value
    lies below all of them: the result is the last point's volume. *)
Lemma interp_below val p1 rest :
  Forall (fun pt => val < pt_p pt) (p1 :: rest) ->
  interp val p1 rest = pt_v (List.last rest p1).
Proof.
  revert p1. induction rest as [|p2 rest IH]; intros p1 Hall; [reflexivity|].
  inversion Hall as [|? ? Hp1 Hrest]; subst.
  cbn [interp].
  assert (E : Qleb (pt_p p1) val = false) by (apply Qleb_false; assumption).
  rewrite E. cbn [andb]. rewrite (IH p2 Hrest).
  destruct rest as [|p3 rest]; [reflexivity|].
  f_equal. apply (last_nonempty_default rest p3 p2 p1).
Qed.

(** With the three layers present and the custom mix off, the volumes
    written are those of [calculateMix], scaled by the master volume and
    the sound's own volume. *)
Lemma mixVolumes_three_layers p entry :
  customMixEnabled p = false ->
  isSome (lowSound entry) = true ->
  isSome (midSound entry) = true ->
  isSome (highSound entry) = true ->
  mixVolumes p entry
  = let effectiveMasterVolume :=
      masterVolume p * default 1.0 (PlaylistSound.volume (sound entry)) in
    mkMix (low (calculateMix (intensity p)) * effectiveMasterVolume)
          (mid (calculateMix (intensity p)) * effectiveMasterVolume)
          (high (calculateMix (intensity p)) * effectiveMasterVolume).
Proof.
  intros Hc Hl Hm Hh. unfold mixVolumes. rewrite Hc, Hl, Hm, Hh. reflexivity.
Qed.

(** C3.  With three layers present the mix is the piecewise-linear
    interpolation through the five control points: the volumes written
    to a three-layer Track Set are those of [calculateMix] (scaled), and
    every component of [calculateMix] is continuous on [0,1], is a
    straight line between consecutive control intensities, takes the
    stated values at 0, 25, 50, 75 and 100 percent, and the layers
    audible there are Low; Mid; Low and Mid; Mid and High; Low, Mid and
    High. *)
Theorem calculateMix_five_stage_curve :
  (forall p entry,
     customMixEnabled p = false ->
     isSome (lowSound entry) = true ->
     isSome (midSound entry) = true ->
     isSome (highSound entry) = true ->
     mixVolumes p entry
     = let effectiveMasterVolume :=
         masterVolume p * default 1.0 (PlaylistSound.volume (sound entry)) in
       mkMix (low (calculateMix (intensity p)) * effectiveMasterVolume)
             (mid (calculateMix (intensity p)) * effectiveMasterVolume)
             (high (calculateMix (intensity p)) * effectiveMasterVolume))
  /\ (forall l, continuousOnUnit (fun v => layerVolume (calculateMix v) l))
  /\ (forall l a b, In (a, b) controlIntervals ->
        linearBetween (fun v => layerVolume (calculateMix v) l) a b)
  /\ (Mix_equiv (calculateMix 0) (mkMix 1 0 0)
      /\ Mix_equiv (calculateMix 0.25) (mkMix 0 1 0)
      /\ Mix_equiv (calculateMix 0.5) (mkMix 1 1 0)
      /\ Mix_equiv (calculateMix 0.75) (mkMix 0 1 1)
      /\ Mix_equiv (calculateMix 1.0) (mkMix 1 1 1))
  /\ (activeLayers (calculateMix 0) = [Low]
      /\ activeLayers (calculateMix 0.25) = [Mid]
      /\ activeLayers (calculateMix 0.5) = [Low; Mid]
      /\ activeLayers (calculateMix 0.75) = [Mid; High]
      /\ activeLayers (calculateMix 1.0) = [Low; Mid; High]).
Proof.
  split; [exact mixVolumes_three_layers|].
  split; [exact curve_continuous|].
  split; [exact curve_linear|].
  split.
  - repeat split; vm_compute; reflexivity.
  - repeat split; vm_compute; reflexivity.
Qed.

(** C8.  Whatever number [calculateMix] is given, inside [0,1] or not,
    each of the three volumes it returns lies in [0,1]. *)
Theorem calculateMix_bounded (v : Q) (l : Layer) :
  0 <= layerVolume (calculateMix v) l <= 1.
Proof.
  destruct (Qlt_le_dec v 0) as [Hneg|Hpos].
  { rewrite (calculateMix_outside v) by (left; exact Hneg).
    destruct l; cbn; split; discriminate. }
  destruct (Qlt_le_dec 1 v) as [Hbig|Hle].
  { rewrite (calculateMix_outside v) by (right; exact Hbig).
    destruct l; cbn; split; discriminate. }
  destruct (curve_cases v (conj Hpos Hle)) as [C|[C|[C|C]]];
    destruct C as (? & ? & ? & ?); destruct l; cbn [layerVolume]; lra.
Qed.

(** C10.  A negative intensity matches no control interval, so the loop
    of [interp] falls through to the last control point: the result is
    [{low: 1, mid: 1, high: 1}], the mix of intensity 1 and not the mix of
    intensity 0. *)
Theorem calculateMix_negative (v : Q) :
  v < 0 ->
  calculateMix v = mkMix 1.0 1.0 1.0
  /\ Mix_equiv (calculateMix v) (calculateMix 1)
  /\ ~ Mix_equiv (calculateMix v) (calculateMix 0)
  /\ Mix_equiv (calculateMix 0) (mkMix 1 0 0).
Proof.
  intros Hv.
  assert (E : calculateMix v = mkMix 1.0 1.0 1.0).
  { unfold calculateMix.
    rewrite !interp_below; [reflexivity | | |];
      repeat constructor; cbn [pt_p]; lra. }
  rewrite E. split; [reflexivity|].
  split; [vm_compute; tauto|].
  split; [|vm_compute; tauto].
  intros (_ & Hmid & _). vm_compute in Hmid. discriminate.
Qed.

(** The intensity -1. *)
Lemma calculateMix_negative_witness :
  -1 < 0 /\ calculateMix (-1) = mkMix 1.0 1.0 1.0.
Proof.
  split; [reflexivity|].
  apply (calculateMix_negative (-1)). reflexivity.
Defined.

(** ** Sound objects and timers under the engine's operations *)

Lemma player_onSound snd f st : player (onSound snd f st) = player st.
Proof. destruct snd; reflexivity. Qed.

Lemma audio_onSound snd f st i :
  audio (host (onSound snd f st)) !! i
  = if decide (snd = Some i) then f <$> audio (host st) !! i else audio (host st) !! i.
Proof.
  destruct snd as [j|]; cbn.
  - rewrite lookup_alter. repeat case_decide; congruence.
  - case_decide; [discriminate | reflexivity].
Qed.

Lemma timers_onSound snd f st : timers (host (onSound snd f st)) = timers (host st).
Proof. destruct snd; reflexivity. Qed.

Lemma audio_stopDriftMonitoring st :
  audio (host (stopDriftMonitoring st)) = audio (host st).
Proof. unfold stopDriftMonitoring. destruct (driftMonitorInterval (player st)); reflexivity. Qed.

Lemma playingSounds_stopDriftMonitoring st :
  playingSounds (player (stopDriftMonitoring st)) = playingSounds (player st).
Proof. unfold stopDriftMonitoring. destruct (driftMonitorInterval (player st)); reflexivity. Qed.

Lemma stopDriftMonitoring_halts st :
  driftMonitorInterval (player (stopDriftMonitoring st)) = None
  /\ forall id, driftMonitorInterval (player st) = Some id ->
                timers (host (stopDriftMonitoring st)) !! id = None.
Proof.
  unfold stopDriftMonitoring.
  destruct (driftMonitorInterval (player st)) as [id|] eqn:E; cbn.
  - split; [reflexivity|]. intros ? [= <-]. apply lookup_delete_eq.
  - split; [assumption | discriminate].
Qed.

(** The state [_stopAdaptiveSound] reaches for a registered Track Set,
    before the drift monitor is looked at. *)
Lemma stopAdaptiveSound_registered soundId skipUpdate st entry :
  playingSounds (player st) !! soundId = Some entry ->
  let st' := stopAdaptiveSound soundId skipUpdate st in
  playingSounds (player st') = delete soundId (playingSounds (player st))
  /\ (forall i,
        audio (host st') !! i
        = if bool_decide (Some i ∈ [lowSound entry; midSound entry; highSound entry])
          then Sound.stop <$> audio (host st) !! i
          else audio (host st) !! i)
  /\ (size (delete soundId (playingSounds (player st))) = 0%nat ->
      driftMonitorInterval (player st') = None
      /\ forall id, driftMonitorInterval (player st) = Some id ->
                    timers (host st') !! id = None).
Proof.
  intros He. cbv zeta. unfold stopAdaptiveSound. rewrite He.
  set (st1 := onSound (highSound entry) Sound.stop
                (onSound (midSound entry) Sound.stop
                   (onSound (lowSound entry) Sound.stop st))).
  set (st2 := onPlayer _ st1).
  set (st3 := if _ : bool then _ else st2).
  assert (P3 : player st3 = player st2) by (subst st3; destruct (_ : bool); reflexivity).
  assert (A3 : audio (host st3) = audio (host st1)) by (subst st3; destruct (_ : bool); reflexivity).
  assert (T3 : timers (host st3) = timers (host st)).
  { subst st3; destruct (_ : bool); cbn; subst st1; rewrite !timers_onSound; reflexivity. }
  assert (P2 : playingSounds (player st2) = delete soundId (playingSounds (player st))).
  { subst st2 st1. cbn. rewrite !player_onSound. reflexivity. }
  assert (D2 : driftMonitorInterval (player st3) = driftMonitorInterval (player st)).
  { rewrite P3. subst st2 st1. cbn. rewrite !player_onSound. reflexivity. }
  assert (A1 : forall i, audio (host st1) !! i
        = if bool_decide (Some i ∈ [lowSound entry; midSound entry; highSound entry])
          then Sound.stop <$> audio (host st) !! i
          else audio (host st) !! i).
  { intros i. subst st1. rewrite !audio_onSound.
    case_bool_decide as Hin; rewrite !elem_of_cons, elem_of_nil in Hin;
      repeat case_decide;
      first [ destruct (audio (host st) !! i); reflexivity
            | exfalso; intuition congruence ]. }
  rewrite P3, P2.
  destruct (size (delete soundId (playingSounds (player st))) =? 0)%nat eqn:Esz.
  - rewrite playingSounds_stopDriftMonitoring, audio_stopDriftMonitoring, P3, P2, A3.
    split; [reflexivity|]. split; [exact A1|]. intros _.
    destruct (stopDriftMonitoring_halts st3) as [Hn Ht]. split; [exact Hn|].
    intros id Hid. apply Ht. rewrite D2. exact Hid.
  - rewrite P3, P2, A3. split; [reflexivity|]. split; [exact A1|].
    intros Hz. apply Nat.eqb_neq in Esz. contradiction.
Qed.

(** C7.  [_stopAdaptiveSound] is idempotent.  For a sound without a Track
    Set it returns the state it was given; for a registered one it stops
    every present layer (and touches no other sound object), removes the
    Track Set and keeps the others, and when that Track Set was the only
    one, the drift monitor's timer is cleared.  Stopping twice is
    stopping once. *)
Theorem stopAdaptiveSound_idempotent (soundId : string) (skipUpdate : bool) (st : State) :
  (playingSounds (player st) !! soundId = None ->
   stopAdaptiveSound soundId skipUpdate st = st)
  /\ (forall entry,
        playingSounds (player st) !! soundId = Some entry ->
        let st' := stopAdaptiveSound soundId skipUpdate st in
        playingSounds (player st') !! soundId = None
        /\ (forall other, other <> soundId ->
              playingSounds (player st') !! other = playingSounds (player st) !! other)
        /\ (forall i s,
              Some i ∈ [lowSound entry; midSound entry; highSound entry] ->
              audio (host st) !! i = Some s ->
              audio (host st') !! i = Some (Sound.stop s)
              /\ Sound.playing (Sound.stop s) = false)
        /\ (forall i,
              Some i ∉ [lowSound entry; midSound entry; highSound entry] ->
              audio (host st') !! i = audio (host st) !! i)
        /\ (playingSounds (player st) = {[soundId := entry]} ->
              playingSounds (player st') = ∅
              /\ driftMonitorInterval (player st') = None
              /\ forall id, driftMonitorInterval (player st) = Some id ->
                            timers (host st') !! id = None))
  /\ stopAdaptiveSound soundId skipUpdate (stopAdaptiveSound soundId skipUpdate st)
     = stopAdaptiveSound soundId skipUpdate st.
Proof.
  assert (Hnone : forall s, playingSounds (player s) !! soundId = None ->
                            stopAdaptiveSound soundId skipUpdate s = s).
  { intros s Hs. unfold stopAdaptiveSound. rewrite Hs. reflexivity. }
  split; [apply Hnone|]. split.
  - intros entry He st'.
    destruct (stopAdaptiveSound_registered soundId skipUpdate st entry He)
      as (Hmap & Haudio & Hlast).
    fold st' in Hmap, Haudio, Hlast.
    split; [rewrite Hmap; apply lookup_delete_eq|].
    split; [intros other Hne; rewrite Hmap; apply lookup_delete_ne; congruence|].
    split.
    { intros i s Hin Hs. rewrite Haudio, bool_decide_eq_true_2 by exact Hin.
      rewrite Hs. split; reflexivity. }
    split.
    { intros i Hin. rewrite Haudio, bool_decide_eq_false_2 by exact Hin. reflexivity. }
    intros Hsingle. rewrite Hsingle, delete_singleton_eq in Hmap, Hlast.
    split; [exact Hmap|]. apply Hlast. apply map_size_empty.
  - apply Hnone.
    destruct (playingSounds (player st) !! soundId) as [entry|] eqn:He.
    + destruct (stopAdaptiveSound_registered soundId skipUpdate st entry He) as (Hmap & _).
      rewrite Hmap. apply lookup_delete_eq.
    + rewrite (Hnone st He). exact He.
Qed.
(** ** Volume application *)

Lemma player_applyIntensityToSound soundId st :
  player (applyIntensityToSound soundId st) = player st.
Proof.
  unfold applyIntensityToSound.
  destruct (playingSounds (player st) !! soundId); [|reflexivity].
  rewrite !player_onSound. reflexivity.
Qed.

Lemma player_applyIntensity_fold ks st :
  player (foldl (fun st soundId => applyIntensityToSound soundId st) st ks) = player st.
Proof.
  revert st. induction ks as [|k ks IH]; intros st; [reflexivity|].
  cbn [foldl]. rewrite IH. apply player_applyIntensityToSound.
Qed.

(** With the custom mix enabled the three volumes are the custom scalars
    (1 when unset) times the master volume times the track volume. *)
Lemma mixVolumes_custom p entry :
  customMixEnabled p = true ->
  mixVolumes p entry
  = let effectiveMasterVolume :=
      masterVolume p * default 1.0 (PlaylistSound.volume (sound entry)) in
    mkMix (default 1.0 (customLowVolume p) * effectiveMasterVolume)
          (default 1.0 (customMidVolume p) * effectiveMasterVolume)
          (default 1.0 (customHighVolume p) * effectiveMasterVolume).
Proof. intros H. unfold mixVolumes. rewrite H. reflexivity. Qed.

(** With the custom mix enabled, applying the mix and changing the stored
    intensity commute: the intensity is not read. *)
Lemma applyIntensityToSound_custom soundId x st :
  customMixEnabled (player st) = true ->
  applyIntensityToSound soundId (onPlayer (set_intensity x) st)
  = onPlayer (set_intensity x) (applyIntensityToSound soundId st).
Proof.
  intros H. unfold applyIntensityToSound. cbn [player onPlayer set_intensity playingSounds].
  destruct (playingSounds (player st) !! soundId) as [entry|]; [|reflexivity].
  rewrite !mixVolumes_custom by (cbn; exact H). cbn.
  destruct (lowSound entry), (midSound entry), (highSound entry); reflexivity.
Qed.

Lemma applyIntensity_fold_custom ks x st :
  customMixEnabled (player st) = true ->
  foldl (fun st soundId => applyIntensityToSound soundId st) (onPlayer (set_intensity x) st) ks
  = onPlayer (set_intensity x)
      (foldl (fun st soundId => applyIntensityToSound soundId st) st ks).
Proof.
  revert st. induction ks as [|k ks IH]; intros st H; [reflexivity|].
  cbn [foldl]. rewrite applyIntensityToSound_custom by exact H.
  apply IH. rewrite player_applyIntensityToSound. exact H.
Qed.

Lemma applyIntensityToSound_override soundId b st :
  applyIntensityToSound soundId (onPlayer (set_userOverrideDuringCombat b) st)
  = onPlayer (set_userOverrideDuringCombat b) (applyIntensityToSound soundId st).
Proof.
  unfold applyIntensityToSound. cbn.
  destruct (playingSounds (player st) !! soundId) as [entry|]; [|reflexivity].
  unfold mixVolumes. cbn.
  destruct (lowSound entry), (midSound entry), (highSound entry); reflexivity.
Qed.

Lemma applyIntensity_fold_override ks b st :
  foldl (fun st soundId => applyIntensityToSound soundId st)
        (onPlayer (set_userOverrideDuringCombat b) st) ks
  = onPlayer (set_userOverrideDuringCombat b)
      (foldl (fun st soundId => applyIntensityToSound soundId st) st ks).
Proof.
  revert st. induction ks as [|k ks IH]; intros st; [reflexivity|].
  cbn [foldl]. rewrite applyIntensityToSound_override. apply IH.
Qed.

(** The sound objects after [setGlobalIntensity], with the custom mix
    enabled: those reached by applying the mix in the state as it was. *)
Lemma setGlobalIntensity_custom_audio value fromSync st :
  customMixEnabled (player st) = true ->
  audio (host (setGlobalIntensity value fromSync st))
  = audio (host (foldl (fun st soundId => applyIntensityToSound soundId st) st
                       (keys (playingSounds (player st))))).
Proof.
  intros H. unfold setGlobalIntensity.
  cbn [player onPlayer set_intensity preCombatIntensity].
  destruct (negb fromSync && isSome (preCombatIntensity (player st)));
    cbn [player onPlayer set_userOverrideDuringCombat set_intensity playingSounds];
    rewrite ?applyIntensity_fold_override, applyIntensity_fold_custom by exact H;
    match goal with |- context [if ?c then _ else _] => destruct c end;
    reflexivity.
Qed.

(** C6.  With [customMixEnabled] the volumes written to a Track Set come
    from the custom scalars, the master volume and the sound's own volume
    only: two volume applications that differ in nothing but the global
    intensity write the same volume to every layer, be it one
    [_applyIntensityToSound] or a whole [setGlobalIntensity]. *)
Theorem custom_mix_ignores_intensity (soundId : string) (i1 i2 : Q) (st : State) :
  customMixEnabled (player st) = true ->
  audio (host (applyIntensityToSound soundId (onPlayer (set_intensity i1) st)))
  = audio (host (applyIntensityToSound soundId (onPlayer (set_intensity i2) st)))
  /\ (forall fromSync,
        audio (host (setGlobalIntensity i1 fromSync st))
        = audio (host (setGlobalIntensity i2 fromSync st)))
  /\ (forall entry i,
        mixVolumes (set_intensity i (player st)) entry
        = let effectiveMasterVolume :=
            masterVolume (player st) * default 1.0 (PlaylistSound.volume (sound entry)) in
          mkMix (default 1.0 (customLowVolume (player st)) * effectiveMasterVolume)
                (default 1.0 (customMidVolume (player st)) * effectiveMasterVolume)
                (default 1.0 (customHighVolume (player st)) * effectiveMasterVolume)).
Proof.
  intros H. split; [|split].
  - rewrite !applyIntensityToSound_custom by exact H. reflexivity.
  - intros fromSync. rewrite !setGlobalIntensity_custom_audio by exact H. reflexivity.
  - intros entry i. rewrite mixVolumes_custom by exact H. reflexivity.
Qed.
(** ** The engine's fields and timers under [setGlobalIntensity] *)

(** The engine's own fields after [setGlobalIntensity]: the intensity is
    stored clamped, and a call that is not a sync call made while a
    snapshot is held marks the user override. *)
Lemma player_setGlobalIntensity value fromSync st :
  player (setGlobalIntensity value fromSync st)
  = if negb fromSync && isSome (preCombatIntensity (player st))
    then set_userOverrideDuringCombat true (set_intensity (clamp01 value) (player st))
    else set_intensity (clamp01 value) (player st).
Proof.
  unfold setGlobalIntensity.
  cbn [player onPlayer set_intensity preCombatIntensity].
  match goal with |- context [if ?c then onHost _ _ else _] => destruct c end;
    cbn [player onHost]; rewrite player_applyIntensity_fold;
    destruct (negb fromSync && isSome (preCombatIntensity (player st))); reflexivity.
Qed.

(** [setGlobalIntensity] neither creates nor clears a timer. *)
Lemma timers_applyIntensity_fold ks st :
  timers (host (foldl (fun st soundId => applyIntensityToSound soundId st) st ks))
  = timers (host st)
  /\ nextTimer (host (foldl (fun st soundId => applyIntensityToSound soundId st) st ks))
     = nextTimer (host st).
Proof.
  revert st. induction ks as [|k ks IH]; intros st; [split; reflexivity|].
  cbn [foldl]. destruct (IH (applyIntensityToSound k st)) as [-> ->].
  unfold applyIntensityToSound.
  destruct (playingSounds (player st) !! k) as [entry|]; [|split; reflexivity].
  destruct (lowSound entry), (midSound entry), (highSound entry); split; reflexivity.
Qed.

Lemma timers_setGlobalIntensity value fromSync st :
  timers (host (setGlobalIntensity value fromSync st)) = timers (host st)
  /\ nextTimer (host (setGlobalIntensity value fromSync st)) = nextTimer (host st).
Proof.
  unfold setGlobalIntensity. cbv zeta.
  match goal with
  | |- context [foldl ?f ?s ?ks] =>
      destruct (timers_applyIntensity_fold ks s) as [Ht Hn];
      assert (H0 : timers (host s) = timers (host st)
                   /\ nextTimer (host s) = nextTimer (host st))
        by (cbn [player onPlayer set_intensity preCombatIntensity];
            destruct (negb fromSync && isSome (preCombatIntensity (player st)));
            split; reflexivity)
  end.
  match goal with |- context [if ?c then onHost _ _ else _] => destruct c end;
    cbn [host onHost set_settings timers nextTimer]; rewrite Ht, Hn; exact H0.
Qed.

(** ** Fades and the combat policy *)

Lemma fadeTo_fadeStarted target duration now st :
  fadeStarted target duration now st (fadeTo target duration true now st).
Proof.
  unfold fadeStarted, fadeTo.
  destruct (fadeInterval (player st)) as [old|]; cbn;
    (split; [reflexivity|]; split; [reflexivity|]); apply lookup_insert_eq.
Qed.

Lemma fadeTo_fields target duration upd now st :
  let st' := fadeTo target duration upd now st in
  intensity (player st') = intensity (player st)
  /\ preCombatIntensity (player st') = preCombatIntensity (player st)
  /\ userOverrideDuringCombat (player st') = userOverrideDuringCombat (player st)
  /\ playingSounds (player st') = playingSounds (player st)
  /\ audio (host st') = audio (host st)
  /\ settings (host st') = settings (host st).
Proof.
  unfold fadeTo. destruct (fadeInterval (player st)); cbn; repeat split; reflexivity.
Qed.

(** Clamping to [0,1]. *)
Lemma clamp01_range x : 0 <= clamp01 x <= 1.
Proof.
  unfold clamp01.
  destruct (Q.min_spec 1 x) as [[Hx E]|[Hx E]];
    destruct (Q.max_spec 0 (Qmin 1 x)) as [[H F]|[H F]];
    revert E H F; generalize (Qmax 0 (Qmin 1 x)); generalize (Qmin 1 x); intros; lra.
Qed.

Lemma clamp01_id x : 0 <= x <= 1 -> clamp01 x == x.
Proof.
  intros [H0 H1]. unfold clamp01.
  destruct (Q.min_spec 1 x) as [[Hx E]|[Hx E]];
    destruct (Q.max_spec 0 (Qmin 1 x)) as [[H F]|[H F]];
    revert E H F; generalize (Qmax 0 (Qmin 1 x)); generalize (Qmin 1 x); intros; lra.
Qed.

(** The intensity a fade tick stores. *)
Lemma intensity_fadeTick f now st :
  intensity (player (fadeTick f now st))
  = clamp01 (startIntensity f
             + delta f
               * (let progress := Qmin ((now - startTime f) / fadeDuration f) 1.0 in
                  if Qltb progress 0.5
                  then 2 * progress * progress
                  else 1 - (-2 * progress + 2) ^ 2 / 2)).
Proof.
  unfold fadeTick. cbv zeta.
  set (v := startIntensity f + _).
  assert (H : intensity (player (setGlobalIntensity v true st)) = clamp01 v)
    by (rewrite player_setGlobalIntensity; reflexivity).
  destruct (updateUI f), (Qleb 1.0 _); cbn [player onHost onPlayer];
    try exact H;
    destruct (fadeInterval (player (setGlobalIntensity v true st)));
    cbn [player onHost onPlayer set_fadeInterval intensity];
    match goal with
    | |- context [if ?c then _ else _] => destruct c
    end; cbn [player onHost onPlayer set_fadeInterval intensity]; exact H.
Qed.

(** A fade tick run once the duration has elapsed stores the end value
    of the fade. *)
Lemma fadeTick_arrives f now st :
  0 < fadeDuration f ->
  startTime f + fadeDuration f <= now ->
  0 <= startIntensity f + delta f <= 1 ->
  intensity (player (fadeTick f now st)) == startIntensity f + delta f.
Proof.
  intros Hd Hnow Hrange. rewrite intensity_fadeTick. cbv zeta.
  assert (Hq : 1.0 <= (now - startTime f) / fadeDuration f).
  { apply Qle_shift_div_l; [exact Hd | lra]. }
  assert (Hp : Qmin ((now - startTime f) / fadeDuration f) 1.0 == 1.0)
    by (apply Q.min_r; exact Hq).
  destruct (Qltb (Qmin ((now - startTime f) / fadeDuration f) 1.0) 0.5) eqn:E.
  { apply Qltb_true in E. rewrite Hp in E. discriminate E. }
  set (pr := Qmin _ _) in *.
  assert (He : 1 - (-2 * pr + 2) ^ 2 / 2 == 1).
  { rewrite Hp. reflexivity. }
  rewrite <- (clamp01_id (startIntensity f + delta f) Hrange).
  unfold clamp01. rewrite He. 
  assert (Hm : delta f * 1 == delta f) by ring. rewrite Hm. reflexivity.
Qed.

Lemma otherActiveCombats_length combat st :
  (0 <? length (otherActiveCombats combat st))%nat = true
  <-> otherActiveCombats combat st <> [].
Proof.
  destruct (otherActiveCombats combat st); cbn; split; intros; congruence.
Qed.

Lemma deleteCombat_other_active combat now st :
  otherActiveCombats combat st <> [] -> deleteCombat combat now st = st.
Proof.
  intros Hother. unfold deleteCombat.
  destruct (Settings.autoSetCombatIntensity (settings (host st))); [|reflexivity].
  cbn [negb]. apply otherActiveCombats_length in Hother. rewrite Hother. reflexivity.
Qed.

(** The hook when the policy is enabled and no other encounter is
    started. *)
Lemma deleteCombat_last combat now st :
  Settings.autoSetCombatIntensity (settings (host st)) = true ->
  otherActiveCombats combat st = [] ->
  let st' := deleteCombat combat now st in
  preCombatIntensity (player st') = None
  /\ userOverrideDuringCombat (player st') = false
  /\ intensity (player st') = intensity (player st)
  /\ forall q,
       preCombatIntensity (player st) = Some q ->
       (fadeStarted q 2000 now st st' <-> userOverrideDuringCombat (player st) = false)
       /\ (userOverrideDuringCombat (player st) = true ->
           host st' = host st
           /\ fadeInterval (player st') = fadeInterval (player st)).
Proof.
  intros Hauto Hlast. cbv zeta. unfold deleteCombat. rewrite Hauto, Hlast.
  cbn [negb length Nat.ltb Nat.leb].
  destruct (userOverrideDuringCombat (player st)) eqn:Hov;
    destruct (preCombatIntensity (player st)) as [q0|] eqn:Hpre; cbn [negb andb isSome].
  - split; [reflexivity|]. split; [reflexivity|]. split; [reflexivity|].
    intros q [= <-]. split.
    + split; [|discriminate].
      intros (Hn & _). cbn in Hn. exfalso. exact (Pos.succ_discr _ Hn).
    + intros _. split; reflexivity.
  - split; [reflexivity|]. split; [reflexivity|]. split; [reflexivity|].
    intros q Hq. discriminate.
  - pose proof (fadeTo_fadeStarted q0 2000 now st) as Hs.
    pose proof (fadeTo_fields q0 2000 true now st) as (Hi & _).
    cbv zeta in Hi.
    split; [reflexivity|]. split; [reflexivity|]. split; [exact Hi|].
    intros q [= <-]. split; [|discriminate].
    split; [reflexivity|]. intros _. exact Hs.
  - split; [reflexivity|]. split; [reflexivity|]. split; [reflexivity|].
    intros q Hq. discriminate.
Qed.

(** The fade back, run to its end: 2000 ms after the hook its timer
    stores the snapshot as the intensity. *)
Lemma deleteCombat_fade_arrives combat now st q t :
  Settings.autoSetCombatIntensity (settings (host st)) = true ->
  otherActiveCombats combat st = [] ->
  preCombatIntensity (player st) = Some q ->
  userOverrideDuringCombat (player st) = false ->
  0 <= q <= 1 ->
  now + 2000 <= t ->
  intensity (player (runTimer (nextTimer (host st)) t (deleteCombat combat now st))) == q.
Proof.
  intros Hauto Hlast Hpre Hov Hq Ht.
  destruct (deleteCombat_last combat now st Hauto Hlast) as (_ & _ & _ & Hfade).
  destruct (Hfade q Hpre) as [Hiff _].
  destruct (proj2 Hiff Hov) as (_ & _ & Htimer).
  unfold runTimer. rewrite Htimer.
  rewrite fadeTick_arrives; cbn [startIntensity delta startTime fadeDuration]; lra.
Qed.

(** With the setting off the hook returns at once. *)
Lemma deleteCombat_setting_off combat now st :
  Settings.autoSetCombatIntensity (settings (host st)) = false ->
  deleteCombat combat now st = st
  /\ forall target duration, ~ fadeStarted target duration now st (deleteCombat combat now st).
Proof.
  intros Hoff.
  assert (E : deleteCombat combat now st = st)
    by (unfold deleteCombat; rewrite Hoff; reflexivity).
  split; [exact E|]. intros target duration (Hn & _). rewrite E in Hn.
  exact (Pos.succ_discr _ Hn).
Qed.

(** C5, as the code has it.  The [deleteCombat] hook.  While another
    encounter is still started the hook returns the state it was given.
    When the setting [autoSetCombatIntensity] is on and the encounter
    was the last one, both [preCombatIntensity] and
    [userOverrideDuringCombat] are cleared whichever branch ran; and
    with a snapshot [q] held, a fade back to [q] over 2000 ms (with the
    display updated) is started exactly when [userOverrideDuringCombat]
    is false, and its timer reaches [q] once the 2000 ms have passed;
    after an override no timer is created, the intensity stays and the
    host is left as it was.  When the setting is off the hook returns
    the state it was given, last encounter or not: the snapshot and the
    flag are kept and no fade is started. *)
Theorem deleteCombat_policy (combat : Combat.t) (now : Q) (st : State) :
  (otherActiveCombats combat st <> [] -> deleteCombat combat now st = st)
  /\ (Settings.autoSetCombatIntensity (settings (host st)) = true ->
      otherActiveCombats combat st = [] ->
      let st' := deleteCombat combat now st in
      preCombatIntensity (player st') = None
      /\ userOverrideDuringCombat (player st') = false
      /\ intensity (player st') = intensity (player st)
      /\ forall q,
           preCombatIntensity (player st) = Some q ->
           (fadeStarted q 2000 now st st' <-> userOverrideDuringCombat (player st) = false)
           /\ (userOverrideDuringCombat (player st) = false ->
               0 <= q <= 1 ->
               forall t, now + 2000 <= t ->
                 intensity (player (runTimer (nextTimer (host st)) t st')) == q)
           /\ (userOverrideDuringCombat (player st) = true ->
               host st' = host st
               /\ fadeInterval (player st') = fadeInterval (player st)))
  /\ (Settings.autoSetCombatIntensity (settings (host st)) = false ->
      deleteCombat combat now st = st
      /\ forall target duration, ~ fadeStarted target duration now st (deleteCombat combat now st)).
Proof.
  split; [apply deleteCombat_other_active|]. split; [|apply deleteCombat_setting_off].
  intros Hauto Hlast st'.
  destruct (deleteCombat_last combat now st Hauto Hlast) as (Hpre & Hov & Hint & Hfade).
  split; [exact Hpre|]. split; [exact Hov|]. split; [exact Hint|].
  intros q Hq. destruct (Hfade q Hq) as [Hiff Hkeep].
  split; [exact Hiff|]. split; [|exact Hkeep].
  intros Hno Hrange t Ht.
  apply (deleteCombat_fade_arrives combat now st q t); assumption.
Qed.

(** Applying the mix touches nothing of the host but the sound objects. *)
Lemma host_applyIntensity_fold ks st :
  set_audio ∅ (host (foldl (fun st soundId => applyIntensityToSound soundId st) st ks))
  = set_audio ∅ (host st).
Proof.
  revert st. induction ks as [|k ks IH]; intros st; [reflexivity|].
  cbn [foldl]. rewrite IH. unfold applyIntensityToSound.
  destruct (playingSounds (player st) !! k) as [entry|]; [|reflexivity].
  destruct (lowSound entry), (midSound entry), (highSound entry); reflexivity.
Qed.

(** [setMasterVolume] leaves the policy setting and the encounters of the
    host as they are. *)
Lemma setMasterVolume_combat_inputs volume st :
  Settings.autoSetCombatIntensity (settings (host (setMasterVolume volume st)))
  = Settings.autoSetCombatIntensity (settings (host st))
  /\ combats (host (setMasterVolume volume st)) = combats (host st).
Proof.
  unfold setMasterVolume, setGlobalIntensity. cbv zeta.
  match goal with
  | |- context [foldl ?f ?s ?ks] =>
      pose proof (host_applyIntensity_fold ks s) as Hh;
      assert (Hs : Settings.autoSetCombatIntensity (settings (host s))
                   = Settings.autoSetCombatIntensity (settings (host st))
                   /\ combats (host s) = combats (host st))
        by (cbn [player onPlayer onHost set_intensity set_masterVolume preCombatIntensity];
            destruct (negb false && isSome (preCombatIntensity (player st)));
            split; reflexivity);
      set (r := foldl f s ks) in *
  end.
  assert (Hr : settings (host r) = settings (set_audio ∅ (host r))
               /\ combats (host r) = combats (set_audio ∅ (host r)))
    by (split; reflexivity).
  destruct Hr as [Hr1 Hr2]. rewrite Hh in Hr1, Hr2. cbn [set_audio settings combats] in Hr1, Hr2.
  match goal with |- context [if ?c then onHost _ _ else _] => destruct c end;
    cbn [host onHost set_settings settings combats settings_set_currentIntensity
         Settings.autoSetCombatIntensity];
    rewrite Hr1, Hr2; exact Hs.
Qed.

(** Once the user override is marked, the [deleteCombat] hook starts no
    fade, whatever branch it takes. *)
Lemma deleteCombat_after_override combat now st :
  userOverrideDuringCombat (player st) = true ->
  let st' := deleteCombat combat now st in
  host st' = host st
  /\ intensity (player st') = intensity (player st)
  /\ fadeInterval (player st') = fadeInterval (player st)
  /\ forall target duration, ~ fadeStarted target duration now st st'.
Proof.
  intros Hov. cbv zeta.
  assert (Hno : forall p target duration,
            ~ fadeStarted target duration now st (mkState p (host st))).
  { intros p target duration (Hn & _). exact (Pos.succ_discr _ Hn). }
  unfold deleteCombat.
  destruct (Settings.autoSetCombatIntensity (settings (host st))); cbn [negb];
    [destruct (0 <? length (otherActiveCombats combat st))%nat|].
  - destruct st as [p h]. repeat split; try reflexivity. apply Hno.
  - rewrite Hov. cbn [negb andb].
    repeat split; try reflexivity. apply Hno.
  - destruct st as [p h]. repeat split; try reflexivity. apply Hno.
Qed.

(** C9.  [setMasterVolume] re-applies the mix through
    [setGlobalIntensity] without the sync flag.  Called while a combat
    snapshot [q] is held it therefore sets [userOverrideDuringCombat]
    (the snapshot, the policy setting and the encounters are as before).
    Where the end of the last encounter would have started the fade back
    to [q], after the master-volume change it starts none: whatever
    encounter is deleted, the hook creates no timer and leaves the
    intensity, [fadeInterval] and the host as they were. *)
Theorem setMasterVolume_marks_override (volume q : Q) (st : State) :
  preCombatIntensity (player st) = Some q ->
  let st1 := setMasterVolume volume st in
  userOverrideDuringCombat (player st1) = true
  /\ preCombatIntensity (player st1) = Some q
  /\ Settings.autoSetCombatIntensity (settings (host st1))
     = Settings.autoSetCombatIntensity (settings (host st))
  /\ (forall combat, otherActiveCombats combat st1 = otherActiveCombats combat st)
  /\ (forall combat now,
        Settings.autoSetCombatIntensity (settings (host st)) = true ->
        otherActiveCombats combat st = [] ->
        userOverrideDuringCombat (player st) = false ->
        fadeStarted q 2000 now st (deleteCombat combat now st))
  /\ (forall combat now,
        let st2 := deleteCombat combat now st1 in
        (forall target duration, ~ fadeStarted target duration now st1 st2)
        /\ intensity (player st2) = intensity (player st1)
        /\ fadeInterval (player st2) = fadeInterval (player st1)
        /\ host st2 = host st1).
Proof.
  intros Hpre st1.
  assert (Hov : userOverrideDuringCombat (player st1) = true
                /\ preCombatIntensity (player st1) = Some q).
  { subst st1. unfold setMasterVolume. rewrite player_setGlobalIntensity.
    cbn [player onPlayer onHost set_masterVolume preCombatIntensity negb andb].
    rewrite Hpre. cbn. split; [reflexivity | exact Hpre]. }
  destruct Hov as [Hov Hpre1].
  destruct (setMasterVolume_combat_inputs volume st) as [Hset Hcombats].
  fold st1 in Hset, Hcombats.
  split; [exact Hov|]. split; [exact Hpre1|]. split; [exact Hset|].
  split; [intros combat; unfold otherActiveCombats; rewrite Hcombats; reflexivity|].
  split.
  - intros combat now Hauto Hlast Hno.
    destruct (deleteCombat_last combat now st Hauto Hlast) as (_ & _ & _ & Hfade).
    apply (Hfade q Hpre). exact Hno.
  - intros combat now st2.
    destruct (deleteCombat_after_override combat now st1 Hov) as (Hh & Hi & Hf & Hn).
    split; [exact Hn|]. split; [exact Hi|]. split; [exact Hf | exact Hh].
Qed.

(** ** Starting a sound that has no alternate layer *)

(** A start request for a sound with neither a Mid nor a Low path: the
    exclusivity block has run when the guard on the paths returns. *)
Lemma playAdaptiveSound_unconfigured snd st :
  truthy (PlaylistSound.midIntensityPath snd) = false ->
  truthy (PlaylistSound.lowIntensityPath snd) = false ->
  PlaylistSound.id snd ∉ loadingSounds (player st) ->
  playAdaptiveSound snd st
  = logEvent (WarnMissingTracks (PlaylistSound.name snd)) (enforceExclusivity snd st).
Proof.
  intros Hmid Hlow Hload. unfold playAdaptiveSound, playAdaptiveSound_begin.
  rewrite bool_decide_eq_false_2 by exact Hload. cbv zeta.
  rewrite Hmid, Hlow. reflexivity.
Qed.

(** In a playlist that plays its sounds simultaneously, and for a sound
    without a playlist, the exclusivity block does nothing: the request
    then only logs. *)
Lemma enforceExclusivity_simultaneous snd st :
  (forall playlist, PlaylistSound.parent snd = Some playlist ->
                    Playlist.mode playlist = SIMULTANEOUS) ->
  enforceExclusivity snd st = st.
Proof.
  intros H. unfold enforceExclusivity.
  destruct (PlaylistSound.parent snd) as [playlist|]; [|reflexivity].
  rewrite bool_decide_eq_true_2 by (apply H; reflexivity). reflexivity.
Qed.

(** C1.  [_playAdaptiveSound] enforces playlist exclusivity before it
    looks at the sound's paths.  Sound B has neither a Mid nor a Low
    path and shares its sequential playlist with sound A, which is
    playing: the start request for B warns about the missing tracks and
    registers nothing, but on its way it stops the three layers of A,
    removes A's Track Set, asks the host to mark A as not playing and
    halts the drift monitor. *)
Theorem playAdaptiveSound_unconfigured_stops_sibling :
  truthy (PlaylistSound.midIntensityPath soundB) = false
  /\ truthy (PlaylistSound.lowIntensityPath soundB) = false
  /\ playingSounds (player sessionA) !! "A"
     = Some (mkEntry (Some 0%nat) (Some 1%nat) (Some 2%nat) (nowPlaying soundA) false)
  /\ Sound.playing <$> audio (host sessionA) !! 0%nat = Some true
  /\ Sound.playing <$> audio (host sessionA) !! 1%nat = Some true
  /\ Sound.playing <$> audio (host sessionA) !! 2%nat = Some true
  /\ driftMonitorInterval (player sessionA) = Some 1%positive
  /\ timers (host sessionA) !! 1%positive = Some DriftTimer
  /\ let st' := playAdaptiveSound soundB sessionA in
     log (host st') = log (host sessionA) ++ [WarnMissingTracks "Tavern"]
     /\ playingSounds (player st') !! "B" = None
     /\ playingSounds (player st') !! "A" = None
     /\ Sound.playing <$> audio (host st') !! 0%nat = Some false
     /\ Sound.playing <$> audio (host st') !! 1%nat = Some false
     /\ Sound.playing <$> audio (host st') !! 2%nat = Some false
     /\ requests (host st') = requests (host sessionA) ++ [UpdatePlaying "A" false]
     /\ driftMonitorInterval (player st') = None
     /\ timers (host st') !! 1%positive = None.
Proof. vm_compute. repeat split; reflexivity. Qed.

(** ** An explicit intensity set during a fade *)

(** [setGlobalIntensity] leaves [fadeInterval] and the timers alone. *)
Lemma setGlobalIntensity_keeps_fade value fromSync st :
  fadeInterval (player (setGlobalIntensity value fromSync st)) = fadeInterval (player st)
  /\ timers (host (setGlobalIntensity value fromSync st)) = timers (host st).
Proof.
  split; [|apply timers_setGlobalIntensity].
  rewrite player_setGlobalIntensity.
  destruct (negb fromSync && isSome (preCombatIntensity (player st))); reflexivity.
Qed.

(** C2.  [setGlobalIntensity] does not clear the timer of a fade in
    flight.  Combat has started and the fade from 50 to 100 percent
    (timer 2) has ticked once when the intensity is set to 20 percent
    without the sync flag: the value is stored, but [fadeInterval] still
    names timer 2 and the timer is still installed; its next run, at
    32 ms, puts the intensity back on the fade curve, and its run at
    2000 ms ends the fade at 100 percent. *)
Theorem setGlobalIntensity_leaves_fade_running :
  fadeInterval (player sessionCombat) = Some 2%positive
  /\ timers (host sessionCombat) !! 2%positive
     = Some (FadeTimer (mkFade 0.50 0.5000 0 2000 1.00 true))
  /\ let st1 := setGlobalIntensity 0.2 false sessionCombat in
     intensity (player st1) == 0.2
     /\ fadeInterval (player st1) = Some 2%positive
     /\ timers (host st1) !! 2%positive
        = Some (FadeTimer (mkFade 0.50 0.5000 0 2000 1.00 true))
     /\ intensity (player (runTimer 2 32 st1)) == 15633 # 31250
     /\ ~ intensity (player (runTimer 2 32 st1)) == 0.2
     /\ intensity (player (runTimer 2 2000 st1)) == 1
     /\ fadeInterval (player (runTimer 2 2000 st1)) = None.
Proof.
  vm_compute. repeat split; try reflexivity; discriminate.
Qed.
(** ** The drift monitor *)

Lemma unmoved_refl s : unmoved s s.
Proof. repeat split. Qed.

Lemma unmoved_trans s1 s2 s3 : unmoved s1 s2 -> unmoved s2 s3 -> unmoved s1 s3.
Proof. unfold unmoved. intuition congruence. Qed.

Lemma unmoved_setVolume v s : unmoved s (Sound.setVolume v s).
Proof. repeat split. Qed.

Lemma drifted_unmoved base s s' : unmoved s s' -> drifted base s' = drifted base s.
Proof. intros (_ & Hp & Ht & _). unfold drifted. rewrite Hp, Ht. reflexivity. Qed.

(** A sound at the primary's position has no drift. *)
Lemma drifted_at_base base s : Sound.currentTime s = base -> drifted base s = false.
Proof.
  intros H. unfold drifted. rewrite H. apply andb_false_iff. right.
  apply Qltb_false.
  assert (E : base - base == 0) by ring.
  rewrite E. discriminate.
Qed.

(** The sound objects after [_applyIntensityToSound]: the layers of the
    entry have their assigned volume, nothing else changes. *)
Lemma audio_applyIntensityToSound soundId entry st i :
  playingSounds (player st) !! soundId = Some entry ->
  audio (host (applyIntensityToSound soundId st)) !! i
  = match assignedVolume (mixVolumes (player st) entry) entry i with
    | Some v => Sound.setVolume v <$> audio (host st) !! i
    | None => audio (host st) !! i
    end.
Proof.
  intros He. unfold applyIntensityToSound. rewrite He.
  rewrite !audio_onSound. unfold assignedVolume.
  repeat case_decide; destruct (audio (host st) !! i); reflexivity.
Qed.

Lemma resyncStep_refl vols entry base g a :
  (forall i s, a !! i = Some s -> g i && drifted base s = false) ->
  resyncStep vols entry base g a a.
Proof.
  intros Hg i. destruct (a !! i) as [s|] eqn:E; [|reflexivity].
  exists s. rewrite (Hg i s E). split; [reflexivity|].
  split; [apply unmoved_refl | left; reflexivity].
Qed.

(** Two steps in a row select what either of them selects. *)
Lemma resyncStep_trans vols entry base g1 g2 a a' a'' :
  resyncStep vols entry base g1 a a' ->
  resyncStep vols entry base g2 a' a'' ->
  resyncStep vols entry base (fun i => g1 i || g2 i) a a''.
Proof.
  intros H1 H2 i. specialize (H1 i). specialize (H2 i).
  destruct (a !! i) as [s|]; [|rewrite H1 in H2; exact H2].
  destruct H1 as (s' & E' & H1). rewrite E' in H2.
  destruct H2 as (s'' & E'' & H2). exists s''. split; [exact E''|].
  destruct (g1 i && drifted base s) eqn:C1.
  - apply andb_true_iff in C1 as [G1 D]. rewrite G1, D. cbn [orb andb].
    destruct H1 as (Hp & Ht & Hv).
    rewrite (drifted_at_base base s' Ht), andb_false_r in H2.
    destruct H2 as ((_ & Hp2 & Ht2 & _) & Hr).
    split; [congruence|]. split; [congruence|].
    destruct Hr as [Hr|Hr]; [rewrite Hr; exact Hv | exact Hr].
  - destruct H1 as (Hu & Hr).
    rewrite (drifted_unmoved base s s' Hu) in H2.
    destruct (drifted base s) eqn:D.
    + rewrite andb_true_r in C1. rewrite C1. cbn [orb].
      rewrite !andb_true_r in *. destruct (g2 i); [exact H2|].
      destruct H2 as (Hu2 & Hr2). split; [eapply unmoved_trans; eassumption|].
      destruct Hr2 as [Hr2|Hr2]; [|right; exact Hr2].
      destruct Hr as [Hr|Hr]; [left; congruence | right; congruence].
    + rewrite !andb_false_r in *.
      destruct H2 as (Hu2 & Hr2). split; [eapply unmoved_trans; eassumption|].
      destruct Hr2 as [Hr2|Hr2]; [|right; exact Hr2].
      destruct Hr as [Hr|Hr]; [left; congruence | right; congruence].
Qed.

(** One call of the [checkDrift] closure on a layer of the entry other
    than the primary. *)
Lemma checkDrift_step soundId entry pi p base lay label st :
  playingSounds (player st) !! soundId = Some entry ->
  audio (host st) !! pi = Some p ->
  Sound.currentTime p = base ->
  lay ∈ [highSound entry; midSound entry; lowSound entry] ->
  lay <> Some pi ->
  let st' := checkDrift soundId entry pi base lay label st in
  player st' = player st
  /\ resyncStep (mixVolumes (player st) entry) entry base
       (fun i => bool_decide (lay = Some i)) (audio (host st)) (audio (host st')).
Proof.
  intros He Hp Hb Hlay Hne. cbv zeta. unfold checkDrift.
  destruct lay as [si|].
  2:{ split; [reflexivity|]. apply resyncStep_refl. intros i s _.
      rewrite bool_decide_eq_false_2 by discriminate. reflexivity. }
  destruct (audio (host st) !! si) as [s|] eqn:Es.
  2:{ split; [reflexivity|]. apply resyncStep_refl. intros i s Ei.
      rewrite bool_decide_eq_false_2; [reflexivity|]. intros [= ->]. congruence. }
  destruct (Sound.playing s) eqn:Hplay; cbn [negb].
  2:{ split; [reflexivity|]. apply resyncStep_refl. intros i s' Ei.
      case_bool_decide as Hi; [|reflexivity]. injection Hi as ->.
      assert (s' = s) by congruence. subst s'.
      unfold drifted. rewrite Hplay. reflexivity. }
  destruct (Qltb 0.1 (Qabs (Sound.currentTime s - base))) eqn:Hd.
  2:{ split; [reflexivity|]. apply resyncStep_refl. intros i s' Ei.
      case_bool_decide as Hi; [|reflexivity]. injection Hi as ->.
      assert (s' = s) by congruence. subst s'.
      unfold drifted. rewrite Hplay, Hd. reflexivity. }
  assert (Hpi : si <> pi) by congruence.
  set (st1 := logEvent _ st).
  set (st2 := onSound (Some si) Sound.stop st1).
  assert (Hoff : audio (host st2) !! pi = Some p).
  { subst st2 st1. rewrite audio_onSound. rewrite decide_False by congruence. exact Hp. }
  rewrite Hoff, Hb.
  set (st3 := onSound (Some si) _ st2).
  assert (P3 : player st3 = player st) by reflexivity.
  split; [rewrite player_applyIntensityToSound; exact P3|].
  assert (He3 : playingSounds (player st3) !! soundId = Some entry)
    by (rewrite P3; exact He).
  intros i. rewrite (audio_applyIntensityToSound soundId entry st3 i He3), P3.
  subst st3 st2 st1. rewrite !audio_onSound. cbn [host onHost logEvent set_log audio].
  destruct (decide (Some si = Some i)) as [[= <-]|Hi].
  - rewrite Es, bool_decide_eq_true_2 by reflexivity.
    unfold drifted. rewrite Hplay, Hd. cbn [andb].
    assert (Hin : exists v,
               assignedVolume (mixVolumes (player st) entry) entry si = Some v).
    { unfold assignedVolume. rewrite !elem_of_cons, elem_of_nil in Hlay.
      repeat case_decide; eauto. exfalso. intuition congruence. }
    destruct Hin as [v Hv]. rewrite Hv. cbn.
    eexists; split; [reflexivity|]. repeat split. cbn. symmetry. exact Hv.
  - rewrite bool_decide_eq_false_2 by exact Hi. cbn [andb].
    destruct (audio (host st) !! i) as [s0|] eqn:E0.
    + destruct (assignedVolume _ entry i) as [v|] eqn:Hv; cbn.
      * eexists; split; [reflexivity|].
        split; [apply unmoved_setVolume | right; symmetry; exact Hv].
      * exists s0. split; [reflexivity|]. split; [apply unmoved_refl | left; reflexivity].
    + destruct (assignedVolume _ entry i); reflexivity.
Qed.

Lemma resyncStep_ext vols entry base g g' a a' :
  (forall i, g i = g' i) ->
  resyncStep vols entry base g' a a' -> resyncStep vols entry base g a a'.
Proof. intros Hg H i. specialize (H i). rewrite Hg. exact H. Qed.

(** A sound that a step does not select is unmoved by it. *)
Lemma resyncStep_unselected vols entry base g a a' i s :
  resyncStep vols entry base g a a' ->
  g i = false ->
  a !! i = Some s ->
  exists s', a' !! i = Some s' /\ unmoved s s' /\ remixed vols entry i s s'.
Proof.
  intros H Hg Hs. specialize (H i). rewrite Hs, Hg in H. exact H.
Qed.

(** One line [if (primarySound !== layer) checkDrift(layer, label)] of
    the monitor callback. *)
Lemma guardedCheck_step soundId entry pi p base vols lay label st :
  playingSounds (player st) !! soundId = Some entry ->
  audio (host st) !! pi = Some p ->
  Sound.currentTime p = base ->
  mixVolumes (player st) entry = vols ->
  lay ∈ [highSound entry; midSound entry; lowSound entry] ->
  let st' := if negb (bool_decide (Some pi = lay))
             then checkDrift soundId entry pi base lay label st
             else st in
  player st' = player st
  /\ resyncStep vols entry base
       (fun i => bool_decide (lay = Some i) && bool_decide (i <> pi))
       (audio (host st)) (audio (host st')).
Proof.
  intros He Hp Hb <- Hlay. cbv zeta.
  case_bool_decide as Hprim; cbn [negb].
  - split; [reflexivity|]. apply resyncStep_refl. intros i s _.
    repeat case_bool_decide; try reflexivity. congruence.
  - assert (Hne : lay <> Some pi) by congruence.
    destruct (checkDrift_step soundId entry pi p base lay label st He Hp Hb Hlay Hne)
      as [Hpl Hstep].
    split; [exact Hpl|].
    eapply resyncStep_ext; [|exact Hstep].
    intros i. cbv beta. repeat case_bool_decide; try reflexivity. congruence.
Qed.

(** The loop body of the monitor on a Track Set whose primary plays and
    has not reached its end: the three guarded checks in a row. *)
Lemma driftCheckEntry_resyncs soundId entry st pi p :
  playingSounds (player st) !! soundId = Some entry ->
  primaryOf entry = Some pi ->
  audio (host st) !! pi = Some p ->
  Sound.playing p = true ->
  (PlaylistSound.repeat (sound entry) = true
   \/ Sound.duration p <= 0
   \/ Sound.currentTime p < Sound.duration p - 0.2) ->
  let st' := driftCheckEntry soundId entry st in
  player st' = player st
  /\ resyncStep (mixVolumes (player st) entry) entry (Sound.currentTime p)
       (fun i => bool_decide (Some i ∈ [highSound entry; midSound entry; lowSound entry])
                 && bool_decide (i <> pi))
       (audio (host st)) (audio (host st')).
Proof.
  intros He Hprim Hp Hplay Hgo. cbv zeta. unfold driftCheckEntry.
  rewrite Hprim, Hp, Hplay. cbn [negb].
  assert (Hend : negb (PlaylistSound.repeat (sound entry))
                 && Qltb 0 (Sound.duration p)
                 && Qleb (Sound.duration p - 0.2) (Sound.currentTime p) = false).
  { destruct Hgo as [Hr|[Hd|Hc]].
    - rewrite Hr. reflexivity.
    - apply Qltb_false in Hd. rewrite Hd, andb_false_r. reflexivity.
    - apply Qleb_false in Hc. rewrite Hc, andb_false_r. reflexivity. }
  rewrite Hend.
  set (base := Sound.currentTime p).
  set (vols := mixVolumes (player st) entry).
  assert (Hb : Sound.currentTime p = base) by reflexivity.
  assert (Hself : forall g : bool, g && bool_decide (pi <> pi) = false).
  { intros g. rewrite bool_decide_eq_false_2 by congruence. apply andb_false_r. }
  (* High *)
  destruct (guardedCheck_step soundId entry pi p base vols (highSound entry) "High" st
              He Hp Hb eq_refl) as [P1 S1]; [rewrite !elem_of_cons; tauto|].
  set (st1 := if negb (bool_decide (Some pi = highSound entry)) then _ else st) in *.
  destruct (resyncStep_unselected _ _ _ _ _ _ pi p S1) as (p1 & Hp1 & Hu1 & _);
    [apply Hself | exact Hp |].
  assert (He1 : playingSounds (player st1) !! soundId = Some entry)
    by (rewrite P1; exact He).
  assert (Hb1 : Sound.currentTime p1 = base) by (destruct Hu1 as (_ & _ & -> & _); exact Hb).
  assert (Hv1 : mixVolumes (player st1) entry = vols) by (rewrite P1; reflexivity).
  (* Mid *)
  destruct (guardedCheck_step soundId entry pi p1 base vols (midSound entry) "Mid" st1
              He1 Hp1 Hb1 Hv1) as [P2 S2]; [rewrite !elem_of_cons; tauto|].
  set (st2 := if negb (bool_decide (Some pi = midSound entry)) then _ else st1) in *.
  pose proof (resyncStep_trans _ _ _ _ _ _ _ _ S1 S2) as S12.
  destruct (resyncStep_unselected _ _ _ _ _ _ pi p S12) as (p2 & Hp2 & Hu2 & _);
    [cbv beta; rewrite !Hself; reflexivity | exact Hp |].
  assert (He2 : playingSounds (player st2) !! soundId = Some entry)
    by (rewrite P2, P1; exact He).
  assert (Hb2 : Sound.currentTime p2 = base) by (destruct Hu2 as (_ & _ & -> & _); exact Hb).
  assert (Hv2 : mixVolumes (player st2) entry = vols) by (rewrite P2, P1; reflexivity).
  (* Low *)
  destruct (guardedCheck_step soundId entry pi p2 base vols (lowSound entry) "Low" st2
              He2 Hp2 Hb2 Hv2) as [P3 S3]; [rewrite !elem_of_cons; tauto|].
  split; [rewrite P3, P2, P1; reflexivity|].
  eapply resyncStep_ext; [|exact (resyncStep_trans _ _ _ _ _ _ _ _ S12 S3)].
  intros i. cbv beta.
  repeat case_bool_decide; try reflexivity; exfalso;
    match goal with
    | H : context [Some i ∈ _] |- _ => rewrite !elem_of_cons, elem_of_nil in H
    end;
    intuition congruence.
Qed.

(** With a single Track Set the monitor callback is its loop body. *)
Lemma driftTick_single soundId entry st :
  playingSounds (player st) = {[soundId := entry]} ->
  driftTick st = driftCheckEntry soundId entry st.
Proof.
  intros H. unfold driftTick.
  rewrite H, map_size_singleton, map_to_list_singleton. reflexivity.
Qed.

(** The loop body on a Track Set that passes the monitor's two tests
    corrects its drift and keeps it registered. *)
Lemma driftCheckEntry_corrects_drift (soundId : string) (entry : Entry) (st : State)
    (pi : nat) (p : Sound.t) :
  playingSounds (player st) !! soundId = Some entry ->
  primaryOf entry = Some pi ->
  audio (host st) !! pi = Some p ->
  Sound.playing p = true ->
  (PlaylistSound.repeat (sound entry) = true
   \/ Sound.duration p <= 0
   \/ Sound.currentTime p < Sound.duration p - 0.2) ->
  let st' := driftCheckEntry soundId entry st in
  driftCorrected entry st st'
  /\ playingSounds (player st') !! soundId = Some entry.
Proof.
  intros He Hprim Hp Hplay Hgo st'.
  destruct (driftCheckEntry_resyncs soundId entry st pi p He Hprim Hp Hplay Hgo)
    as [Hpl Hstep].
  fold st' in Hpl, Hstep.
  split.
  - intros pi' p' Hprim' Hp'.
    assert (pi' = pi) by congruence. subst pi'.
    assert (p' = p) by congruence. subst p'.
    split.
    + apply (resyncStep_unselected _ _ _ _ _ _ pi p Hstep); [|exact Hp].
      rewrite (bool_decide_eq_false_2 (pi <> pi)) by congruence. apply andb_false_r.
    + intros si s Hin Hne Hs.
      specialize (Hstep si). rewrite Hs in Hstep.
      rewrite !bool_decide_eq_true_2 in Hstep by assumption. cbn [andb] in Hstep.
      destruct Hstep as (s' & Es' & Hout). exists s'. split; [exact Es'|].
      destruct (drifted (Sound.currentTime p) s); [exact Hout | apply Hout].
  - rewrite Hpl. exact He.
Qed.

(** ** The drift monitor on several Track Sets *)

Lemma sameView_refl soundId entry st : sameView soundId entry st st.
Proof. repeat split. Qed.

Lemma sameView_trans soundId entry st1 st2 st3 :
  sameView soundId entry st1 st2 -> sameView soundId entry st2 st3 ->
  sameView soundId entry st1 st3.
Proof.
  intros (A1 & B1 & C1) (A2 & B2 & C2). split; [congruence|]. split; [congruence|].
  intros i Hi. rewrite C2, C1 by exact Hi. reflexivity.
Qed.

Lemma mixVolumes_stopDriftMonitoring st entry :
  mixVolumes (player (stopDriftMonitoring st)) entry = mixVolumes (player st) entry.
Proof. unfold stopDriftMonitoring. destruct (driftMonitorInterval (player st)); reflexivity. Qed.

Lemma mixVolumes_stopAdaptiveSound soundId skipUpdate st entry :
  mixVolumes (player (stopAdaptiveSound soundId skipUpdate st)) entry
  = mixVolumes (player st) entry.
Proof.
  unfold stopAdaptiveSound.
  destruct (playingSounds (player st) !! soundId) as [e|]; [|reflexivity].
  repeat match goal with
         | |- context [if ?c then _ else _] => destruct c
         end;
    rewrite ?mixVolumes_stopDriftMonitoring;
    unfold mixVolumes; cbn; rewrite !player_onSound; reflexivity.
Qed.

(** A sound with all its fields but the volume, and the volume too,
    unchanged is the same sound. *)
Lemma unmoved_same_volume s s' :
  unmoved s s' -> Sound.volume s' = Sound.volume s -> s' = s.
Proof.
  unfold unmoved. destruct s, s'. cbn. intros (? & ? & ? & ? & ?) ?. congruence.
Qed.

(** The loop body for a Track Set leaves alone what another Track Set
    with other sound objects can see. *)
Lemma driftCheckEntry_frame soundId entry soundId' entry' st :
  playingSounds (player st) !! soundId' = Some entry' ->
  soundId' <> soundId ->
  (forall i, Some i ∈ [highSound entry; midSound entry; lowSound entry] ->
             Some i ∉ [highSound entry'; midSound entry'; lowSound entry']) ->
  sameView soundId entry st (driftCheckEntry soundId' entry' st)
  /\ forall other, other <> soundId' ->
       playingSounds (player (driftCheckEntry soundId' entry' st)) !! other
       = playingSounds (player st) !! other.
Proof.
  intros He' Hne Hsep.
  assert (Hstop : sameView soundId entry st (stopAdaptiveSound soundId' false st)
                  /\ forall other, other <> soundId' ->
                       playingSounds (player (stopAdaptiveSound soundId' false st)) !! other
                       = playingSounds (player st) !! other).
  { destruct (stopAdaptiveSound_registered soundId' false st entry' He')
      as (Hmap & Haudio & _).
    split; [split; [|split]|].
    - rewrite Hmap. apply lookup_delete_ne. exact Hne.
    - apply mixVolumes_stopAdaptiveSound.
    - intros i Hi. rewrite Haudio.
      rewrite bool_decide_eq_false_2; [reflexivity|].
      rewrite !elem_of_cons, elem_of_nil.
      specialize (Hsep i Hi). rewrite !elem_of_cons, elem_of_nil in Hsep.
      intuition congruence.
    - intros other Ho. rewrite Hmap. apply lookup_delete_ne. congruence. }
  assert (Hskip : sameView soundId entry st st
                  /\ forall other, other <> soundId' ->
                       playingSounds (player st) !! other = playingSounds (player st) !! other)
    by (split; [apply sameView_refl | reflexivity]).
  destruct (primaryOf entry') as [pi|] eqn:Hprim;
    [|unfold driftCheckEntry; rewrite Hprim; exact Hskip].
  destruct (audio (host st) !! pi) as [p|] eqn:Hp;
    [|unfold driftCheckEntry; rewrite Hprim, Hp; exact Hskip].
  destruct (Sound.playing p) eqn:Hplay;
    [|unfold driftCheckEntry; rewrite Hprim, Hp, Hplay; exact Hskip].
  destruct (negb (PlaylistSound.repeat (sound entry'))
            && Qltb 0 (Sound.duration p)
            && Qleb (Sound.duration p - 0.2) (Sound.currentTime p)) eqn:Hend;
    [unfold driftCheckEntry; rewrite Hprim, Hp, Hplay, Hend; exact Hstop|].
  assert (Hgo : PlaylistSound.repeat (sound entry') = true
                \/ Sound.duration p <= 0
                \/ Sound.currentTime p < Sound.duration p - 0.2).
  { apply andb_false_iff in Hend as [Hend|Hend];
      [apply andb_false_iff in Hend as [Hend|Hend]|].
    - left. apply negb_false_iff. exact Hend.
    - right; left. apply Qltb_false. exact Hend.
    - right; right. apply Qleb_false. exact Hend. }
  destruct (driftCheckEntry_resyncs soundId' entry' st pi p He' Hprim Hp Hplay Hgo)
    as [Hpl Hstep].
  split; [split; [|split]|].
  - rewrite Hpl. reflexivity.
  - rewrite Hpl. reflexivity.
  - intros i Hi. unfold resyncStep in Hstep. specialize (Hstep i). cbv beta in Hstep.
    specialize (Hsep i Hi).
    rewrite (bool_decide_eq_false_2 _ Hsep) in Hstep. cbn [andb] in Hstep.
    destruct (audio (host st) !! i) as [s|]; [|exact Hstep].
    destruct Hstep as (s' & Es' & Hu & [Hv|Hv]).
    + rewrite Es'. f_equal. apply unmoved_same_volume; assumption.
    + exfalso. unfold assignedVolume in Hv.
      rewrite !elem_of_cons, elem_of_nil in Hsep.
      repeat case_decide; try discriminate; intuition congruence.
  - intros other _. rewrite Hpl. reflexivity.
Qed.

(** The loop over Track Sets other than [soundId], none of which
    shares a sound object with [entry]. *)
Lemma driftLoop_frame soundId entry (l : list (string * Entry)) st :
  NoDup l.*1 ->
  soundId ∉ l.*1 ->
  (forall k e, (k, e) ∈ l -> playingSounds (player st) !! k = Some e) ->
  (forall k e i, (k, e) ∈ l ->
     Some i ∈ [highSound entry; midSound entry; lowSound entry] ->
     Some i ∉ [highSound e; midSound e; lowSound e]) ->
  sameView soundId entry st
    (foldl (fun st '(soundId, entry) => driftCheckEntry soundId entry st) st l)
  /\ forall other, other ∉ l.*1 ->
       playingSounds (player (foldl (fun st '(soundId, entry) =>
                                       driftCheckEntry soundId entry st) st l)) !! other
       = playingSounds (player st) !! other.
Proof.
  revert st. induction l as [|[k e] l IH]; intros st Hnd Hnot Hin Hsep.
  { split; [apply sameView_refl | reflexivity]. }
  cbn [foldl]. cbn [fmap list_fmap fst] in Hnd, Hnot.
  apply NoDup_cons in Hnd as [Hk Hnd].
  apply not_elem_of_cons in Hnot as [Hne Hnot].
  destruct (driftCheckEntry_frame soundId entry k e st) as [Hv Hother].
  { apply Hin. left. }
  { congruence. }
  { intros i Hi. apply (Hsep k e i); [left | exact Hi]. }
  destruct (IH (driftCheckEntry k e st) Hnd Hnot) as [Hv' Hother'].
  { intros k' e' Hin'. rewrite Hother.
    - apply Hin. right. exact Hin'.
    - intros ->. apply Hk. apply list_elem_of_fmap. exists (k, e'). split; [reflexivity|exact Hin']. }
  { intros k' e' i Hin' Hi. apply (Hsep k' e' i); [right; exact Hin' | exact Hi]. }
  split.
  - eapply sameView_trans; eassumption.
  - intros other Ho. apply not_elem_of_cons in Ho as [Ho1 Ho2].
    rewrite Hother' by exact Ho2. apply Hother. exact Ho1.
Qed.

(** In a state with a single Track Set no two Track Sets share a sound
    object. *)
Lemma separateLayers_single soundId entry st :
  playingSounds (player st) = {[soundId := entry]} -> separateLayers st.
Proof.
  intros H id1 id2 e1 e2 i H1 H2 Hne. rewrite H in H1, H2.
  apply lookup_singleton_Some in H1 as [<- _].
  apply lookup_singleton_Some in H2 as [<- _]. congruence.
Qed.

(** The primary is one of the layers. *)
Lemma primaryOf_layer entry pi :
  primaryOf entry = Some pi ->
  Some pi ∈ [highSound entry; midSound entry; lowSound entry].
Proof.
  unfold primaryOf. rewrite !elem_of_cons.
  destruct (lowSound entry); [intros [= ->]; tauto|].
  destruct (midSound entry); [intros [= ->]; tauto|].
  intros ->. tauto.
Qed.

(** The whole tick, for a Track Set that passes both tests of the
    monitor (the primary plays; the sound loops, or the primary is more
    than 0.2 s before its end): the drift is corrected, whatever other
    Track Sets are registered, and the Track Set stays registered. *)
Lemma driftTick_resyncs (soundId : string) (entry : Entry) (st : State)
    (pi : nat) (p : Sound.t) :
  separateLayers st ->
  playingSounds (player st) !! soundId = Some entry ->
  primaryOf entry = Some pi ->
  audio (host st) !! pi = Some p ->
  Sound.playing p = true ->
  (PlaylistSound.repeat (sound entry) = true
   \/ Sound.duration p <= 0
   \/ Sound.currentTime p < Sound.duration p - 0.2) ->
  driftCorrected entry st (driftTick st)
  /\ playingSounds (player (driftTick st)) !! soundId = Some entry.
Proof.
  intros Hsep He Hprim Hp Hplay Hgo. unfold driftTick.
  assert (Hsz : (size (playingSounds (player st)) =? 0)%nat = false).
  { apply Nat.eqb_neq. intros Hz. apply map_size_empty_iff in Hz.
    rewrite Hz, lookup_empty in He. discriminate. }
  rewrite Hsz.
  pose proof (NoDup_fst_map_to_list (playingSounds (player st))) as Hnd.
  assert (Hin : (soundId, entry) ∈ map_to_list (playingSounds (player st)))
    by (apply elem_of_map_to_list; exact He).
  assert (Hall : forall k e, (k, e) ∈ map_to_list (playingSounds (player st)) ->
                             playingSounds (player st) !! k = Some e)
    by (intros k e; apply elem_of_map_to_list).
  apply list_elem_of_split in Hin as (l1 & l2 & Hl).
  rewrite Hl in Hnd, Hall |- *. clear Hl.
  rewrite fmap_app, fmap_cons in Hnd. cbn [fst] in Hnd.
  apply NoDup_app in Hnd as (Hnd1 & Hdisj & Hnd2).
  apply NoDup_cons in Hnd2 as [Hnot2 Hnd2].
  assert (Hnot1 : soundId ∉ l1.*1).
  { intros Hc. apply (Hdisj soundId Hc). left. }
  assert (Hsep' : forall l, (forall k e, (k, e) ∈ l -> (k, e) ∈ l1 ++ (soundId, entry) :: l2) ->
            soundId ∉ l.*1 ->
            forall k e i, (k, e) ∈ l ->
              Some i ∈ [highSound entry; midSound entry; lowSound entry] ->
              Some i ∉ [highSound e; midSound e; lowSound e]).
  { intros l Hsub Hnot k e i Hk Hi.
    apply (Hsep soundId k entry e i He); [apply Hall, Hsub, Hk | | exact Hi].
    intros <-. apply Hnot. apply list_elem_of_fmap. exists (soundId, e). split; [reflexivity|exact Hk]. }
  rewrite foldl_app. cbn [foldl].
  set (f := fun (st : State) '(soundId, entry) => driftCheckEntry soundId entry st).
  set (st1 := foldl f st l1).
  (* the Track Sets visited before *)
  destruct (driftLoop_frame soundId entry l1 st Hnd1 Hnot1) as [(Hm1 & Hv1 & Ha1) Ho1].
  { intros k e Hk. apply Hall. apply elem_of_app. left. exact Hk. }
  { apply Hsep'; [|exact Hnot1]. intros k e Hk. apply elem_of_app. left. exact Hk. }
  fold f in Hm1, Hv1, Ha1, Ho1. fold st1 in Hm1, Hv1, Ha1, Ho1.
  (* the Track Set itself *)
  assert (He1 : playingSounds (player st1) !! soundId = Some entry) by congruence.
  assert (Hp1 : audio (host st1) !! pi = Some p).
  { rewrite Ha1; [exact Hp | apply primaryOf_layer; exact Hprim]. }
  destruct (driftCheckEntry_resyncs soundId entry st1 pi p He1 Hprim Hp1 Hplay Hgo)
    as [Hpl2 Hstep].
  set (st2 := driftCheckEntry soundId entry st1) in *.
  rewrite Hv1 in Hstep.
  (* the Track Sets visited after *)
  destruct (driftLoop_frame soundId entry l2 st2 Hnd2 Hnot2) as [(Hm3 & _ & Ha3) _].
  { intros k e Hk. rewrite Hpl2, Ho1.
    - apply Hall. apply elem_of_app. right. right. exact Hk.
    - intros Hc. apply (Hdisj k Hc). right.
      apply list_elem_of_fmap. exists (k, e). split; [reflexivity|exact Hk]. }
  { apply Hsep'; [|exact Hnot2]. intros k e Hk. apply elem_of_app. right. right. exact Hk. }
  fold f in Hm3, Ha3. set (st3 := foldl f st2 l2) in *.
  split; [|rewrite Hm3, Hpl2; exact He1].
  intros pi' p' Hprim' Hp'.
  assert (pi' = pi) by congruence. subst pi'.
  assert (p' = p) by congruence. subst p'.
  split.
  - rewrite Ha3 by (apply primaryOf_layer; exact Hprim).
    apply (resyncStep_unselected _ _ _ _ _ _ pi p Hstep); [|exact Hp1].
    rewrite (bool_decide_eq_false_2 (pi <> pi)) by congruence. apply andb_false_r.
  - intros si s Hsi Hne Hs.
    rewrite Ha3 by exact Hsi.
    unfold resyncStep in Hstep. specialize (Hstep si). cbv beta in Hstep.
    rewrite (Ha1 si Hsi), Hs in Hstep.
    rewrite !bool_decide_eq_true_2 in Hstep by assumption. cbn [andb] in Hstep.
    destruct Hstep as (s' & Es' & Hout). exists s'. split; [exact Es'|].
    destruct (drifted (Sound.currentTime p) s); [exact Hout | apply Hout].
Qed.

(** ** The theorems at work on the example session *)

(** Custom volumes High 1.0, Mid 0.3, Low 0.0 at the intensities 20 and
    90 percent. *)
Lemma custom_mix_ignores_intensity_witness :
  customMixEnabled (player sessionCustom) = true
  /\ audio (host (applyIntensityToSound "A" (onPlayer (set_intensity 0.2) sessionCustom)))
     = audio (host (applyIntensityToSound "A" (onPlayer (set_intensity 0.9) sessionCustom)))
  /\ Sound.volume <$> audio (host (setGlobalIntensity 0.9 false sessionCustom)) !! 1%nat
     = Sound.volume <$> audio (host (setGlobalIntensity 0.2 false sessionCustom)) !! 1%nat.
Proof.
  assert (H : customMixEnabled (player sessionCustom) = true) by (vm_compute; reflexivity).
  destruct (custom_mix_ignores_intensity "A" 0.2 0.9 sessionCustom H) as (Ha & Hg & _).
  split; [exact H|]. split; [exact Ha|].
  rewrite (Hg false). reflexivity.
Defined.

(** A master-volume change while the combat fade is running. *)
Lemma setMasterVolume_marks_override_witness :
  preCombatIntensity (player sessionCombat) = Some 0.50
  /\ userOverrideDuringCombat (player sessionCombat) = false
  /\ userOverrideDuringCombat (player (setMasterVolume 0.6 sessionCombat)) = true.
Proof.
  assert (H : preCombatIntensity (player sessionCombat) = Some 0.50)
    by (vm_compute; reflexivity).
  split; [exact H|]. split; [vm_compute; reflexivity|].
  exact (proj1 (setMasterVolume_marks_override 0.6 0.50 sessionCombat H)).
Defined.

(** Two overlapping encounters: deleting the first keeps the state,
    deleting the second starts the fade back to 50 percent, which is
    reached 2000 ms later. *)
Lemma deleteCombat_policy_witness :
  otherActiveCombats combat1 sessionTwoCombats <> []
  /\ deleteCombat combat1 5000 sessionTwoCombats = sessionTwoCombats
  /\ otherActiveCombats combat2 (withCombats [combat2] sessionTwoCombats) = []
  /\ preCombatIntensity (player (withCombats [combat2] sessionTwoCombats)) = Some 0.50
  /\ userOverrideDuringCombat (player (withCombats [combat2] sessionTwoCombats)) = false
  /\ fadeStarted 0.50 2000 6000 (withCombats [combat2] sessionTwoCombats)
       (deleteCombat combat2 6000 (withCombats [combat2] sessionTwoCombats))
  /\ preCombatIntensity
       (player (deleteCombat combat2 6000 (withCombats [combat2] sessionTwoCombats))) = None
  /\ intensity
       (player (runTimer 4 8000
                  (deleteCombat combat2 6000 (withCombats [combat2] sessionTwoCombats))))
     == 0.50.
Proof.
  assert (H1 : otherActiveCombats combat1 sessionTwoCombats <> [])
    by (vm_compute; discriminate).
  assert (H2 : otherActiveCombats combat2 (withCombats [combat2] sessionTwoCombats) = [])
    by (vm_compute; reflexivity).
  assert (Hpre : preCombatIntensity (player (withCombats [combat2] sessionTwoCombats))
                 = Some 0.50) by (vm_compute; reflexivity).
  assert (Hov : userOverrideDuringCombat (player (withCombats [combat2] sessionTwoCombats))
                = false) by (vm_compute; reflexivity).
  destruct (deleteCombat_policy combat1 5000 sessionTwoCombats) as [Hkeep _].
  destruct (deleteCombat_policy combat2 6000 (withCombats [combat2] sessionTwoCombats))
    as (_ & Hend & _).
  destruct (Hend eq_refl H2) as (Hclear & _ & _ & Hfade).
  destruct (Hfade 0.50 Hpre) as (Hiff & Harrive & _).
  split; [exact H1|]. split; [exact (Hkeep H1)|]. split; [exact H2|].
  split; [exact Hpre|]. split; [exact Hov|]. split; [exact (proj2 Hiff Hov)|].
  split; [exact Hclear|].
  apply (Harrive Hov); [split; discriminate | discriminate].
Defined.

(** * More of the engine *)

(** ** The degraded mixes and the range of the volumes *)

(** X1.  With the custom mix off and exactly two layers present,
    [_applyIntensityToSound] computes a linear crossfade: the lower of the
    two layers gets [(1 - intensity)] and the upper one [intensity] of
    the effective master volume, the absent layer gets 0, and the two
    volumes add up to the effective master volume.  With a single layer
    present that layer gets the whole effective master volume, whatever
    the intensity. *)
Theorem mixVolumes_degraded (p : Player) (entry : Entry) :
  customMixEnabled p = false ->
  let vols := mixVolumes p entry in
  let eff := effectiveMasterVolume p entry in
  (forall lower upper absent,
     (lower, upper, absent) ∈ [(Mid, High, Low); (Low, High, Mid); (Low, Mid, High)] ->
     isSome (layerHandle entry lower) = true ->
     isSome (layerHandle entry upper) = true ->
     layerHandle entry absent = None ->
     layerVolume vols lower = (1 - intensity p) * eff
     /\ layerVolume vols upper = intensity p * eff
     /\ layerVolume vols absent = 0
     /\ layerVolume vols lower + layerVolume vols upper == eff)
  /\ (forall only a b,
        (only, a, b) ∈ [(Low, Mid, High); (Mid, Low, High); (High, Low, Mid)] ->
        isSome (layerHandle entry only) = true ->
        layerHandle entry a = None ->
        layerHandle entry b = None ->
        layerVolume vols only = eff
        /\ layerVolume vols a = 0
        /\ layerVolume vols b = 0).
Proof.
  intros Hc vols eff. subst vols eff. unfold mixVolumes, effectiveMasterVolume.
  rewrite Hc. split.
  - intros lower upper absent Hin Hl Hu Ha.
    rewrite !elem_of_cons, elem_of_nil in Hin.
    destruct Hin as [E|[E|[E|[]]]]; inversion E; subst; clear E;
      cbn [layerHandle] in Hl, Hu, Ha; rewrite Hl, Hu, Ha;
      cbn [isSome andb negb layerVolume low mid high];
      (split; [reflexivity|]; split; [reflexivity|]; split; [reflexivity|]); ring.
  - intros only a b Hin Ho Ha Hb.
    rewrite !elem_of_cons, elem_of_nil in Hin.
    destruct Hin as [E|[E|[E|[]]]]; inversion E; subst; clear E;
      cbn [layerHandle] in Ho, Ha, Hb; rewrite Ho, Ha, Hb;
      cbn [isSome andb negb layerVolume low mid high];
      repeat split; reflexivity.
Qed.

Lemma mixVolumes_range (p : Player) (entry : Entry) (l : Layer) :
  0 <= intensity p <= 1 ->
  0 <= masterVolume p <= 1 ->
  unitOrUnset (PlaylistSound.volume (sound entry)) ->
  unitOrUnset (customLowVolume p) ->
  unitOrUnset (customMidVolume p) ->
  unitOrUnset (customHighVolume p) ->
  0 <= layerVolume (mixVolumes p entry) l <= effectiveMasterVolume p entry
  /\ effectiveMasterVolume p entry <= 1.
Proof.
  intros Hi Hm Ht Hcl Hcm Hch.
  assert (He : 0 <= effectiveMasterVolume p entry <= 1).
  { unfold effectiveMasterVolume.
    destruct (PlaylistSound.volume (sound entry)) as [t|];
      cbn [default from_option id unitOrUnset] in *; [nra|lra]. }
  split; [|lra].
  assert (Hd : forall o, unitOrUnset o -> 0 <= default 1.0 o <= 1).
  { intros [x|]; cbn [default from_option id unitOrUnset]; [tauto | intros _; lra]. }
  pose proof (Hd _ Hcl) as Bl. pose proof (Hd _ Hcm) as Bm. pose proof (Hd _ Hch) as Bh.
  assert (Hcurve : forall k, 0 <= layerVolume (calculateMix (intensity p)) k <= 1).
  { intros k. destruct (curve_cases (intensity p) Hi) as [C|[C|[C|C]]];
      destruct C as (? & ? & ? & ?); destruct k; cbn [layerVolume]; lra. }
  pose proof (Hcurve Low) as Cl. pose proof (Hcurve Mid) as Cm.
  pose proof (Hcurve High) as Ch. cbn [layerVolume] in Cl, Cm, Ch.
  unfold mixVolumes. fold (effectiveMasterVolume p entry).
  set (e := effectiveMasterVolume p entry) in *.
  destruct (customMixEnabled p);
    [destruct l; cbn [layerVolume low mid high]; nra|].
  destruct (isSome (lowSound entry)), (isSome (midSound entry)), (isSome (highSound entry));
    cbn [andb negb]; destruct l; cbn [layerVolume low mid high]; nra.
Qed.

(** X2.  Every volume [_applyIntensityToSound] computes lies between 0
    and the effective master volume, which is at most the master volume
    and hence at most 1, as soon as the intensity, the master volume, the
    sound's own volume and the custom volumes lie in [0,1]. *)
Theorem mixVolumes_bounded (p : Player) (entry : Entry) :
  0 <= intensity p <= 1 ->
  0 <= masterVolume p <= 1 ->
  unitOrUnset (PlaylistSound.volume (sound entry)) ->
  unitOrUnset (customLowVolume p) ->
  unitOrUnset (customMidVolume p) ->
  unitOrUnset (customHighVolume p) ->
  (forall l, 0 <= layerVolume (mixVolumes p entry) l <= effectiveMasterVolume p entry)
  /\ 0 <= effectiveMasterVolume p entry <= masterVolume p
  /\ masterVolume p <= 1.
Proof.
  intros Hi Hm Ht Hcl Hcm Hch.
  split; [intros l; apply mixVolumes_range; assumption|].
  split; [|tauto].
  unfold effectiveMasterVolume.
  destruct (PlaylistSound.volume (sound entry)) as [t|];
    cbn [default from_option id unitOrUnset] in *; [nra|lra].
Qed.

(** ** What applying the mix touches *)

Lemma assignedVolume_layer vols entry i :
  is_Some (assignedVolume vols entry i)
  <-> Some i ∈ [highSound entry; midSound entry; lowSound entry].
Proof.
  unfold assignedVolume. rewrite !elem_of_cons, elem_of_nil.
  repeat case_decide; split; intros Hx; try (eexists; reflexivity);
    try tauto; try (destruct Hx as [? [=]]); intuition congruence.
Qed.

(** X3.  [_applyIntensityToSound] only writes volumes, and only to the
    layers of the Track Set it is called for: the engine's own fields
    and everything of the host but the sound objects stay, no sound
    object appears or disappears, every sound object keeps its source,
    playing flag, position, length and loop flag, and a sound object
    that is not a layer of the Track Set is not touched at all.  For a
    sound without a Track Set nothing changes. *)
Theorem applyIntensityToSound_frame (soundId : string) (st : State) :
  let st' := applyIntensityToSound soundId st in
  player st' = player st
  /\ set_audio ∅ (host st') = set_audio ∅ (host st)
  /\ (playingSounds (player st) !! soundId = None -> st' = st)
  /\ forall entry,
       playingSounds (player st) !! soundId = Some entry ->
       forall i,
         match audio (host st) !! i with
         | None => audio (host st') !! i = None
         | Some s =>
             exists s', audio (host st') !! i = Some s'
               /\ unmoved s s'
               /\ (Some i ∉ [highSound entry; midSound entry; lowSound entry] -> s' = s)
               /\ (forall v, assignedVolume (mixVolumes (player st) entry) entry i = Some v ->
                             Sound.volume s' = v)
         end.
Proof.
  cbv zeta. split; [apply player_applyIntensityToSound|].
  split; [exact (host_applyIntensity_fold [soundId] st)|].
  split.
  { intros Hn. unfold applyIntensityToSound. rewrite Hn. reflexivity. }
  intros entry He i.
  rewrite (audio_applyIntensityToSound soundId entry st i He).
  destruct (audio (host st) !! i) as [s|] eqn:Es.
  - destruct (assignedVolume _ entry i) as [v|] eqn:Hv.
    + exists (Sound.setVolume v s). split; [reflexivity|].
      split; [apply unmoved_setVolume|]. split.
      * intros Hnot. exfalso. apply Hnot.
        apply (assignedVolume_layer (mixVolumes (player st) entry)). rewrite Hv. eauto.
      * intros v' [= <-]. reflexivity.
    + exists s. split; [reflexivity|]. split; [apply unmoved_refl|].
      split; [reflexivity | discriminate].
  - destruct (assignedVolume _ entry i); reflexivity.
Qed.

(** ** The stored intensity and what is persisted *)

(** X4.  [setGlobalIntensity] stores its argument clamped to [0,1]: the
    stored intensity is always in [0,1], it is the argument when that
    lies in [0,1], 0 for a negative argument and 1 for one above 1. *)
Theorem setGlobalIntensity_clamps (value : Q) (fromSync : bool) (st : State) :
  let i := intensity (player (setGlobalIntensity value fromSync st)) in
  0 <= i <= 1
  /\ (0 <= value <= 1 -> i == value)
  /\ (value <= 0 -> i == 0)
  /\ (1 <= value -> i == 1).
Proof.
  cbv zeta. rewrite player_setGlobalIntensity.
  assert (E : intensity (if negb fromSync && isSome (preCombatIntensity (player st))
                         then set_userOverrideDuringCombat true
                                (set_intensity (clamp01 value) (player st))
                         else set_intensity (clamp01 value) (player st))
              = clamp01 value)
    by (destruct (negb fromSync && isSome (preCombatIntensity (player st))); reflexivity).
  rewrite E. split; [apply clamp01_range|].
  split; [apply clamp01_id|].
  unfold clamp01.
  split; intros Hv;
    destruct (Q.min_spec 1 value) as [[Hx F]|[Hx F]];
    destruct (Q.max_spec 0 (Qmin 1 value)) as [[H G]|[H G]];
    revert F H G; generalize (Qmax 0 (Qmin 1 value)); generalize (Qmin 1 value);
    intros; lra.
Qed.

(** The host after [setGlobalIntensity], sound objects apart: as it was,
    but for the persisted intensity when the caller is the GM and the
    call is not a sync call. *)
Lemma host_setGlobalIntensity value fromSync st :
  set_audio ∅ (host (setGlobalIntensity value fromSync st))
  = set_audio ∅
      (if negb fromSync && isGM (host st)
       then set_settings
              (settings_set_currentIntensity (Math_round (clamp01 value * 100))
                 (settings (host st))) (host st)
       else host st).
Proof.
  unfold setGlobalIntensity. cbv zeta.
  match goal with
  | |- context [foldl ?f ?s ?ks] =>
      pose proof (host_applyIntensity_fold ks s) as Hh;
      pose proof (player_applyIntensity_fold ks s) as Hp;
      assert (Hs : host s = host st /\ intensity (player s) = clamp01 value)
        by (cbn [player onPlayer set_intensity preCombatIntensity];
            destruct (negb fromSync && isSome (preCombatIntensity (player st)));
            split; reflexivity);
      set (r := foldl f s ks) in *
  end.
  destruct Hs as [Hs Hi]. rewrite Hs in Hh. rewrite Hp, Hi.
  assert (Hgm : isGM (host r) = isGM (host st))
    by (change (isGM (set_audio ∅ (host r)) = isGM (host st)); rewrite Hh; reflexivity).
  rewrite Hgm.
  destruct (negb fromSync && isGM (host st)); [|exact Hh].
  cbn [host onHost].
  change (set_settings
            (settings_set_currentIntensity (Math_round (clamp01 value * 100))
               (settings (set_audio ∅ (host r)))) (set_audio ∅ (host r))
          = set_settings
              (settings_set_currentIntensity (Math_round (clamp01 value * 100))
                 (settings (set_audio ∅ (host st)))) (set_audio ∅ (host st))).
  rewrite Hh. reflexivity.
Qed.

Lemma silent_setGlobalIntensity_sync value st :
  silent st (setGlobalIntensity value true st).
Proof.
  unfold silent. rewrite host_setGlobalIntensity, player_setGlobalIntensity.
  cbn [negb andb]. repeat split; reflexivity.
Qed.

Lemma silent_trans st1 st2 st3 : silent st1 st2 -> silent st2 st3 -> silent st1 st3.
Proof. unfold silent. intuition congruence. Qed.

Lemma silent_onPlayer_custom f st :
  (forall p, preCombatIntensity (f p) = preCombatIntensity p
             /\ userOverrideDuringCombat (f p) = userOverrideDuringCombat p
             /\ fadeInterval (f p) = fadeInterval p
             /\ driftMonitorInterval (f p) = driftMonitorInterval p
             /\ playingSounds (f p) = playingSounds p) ->
  silent st (onPlayer f st).
Proof. intros H. unfold silent. cbn. split; [reflexivity|]. apply H. Qed.

(** X5.  A setting change coming back from the host is applied locally
    and goes no further: the callbacks of [currentIntensity],
    [customMixEnabled] and the three custom volumes write no setting,
    send no request, touch no timer and do not mark a user override. *)
Theorem setting_echo_is_silent (st : State) :
  (forall value, silent st (onChange_currentIntensity value st))
  /\ (forall value, silent st (onChange_customMixEnabled value st))
  /\ (forall type value, silent st (onChange_customVolume type value st)).
Proof.
  split; [|split].
  - intros value. apply silent_setGlobalIntensity_sync.
  - intros value. unfold onChange_customMixEnabled, setCustomMixEnabled. cbv zeta.
    cbn [negb andb].
    eapply silent_trans; [|apply silent_setGlobalIntensity_sync].
    apply silent_onPlayer_custom. intros p. repeat split.
  - intros type value. unfold onChange_customVolume, setCustomVolume. cbv zeta.
    cbn [negb andb].
    set (st1 := if String.eqb type "high" then _ else _).
    assert (H1 : silent st st1).
    { subst st1. destruct (String.eqb type "high"); [|destruct (String.eqb type "mid");
        [|destruct (String.eqb type "low")]];
        try (apply silent_onPlayer_custom; intros p; repeat split).
      repeat split. }
    destruct (customMixEnabled (player st1)); [|exact H1].
    eapply silent_trans; [exact H1 | apply silent_setGlobalIntensity_sync].
Qed.

(** Hosts that agree but for their sound objects agree on every other
    field. *)
Lemma host_but_audio a b :
  set_audio ∅ a = set_audio ∅ b ->
  settings a = settings b /\ isGM a = isGM b /\ timers a = timers b
  /\ nextTimer a = nextTimer b /\ requests a = requests b /\ log a = log b
  /\ combats a = combats b /\ playlists a = playlists b /\ nextSound a = nextSound b
  /\ media a = media b /\ slider a = slider b.
Proof.
  intros H.
  repeat split;
    [apply (f_equal settings) in H | apply (f_equal isGM) in H
    | apply (f_equal timers) in H | apply (f_equal nextTimer) in H
    | apply (f_equal requests) in H | apply (f_equal log) in H
    | apply (f_equal combats) in H | apply (f_equal playlists) in H
    | apply (f_equal nextSound) in H | apply (f_equal media) in H
    | apply (f_equal slider) in H ]; exact H.
Qed.

Lemma Math_round_percent x : 0 <= x <= 1 -> (0 <= Math_round (x * 100) <= 100)%Z.
Proof.
  intros [H0 H1]. unfold Math_round. split.
  - apply Z.le_trans with (Qfloor 0); [vm_compute; discriminate|].
    apply Qfloor_resp_le. lra.
  - apply Z.le_trans with (Qfloor 100.5); [|vm_compute; discriminate].
    apply Qfloor_resp_le. lra.
Qed.

(** X6.  Only the GM persists, and what is persisted is a whole percent.
    On a client that is not the GM, [setGlobalIntensity],
    [setCustomMixEnabled] and [setCustomVolume] write no setting,
    whatever their sync flag.  On the GM's client an intensity set that
    is not a sync call stores [Math.round] of the clamped intensity times
    100, a whole number between 0 and 100, as [currentIntensity]. *)
Theorem persistence_is_the_GMs (st : State) :
  (isGM (host st) = false ->
   (forall value fromSync,
      settings (host (setGlobalIntensity value fromSync st)) = settings (host st))
   /\ (forall enabled fromSync,
         settings (host (setCustomMixEnabled enabled fromSync st)) = settings (host st))
   /\ (forall type value fromSync,
         settings (host (setCustomVolume type value fromSync st)) = settings (host st)))
  /\ (isGM (host st) = true ->
      forall value,
        Settings.currentIntensity (settings (host (setGlobalIntensity value false st)))
        = Math_round (clamp01 value * 100)
        /\ (0 <= Math_round (clamp01 value * 100) <= 100)%Z).
Proof.
  split.
  - intros Hgm.
    assert (Hset : forall value fromSync s,
              isGM (host s) = false ->
              settings (host (setGlobalIntensity value fromSync s)) = settings (host s)
              /\ isGM (host (setGlobalIntensity value fromSync s)) = false).
    { intros value fromSync s Hs.
      pose proof (host_setGlobalIntensity value fromSync s) as H.
      rewrite Hs, andb_false_r in H.
      destruct (host_but_audio _ _ H) as (-> & -> & _). split; [reflexivity | exact Hs]. }
    split; [intros value fromSync; apply Hset; exact Hgm|]. split.
    + intros enabled fromSync. unfold setCustomMixEnabled. cbv zeta.
      destruct (Hset (intensity (player (onPlayer (set_customMixEnabled enabled) st))) true
                  (onPlayer (set_customMixEnabled enabled) st) Hgm) as [Hs Hg].
      rewrite Hg, andb_false_r. exact Hs.
    + intros type value fromSync. unfold setCustomVolume. cbv zeta.
      set (st1 := if String.eqb type "high" then _ else _).
      assert (H1 : host st1 = host st).
      { subst st1. destruct (String.eqb type "high"); [|destruct (String.eqb type "mid");
          [|destruct (String.eqb type "low")]]; reflexivity. }
      set (st2 := if customMixEnabled (player st1) then _ else st1).
      assert (H2 : settings (host st2) = settings (host st) /\ isGM (host st2) = false).
      { subst st2. destruct (customMixEnabled (player st1)).
        - destruct (Hset (intensity (player st1)) true st1) as [Hs Hg];
            [rewrite H1; exact Hgm|]. rewrite Hs, H1. split; [reflexivity | exact Hg].
        - rewrite H1. split; [reflexivity | exact Hgm]. }
      destruct H2 as [Hs Hg]. rewrite Hg, andb_false_r. exact Hs.
  - intros Hgm value.
    pose proof (host_setGlobalIntensity value false st) as H.
    rewrite Hgm in H. cbn [negb andb] in H.
    destruct (host_but_audio _ _ H) as (-> & _).
    split; [reflexivity|]. apply Math_round_percent. apply clamp01_range.
Qed.

(** ** The mix on all Track Sets *)

Lemma layersExist_applyIntensityToSound soundId st :
  layersExist st -> layersExist (applyIntensityToSound soundId st).
Proof.
  intros H k e i Hk Hi. rewrite player_applyIntensityToSound in Hk.
  specialize (H k e i Hk Hi).
  destruct (playingSounds (player st) !! soundId) as [entry|] eqn:He.
  - rewrite (audio_applyIntensityToSound soundId entry st i He).
    destruct (assignedVolume _ entry i); [apply fmap_is_Some|]; exact H.
  - unfold applyIntensityToSound. rewrite He. exact H.
Qed.

Lemma separateLayers_player st st' :
  playingSounds (player st') = playingSounds (player st) ->
  separateLayers st -> separateLayers st'.
Proof. intros E H id1 id2 e1 e2 i. rewrite E. apply H. Qed.

(** The loop [for (const soundId of this.playingSounds.keys())
    this._applyIntensityToSound(soundId)], on the keys [ks]: the Track
    Sets in [done] or in [ks] carry their volumes afterwards. *)
Lemma applyAll_mixApplied ks :
  forall st (done : list string),
    separateLayers st ->
    layersExist st ->
    (forall k e i v,
       k ∈ done ->
       playingSounds (player st) !! k = Some e ->
       assignedVolume (mixVolumes (player st) e) e i = Some v ->
       Sound.volume <$> audio (host st) !! i = Some v) ->
    let st' := foldl (fun st soundId => applyIntensityToSound soundId st) st ks in
    forall k e i v,
      k ∈ done ++ ks ->
      playingSounds (player st') !! k = Some e ->
      assignedVolume (mixVolumes (player st') e) e i = Some v ->
      Sound.volume <$> audio (host st') !! i = Some v.
Proof.
  induction ks as [|k0 ks IH]; intros st done Hsep Hex Hdone; cbv zeta.
  { intros k e i v Hk. rewrite app_nil_r in Hk. apply Hdone. exact Hk. }
  cbn [foldl]. intros k e i v Hk.
  replace (done ++ k0 :: ks) with ((done ++ [k0]) ++ ks) in Hk
    by (rewrite <- app_assoc; reflexivity).
  revert k e i v Hk.
  apply (IH (applyIntensityToSound k0 st) (done ++ [k0])).
  - eapply separateLayers_player; [|exact Hsep].
    rewrite player_applyIntensityToSound. reflexivity.
  - apply layersExist_applyIntensityToSound. exact Hex.
  - intros k e i v Hk. rewrite player_applyIntensityToSound. intros He Hv.
    destruct (playingSounds (player st) !! k0) as [e0|] eqn:He0.
    2:{ assert (E : applyIntensityToSound k0 st = st)
          by (unfold applyIntensityToSound; rewrite He0; reflexivity).
        rewrite E. apply (Hdone k e i v); [|exact He|exact Hv].
        apply elem_of_app in Hk as [Hk|Hk]; [exact Hk|].
        apply list_elem_of_singleton in Hk. subst k. congruence. }
    rewrite (audio_applyIntensityToSound k0 e0 st i He0).
    destruct (decide (k = k0)) as [->|Hne].
    + assert (e0 = e) by congruence. subst e0. rewrite Hv.
      destruct (Hex k0 e i He) as [s Hs].
      { apply (assignedVolume_layer (mixVolumes (player st) e)). rewrite Hv. eauto. }
      rewrite Hs. reflexivity.
    + assert (Hnone : assignedVolume (mixVolumes (player st) e0) e0 i = None).
      { destruct (assignedVolume (mixVolumes (player st) e0) e0 i) eqn:E0; [|reflexivity].
        exfalso.
        apply (Hsep k k0 e e0 i He He0 Hne).
        - apply (assignedVolume_layer (mixVolumes (player st) e)). rewrite Hv. eauto.
        - apply (assignedVolume_layer (mixVolumes (player st) e0)). rewrite E0. eauto. }
      rewrite Hnone. apply (Hdone k e i v); [|exact He|exact Hv].
      apply elem_of_app in Hk as [Hk|Hk]; [exact Hk|].
      apply list_elem_of_singleton in Hk. congruence.
Qed.

Lemma mixApplied_after_loop st :
  separateLayers st ->
  layersExist st ->
  mixApplied (foldl (fun st soundId => applyIntensityToSound soundId st) st
                    (keys (playingSounds (player st)))).
Proof.
  intros Hsep Hex k e i v He Hv.
  apply (applyAll_mixApplied (keys (playingSounds (player st))) st [] Hsep Hex)
    with (k := k) (e := e); [intros ? ? ? ? Hin; inversion Hin | | exact He | exact Hv].
  rewrite player_applyIntensity_fold in He.
  cbn [app]. unfold keys. apply list_elem_of_fmap. exists (k, e).
  split; [reflexivity|]. apply elem_of_map_to_list. exact He.
Qed.

(** Changing engine fields other than the Track Sets, or host fields
    other than the sound objects, keeps the stores well formed. *)
Lemma wellFormed_transfer st st' :
  playingSounds (player st') = playingSounds (player st) ->
  audio (host st') = audio (host st) ->
  (separateLayers st -> separateLayers st')
  /\ (layersExist st -> layersExist st').
Proof.
  intros Ep Ea. split.
  - apply separateLayers_player. exact Ep.
  - intros H k e i. rewrite Ep, Ea. apply H.
Qed.

Lemma mixApplied_transfer st st' :
  player st' = player st ->
  audio (host st') = audio (host st) ->
  mixApplied st -> mixApplied st'.
Proof. intros Ep Ea H k e i v. rewrite Ep, Ea. apply H. Qed.

Lemma setGlobalIntensity_wellFormed (value : Q) (fromSync : bool) (st : State) :
  separateLayers st ->
  layersExist st ->
  mixApplied (setGlobalIntensity value fromSync st)
  /\ separateLayers (setGlobalIntensity value fromSync st)
  /\ layersExist (setGlobalIntensity value fromSync st).
Proof.
  intros Hsep Hex. unfold setGlobalIntensity. cbv zeta.
  set (st0 := if negb fromSync && isSome _ then _ else _).
  assert (H0 : playingSounds (player st0) = playingSounds (player st)
               /\ audio (host st0) = audio (host st)).
  { subst st0. cbn [player onPlayer set_intensity preCombatIntensity].
    destruct (negb fromSync && isSome (preCombatIntensity (player st))); split; reflexivity. }
  destruct H0 as [Ep Ea].
  destruct (wellFormed_transfer st st0 Ep Ea) as [Hs0 He0].
  pose proof (mixApplied_after_loop st0 (Hs0 Hsep) (He0 Hex)) as Hmix.
  set (r := foldl _ st0 _) in *.
  assert (Hr : separateLayers r /\ layersExist r).
  { subst r. split.
    - eapply separateLayers_player; [|exact (Hs0 Hsep)].
      rewrite player_applyIntensity_fold. reflexivity.
    - clear Hmix. generalize (keys (playingSounds (player st0))).
      intros ks. revert He0 Hex. generalize st0. clear.
      induction ks as [|k ks IH]; intros s He0 Hex; [exact (He0 Hex)|].
      cbn [foldl]. apply (IH (applyIntensityToSound k s) (fun _ => layersExist_applyIntensityToSound k s (He0 Hex)) Hex). }
  destruct Hr as [Hrs Hre].
  destruct (negb fromSync && isGM (host r)).
  - split; [|split].
    + eapply mixApplied_transfer; [| |exact Hmix]; reflexivity.
    + eapply separateLayers_player; [|exact Hrs]. reflexivity.
    + intros k e i. apply Hre.
  - split; [exact Hmix|]. split; assumption.
Qed.

Lemma wellFormed_onPlayer_custom f st :
  (forall p, playingSounds (f p) = playingSounds p) ->
  separateLayers st -> layersExist st ->
  separateLayers (onPlayer f st) /\ layersExist (onPlayer f st).
Proof.
  intros Hf Hs He.
  destruct (wellFormed_transfer st (onPlayer f st)) as [A B];
    [apply Hf | reflexivity | split; auto].
Qed.

Lemma wellFormed_onHost_settings f st :
  (forall h, audio (f h) = audio h) ->
  mixApplied st /\ separateLayers st /\ layersExist st ->
  mixApplied (onHost f st) /\ separateLayers (onHost f st) /\ layersExist (onHost f st).
Proof.
  intros Hf (Hm & Hs & He). split; [|split].
  - eapply mixApplied_transfer; [| |exact Hm]; [reflexivity|apply Hf].
  - eapply separateLayers_player; [|exact Hs]. reflexivity.
  - intros k e i. cbn [host onHost]. rewrite Hf. apply He.
Qed.

(** X7.  Every control of the engine re-applies the mix: after
    [setGlobalIntensity], [setMasterVolume], [setCustomMixEnabled], and
    [setCustomVolume] while the custom mix is enabled, every layer of
    every registered Track Set carries the volume the new mix assigns to
    it (in a state whose Track Sets own existing, separate sound
    objects). *)
Theorem controls_reapply_mix (st : State) :
  separateLayers st ->
  layersExist st ->
  (forall value fromSync, mixApplied (setGlobalIntensity value fromSync st))
  /\ (forall volume, mixApplied (setMasterVolume volume st))
  /\ (forall enabled fromSync, mixApplied (setCustomMixEnabled enabled fromSync st))
  /\ (forall type volume fromSync,
        customMixEnabled (player st) = true ->
        mixApplied (setCustomVolume type volume fromSync st)).
Proof.
  intros Hs He. split; [|split; [|split]].
  - intros value fromSync. apply setGlobalIntensity_wellFormed; assumption.
  - intros volume. unfold setMasterVolume. cbv zeta.
    apply setGlobalIntensity_wellFormed.
    + eapply separateLayers_player; [|exact Hs]. reflexivity.
    + intros k e i. apply He.
  - intros enabled fromSync. unfold setCustomMixEnabled. cbv zeta.
    destruct (wellFormed_onPlayer_custom (set_customMixEnabled enabled) st) as [Hs1 He1];
      [reflexivity|assumption|assumption|].
    pose proof (setGlobalIntensity_wellFormed
                  (intensity (player (onPlayer (set_customMixEnabled enabled) st)))
                  true _ Hs1 He1) as H.
    destruct (negb fromSync && isGM _); [|apply H].
    apply wellFormed_onHost_settings; [reflexivity|exact H].
  - intros type volume fromSync Hc. unfold setCustomVolume. cbv zeta.
    set (st1 := if String.eqb type "high" then _ else _).
    assert (H1 : separateLayers st1 /\ layersExist st1 /\ customMixEnabled (player st1) = true).
    { subst st1.
      destruct (String.eqb type "high");
        [|destruct (String.eqb type "mid"); [|destruct (String.eqb type "low")]];
        try (split; [|split]; [eapply separateLayers_player; [|exact Hs]; reflexivity
                              | intros k e i; apply He | exact Hc]). }
    destruct H1 as (Hs1 & He1 & Hc1). rewrite Hc1.
    pose proof (setGlobalIntensity_wellFormed (intensity (player st1)) true _ Hs1 He1) as H.
    destruct (negb fromSync && isGM _); [|apply H].
    destruct (String.eqb type "high");
      [|destruct (String.eqb type "mid"); [|destruct (String.eqb type "low")]];
      try (apply wellFormed_onHost_settings; [reflexivity|exact H]).
    apply H.
Qed.

(** ** Master volume and custom volumes *)

Lemma settings_setGlobalIntensity value fromSync st :
  settings (host (setGlobalIntensity value fromSync st))
  = (if negb fromSync && isGM (host st)
     then settings_set_currentIntensity (Math_round (clamp01 value * 100)) (settings (host st))
     else settings (host st))
  /\ isGM (host (setGlobalIntensity value fromSync st)) = isGM (host st).
Proof.
  pose proof (host_setGlobalIntensity value fromSync st) as H.
  destruct (host_but_audio _ _ H) as (-> & -> & _).
  destruct (negb fromSync && isGM (host st)); split; reflexivity.
Qed.

Lemma clamp01_idem x : clamp01 (clamp01 x) == clamp01 x.
Proof. apply clamp01_id. apply clamp01_range. Qed.

(** X8.  [setMasterVolume] stores the volume clamped to [0,1] and, on
    every client, GM or not, persists it as a percentage.  Feeding the
    persisted value back through the [onChange] callback of the setting
    stores the same master volume and the same percentage again, and the
    intensity of the engine is not moved when it lies in [0,1]. *)
Theorem setMasterVolume_persists (volume : Q) (st : State) :
  let st' := setMasterVolume volume st in
  let echo := onChange_masterVolume (Settings.masterVolume (settings (host st'))) st' in
  masterVolume (player st') = clamp01 volume
  /\ 0 <= masterVolume (player st') <= 1
  /\ Settings.masterVolume (settings (host st')) = clamp01 volume * 100
  /\ masterVolume (player echo) == masterVolume (player st')
  /\ Settings.masterVolume (settings (host echo))
     == Settings.masterVolume (settings (host st'))
  /\ (0 <= intensity (player st) <= 1 ->
      intensity (player st') == intensity (player st)
      /\ intensity (player echo) == intensity (player st)).
Proof.
  cbv zeta.
  assert (P : forall v s,
            masterVolume (player (setMasterVolume v s)) = clamp01 v
            /\ intensity (player (setMasterVolume v s)) = clamp01 (intensity (player s))
            /\ Settings.masterVolume (settings (host (setMasterVolume v s))) = clamp01 v * 100).
  { intros v s. unfold setMasterVolume. cbv zeta.
    rewrite player_setGlobalIntensity.
    match goal with
    | |- context [settings (host (setGlobalIntensity ?x ?b ?s0))] =>
        destruct (settings_setGlobalIntensity x b s0) as [-> _]
    end.
    cbn [host onHost player onPlayer set_masterVolume isGM set_settings settings
         masterVolume intensity preCombatIntensity].
    destruct (negb false && isSome (preCombatIntensity (player s)));
      destruct (negb false && isGM (host s)); repeat split; reflexivity. }
  destruct (P volume st) as (Hm & Hi & Hs).
  destruct (P (Settings.masterVolume (settings (host (setMasterVolume volume st))) / 100)
              (setMasterVolume volume st)) as (Hm' & Hi' & Hs').
  unfold onChange_masterVolume. rewrite Hm', Hi', Hs', Hi, Hm, Hs.
  pose proof (clamp01_range volume) as R.
  assert (E : clamp01 (clamp01 volume * 100 / 100) == clamp01 volume).
  { rewrite <- (clamp01_idem volume) at 2.
    unfold clamp01 at 1 3.
    assert (Q : clamp01 volume * 100 / 100 == clamp01 volume) by field.
    rewrite Q. reflexivity. }
  split; [reflexivity|]. split; [exact R|]. split; [reflexivity|].
  split; [exact E|]. split; [rewrite E; reflexivity|].
  intros Hr. pose proof (clamp01_id _ Hr) as C. split; [exact C|].
  rewrite <- C at 2. unfold clamp01 at 1 3. rewrite C. reflexivity.
Qed.

Lemma audio_applyIntensity_fold_player ks st :
  player (foldl (fun st soundId => applyIntensityToSound soundId st) st ks) = player st
  /\ set_audio ∅ (host (foldl (fun st soundId => applyIntensityToSound soundId st) st ks))
     = set_audio ∅ (host st).
Proof. split; [apply player_applyIntensity_fold | apply host_applyIntensity_fold]. Qed.

(** X9.  [setCustomVolume] stores the volume clamped to [0,1] in the
    field its [type] names and in no other; a [type] other than
    'high', 'mid' and 'low' changes no custom volume and no setting.
    While the custom mix is disabled the call touches no sound object
    and no other engine field: a custom slider is inaudible until the
    custom mix is enabled. *)
Theorem setCustomVolume_behaviour (type : string) (volume : Q) (fromSync : bool) (st : State) :
  let st' := setCustomVolume type volume fromSync st in
  let custom p := (customHighVolume p, customMidVolume p, customLowVolume p) in
  custom (player st')
  = (if String.eqb type "high"
     then (Some (clamp01 volume), customMidVolume (player st), customLowVolume (player st))
     else if String.eqb type "mid"
     then (customHighVolume (player st), Some (clamp01 volume), customLowVolume (player st))
     else if String.eqb type "low"
     then (customHighVolume (player st), customMidVolume (player st), Some (clamp01 volume))
     else custom (player st))
  /\ (type ∉ ["high"; "mid"; "low"] -> settings (host st') = settings (host st))
  /\ (customMixEnabled (player st) = false ->
      audio (host st') = audio (host st)
      /\ intensity (player st') = intensity (player st)
      /\ forall entry, mixVolumes (player st') entry = mixVolumes (player st) entry)
  /\ (customMixEnabled (player st) = false ->
      type ∉ ["high"; "mid"; "low"] -> st' = st).
Proof.
  cbv zeta. unfold setCustomVolume. cbv zeta.
  set (st1 := if String.eqb type "high" then _ else _).
  assert (H1 : host st1 = host st
               /\ customMixEnabled (player st1) = customMixEnabled (player st)
               /\ intensity (player st1) = intensity (player st)
               /\ masterVolume (player st1) = masterVolume (player st)).
  { subst st1. destruct (String.eqb type "high"); [|destruct (String.eqb type "mid");
      [|destruct (String.eqb type "low")]]; repeat split; reflexivity. }
  destruct H1 as (Hh & Hc & Hi & Hmv).
  set (st2 := if customMixEnabled (player st1) then _ else st1).
  assert (H2 : customHighVolume (player st2) = customHighVolume (player st1)
               /\ customMidVolume (player st2) = customMidVolume (player st1)
               /\ customLowVolume (player st2) = customLowVolume (player st1)
               /\ settings (host st2) = settings (host st)).
  { subst st2. destruct (customMixEnabled (player st1)).
    - rewrite player_setGlobalIntensity. cbn [negb andb].
      destruct (settings_setGlobalIntensity (intensity (player st1)) true st1) as [-> _].
      cbn [negb andb]. rewrite Hh. repeat split; reflexivity.
    - rewrite Hh. repeat split; reflexivity. }
  destruct H2 as (A & B & C & D).
  match goal with
  | |- context [if negb fromSync && isGM (host st2) then ?x else st2] => set (st3 := if negb fromSync && isGM (host st2) then x else st2)
  end.
  assert (H3 : player st3 = player st2 /\ audio (host st3) = audio (host st2)).
  { subst st3. destruct (negb fromSync && isGM (host st2)); [|split; reflexivity].
    destruct (String.eqb type "high"); [|destruct (String.eqb type "mid");
      [|destruct (String.eqb type "low")]]; split; reflexivity. }
  destruct H3 as [Hp3 Ha3]. rewrite Hp3, A, B, C.
  split; [|split; [|split]].
  - subst st1. destruct (String.eqb type "high"); [|destruct (String.eqb type "mid");
      [|destruct (String.eqb type "low")]]; reflexivity.
  - intros Hn. rewrite <- D. subst st3.
    assert (String.eqb type "high" = false /\ String.eqb type "mid" = false
            /\ String.eqb type "low" = false) as (E1 & E2 & E3).
    { repeat split; apply String.eqb_neq; intros ->; apply Hn;
        rewrite !elem_of_cons; tauto. }
    rewrite E1, E2, E3. destruct (negb fromSync && isGM (host st2)); reflexivity.
  - intros Hd.
    assert (E2 : st2 = st1) by (subst st2; rewrite Hc, Hd; reflexivity).
    rewrite Ha3, E2, Hh, Hi.
    split; [reflexivity|]. split; [reflexivity|].
    intros entry. unfold mixVolumes. cbv zeta.
    rewrite Hc, Hd, Hi, Hmv. reflexivity.
  - intros Hd Hn.
    assert (String.eqb type "high" = false /\ String.eqb type "mid" = false
            /\ String.eqb type "low" = false) as (E1 & E2 & E3).
    { repeat split; apply String.eqb_neq; intros ->; apply Hn;
        rewrite !elem_of_cons; tauto. }
    subst st3 st2 st1. rewrite E1, E2, E3. rewrite Hd.
    destruct (negb fromSync && isGM (host st)); reflexivity.
Qed.

(** ** Synchronisation through the settings *)

Lemma Math_round_near x :
  x - 0.5 < inject_Z (Math_round x) /\ inject_Z (Math_round x) <= x + 0.5.
Proof.
  unfold Math_round.
  pose proof (Qfloor_le (x + 0.5)) as Hle.
  pose proof (Qlt_floor (x + 0.5)) as Hlt.
  rewrite inject_Z_plus in Hlt. change (inject_Z 1) with 1 in Hlt.
  split; lra.
Qed.

(** X10.  The GM's intensity reaches the other clients as a whole
    percent: when the GM sets an intensity and a client receives the
    stored [currentIntensity] through the setting's [onChange], the
    client's intensity is that percentage, at most half a percent away
    from the GM's, and the client marks no manual override. *)
Theorem intensity_follows_GM (value : Q) (gm client : State) :
  isGM (host gm) = true ->
  let gm' := setGlobalIntensity value false gm in
  let percent := Settings.currentIntensity (settings (host gm')) in
  let client' := onChange_currentIntensity (inject_Z percent) client in
  intensity (player client') == inject_Z percent / 100
  /\ Qabs (intensity (player client') - intensity (player gm')) <= 0.005
  /\ userOverrideDuringCombat (player client') = userOverrideDuringCombat (player client)
  /\ settings (host client') = settings (host client).
Proof.
  intros Hgm. cbv zeta.
  destruct (settings_setGlobalIntensity value false gm) as [-> _].
  rewrite Hgm. cbn [negb andb Settings.currentIntensity settings_set_currentIntensity].
  unfold onChange_currentIntensity.
  destruct (settings_setGlobalIntensity
              (inject_Z (Math_round (clamp01 value * 100)) / 100) true client) as [-> _].
  rewrite !player_setGlobalIntensity. cbn [negb andb].
  assert (Hi : forall (b : bool) (x : Q) (p : Player), intensity (if b then set_userOverrideDuringCombat true (set_intensity x p)
                                        else set_intensity x p) = x)
    by (intros [] ? ?; reflexivity).
  rewrite Hi. cbn [intensity set_intensity userOverrideDuringCombat].
  pose proof (clamp01_range value) as R.
  pose proof (Math_round_percent _ R) as [P0 P1].
  pose proof (Math_round_near (clamp01 value * 100)) as [N0 N1].
  set (m := Math_round (clamp01 value * 100)) in *.
  assert (M0 : 0 <= inject_Z m) by (change 0 with (inject_Z 0); rewrite <- Zle_Qle; exact P0).
  assert (M1 : inject_Z m <= 100)
    by (change 100 with (inject_Z 100); rewrite <- Zle_Qle; exact P1).
  assert (E : clamp01 (inject_Z m / 100) == inject_Z m / 100).
  { apply clamp01_id. split.
    - apply Qle_shift_div_l; lra.
    - apply Qle_shift_div_r; lra. }
  split; [exact E|]. split; [|split; reflexivity].
  rewrite E. apply Qabs_Qle_condition.
  assert (D : inject_Z m / 100 == inject_Z m * (1 # 100)) by field.
  rewrite D. split; lra.
Qed.

(** ** The fade *)

Lemma easeInOut_range p : 0 <= p <= 1 -> 0 <= easeInOut p <= 1.
Proof.
  intros [H0 H1]. unfold easeInOut.
  destruct (Qltb p 0.5) eqn:E.
  - apply Qltb_true in E. split; nra.
  - apply Qltb_false in E.
    assert (Hq : 1 - (-2 * p + 2) ^ 2 / 2 == 1 - 2 * (1 - p) * (1 - p))
      by (simpl; field).
    rewrite Hq. split; nra.
Qed.

Lemma easeInOut_mono p q : 0 <= p -> p <= q -> q <= 1 -> easeInOut p <= easeInOut q.
Proof.
  intros H0 Hpq H1. unfold easeInOut.
  assert (Hq : forall x, 1 - (-2 * x + 2) ^ 2 / 2 == 1 - 2 * (1 - x) * (1 - x))
    by (intros; simpl; field).
  destruct (Qltb p 0.5) eqn:Ep; destruct (Qltb q 0.5) eqn:Eq;
    rewrite ?Hq;
    repeat match goal with
           | H : Qltb _ _ = true |- _ => apply Qltb_true in H
           | H : Qltb _ _ = false |- _ => apply Qltb_false in H
           end; nra.
Qed.

Lemma easeInOut_ends : easeInOut 0 == 0 /\ easeInOut 1 == 1.
Proof. split; vm_compute; reflexivity. Qed.

Lemma fadeTo_timer target duration upd now st :
  let st' := fadeTo target duration upd now st in
  let id := nextTimer (host st) in
  timers (host st') !! id
  = Some (FadeTimer (mkFade (intensity (player st)) (target - intensity (player st))
                            now duration target upd))
  /\ fadeInterval (player st') = Some id
  /\ nextTimer (host st') = Pos.succ id
  /\ forall other, other <> id ->
       timers (host st') !! other
       = if decide (fadeInterval (player st) = Some other) then None
         else timers (host st) !! other.
Proof.
  cbv zeta. unfold fadeTo.
  destruct (fadeInterval (player st)) as [old|] eqn:E;
    cbn [host player onPlayer onHost setInterval clearInterval set_fadeInterval
         set_timers set_nextTimer timers nextTimer intensity fadeInterval];
    (split; [apply lookup_insert_eq|]); (split; [reflexivity|]);
    (split; [reflexivity|]); intros other Hne;
    rewrite lookup_insert_ne by congruence.
  - case_decide as Hd.
    + inversion Hd; subst. apply lookup_delete_eq.
    + apply lookup_delete_ne. congruence.
  - case_decide as Hd; [discriminate|reflexivity].
Qed.

Lemma intensity_fadeTick_ease f now st :
  intensity (player (fadeTick f now st))
  = clamp01 (startIntensity f
             + delta f * easeInOut (Qmin ((now - startTime f) / fadeDuration f) 1.0)).
Proof. apply intensity_fadeTick. Qed.

Lemma fade_progress now t duration :
  0 < duration -> now <= t ->
  0 <= Qmin ((t - now) / duration) 1.0 <= 1
  /\ (now + duration <= t -> Qmin ((t - now) / duration) 1.0 == 1)
  /\ (t < now + duration -> Qmin ((t - now) / duration) 1.0 < 1).
Proof.
  intros Hd Ht.
  assert (H0 : 0 <= (t - now) / duration) by (apply Qle_shift_div_l; lra).
  split; [|split].
  - split; [apply Q.min_glb; lra | apply Qle_trans with 1.0; [apply Q.le_min_r | lra]].
  - intros Hl. rewrite Q.min_r; [lra|]. apply Qle_shift_div_l; lra.
  - intros Hl. apply Q.min_lt_iff. left. apply Qlt_shift_div_r; lra.
Qed.

(** X11.  A fade never overshoots.  While the timer of
    [fadeTo(target, duration)] runs, each tick leaves the intensity
    between the intensity the fade started from and its target; it moves
    towards the target as time goes on, starts at the start intensity and
    is the target from [duration] ms on. *)
Theorem fade_never_overshoots (target duration now : Q) (upd : bool) (st : State) :
  0 < duration ->
  0 <= intensity (player st) <= 1 ->
  0 <= target <= 1 ->
  let st1 := fadeTo target duration upd now st in
  let at_ t := intensity (player (runTimer (nextTimer (host st)) t st1)) in
  (forall t, now <= t ->
     Qmin (intensity (player st)) target <= at_ t <= Qmax (intensity (player st)) target)
  /\ (forall t1 t2, now <= t1 -> t1 <= t2 ->
        if Qleb (intensity (player st)) target
        then at_ t1 <= at_ t2 else at_ t2 <= at_ t1)
  /\ at_ now == intensity (player st)
  /\ (forall t, now + duration <= t -> at_ t == target).
Proof.
  intros Hd Hi Ht. cbv zeta.
  destruct (fadeTo_timer target duration upd now st) as (Htimer & _).
  cbv zeta in Htimer.
  assert (Hat : forall t, now <= t ->
            exists e, 0 <= e <= 1
              /\ e = easeInOut (Qmin ((t - now) / duration) 1.0)
              /\ intensity (player (runTimer (nextTimer (host st)) t
                                     (fadeTo target duration upd now st)))
                 == intensity (player st) + (target - intensity (player st)) * e).
  { intros t Hnt. unfold runTimer. rewrite Htimer.
    rewrite intensity_fadeTick_ease. cbn [startIntensity delta startTime fadeDuration].
    destruct (fade_progress now t duration Hd Hnt) as (Hp & _).
    pose proof (easeInOut_range _ Hp) as He.
    eexists. split; [exact He|]. split; [reflexivity|].
    apply clamp01_id.
    set (e := easeInOut _) in *. clearbody e. nra. }
  split; [|split; [|split]].
  - intros t Hnt. destruct (Hat t Hnt) as (e & He & _ & Hv). rewrite Hv.
    destruct (Q.min_spec (intensity (player st)) target) as [[? ->]|[? ->]];
      destruct (Q.max_spec (intensity (player st)) target) as [[? ->]|[? ->]];
      split; nra.
  - intros t1 t2 H1 H12.
    destruct (Hat t1 H1) as (e1 & He1 & D1 & Hv1).
    destruct (Hat t2 ltac:(lra)) as (e2 & He2 & D2 & Hv2).
    assert (He : e1 <= e2).
    { subst e1 e2.
      destruct (fade_progress now t1 duration Hd H1) as (Hp1 & _).
      destruct (fade_progress now t2 duration Hd ltac:(lra)) as (Hp2 & _).
      apply easeInOut_mono; [tauto| |tauto].
      apply Q.min_le_compat_r.
      apply Qmult_le_compat_r; [lra|]. apply Qlt_le_weak, Qinv_lt_0_compat, Hd. }
    destruct (Qleb (intensity (player st)) target) eqn:El.
    + apply Qleb_true in El. rewrite Hv1, Hv2. nra.
    + apply Qleb_false in El. rewrite Hv1, Hv2. nra.
  - destruct (Hat now ltac:(lra)) as (e & He & D & Hv). rewrite Hv.
    assert (E0 : e == 0).
    { subst e.
      assert (Z0 : Qmin ((now - now) / duration) 1.0 == 0).
      { assert (Hz : (now - now) / duration == 0) by (field; lra).
        rewrite Hz. apply Q.min_l. lra. }
      unfold easeInOut.
      destruct (Qltb _ 0.5) eqn:E.
      - rewrite Z0. lra.
      - apply Qltb_false in E. rewrite Z0 in E. lra. }
    rewrite E0. lra.
  - intros t Hl. destruct (Hat t ltac:(lra)) as (e & He & D & Hv). rewrite Hv.
    assert (E1 : e == 1).
    { subst e.
      destruct (fade_progress now t duration Hd ltac:(lra)) as (_ & Hp & _).
      specialize (Hp Hl). unfold easeInOut.
      destruct (Qltb _ 0.5) eqn:E.
      - apply Qltb_true in E. rewrite Hp in E. lra.
      - assert (Hq : forall x, 1 - (-2 * x + 2) ^ 2 / 2 == 1 - 2 * (1 - x) * (1 - x))
          by (intros; simpl; field).
        rewrite Hq, Hp. lra. }
    rewrite E1. lra.
Qed.

(** X12.  The life of a fade timer.  Before [duration] ms have passed a
    tick keeps the timer and the engine's handle on it and writes no
    setting; the first tick at or after [duration] ms clears the timer
    and the handle, and on the GM's client stores the target as
    [currentIntensity]; the cleared timer does not fire again.  When the
    fade updates the UI, the slider shows the new intensity in whole
    percent after every tick. *)
Theorem fade_timer_lifecycle (target duration now t : Q) (upd : bool) (st : State) :
  0 < duration ->
  now <= t ->
  0 <= intensity (player st) <= 1 ->
  0 <= target <= 1 ->
  let id := nextTimer (host st) in
  let st1 := fadeTo target duration upd now st in
  let st2 := runTimer id t st1 in
  (t < now + duration ->
   timers (host st2) = timers (host st1)
   /\ fadeInterval (player st2) = Some id
   /\ settings (host st2) = settings (host st))
  /\ (now + duration <= t ->
      timers (host st2) = delete id (timers (host st1))
      /\ fadeInterval (player st2) = None
      /\ settings (host st2)
         = (if isGM (host st)
            then settings_set_currentIntensity (Math_round (target * 100)) (settings (host st))
            else settings (host st))
      /\ forall t', runTimer id t' st2 = st2)
  /\ slider (host st2)
     = (if upd then Math_round (intensity (player st2) * 100) else slider (host st)).
Proof.
  intros Hd Hnt Hi Htg. cbv zeta.
  destruct (fadeTo_timer target duration upd now st) as (Htimer & Hfi & _).
  cbv zeta in Htimer, Hfi.
  destruct (fadeTo_fields target duration upd now st) as (Hint & _ & _ & _ & _ & Hset).
  cbv zeta in Hint, Hset.
  assert (Hgm1 : isGM (host (fadeTo target duration upd now st)) = isGM (host st)
                 /\ slider (host (fadeTo target duration upd now st)) = slider (host st)).
  { unfold fadeTo. destruct (fadeInterval (player st)); split; reflexivity. }
  destruct Hgm1 as [Hgm1 Hsl1].
  set (st1 := fadeTo target duration upd now st) in *.
  unfold runTimer. rewrite Htimer. unfold fadeTick.
  cbn [startIntensity delta startTime fadeDuration targetIntensity updateUI].
  cbv zeta.
  fold (easeInOut (Qmin ((t - now) / duration) 1.0)).
  destruct (fade_progress now t duration Hd Hnt) as (Hp & Hdone & Hrun).
  pose proof (easeInOut_range _ Hp) as He.
  set (progress := Qmin ((t - now) / duration) 1.0) in *.
  set (newI := intensity (player st) + (target - intensity (player st)) * easeInOut progress) in *.
  assert (Hc : clamp01 newI == newI).
  { apply clamp01_id. subst newI. set (e := easeInOut _) in *. clearbody e. nra. }
  pose proof (player_setGlobalIntensity newI true st1) as Hp2.
  pose proof (host_setGlobalIntensity newI true st1) as Hh2.
  cbn [negb andb] in Hp2, Hh2.
  destruct (host_but_audio _ _ Hh2) as (S2 & G2 & T2 & _ & _ & _ & _ & _ & _ & _ & L2).
  set (s2 := setGlobalIntensity newI true st1) in *.
  set (s3 := if upd then onHost (set_slider (Math_round (newI * 100))) s2 else s2).
  assert (H3 : player s3 = player s2 /\ timers (host s3) = timers (host s2)
               /\ settings (host s3) = settings (host s2)
               /\ isGM (host s3) = isGM (host s2)
               /\ slider (host s3)
                  = if upd then Math_round (newI * 100) else slider (host s2)).
  { subst s3. destruct upd; repeat split; reflexivity. }
  destruct H3 as (P3 & T3 & S3 & G3 & L3).
  assert (Hround : Math_round (newI * 100) = Math_round (clamp01 newI * 100)).
  { unfold Math_round. apply Qfloor_comp. rewrite Hc. reflexivity. }
  destruct (Qleb 1.0 progress) eqn:E.
  - apply Qleb_true in E.
    assert (Hfin : now + duration <= t).
    { destruct (Qlt_le_dec t (now + duration)) as [Hl|Hl]; [|exact Hl].
      specialize (Hrun Hl). lra. }
    assert (F3 : fadeInterval (player s3) = Some (nextTimer (host st)))
      by (rewrite P3, Hp2; exact Hfi).
    rewrite F3.
    set (s4 := onPlayer (set_fadeInterval None)
                 (onHost (clearInterval (nextTimer (host st))) s3)).
    assert (H4 : isGM (host s4) = isGM (host st)
                 /\ timers (host s4) = delete (nextTimer (host st)) (timers (host st1))
                 /\ settings (host s4) = settings (host st)
                 /\ fadeInterval (player s4) = None
                 /\ slider (host s4) = slider (host s3)
                 /\ intensity (player s4) = clamp01 newI).
    { subst s4. cbn [host player onPlayer onHost set_fadeInterval clearInterval isGM
                     set_timers timers settings fadeInterval slider intensity].
      rewrite G3, G2, Hgm1, T3, T2, S3, S2, Hset, P3, Hp2.
      repeat split; reflexivity. }
    destruct H4 as (G4 & T4 & S4 & F4 & L4 & I4).
    set (s5 := if isGM (host s4) then _ else s4).
    assert (H5 : timers (host s5) = timers (host s4)
                 /\ settings (host s5)
                    = (if isGM (host st)
                       then settings_set_currentIntensity (Math_round (target * 100))
                              (settings (host st))
                       else settings (host st))
                 /\ player s5 = player s4
                 /\ slider (host s5) = slider (host s4)).
    { subst s5. rewrite G4. destruct (isGM (host st));
        cbn [host player onHost set_settings timers settings slider];
        rewrite ?S4; repeat split; reflexivity. }
    destruct H5 as (T5 & S5 & P5 & L5).
    split; [intros Hl; lra|]. split.
    + intros _. rewrite T5, T4, S5, P5, F4.
      split; [reflexivity|]. split; [reflexivity|]. split; [reflexivity|].
      intros t'. unfold runTimer. rewrite ?T5, ?T4, lookup_delete_eq. reflexivity.
    + rewrite L5, L4, L3, L2, Hsl1, P5, I4.
      destruct upd; first [exact Hround | reflexivity].
  - apply Qleb_false in E.
    split; [|split].
    + intros _. rewrite T3, T2, P3, Hp2, S3, S2, Hset.
      split; [reflexivity|]. split; [exact Hfi | reflexivity].
    + intros Hl. specialize (Hdone Hl). lra.
    + rewrite L3, L2, Hsl1, P3, Hp2. cbn [intensity set_intensity].
      destruct upd; first [exact Hround | reflexivity].
Qed.

(** ** Invariants of a running engine *)

Lemma quiet_refl st : quiet st st.
Proof. repeat split; auto. Qed.

Lemma quiet_trans a b c : quiet a b -> quiet b c -> quiet a c.
Proof.
  intros (A1 & A2 & A3 & A4 & A5 & A6 & A7 & A8) (B1 & B2 & B3 & B4 & B5 & B6 & B7 & B8).
  repeat split; try congruence.
  - intros H. apply A4, B4, H.
  - intros H. apply B4, A4, H.
Qed.

Lemma sameNumbers_refl st : sameNumbers st st.
Proof. repeat split. Qed.

Lemma sameNumbers_trans a b c : sameNumbers a b -> sameNumbers b c -> sameNumbers a c.
Proof.
  intros (A1 & A2 & A3 & A4 & A5 & A6) (B1 & B2 & B3 & B4 & B5 & B6).
  repeat split; congruence.
Qed.

Lemma quiet_timersTracked st st' : quiet st st' -> timersTracked st -> timersTracked st'.
Proof.
  intros (A1 & A2 & _ & _ & A5 & A6 & _) (T1 & T2 & T3).
  unfold timersTracked. rewrite A1, A2, A5, A6. auto.
Qed.

Lemma quiet_layersAllocated st st' : quiet st st' -> layersAllocated st -> layersAllocated st'.
Proof.
  intros (_ & _ & A3 & A4 & _ & _ & _ & A8) (L1 & L2 & L3).
  split; [|split].
  - intros i Hi. rewrite A3. apply L1, A4, Hi.
  - intros k e i. rewrite A8. intros Hk Hi. apply A4. eapply L2; eauto.
  - eapply separateLayers_player; [exact A8 | exact L3].
Qed.

Lemma quiet_monitorWhilePlaying st st' :
  quiet st st' -> monitorWhilePlaying st -> monitorWhilePlaying st'.
Proof.
  intros (_ & _ & _ & _ & _ & A6 & A7 & A8) (M1 & M2).
  unfold monitorWhilePlaying. rewrite A6, A7, A8. auto.
Qed.

Lemma sameNumbers_inRange st st' : sameNumbers st st' -> inRange st -> inRange st'.
Proof.
  intros (A1 & A2 & A3 & A4 & A5 & A6) R. unfold inRange.
  rewrite A1, A2, A3, A4, A5, A6. exact R.
Qed.

Lemma quiet_onSound snd f st : quiet st (onSound snd f st) /\ sameNumbers st (onSound snd f st).
Proof.
  split; [|destruct snd; repeat split; reflexivity].
  repeat split; try (destruct snd; reflexivity).
  - rewrite audio_onSound. case_decide; [rewrite fmap_is_Some|]; auto.
  - rewrite audio_onSound. case_decide; [rewrite fmap_is_Some|]; auto.
Qed.

Lemma quiet_onHost f st :
  (forall h, timers (f h) = timers h /\ nextTimer (f h) = nextTimer h
             /\ nextSound (f h) = nextSound h /\ audio (f h) = audio h) ->
  quiet st (onHost f st) /\ sameNumbers st (onHost f st).
Proof.
  intros H. destruct (H (host st)) as (A & B & C & D).
  split; [|repeat split; reflexivity].
  repeat split; cbn [host onHost player]; try congruence; rewrite D; auto.
Qed.

Lemma quiet_onPlayer f st :
  (forall p, fadeInterval (f p) = fadeInterval p
             /\ driftMonitorInterval (f p) = driftMonitorInterval p
             /\ loadingSounds (f p) = loadingSounds p
             /\ playingSounds (f p) = playingSounds p) ->
  quiet st (onPlayer f st).
Proof.
  intros H. destruct (H (player st)) as (A & B & C & D).
  repeat split; cbn [host onPlayer player]; auto.
Qed.

Lemma quiet_applyIntensityToSound soundId st :
  quiet st (applyIntensityToSound soundId st)
  /\ sameNumbers st (applyIntensityToSound soundId st).
Proof.
  unfold applyIntensityToSound.
  destruct (playingSounds (player st) !! soundId) as [entry|];
    [|split; [apply quiet_refl | apply sameNumbers_refl]].
  cbv zeta.
  repeat match goal with
         | |- context [onSound ?s ?f ?x] =>
             lazymatch goal with
             | H : quiet x (onSound s f x) |- _ => fail
             | _ => destruct (quiet_onSound s f x)
             end
         end.
  split; [eapply quiet_trans; [eapply quiet_trans|]|
          eapply sameNumbers_trans; [eapply sameNumbers_trans|]]; eassumption.
Qed.

Lemma quiet_applyIntensity_fold ks st :
  quiet st (foldl (fun st soundId => applyIntensityToSound soundId st) st ks)
  /\ sameNumbers st (foldl (fun st soundId => applyIntensityToSound soundId st) st ks).
Proof.
  revert st. induction ks as [|k ks IH]; intros st; cbn [foldl].
  - split; [apply quiet_refl | apply sameNumbers_refl].
  - destruct (quiet_applyIntensityToSound k st), (IH (applyIntensityToSound k st)).
    split; [eapply quiet_trans | eapply sameNumbers_trans]; eassumption.
Qed.

Lemma quiet_setGlobalIntensity value fromSync st :
  quiet st (setGlobalIntensity value fromSync st).
Proof.
  unfold setGlobalIntensity. cbv zeta.
  set (st0 := if negb fromSync && isSome _ then _ else _).
  assert (Q0 : quiet st st0).
  { subst st0. destruct (negb fromSync && isSome _);
      [eapply quiet_trans; [|apply quiet_onPlayer; intros; repeat split; reflexivity]|];
      apply quiet_onPlayer; intros; repeat split; reflexivity. }
  destruct (quiet_applyIntensity_fold (keys (playingSounds (player st0))) st0) as [Q1 _].
  set (r := foldl _ st0 _) in *.
  destruct (negb fromSync && isGM (host r)).
  - eapply quiet_trans; [eapply quiet_trans; [exact Q0 | exact Q1]|].
    apply quiet_onHost. intros; repeat split; reflexivity.
  - eapply quiet_trans; eassumption.
Qed.

Lemma inRange_setGlobalIntensity value fromSync st :
  inRange st -> inRange (setGlobalIntensity value fromSync st).
Proof.
  intros (R1 & R2 & R3 & R4 & R5 & R6). unfold inRange.
  rewrite player_setGlobalIntensity.
  pose proof (clamp01_range value).
  destruct (negb fromSync && isSome _); cbn; repeat split; tauto.
Qed.

Lemma quiet_setCustomMixEnabled enabled fromSync st :
  quiet st (setCustomMixEnabled enabled fromSync st)
  /\ (inRange st -> inRange (setCustomMixEnabled enabled fromSync st)).
Proof.
  unfold setCustomMixEnabled. cbv zeta.
  set (st1 := onPlayer (set_customMixEnabled enabled) st).
  assert (Q1 : quiet st st1)
    by (apply quiet_onPlayer; intros; repeat split; reflexivity).
  pose proof (quiet_setGlobalIntensity (intensity (player st1)) true st1) as Q2.
  pose proof (inRange_setGlobalIntensity (intensity (player st1)) true st1) as R2.
  set (st2 := setGlobalIntensity _ true st1) in *.
  assert (R1 : inRange st -> inRange st1) by (intros H; exact H).
  destruct (negb fromSync && isGM (host st2)).
  - split.
    + eapply quiet_trans; [eapply quiet_trans; [exact Q1 | exact Q2]|].
      apply quiet_onHost. intros; repeat split; reflexivity.
    + intros H. apply R2, R1, H.
  - split; [eapply quiet_trans; [exact Q1 | exact Q2] | intros H; apply R2, R1, H].
Qed.

Lemma quiet_setCustomVolume type volume fromSync st :
  quiet st (setCustomVolume type volume fromSync st)
  /\ (inRange st -> inRange (setCustomVolume type volume fromSync st)).
Proof.
  unfold setCustomVolume. cbv zeta.
  set (st1 := if String.eqb type "high" then _ else _).
  pose proof (clamp01_range volume) as C.
  assert (Q1 : quiet st st1 /\ (inRange st -> inRange st1)).
  { subst st1.
    destruct (String.eqb type "high"); [|destruct (String.eqb type "mid");
      [|destruct (String.eqb type "low")]];
      (split; [first [apply quiet_refl
                     | apply quiet_onPlayer; intros; repeat split; reflexivity]
              | intros (R1 & R2 & R3 & R4 & R5 & R6); repeat split; cbn; tauto]). }
  destruct Q1 as [Q1 R1].
  set (st2 := if customMixEnabled (player st1) then _ else st1).
  assert (Q2 : quiet st1 st2 /\ (inRange st1 -> inRange st2)).
  { subst st2. destruct (customMixEnabled (player st1)).
    - split; [apply quiet_setGlobalIntensity | apply inRange_setGlobalIntensity].
    - split; [apply quiet_refl | auto]. }
  destruct Q2 as [Q2 R2].
  match goal with
  | |- quiet st ?x /\ _ => assert (Q3 : quiet st2 x /\ sameNumbers st2 x)
  end.
  { destruct (negb fromSync && isGM (host st2));
      [|split; [apply quiet_refl | apply sameNumbers_refl]].
    destruct (String.eqb type "high"); [|destruct (String.eqb type "mid");
      [|destruct (String.eqb type "low")]];
      first [apply quiet_onHost; intros; repeat split; reflexivity
            | split; [apply quiet_refl | apply sameNumbers_refl]]. }
  destruct Q3 as [Q3 N3]. split.
  - eapply quiet_trans; [eapply quiet_trans; [exact Q1 | exact Q2] | exact Q3].
  - intros H. eapply sameNumbers_inRange; [exact N3|]. apply R2, R1, H.
Qed.

Lemma quiet_setMasterVolume volume st :
  quiet st (setMasterVolume volume st)
  /\ (inRange st -> inRange (setMasterVolume volume st)).
Proof.
  unfold setMasterVolume. cbv zeta.
  set (st1 := onPlayer (set_masterVolume (clamp01 volume)) st).
  set (st2 := onHost _ st1).
  assert (Q1 : quiet st st1)
    by (apply quiet_onPlayer; intros; repeat split; reflexivity).
  assert (Q2 : quiet st1 st2)
    by (apply quiet_onHost; intros; repeat split; reflexivity).
  split.
  - eapply quiet_trans; [eapply quiet_trans; [exact Q1 | exact Q2]|].
    apply quiet_setGlobalIntensity.
  - intros (R1 & R2 & R3 & R4 & R5 & R6). apply inRange_setGlobalIntensity.
    pose proof (clamp01_range volume). repeat split; cbn; tauto.
Qed.

(** *** Timers *)

Lemma timersTracked_stopDriftMonitoring st :
  timersTracked st -> timersTracked (stopDriftMonitoring st).
Proof.
  intros (T1 & T2 & T3). unfold stopDriftMonitoring.
  destruct (driftMonitorInterval (player st)) as [id|] eqn:E;
    [|split; [|split]; try assumption; intros id'; rewrite E; apply T3].
  assert (Hid : timers (host st) !! id = Some DriftTimer) by (apply T3; reflexivity).
  split; [|split];
    cbn [host player onPlayer onHost clearInterval set_timers set_driftMonitorInterval
         timers nextTimer fadeInterval driftMonitorInterval].
  - intros id' t Ht. apply lookup_delete_Some in Ht as [_ Ht]. eapply T1, Ht.
  - intros id'. rewrite <- T2. split; intros [f Hf]; exists f.
    + apply lookup_delete_Some in Hf as [_ Hf]. exact Hf.
    + apply lookup_delete_Some. split; [congruence | exact Hf].
  - intros id'. split; [|discriminate].
    intros Ht. apply lookup_delete_Some in Ht as [Hne Ht].
    apply T3 in Ht. congruence.
Qed.

Lemma timersTracked_startDriftMonitoring st :
  timersTracked st -> timersTracked (startDriftMonitoring st).
Proof.
  intros T. apply timersTracked_stopDriftMonitoring in T.
  pose proof (proj1 (stopDriftMonitoring_halts st)) as Hn.
  unfold startDriftMonitoring. cbv zeta.
  set (s := stopDriftMonitoring st) in *. destruct T as (T1 & T2 & T3).
  unfold setInterval.
  split; [|split];
    cbn [host player set_timers set_nextTimer set_driftMonitorInterval
         timers nextTimer fadeInterval driftMonitorInterval].
  - intros id' t Ht. apply lookup_insert_Some in Ht as [[<- _]|[_ Ht]].
    + apply Pos.lt_succ_diag_r.
    + apply Pos.lt_lt_succ. eapply T1, Ht.
  - intros id'. rewrite <- T2. split; intros [f Hf]; exists f.
    + apply lookup_insert_Some in Hf as [[_ Hf]|[_ Hf]]; [discriminate | exact Hf].
    + apply lookup_insert_Some. right. split; [|exact Hf].
      apply T1 in Hf. intros <-. revert Hf. apply Pos.lt_irrefl.
  - intros id'. split.
    + intros Ht. apply lookup_insert_Some in Ht as [[<- _]|[_ Ht]]; [reflexivity|].
      apply T3 in Ht. congruence.
    + intros [= <-]. apply lookup_insert_eq.
Qed.

Lemma timersTracked_fadeTo target duration upd now st :
  timersTracked st -> timersTracked (fadeTo target duration upd now st).
Proof.
  intros (T1 & T2 & T3).
  destruct (fadeTo_timer target duration upd now st) as (Hnew & Hfi & Hnext & Hother).
  cbv zeta in *.
  set (st' := fadeTo target duration upd now st) in *.
  assert (Hd : driftMonitorInterval (player st') = driftMonitorInterval (player st)).
  { subst st'. unfold fadeTo. destruct (fadeInterval (player st)); reflexivity. }
  assert (Hlook : forall id' t, timers (host st') !! id' = Some t ->
            id' = nextTimer (host st)
            \/ (id' <> nextTimer (host st) /\ timers (host st) !! id' = Some t
                /\ fadeInterval (player st) <> Some id')).
  { intros id' t Ht. destruct (decide (id' = nextTimer (host st))) as [|Hne]; [auto|].
    right. rewrite (Hother id' Hne) in Ht. case_decide; [discriminate|]. auto. }
  split; [|split].
  - intros id' t Ht. rewrite Hnext. destruct (Hlook id' t Ht) as [->|(_ & Ht' & _)].
    + apply Pos.lt_succ_diag_r.
    + apply Pos.lt_lt_succ. eapply T1, Ht'.
  - intros id'. rewrite Hfi. split.
    + intros [f Hf]. destruct (Hlook id' _ Hf) as [->|(_ & Ht' & Hn)]; [reflexivity|].
      exfalso. apply Hn, T2. eauto.
    + intros [= <-]. eauto.
  - intros id'. rewrite Hd, <- T3. split.
    + intros Ht. destruct (Hlook id' _ Ht) as [->|(_ & Ht' & _)]; [|exact Ht'].
      rewrite Hnew in Ht. discriminate.
    + intros Ht.
      assert (Hne : id' <> nextTimer (host st))
        by (apply T1 in Ht; intros ->; revert Ht; apply Pos.lt_irrefl).
      rewrite (Hother id' Hne). case_decide as Hc; [|exact Ht].
      apply T2 in Hc as [f Hf]. congruence.
Qed.

Lemma fadeHandle_frame x st st' :
  player st' = set_fadeInterval x (player st) ->
  audio (host st') = audio (host st) ->
  nextSound (host st') = nextSound (host st) ->
  layersAllocated st /\ inRange st /\ monitorWhilePlaying st ->
  layersAllocated st' /\ inRange st' /\ monitorWhilePlaying st'.
Proof.
  intros Hp Ha Hn ((L1 & L2 & L3) & R & (M1 & M2)).
  split; [|split].
  - split; [|split].
    + intros i. rewrite Ha, Hn. apply L1.
    + intros k e i. rewrite Hp, Ha. apply L2.
    + eapply separateLayers_player; [|exact L3]. rewrite Hp. reflexivity.
  - unfold inRange. rewrite Hp. exact R.
  - unfold monitorWhilePlaying. rewrite Hp. split; assumption.
Qed.

Lemma wellFormed_fadeTo target duration upd now st :
  wellFormed st -> wellFormed (fadeTo target duration upd now st).
Proof.
  intros (T & LRM). split; [apply timersTracked_fadeTo, T|].
  eapply (fadeHandle_frame (Some (nextTimer (host st)))); [| | |exact LRM];
    unfold fadeTo; destruct (fadeInterval (player st)); reflexivity.
Qed.

(** The end of a fade: [clearInterval(this.fadeInterval)] and
    [this.fadeInterval = null]. *)
Lemma timersTracked_clearFade st :
  timersTracked st ->
  timersTracked
    (onPlayer (set_fadeInterval None)
       match fadeInterval (player st) with
       | Some id => onHost (clearInterval id) st
       | None => st
       end).
Proof.
  intros (T1 & T2 & T3).
  destruct (fadeInterval (player st)) as [id|] eqn:E.
  - destruct (proj2 (T2 id) eq_refl) as [f0 Hid].
    split; [|split];
      cbn [host player onPlayer onHost clearInterval set_timers set_fadeInterval
           timers nextTimer fadeInterval driftMonitorInterval].
    + intros id' t Ht. apply lookup_delete_Some in Ht as [_ Ht]. eapply T1, Ht.
    + intros id'. split; [|discriminate].
      intros [f Hf]. apply lookup_delete_Some in Hf as [Hne Hf].
      assert (Some id = Some id') by (apply T2; eauto). congruence.
    + intros id'. rewrite <- T3. split; intros Ht.
      * apply lookup_delete_Some in Ht as [_ Ht]. exact Ht.
      * apply lookup_delete_Some. split; [congruence | exact Ht].
  - split; [|split];
      cbn [host player onPlayer set_fadeInterval timers nextTimer fadeInterval
           driftMonitorInterval]; auto.
Qed.

Lemma wellFormed_quiet st st' :
  quiet st st' -> (inRange st -> inRange st') -> wellFormed st -> wellFormed st'.
Proof.
  intros Q R (T & L & Rg & M).
  split; [|split; [|split]].
  - eapply quiet_timersTracked; eassumption.
  - eapply quiet_layersAllocated; eassumption.
  - auto.
  - eapply quiet_monitorWhilePlaying; eassumption.
Qed.

Lemma wellFormed_fadeTick f now st :
  wellFormed st -> wellFormed (fadeTick f now st).
Proof.
  intros W. unfold fadeTick. cbv zeta.
  set (newI := startIntensity f + _).
  assert (W2 : wellFormed (setGlobalIntensity newI true st)).
  { eapply wellFormed_quiet; [apply quiet_setGlobalIntensity| |exact W].
    apply inRange_setGlobalIntensity. }
  set (s2 := setGlobalIntensity newI true st) in *.
  set (s3 := if updateUI f then _ else s2).
  assert (W3 : wellFormed s3).
  { subst s3. destruct (updateUI f); [|exact W2].
    destruct (quiet_onHost (set_slider (Math_round (newI * 100))) s2) as [Q N];
      [intros; repeat split; reflexivity|].
    eapply wellFormed_quiet; [exact Q | apply sameNumbers_inRange, N | exact W2]. }
  destruct (Qleb 1.0 _); [|exact W3].
  set (s4 := onPlayer (set_fadeInterval None) _).
  assert (W4 : wellFormed s4).
  { destruct W3 as (T & LRM). split; [apply timersTracked_clearFade, T|].
    eapply (fadeHandle_frame None); [| | |exact LRM];
      subst s4; destruct (fadeInterval (player s3)); reflexivity. }
  destruct (isGM (host s4)); [|exact W4].
  match goal with
  | |- wellFormed (onHost ?g s4) =>
      destruct (quiet_onHost g s4) as [Q N]; [intros; repeat split; reflexivity|]
  end.
  eapply wellFormed_quiet; [exact Q | apply sameNumbers_inRange, N | exact W4].
Qed.

(** *** Stopping *)

Lemma layersAllocated_shrink st st' :
  (forall k e, playingSounds (player st') !! k = Some e ->
               playingSounds (player st) !! k = Some e) ->
  (forall i, is_Some (audio (host st') !! i) <-> is_Some (audio (host st) !! i)) ->
  nextSound (host st') = nextSound (host st) ->
  layersAllocated st -> layersAllocated st'.
Proof.
  intros Hs Ha Hn (L1 & L2 & L3). split; [|split].
  - intros i Hi. rewrite Hn. apply L1, Ha, Hi.
  - intros k e i Hk Hi. apply Ha. eapply L2; eauto.
  - intros id1 id2 e1 e2 i H1 H2. eapply L3; eauto.
Qed.

Lemma driftHandle_frame x st st' :
  player st' = set_driftMonitorInterval x (player st) ->
  audio (host st') = audio (host st) ->
  nextSound (host st') = nextSound (host st) ->
  (layersAllocated st -> layersAllocated st') /\ (inRange st -> inRange st').
Proof.
  intros Hp Ha Hn. split.
  - apply layersAllocated_shrink; [rewrite Hp; auto | rewrite Ha; tauto | exact Hn].
  - unfold inRange. rewrite Hp. auto.
Qed.

Lemma stopDriftMonitoring_frame st :
  (layersAllocated st -> layersAllocated (stopDriftMonitoring st))
  /\ (inRange st -> inRange (stopDriftMonitoring st)).
Proof.
  unfold stopDriftMonitoring.
  destruct (driftMonitorInterval (player st)) eqn:E; [|tauto].
  apply (driftHandle_frame None); reflexivity.
Qed.

Lemma startDriftMonitoring_frame st :
  (layersAllocated st -> layersAllocated (startDriftMonitoring st))
  /\ (inRange st -> inRange (startDriftMonitoring st)).
Proof.
  unfold startDriftMonitoring, stopDriftMonitoring. cbv zeta.
  destruct (driftMonitorInterval (player st)) eqn:E;
    eapply driftHandle_frame; reflexivity.
Qed.

Lemma wellFormed_stopAdaptiveSound soundId skipUpdate st :
  wellFormed st -> wellFormed (stopAdaptiveSound soundId skipUpdate st).
Proof.
  intros W. unfold stopAdaptiveSound.
  destruct (playingSounds (player st) !! soundId) as [entry|] eqn:He; [|exact W].
  cbv zeta.
  set (s1 := onSound (highSound entry) Sound.stop
               (onSound (midSound entry) Sound.stop
                  (onSound (lowSound entry) Sound.stop st))).
  assert (W1 : wellFormed s1 /\ playingSounds (player s1) = playingSounds (player st)).
  { subst s1. split; [|rewrite !player_onSound; reflexivity].
    repeat match goal with
           | |- wellFormed (onSound ?s ?f ?x) =>
               destruct (quiet_onSound s f x) as [Q N];
               eapply wellFormed_quiet; [exact Q | apply sameNumbers_inRange, N | clear Q N]
           end.
    exact W. }
  destruct W1 as [(T1 & L1 & R1 & M1 & G1) P1].
  set (s2 := onPlayer (fun p => set_playingSounds (delete soundId (playingSounds p)) p) s1).
  set (s3 := if negb skipUpdate && _ && _ && _ then _ else s2).
  assert (H3 : player s3 = player s2 /\ quiet s2 s3).
  { subst s3. destruct (negb skipUpdate && _ && _ && _);
      [|split; [reflexivity | apply quiet_refl]].
    split; [reflexivity|]. apply quiet_onHost. intros; repeat split; reflexivity. }
  destruct H3 as [P3 Q3].
  assert (T2 : timersTracked s2) by exact T1.
  assert (L2 : layersAllocated s2).
  { eapply layersAllocated_shrink; [| | |exact L1]; [|reflexivity..].
    intros k e Hk. unfold s2 in Hk.
    cbn [player onPlayer set_playingSounds playingSounds] in Hk.
    apply lookup_delete_Some in Hk as [_ Hk]. exact Hk. }
  assert (R2 : inRange s2) by exact R1.
  assert (T3 : timersTracked s3) by (eapply quiet_timersTracked; eassumption).
  assert (L3 : layersAllocated s3) by (eapply quiet_layersAllocated; eassumption).
  assert (R3 : inRange s3) by (unfold inRange; rewrite P3; exact R2).
  assert (Hmap : playingSounds (player s3) = delete soundId (playingSounds (player st))).
  { rewrite P3. subst s2. cbn [player onPlayer set_playingSounds playingSounds].
    rewrite P1. reflexivity. }
  assert (Hd : driftMonitorInterval (player s3) = driftMonitorInterval (player s1)
               /\ loadingSounds (player s3) = loadingSounds (player s1))
    by (rewrite P3; split; reflexivity).
  destruct Hd as [Hd Hl].
  destruct (size (playingSounds (player s3)) =? 0)%nat eqn:Es.
  - apply Nat.eqb_eq, map_size_empty_inv in Es.
    split; [apply timersTracked_stopDriftMonitoring, T3|].
    split; [apply stopDriftMonitoring_frame, L3|].
    split; [apply stopDriftMonitoring_frame, R3|].
    split.
    + rewrite playingSounds_stopDriftMonitoring.
      split; intros _; [exact Es | apply stopDriftMonitoring_halts].
    + unfold stopDriftMonitoring. destruct (driftMonitorInterval (player s3));
        cbn [player onPlayer onHost set_driftMonitorInterval loadingSounds];
        rewrite Hl; exact G1.
  - split; [exact T3|]. split; [exact L3|]. split; [exact R3|]. split.
    + rewrite Hd. split.
      * intros Hn. apply M1 in Hn. rewrite P1 in Hn. rewrite Hn in He.
        rewrite lookup_empty in He. discriminate.
      * intros Hn. rewrite Hn in Es. rewrite map_size_empty in Es. discriminate.
    + rewrite Hl. exact G1.
Qed.

(** *** Starting *)

Lemma timersTracked_same st st' :
  timers (host st') = timers (host st) ->
  nextTimer (host st') = nextTimer (host st) ->
  fadeInterval (player st') = fadeInterval (player st) ->
  driftMonitorInterval (player st') = driftMonitorInterval (player st) ->
  timersTracked st -> timersTracked st'.
Proof.
  intros A B C D T. unfold timersTracked. rewrite A, B, C, D. exact T.
Qed.

Lemma grows_refl st : grows st st.
Proof. repeat split; auto. Qed.

Lemma grows_trans a b c : grows a b -> grows b c -> grows a c.
Proof.
  intros (A1 & A2 & A3 & A4 & A5 & A6) (B1 & B2 & B3 & B4 & B5 & B6).
  split; [congruence|]. split; [congruence|]. split; [congruence|].
  split; [lia|]. split; [auto|].
  intros i Hi. destruct (B6 i Hi) as [Hb|Hb]; [|right; lia].
  destruct (A6 i Hb) as [Ha|Ha]; [left; exact Ha | right; lia].
Qed.

Lemma quiet_grows st st' : quiet st st' -> player st' = player st -> grows st st'.
Proof.
  intros (A1 & A2 & A3 & A4 & _) Hp.
  repeat split; auto; try lia; try (apply A4; assumption).
  intros i Hi. left. apply A4, Hi.
Qed.

Lemma newSound_grows path st :
  grows st (newSound path st).2
  /\ forall i, (newSound path st).1 = Some i ->
       (nextSound (host st) <= i < nextSound (host (newSound path st).2))%nat
       /\ is_Some (audio (host (newSound path st).2) !! i).
Proof.
  unfold newSound. destruct path as [src|]; [|split; [apply grows_refl | discriminate]].
  destruct (truthy (Some src)); [|split; [apply grows_refl | discriminate]].
  cbn [fst snd host player onHost set_nextSound set_audio audio nextSound timers nextTimer].
  split.
  - repeat split; cbn [host player onHost set_nextSound set_audio audio nextSound timers
                       nextTimer]; try lia.
    + intros i Hi. destruct (decide (i = nextSound (host st))) as [->|Hne].
      * rewrite lookup_insert_eq. eauto.
      * rewrite lookup_insert_ne by congruence. exact Hi.
    + intros i Hi. destruct (decide (i = nextSound (host st))) as [->|Hne].
      * right. lia.
      * rewrite lookup_insert_ne in Hi by congruence. left. exact Hi.
  - intros i [= <-]. split; [lia|]. rewrite lookup_insert_eq. eauto.
Qed.

Lemma wellFormed_stop_fold b ks st :
  wellFormed st -> wellFormed (foldl (fun st id => stopAdaptiveSound id b st) st ks).
Proof.
  revert st. induction ks as [|k ks IH]; intros st W; cbn [foldl]; [exact W|].
  apply IH, wellFormed_stopAdaptiveSound, W.
Qed.

Lemma wellFormed_enforceExclusivity snd st :
  wellFormed st -> wellFormed (enforceExclusivity snd st).
Proof.
  intros W. unfold enforceExclusivity.
  destruct (PlaylistSound.parent snd); [|exact W].
  destruct (negb _); [|exact W]. cbv zeta. apply wellFormed_stop_fold, W.
Qed.

Lemma loadSound_quiet snd st st' :
  loadSound snd st = Some st' -> quiet st st' /\ sameNumbers st st'.
Proof.
  unfold loadSound. destruct snd as [i|]; [|intros [= <-]; split;
    [apply quiet_refl | apply sameNumbers_refl]].
  destruct (audio (host st) !! i) as [s|]; [|discriminate]. cbn [mbind option_bind].
  destruct (media (host st) !! Sound.src s) as [d|]; [|discriminate]. cbn [mbind option_bind].
  intros [= <-]. apply (quiet_onSound (Some i)).
Qed.

Lemma wellFormed_playAdaptiveSound snd st :
  wellFormed st -> wellFormed (playAdaptiveSound snd st).
Proof.
  intros W. unfold playAdaptiveSound, playAdaptiveSound_begin.
  case_bool_decide as Hload; [exact W|].
  cbv zeta.
  pose proof (wellFormed_enforceExclusivity snd st W) as W1.
  set (s1 := enforceExclusivity snd st) in *.
  destruct (negb (truthy (PlaylistSound.midIntensityPath snd))
            && negb (truthy (PlaylistSound.lowIntensityPath snd))).
  { destruct (quiet_onHost (fun h => set_log (log h ++ [WarnMissingTracks (PlaylistSound.name snd)]) h) s1)
      as [Q N]; [intros; repeat split; reflexivity|].
    eapply wellFormed_quiet; [exact Q | apply sameNumbers_inRange, N | exact W1]. }
  set (s2 := if isSome (playingSounds (player s1) !! PlaylistSound.id snd) then _ else s1).
  assert (W2 : wellFormed s2).
  { subst s2. destruct (isSome _); [apply wellFormed_stopAdaptiveSound|]; exact W1. }
  destruct W2 as (T2 & (K2 & E2 & S2) & R2 & (M2 & G2)).
  set (s3 := onPlayer (fun p => set_loadingSounds ({[PlaylistSound.id snd]} ∪ loadingSounds p) p) s2).
  destruct (newSound_grows (PlaylistSound.path snd) s3) as [Gh Fh].
  destruct (newSound (PlaylistSound.path snd) s3) as [hi s4] eqn:E4. cbn [fst Datatypes.snd] in Gh, Fh.
  destruct (newSound_grows (PlaylistSound.midIntensityPath snd) s4) as [Gm Fm].
  destruct (newSound (PlaylistSound.midIntensityPath snd) s4) as [mi s5] eqn:E5.
  cbn [fst Datatypes.snd] in Gm, Fm.
  destruct (newSound_grows (PlaylistSound.lowIntensityPath snd) s5) as [Gl Fl].
  destruct (newSound (PlaylistSound.lowIntensityPath snd) s5) as [lo s6] eqn:E6.
  cbn [fst Datatypes.snd] in Gl, Fl.
  set (s7 := if (1 <? _)%nat then _ else s6).
  assert (G7 : grows s3 s7).
  { eapply grows_trans; [exact Gh|]. eapply grows_trans; [exact Gm|].
    eapply grows_trans; [exact Gl|].
    subst s7. destruct (1 <? _)%nat; [|apply grows_refl].
    apply quiet_grows; [|reflexivity].
    apply quiet_onHost. intros; repeat split; reflexivity. }
  assert (Fresh : forall i, Some i ∈ [hi; mi; lo] ->
            (nextSound (host s3) <= i)%nat /\ is_Some (audio (host s7) !! i)).
  { assert (G57 : grows s5 s7).
    { eapply grows_trans; [exact Gl|]. subst s7. destruct (1 <? _)%nat; [|apply grows_refl].
      apply quiet_grows; [|reflexivity].
      apply quiet_onHost. intros; repeat split; reflexivity. }
    assert (G67 : grows s6 s7).
    { subst s7. destruct (1 <? _)%nat; [|apply grows_refl].
      apply quiet_grows; [|reflexivity].
      apply quiet_onHost. intros; repeat split; reflexivity. }
    assert (G47 : grows s4 s7) by (eapply grows_trans; [exact Gm | exact G57]).
    destruct Gh as (_ & _ & _ & N34 & _), Gm as (_ & _ & _ & N45 & _).
    destruct G47 as (_ & _ & _ & _ & A47 & _), G57 as (_ & _ & _ & _ & A57 & _),
             G67 as (_ & _ & _ & _ & A67 & _).
    intros i Hi. rewrite !elem_of_cons in Hi.
    destruct Hi as [Hi|[Hi|[Hi|Hi]]]; [| | |inversion Hi]; symmetry in Hi.
    - destruct (Fh i Hi). split; [lia | auto].
    - destruct (Fm i Hi). split; [lia | auto].
    - destruct (Fl i Hi). split; [lia | auto]. }
  clearbody s7. clear E4 E5 E6 Gh Fh Gm Fm Gl Fl s4 s5 s6.
  destruct G7 as (P7 & Tm7 & Nt7 & Ns7 & A7 & B7).
  assert (P3 : playingSounds (player s7) = playingSounds (player s2)
               /\ loadingSounds (player s7) = {[PlaylistSound.id snd]}
               /\ fadeInterval (player s7) = fadeInterval (player s2)
               /\ driftMonitorInterval (player s7) = driftMonitorInterval (player s2)
               /\ sameNumbers s2 s7).
  { unfold sameNumbers. rewrite P7. subst s3.
    cbn [player onPlayer set_loadingSounds playingSounds loadingSounds
         fadeInterval driftMonitorInterval intensity masterVolume customHighVolume
         customMidVolume customLowVolume preCombatIntensity].
    rewrite G2. split; [reflexivity|]. split; [apply (right_id_L ∅ (∪))|].
    repeat split; reflexivity. }
  destruct P3 as (Pp & Pl & Pf & Pd & Pn).
  assert (T7 : timersTracked s7).
  { eapply timersTracked_same; [| | | |exact T2]; try assumption. }
  assert (K7 : forall i, is_Some (audio (host s7) !! i) -> (i < nextSound (host s7))%nat).
  { intros i Hi. destruct (B7 i Hi) as [Hb|Hb]; [|lia].
    apply K2 in Hb. change (nextSound (host s3)) with (nextSound (host s2)) in Ns7. lia. }
  unfold playAdaptiveSound_loaded.
  destruct (loadSound hi s7 ≫= _) as [s8|] eqn:E8.
  2:{ (* a load failed *)
      unfold playAdaptiveSound_finally.
      split; [|split; [|split; [|split]]].
      - eapply timersTracked_same; [| | | |exact T7]; reflexivity.
      - split; [|split].
        + exact K7.
        + intros k e i Hk Hi. cbn [player onPlayer logEvent onHost set_loadingSounds
                                   playingSounds] in Hk.
          rewrite Pp in Hk. apply A7. eapply E2; eauto.
        + eapply separateLayers_player; [|exact S2].
          cbn [player onPlayer logEvent onHost set_loadingSounds playingSounds]. exact Pp.
      - eapply sameNumbers_inRange; [|exact R2].
        destruct Pn as (N1 & N2 & N3 & N4 & N5 & N6). repeat split; assumption.
      - cbn [player onPlayer logEvent onHost set_loadingSounds playingSounds
             driftMonitorInterval]. rewrite Pd, Pp. exact M2.
      - cbn [player onPlayer logEvent onHost set_loadingSounds loadingSounds].
        rewrite Pl. apply difference_diag_L. }
  (* every load succeeded *)
  assert (Q8 : quiet s7 s8 /\ sameNumbers s7 s8).
  { destruct (loadSound hi s7) as [a|] eqn:Ea; [|discriminate]. cbn [mbind option_bind] in E8.
    destruct (loadSound mi a) as [b|] eqn:Eb; [|discriminate]. cbn [mbind option_bind] in E8.
    destruct (loadSound_quiet _ _ _ Ea), (loadSound_quiet _ _ _ Eb), (loadSound_quiet _ _ _ E8).
    split; [eapply quiet_trans; [eapply quiet_trans|]
           | eapply sameNumbers_trans; [eapply sameNumbers_trans|]]; eassumption. }
  destruct Q8 as [Q8 N8]. cbv zeta.
  set (entry := mkEntry hi mi lo snd false).
  set (s9 := onPlayer (fun p => set_playingSounds
                         (<[PlaylistSound.id snd := entry]> (playingSounds p)) p) s8).
  set (s10 := applyIntensityToSound (PlaylistSound.id snd)
                (onSound lo (Sound.play 0 (PlaylistSound.repeat snd) 0)
                   (onSound mi (Sound.play 0 (PlaylistSound.repeat snd) 0)
                      (onSound hi (Sound.play 0 (PlaylistSound.repeat snd) 0) s9)))).
  set (s11 := if PlaylistSound.isOwner snd then _ else s10).
  assert (Q11 : quiet s9 s11 /\ sameNumbers s9 s11).
  { assert (Q10 : quiet s9 s10 /\ sameNumbers s9 s10).
    { subst s10.
      repeat match goal with
             | |- context [onSound ?s ?f ?x] =>
                 lazymatch goal with
                 | H : quiet x (onSound s f x) |- _ => fail
                 | _ => destruct (quiet_onSound s f x)
                 end
             end.
      match goal with
      | |- context [applyIntensityToSound ?k ?x] => destruct (quiet_applyIntensityToSound k x)
      end.
      split; [eapply quiet_trans; [eapply quiet_trans; [eapply quiet_trans|]|]
             | eapply sameNumbers_trans;
               [eapply sameNumbers_trans; [eapply sameNumbers_trans|]|]]; eassumption. }
    destruct Q10 as [Q10 N10]. subst s11. destruct (PlaylistSound.isOwner snd); [|tauto].
    match goal with
    | |- quiet _ (onHost ?g s10) /\ _ =>
        destruct (quiet_onHost g s10) as [Q N]; [intros; repeat split; reflexivity|]
    end.
    split; [eapply quiet_trans | eapply sameNumbers_trans]; eassumption. }
  destruct Q11 as [Q11 N11].
  destruct Q8 as (Q81 & Q82 & Q83 & Q84 & Q85 & Q86 & Q87 & Q88).
  assert (W9 : timersTracked s9 /\ layersAllocated s9 /\ inRange s9
               /\ loadingSounds (player s9) = {[PlaylistSound.id snd]}
               /\ playingSounds (player s9)
                  = <[PlaylistSound.id snd := entry]> (playingSounds (player s2))).
  { split; [|split; [|split; [|split]]].
    - eapply timersTracked_same; [| | | |exact T7]; assumption.
    - split; [|split].
      + intros i Hi. change (nextSound (host s9)) with (nextSound (host s8)).
        rewrite Q83. apply K7, Q84, Hi.
      + intros k e i Hk Hi. apply Q84.
        cbn [s9 player onPlayer set_playingSounds playingSounds] in Hk.
        rewrite Q88, Pp in Hk. apply lookup_insert_Some in Hk as [[_ <-]|[_ Hk]].
        * apply Fresh. rewrite !elem_of_cons in *. cbn [entry highSound midSound lowSound] in Hi.
          tauto.
        * apply A7. eapply E2; eauto.
      + intros id1 id2 e1 e2 i H1 H2 Hne Hi1 Hi2.
        cbn [s9 player onPlayer set_playingSounds playingSounds] in H1, H2.
        rewrite Q88, Pp in H1, H2.
        assert (Old : forall k e, playingSounds (player s2) !! k = Some e ->
                  Some i ∈ [highSound e; midSound e; lowSound e] ->
                  (i < nextSound (host s2))%nat)
          by (intros k e Hk Hi; eapply K2, E2; eauto).
        assert (New : Some i ∈ [highSound entry; midSound entry; lowSound entry] ->
                  (nextSound (host s2) <= i)%nat)
          by (intros Hi; apply Fresh; exact Hi).
        apply lookup_insert_Some in H1 as [[? <-]|[_ H1]];
          apply lookup_insert_Some in H2 as [[? <-]|[_ H2]].
        * congruence.
        * specialize (New Hi1). specialize (Old _ _ H2 Hi2). lia.
        * specialize (New Hi2). specialize (Old _ _ H1 Hi1). lia.
        * exact (S2 _ _ _ _ _ H1 H2 Hne Hi1 Hi2).
    - destruct N8 as (N1 & N2 & N3 & N4 & N5 & N6).
      eapply sameNumbers_inRange; [|exact R2].
      eapply sameNumbers_trans; [exact Pn|]. repeat split; assumption.
    - cbn [s9 player onPlayer set_playingSounds loadingSounds]. rewrite Q87. exact Pl.
    - cbn [s9 player onPlayer set_playingSounds playingSounds]. rewrite Q88, Pp. reflexivity. }
  destruct W9 as (T9 & L9 & R9 & G9 & P9).
  assert (W11 : timersTracked s11 /\ layersAllocated s11 /\ inRange s11
                /\ loadingSounds (player s11) = {[PlaylistSound.id snd]}
                /\ playingSounds (player s11) <> ∅).
  { split; [eapply quiet_timersTracked; eassumption|].
    split; [eapply quiet_layersAllocated; eassumption|].
    split; [eapply sameNumbers_inRange; eassumption|].
    destruct Q11 as (_ & _ & _ & _ & _ & _ & -> & ->).
    split; [exact G9|]. rewrite P9. apply insert_non_empty. }
  clearbody s11. destruct W11 as (T11 & L11 & R11 & G11 & P11).
  unfold playAdaptiveSound_finish, playAdaptiveSound_finally.
  set (s12 := if isSome (driftMonitorInterval (player s11)) then s11 else _).
  assert (W12 : timersTracked s12 /\ layersAllocated s12 /\ inRange s12
                /\ loadingSounds (player s12) = {[PlaylistSound.id snd]}
                /\ playingSounds (player s12) <> ∅
                /\ driftMonitorInterval (player s12) <> None).
  { subst s12. destruct (driftMonitorInterval (player s11)) eqn:Ed; cbn [isSome].
    - rewrite Ed. split; [exact T11|]. split; [exact L11|]. split; [exact R11|].
      split; [exact G11|]. split; [exact P11 | discriminate].
    - split; [apply timersTracked_startDriftMonitoring, T11|].
      split; [apply startDriftMonitoring_frame, L11|].
      split; [apply startDriftMonitoring_frame, R11|].
      unfold startDriftMonitoring, stopDriftMonitoring. rewrite Ed. cbv zeta.
      cbn [setInterval player set_driftMonitorInterval loadingSounds playingSounds
           driftMonitorInterval].
      split; [exact G11|]. split; [exact P11 | discriminate]. }
  clearbody s12. destruct W12 as (T12 & L12 & R12 & G12 & P12 & D12).
  split; [|split; [|split; [|split]]].
  - eapply timersTracked_same; [| | | |exact T12]; reflexivity.
  - eapply layersAllocated_shrink; [| | |exact L12]; [auto|reflexivity..].
  - exact R12.
  - cbn [player onPlayer set_loadingSounds driftMonitorInterval playingSounds]. tauto.
  - cbn [player onPlayer set_loadingSounds loadingSounds]. rewrite G12.
    apply difference_diag_L.
Qed.

(** *** The monitor, the hooks and the host *)

Lemma quiet_checkDrift soundId entry primary baseTime secondary label st :
  quiet st (checkDrift soundId entry primary baseTime secondary label st)
  /\ sameNumbers st (checkDrift soundId entry primary baseTime secondary label st).
Proof.
  unfold checkDrift.
  destruct secondary as [i|]; [|split; [apply quiet_refl | apply sameNumbers_refl]].
  destruct (audio (host st) !! i) as [s|];
    [|split; [apply quiet_refl | apply sameNumbers_refl]].
  destruct (negb (Sound.playing s)); [split; [apply quiet_refl | apply sameNumbers_refl]|].
  cbv zeta. destruct (Qltb 0.1 _); [|split; [apply quiet_refl | apply sameNumbers_refl]].
  set (s1 := logEvent _ st).
  destruct (quiet_onHost (fun h => set_log (log h ++ [WarnDrift (PlaylistSound.name (sound entry)) label
                                     (Qabs (Sound.currentTime s - baseTime))]) h) st)
    as [Q1 N1]; [intros; repeat split; reflexivity|].
  fold (logEvent (WarnDrift (PlaylistSound.name (sound entry)) label
                    (Qabs (Sound.currentTime s - baseTime))) st) in Q1, N1.
  fold s1 in Q1, N1.
  destruct (quiet_onSound (Some i) Sound.stop s1) as [Q2 N2].
  set (s2 := onSound (Some i) Sound.stop s1) in *.
  match goal with
  | |- context [onSound (Some i) ?f s2] =>
      destruct (quiet_onSound (Some i) f s2) as [Q3 N3];
      set (s3 := onSound (Some i) f s2) in *
  end.
  destruct (quiet_applyIntensityToSound soundId s3) as [Q4 N4].
  split.
  - exact (quiet_trans _ _ _ (quiet_trans _ _ _ (quiet_trans _ _ _ Q1 Q2) Q3) Q4).
  - exact (sameNumbers_trans _ _ _
             (sameNumbers_trans _ _ _ (sameNumbers_trans _ _ _ N1 N2) N3) N4).
Qed.

Lemma wellFormed_driftCheckEntry soundId entry st :
  wellFormed st -> wellFormed (driftCheckEntry soundId entry st).
Proof.
  intros W. unfold driftCheckEntry.
  destruct (primaryOf entry) as [pi|]; [|exact W].
  destruct (audio (host st) !! pi) as [p|]; [|exact W].
  destruct (negb (Sound.playing p)); [exact W|].
  destruct (negb (PlaylistSound.repeat (sound entry)) && _ && _);
    [apply wellFormed_stopAdaptiveSound, W|].
  cbv zeta.
  assert (Step : forall b secondary label s,
            wellFormed s ->
            wellFormed (if b : bool
                        then checkDrift soundId entry pi (Sound.currentTime p) secondary label s
                        else s)).
  { intros b secondary label s Ws. destruct b; [|exact Ws].
    destruct (quiet_checkDrift soundId entry pi (Sound.currentTime p) secondary label s).
    eapply wellFormed_quiet; [eassumption | apply sameNumbers_inRange; eassumption | exact Ws]. }
  apply Step, Step, Step, W.
Qed.

Lemma wellFormed_driftTick st : wellFormed st -> wellFormed (driftTick st).
Proof.
  intros W. unfold driftTick.
  destruct (size (playingSounds (player st)) =? 0)%nat eqn:Es.
  - apply Nat.eqb_eq, map_size_empty_inv in Es.
    destruct W as (T & L & R & M & G).
    split; [apply timersTracked_stopDriftMonitoring, T|].
    split; [apply stopDriftMonitoring_frame, L|].
    split; [apply stopDriftMonitoring_frame, R|].
    split.
    + rewrite playingSounds_stopDriftMonitoring.
      split; intros _; [exact Es | apply stopDriftMonitoring_halts].
    + unfold stopDriftMonitoring. destruct (driftMonitorInterval (player st)); exact G.
  - generalize (map_to_list (playingSounds (player st))). intros l.
    clear Es. revert st W. induction l as [|[k e] l IH]; intros st W; cbn [foldl]; [exact W|].
    apply IH, wellFormed_driftCheckEntry, W.
Qed.

Lemma wellFormed_runTimer id now st : wellFormed st -> wellFormed (runTimer id now st).
Proof.
  intros W. unfold runTimer.
  destruct (timers (host st) !! id) as [[f|]|];
    [apply wellFormed_fadeTick | apply wellFormed_driftTick |]; exact W.
Qed.

Lemma wellFormed_deletePlaylist playlist st :
  wellFormed st -> wellFormed (deletePlaylist playlist st).
Proof.
  unfold deletePlaylist. generalize (map_to_list (playingSounds (player st))). intros l.
  revert st. induction l as [|[k e] l IH]; intros st W; cbn [foldl]; [exact W|].
  apply IH. destruct (sameContainer playlist e);
    [apply wellFormed_stopAdaptiveSound|]; exact W.
Qed.

Lemma wellFormed_combatStart now st : wellFormed st -> wellFormed (combatStart now st).
Proof.
  intros W. unfold combatStart.
  destruct (negb _); [exact W|]. cbv zeta.
  apply wellFormed_fadeTo.
  destruct (preCombatIntensity (player st)) eqn:E; [exact W|].
  destruct W as (T & L & R & M).
  split; [exact T|]. split; [exact L|]. split; [|exact M].
  destruct R as (R1 & R2 & R3 & R4 & R5 & R6). repeat split; cbn; tauto.
Qed.

Lemma wellFormed_deleteCombat combat now st :
  wellFormed st -> wellFormed (deleteCombat combat now st).
Proof.
  intros W. unfold deleteCombat.
  destruct (negb _); [exact W|]. destruct (0 <? _)%nat; [exact W|]. cbv zeta.
  set (s1 := if negb (userOverrideDuringCombat (player st)) && _ then _ else st).
  assert (W1 : wellFormed s1).
  { subst s1. destruct (negb _ && _); [|exact W].
    destruct (preCombatIntensity (player st)); [apply wellFormed_fadeTo|]; exact W. }
  destruct W1 as (T & L & R & M).
  split; [exact T|]. split; [exact L|]. split; [|exact M].
  destruct R as (R1 & R2 & R3 & R4 & R5 & R6). repeat split; cbn; tauto.
Qed.

Lemma wellFormed_documentChanged snd st :
  wellFormed st -> wellFormed (documentChanged snd st).
Proof.
  intros (T & (K & E & S) & R & (M & G)).
  assert (Hl : forall k e, playingSounds (player (documentChanged snd st)) !! k = Some e ->
             exists e0, playingSounds (player st) !! k = Some e0
                        /\ highSound e = highSound e0 /\ midSound e = midSound e0
                        /\ lowSound e = lowSound e0).
  { intros k e. cbn [documentChanged player onPlayer set_playingSounds playingSounds].
    destruct (decide (k = PlaylistSound.id snd)) as [->|Hne].
    - rewrite lookup_alter_eq.
      destruct (playingSounds (player st) !! PlaylistSound.id snd) as [e0|]; [|discriminate].
      intros [= <-]. exists e0. repeat split; reflexivity.
    - rewrite lookup_alter_ne by congruence. intros H. exists e. repeat split; auto. }
  split; [exact T|]. split; [|split; [exact R|]].
  - split; [exact K|]. split.
    + intros k e i Hk Hi. destruct (Hl k e Hk) as (e0 & H0 & -> & -> & ->) in Hi.
      eapply E; eauto.
    + intros id1 id2 e1 e2 i H1 H2 Hne Hi1.
      destruct (Hl _ _ H1) as (a & Ha & A1 & A2 & A3).
      destruct (Hl _ _ H2) as (b & Hb & B1 & B2 & B3).
      rewrite A1, A2, A3 in Hi1. rewrite B1, B2, B3.
      exact (S id1 id2 a b i Ha Hb Hne Hi1).
  - split; [|exact G].
    cbn [documentChanged player onPlayer set_playingSounds playingSounds driftMonitorInterval].
    rewrite M. split.
    + intros ->. apply map_eq. intros k. rewrite lookup_alter, lookup_empty.
      destruct (decide _); reflexivity.
    + intros H. apply map_eq. intros k. rewrite lookup_empty.
      assert (Hk : alter (fun e => mkEntry (highSound e) (midSound e) (lowSound e) snd
                                     (needsInitialSync e))
                     (PlaylistSound.id snd) (playingSounds (player st)) !! k = None)
        by (rewrite H; apply lookup_empty).
      destruct (decide (k = PlaylistSound.id snd)) as [->|Hne].
      * rewrite lookup_alter_eq in Hk.
        destruct (playingSounds (player st) !! PlaylistSound.id snd); [discriminate|reflexivity].
      * rewrite lookup_alter_ne in Hk by congruence. exact Hk.
Qed.

Lemma wellFormed_construct h :
  timers h = ∅ -> audio h = ∅ -> settingsInRange (settings h) -> wellFormed (construct h).
Proof.
  intros Ht Ha (S1 & S2 & S3 & S4 & S5).
  split; [|split; [|split]].
  - split; [|split]; cbn [construct host player timers fadeInterval driftMonitorInterval];
      rewrite Ht.
    + intros id t H. rewrite lookup_empty in H. discriminate.
    + intros id. split; [intros [f H]; rewrite lookup_empty in H|]; discriminate.
    + intros id. split; [intros H; rewrite lookup_empty in H|]; discriminate.
  - split; [|split].
    + intros i [s H]. cbn [construct host] in H. rewrite Ha, lookup_empty in H. discriminate.
    + intros k e i H. cbn [construct player playingSounds] in H.
      rewrite lookup_empty in H. discriminate.
    + intros id1 id2 e1 e2 i H. cbn [construct player playingSounds] in H.
      rewrite lookup_empty in H. discriminate.
  - cbn [inRange construct player intensity masterVolume customHighVolume customMidVolume
         customLowVolume preCombatIntensity unitOrUnset].
    destruct S1 as [Z0 Z1].
    assert (0 <= inject_Z (Settings.currentIntensity (settings h)))
      by (change 0 with (inject_Z 0); rewrite <- Zle_Qle; exact Z0).
    assert (inject_Z (Settings.currentIntensity (settings h)) <= 100)
      by (change 100 with (inject_Z 100); rewrite <- Zle_Qle; exact Z1).
    repeat split; try tauto;
      first [apply Qle_shift_div_l; lra | apply Qle_shift_div_r; lra].
  - split; [|reflexivity]. split; reflexivity.
Qed.

Lemma wellFormed_serve now e st : wellFormed st -> wellFormed (serve now e st).
Proof.
  intros W. destruct e; cbn [serve].
  - eapply wellFormed_quiet; [apply quiet_setGlobalIntensity| |exact W].
    apply inRange_setGlobalIntensity.
  - apply wellFormed_fadeTo, W.
  - destruct (quiet_setCustomMixEnabled enabled fromSync st).
    eapply wellFormed_quiet; eassumption.
  - destruct (quiet_setCustomVolume type volume fromSync st).
    eapply wellFormed_quiet; eassumption.
  - destruct (quiet_setMasterVolume volume st).
    eapply wellFormed_quiet; eassumption.
  - apply wellFormed_playAdaptiveSound, W.
  - apply wellFormed_stopAdaptiveSound, W.
  - destruct (quiet_applyIntensityToSound soundId st).
    eapply wellFormed_quiet; [eassumption | apply sameNumbers_inRange; eassumption | exact W].
  - apply wellFormed_deletePlaylist, W.
  - apply wellFormed_combatStart, W.
  - apply wellFormed_deleteCombat, W.
  - apply wellFormed_runTimer, W.
  - apply wellFormed_documentChanged, W.
  - destruct (quiet_onSound (Some i) (fun s => Sound.mk (Sound.src s) (Sound.playing s)
                                (Sound.volume s) t (Sound.duration s) (Sound.loop s)) st).
    eapply wellFormed_quiet; [eassumption | apply sameNumbers_inRange; eassumption | exact W].
  - destruct (quiet_onHost (fun h => mkHost (audio h) (nextSound h) (timers h) (nextTimer h)
                              (media h) (settings h) (isGM h) (playlists h) cs (slider h)
                              (log h) (requests h)) st) as [Q N];
      [intros; repeat split; reflexivity|].
    eapply wellFormed_quiet; [exact Q | apply sameNumbers_inRange; exact N | exact W].
Qed.

Lemma reachable_wellFormed st : reachable st -> wellFormed st.
Proof.
  induction 1 as [h Ht Ha Hs | now e st _ _ IH].
  - apply wellFormed_construct; assumption.
  - apply wellFormed_serve, IH.
Qed.

(** X13.  No timer is lost.  In every state a running engine reaches,
    each timer of the page is one the engine holds the handle of: there
    is at most one fade timer, and it is [fadeInterval]; there is at most
    one drift monitor, and it is [driftMonitorInterval]; and a handle the
    engine holds is that of a live timer. *)
Theorem reachable_timers_tracked (st : State) :
  reachable st ->
  timersTracked st
  /\ (forall id1 id2 f1 f2,
        timers (host st) !! id1 = Some (FadeTimer f1) ->
        timers (host st) !! id2 = Some (FadeTimer f2) -> id1 = id2)
  /\ (forall id1 id2,
        timers (host st) !! id1 = Some DriftTimer ->
        timers (host st) !! id2 = Some DriftTimer -> id1 = id2)
  /\ (forall id, fadeInterval (player st) = Some id \/ driftMonitorInterval (player st) = Some id ->
        is_Some (timers (host st) !! id)).
Proof.
  intros H. destruct (reachable_wellFormed st H) as (T & _).
  split; [exact T|]. destruct T as (T1 & T2 & T3).
  split; [|split].
  - intros id1 id2 f1 f2 H1 H2.
    assert (E1 : fadeInterval (player st) = Some id1) by (apply T2; eauto).
    assert (E2 : fadeInterval (player st) = Some id2) by (apply T2; eauto).
    congruence.
  - intros id1 id2 H1 H2. apply T3 in H1, H2. congruence.
  - intros id [Hf|Hd].
    + apply T2 in Hf as [f Hf]. eauto.
    + apply T3 in Hd. eauto.
Qed.

(** X14.  In every state a running engine reaches, the layers of the
    registered Track Sets are existing sound objects and no sound object
    is a layer of two Track Sets (nor will the next one created be). *)
Theorem reachable_layers_separate (st : State) :
  reachable st ->
  layersExist st
  /\ separateLayers st
  /\ (forall k e i,
        playingSounds (player st) !! k = Some e ->
        Some i ∈ [highSound e; midSound e; lowSound e] ->
        (i < nextSound (host st))%nat).
Proof.
  intros H. destruct (reachable_wellFormed st H) as (_ & (K & E & S) & _).
  split; [exact E|]. split; [exact S|].
  intros k e i Hk Hi. eapply K, E; eauto.
Qed.

(** X15.  In every state a running engine reaches, the intensity, the
    master volume, the custom volumes and the stored pre-combat
    intensity lie in [0,1]; so every volume the mix computes for a sound
    whose own volume lies in [0,1] lies in [0,1] too. *)
Theorem reachable_in_range (st : State) :
  reachable st ->
  inRange st
  /\ forall entry l,
       unitOrUnset (PlaylistSound.volume (sound entry)) ->
       0 <= layerVolume (mixVolumes (player st) entry) l <= 1.
Proof.
  intros H. destruct (reachable_wellFormed st H) as (_ & _ & R & _).
  split; [exact R|]. destruct R as (R1 & R2 & R3 & R4 & R5 & R6).
  intros entry l Hv.
  destruct (mixVolumes_range (player st) entry l) as [[A B] C]; try assumption.
  split; [exact A | lra].
Qed.

(** X16.  In every state a running engine reaches, the drift monitor
    runs exactly while a Track Set is registered, and no load is
    pending. *)
Theorem reachable_monitor_while_playing (st : State) :
  reachable st ->
  (driftMonitorInterval (player st) = None <-> playingSounds (player st) = ∅)
  /\ ((exists id, timers (host st) !! id = Some DriftTimer)
      <-> playingSounds (player st) <> ∅)
  /\ loadingSounds (player st) = ∅.
Proof.
  intros H. destruct (reachable_wellFormed st H) as ((_ & _ & T3) & _ & _ & (M & G)).
  split; [exact M|]. split; [|exact G]. split.
  - intros [id Hid] He. apply T3 in Hid. apply M in He. congruence.
  - intros Hne. destruct (driftMonitorInterval (player st)) as [id|] eqn:E.
    + exists id. apply T3. reflexivity.
    + exfalso. apply Hne, M. reflexivity.
Qed.

(** The example sessions are states of a running engine. *)
Lemma reachable_sessionA : reachable sessionA.
Proof.
  change sessionA
    with (serve 0 (EvDocumentChanged (nowPlaying soundA))
            (serve 0 (EvPlayAdaptiveSound soundA) (construct (host session0)))).
  do 2 (apply reachable_serve; [exact I|]). apply reachable_construct.
  - reflexivity.
  - reflexivity.
  - repeat split; vm_compute; discriminate.
Qed.

Lemma reachable_sessionTwo : reachable sessionTwo.
Proof.
  change sessionTwo
    with (serve 0 (EvAudioClock 3 7.3)
            (serve 0 (EvAudioClock 4 7)
               (serve 0 (EvDocumentChanged (nowPlaying soundS))
                  (serve 0 (EvPlayAdaptiveSound soundS)
                     (serve 0 (EvAudioClock 0 42)
                        (serve 0 (EvAudioClock 1 41.85)
                           (serve 0 (EvAudioClock 2 42) sessionA))))))).
  do 7 (apply reachable_serve; [exact I|]). apply reachable_sessionA.
Qed.

Lemma reachable_sessionCombat : reachable sessionCombat.
Proof.
  change sessionCombat with (serve 16 (EvTimer 2) (serve 0 EvCombatStart sessionA)).
  do 2 (apply reachable_serve; [exact I|]). apply reachable_sessionA.
Qed.

(** ** The monitor at the end of a track and on Track Sets in sync *)

Lemma requestsGrow_refl st : requestsGrow st st.
Proof. split; [reflexivity|]. exists []. rewrite app_nil_r. reflexivity. Qed.

Lemma requestsGrow_trans a b c : requestsGrow a b -> requestsGrow b c -> requestsGrow a c.
Proof.
  intros [A1 [r1 A2]] [B1 [r2 B2]]. split; [congruence|].
  exists (r1 ++ r2). rewrite B2, A2, app_assoc. reflexivity.
Qed.

Lemma requestsGrow_same st st' :
  playlists (host st') = playlists (host st) ->
  requests (host st') = requests (host st) ->
  requestsGrow st st'.
Proof. intros A B. split; [exact A|]. exists []. rewrite app_nil_r. exact B. Qed.

Lemma documents_onSound snd f st :
  playlists (host (onSound snd f st)) = playlists (host st)
  /\ requests (host (onSound snd f st)) = requests (host st)
  /\ log (host (onSound snd f st)) = log (host st).
Proof. destruct snd; repeat split; reflexivity. Qed.

Lemma documents_applyIntensityToSound soundId st :
  playlists (host (applyIntensityToSound soundId st)) = playlists (host st)
  /\ requests (host (applyIntensityToSound soundId st)) = requests (host st)
  /\ log (host (applyIntensityToSound soundId st)) = log (host st).
Proof.
  pose proof (host_applyIntensity_fold [soundId] st) as H. cbn [foldl] in H.
  destruct (host_but_audio _ _ H) as (_ & _ & _ & _ & A & B & _ & C & _).
  auto.
Qed.

Lemma documents_stopDriftMonitoring st :
  playlists (host (stopDriftMonitoring st)) = playlists (host st)
  /\ requests (host (stopDriftMonitoring st)) = requests (host st)
  /\ log (host (stopDriftMonitoring st)) = log (host st).
Proof.
  unfold stopDriftMonitoring. destruct (driftMonitorInterval (player st));
    repeat split; reflexivity.
Qed.

(** What [_stopAdaptiveSound] asks of the host for a registered Track
    Set. *)
Lemma requests_stopAdaptiveSound soundId skipUpdate st entry :
  playingSounds (player st) !! soundId = Some entry ->
  let st' := stopAdaptiveSound soundId skipUpdate st in
  playlists (host st') = playlists (host st)
  /\ log (host st') = log (host st)
  /\ requests (host st')
     = requests (host st)
       ++ (if negb skipUpdate && PlaylistSound.isOwner (sound entry)
              && PlaylistSound.playing (sound entry)
              && match PlaylistSound.parent (sound entry) with
                 | Some pl => bool_decide (Playlist.id pl ∈ playlists (host st))
                 | None => false
                 end
           then [UpdatePlaying (PlaylistSound.id (sound entry)) false] else []).
Proof.
  intros He. cbv zeta. unfold stopAdaptiveSound. rewrite He. cbv zeta.
  set (s1 := onSound (highSound entry) Sound.stop
               (onSound (midSound entry) Sound.stop
                  (onSound (lowSound entry) Sound.stop st))).
  assert (H1 : playlists (host s1) = playlists (host st)
               /\ requests (host s1) = requests (host st)
               /\ log (host s1) = log (host st)).
  { subst s1. destruct (highSound entry), (midSound entry), (lowSound entry);
      repeat split; reflexivity. }
  destruct H1 as (A & B & C).
  set (s2 := onPlayer _ s1).
  change (playlists (host s2)) with (playlists (host s1)). rewrite A.
  set (c := negb skipUpdate && _ && _ && _).
  set (s3 := if c then _ else s2).
  assert (H3 : playlists (host s3) = playlists (host st)
               /\ log (host s3) = log (host st)
               /\ requests (host s3)
                  = requests (host st)
                    ++ (if c then [UpdatePlaying (PlaylistSound.id (sound entry)) false]
                        else [])).
  { subst s3. destruct c; cbn [host onHost onPlayer set_requests playlists log requests];
      change (host s2) with (host s1); rewrite ?A, ?B, ?C, ?app_nil_r; repeat split;
      reflexivity. }
  destruct H3 as (A3 & C3 & B3).
  destruct (size _ =? 0)%nat.
  - destruct (documents_stopDriftMonitoring s3) as (-> & -> & ->). auto.
  - auto.
Qed.

Lemma requestsGrow_stopAdaptiveSound soundId skipUpdate st :
  requestsGrow st (stopAdaptiveSound soundId skipUpdate st).
Proof.
  destruct (playingSounds (player st) !! soundId) as [entry|] eqn:He.
  - destruct (requests_stopAdaptiveSound soundId skipUpdate st entry He) as (A & _ & B).
    split; [exact A|]. eexists. exact B.
  - unfold stopAdaptiveSound. rewrite He. apply requestsGrow_refl.
Qed.

Lemma documents_checkDrift soundId entry primary baseTime secondary label st :
  playlists (host (checkDrift soundId entry primary baseTime secondary label st))
  = playlists (host st)
  /\ requests (host (checkDrift soundId entry primary baseTime secondary label st))
     = requests (host st).
Proof.
  unfold checkDrift.
  destruct secondary as [i|]; [|auto].
  destruct (audio (host st) !! i) as [s|]; [|auto].
  destruct (negb (Sound.playing s)); [auto|].
  cbv zeta. destruct (Qltb 0.1 _); [|auto].
  match goal with
  | |- context [applyIntensityToSound soundId ?x] =>
      destruct (documents_applyIntensityToSound soundId x) as (-> & -> & _)
  end.
  split; reflexivity.
Qed.

Lemma requestsGrow_driftCheckEntry soundId entry st :
  requestsGrow st (driftCheckEntry soundId entry st).
Proof.
  unfold driftCheckEntry.
  destruct (primaryOf entry) as [pi|]; [|apply requestsGrow_refl].
  destruct (audio (host st) !! pi) as [p|]; [|apply requestsGrow_refl].
  destruct (negb (Sound.playing p)); [apply requestsGrow_refl|].
  destruct (negb (PlaylistSound.repeat (sound entry)) && _ && _);
    [apply requestsGrow_stopAdaptiveSound|].
  cbv zeta.
  assert (Step : forall (b : bool) secondary label s,
            requestsGrow s (if b
                            then checkDrift soundId entry pi (Sound.currentTime p)
                                   secondary label s
                            else s)).
  { intros b secondary label s. destruct b; [|apply requestsGrow_refl].
    destruct (documents_checkDrift soundId entry pi (Sound.currentTime p) secondary label s).
    apply requestsGrow_same; assumption. }
  eapply requestsGrow_trans; [eapply requestsGrow_trans|]; apply Step.
Qed.

Lemma requestsGrow_driftLoop (l : list (string * Entry)) st :
  requestsGrow st (foldl (fun st '(soundId, entry) => driftCheckEntry soundId entry st) st l).
Proof.
  revert st. induction l as [|[k e] l IH]; intros st; cbn [foldl].
  - apply requestsGrow_refl.
  - eapply requestsGrow_trans; [apply requestsGrow_driftCheckEntry | apply IH].
Qed.

(** The end of a track, for the whole tick: a Track Set that does not
    loop and whose playing primary layer is within 0.2 s of its end is
    stopped, whatever other Track Sets are registered. *)
Lemma driftTick_stops_at_end (soundId : string) (entry : Entry) (st : State)
    (pi : nat) (p : Sound.t) :
  separateLayers st ->
  playingSounds (player st) !! soundId = Some entry ->
  primaryOf entry = Some pi ->
  audio (host st) !! pi = Some p ->
  Sound.playing p = true ->
  PlaylistSound.repeat (sound entry) = false ->
  0 < Sound.duration p ->
  Sound.duration p - 0.2 <= Sound.currentTime p ->
  let st' := driftTick st in
  playingSounds (player st') !! soundId = None
  /\ (forall i s,
        Some i ∈ [highSound entry; midSound entry; lowSound entry] ->
        audio (host st) !! i = Some s ->
        audio (host st') !! i = Some (Sound.stop s))
  /\ (PlaylistSound.isOwner (sound entry) = true ->
      PlaylistSound.playing (sound entry) = true ->
      (exists pl, PlaylistSound.parent (sound entry) = Some pl
                  /\ Playlist.id pl ∈ playlists (host st)) ->
      UpdatePlaying (PlaylistSound.id (sound entry)) false ∈ requests (host st')).
Proof.
  intros Hsep He Hprim Hp Hplay Hrep Hdur Hend. cbv zeta. unfold driftTick.
  assert (Hsz : (size (playingSounds (player st)) =? 0)%nat = false).
  { apply Nat.eqb_neq. intros Hz. apply map_size_empty_iff in Hz.
    rewrite Hz, lookup_empty in He. discriminate. }
  rewrite Hsz.
  pose proof (NoDup_fst_map_to_list (playingSounds (player st))) as Hnd.
  assert (Hin : (soundId, entry) ∈ map_to_list (playingSounds (player st)))
    by (apply elem_of_map_to_list; exact He).
  assert (Hall : forall k e, (k, e) ∈ map_to_list (playingSounds (player st)) ->
                             playingSounds (player st) !! k = Some e)
    by (intros k e; apply elem_of_map_to_list).
  apply list_elem_of_split in Hin as (l1 & l2 & Hl).
  rewrite Hl in Hnd, Hall |- *. clear Hl.
  rewrite fmap_app, fmap_cons in Hnd. cbn [fst] in Hnd.
  apply NoDup_app in Hnd as (Hnd1 & Hdisj & Hnd2).
  apply NoDup_cons in Hnd2 as [Hnot2 Hnd2].
  assert (Hnot1 : soundId ∉ l1.*1).
  { intros Hc. apply (Hdisj soundId Hc). left. }
  assert (Hsep' : forall l, (forall k e, (k, e) ∈ l -> (k, e) ∈ l1 ++ (soundId, entry) :: l2) ->
            soundId ∉ l.*1 ->
            forall k e i, (k, e) ∈ l ->
              Some i ∈ [highSound entry; midSound entry; lowSound entry] ->
              Some i ∉ [highSound e; midSound e; lowSound e]).
  { intros l Hsub Hnot k e i Hk Hi.
    apply (Hsep soundId k entry e i He); [apply Hall, Hsub, Hk | | exact Hi].
    intros <-. apply Hnot. apply list_elem_of_fmap. exists (soundId, e).
    split; [reflexivity|exact Hk]. }
  rewrite foldl_app. cbn [foldl].
  set (f := fun (st : State) '(soundId, entry) => driftCheckEntry soundId entry st).
  set (st1 := foldl f st l1).
  (* the Track Sets visited before *)
  destruct (driftLoop_frame soundId entry l1 st Hnd1 Hnot1) as [(Hm1 & Hv1 & Ha1) Ho1].
  { intros k e Hk. apply Hall. apply elem_of_app. left. exact Hk. }
  { apply Hsep'; [|exact Hnot1]. intros k e Hk. apply elem_of_app. left. exact Hk. }
  fold f in Hm1, Hv1, Ha1, Ho1. fold st1 in Hm1, Hv1, Ha1, Ho1.
  pose proof (requestsGrow_driftLoop l1 st) as [Hpl1 _]. fold f in Hpl1. fold st1 in Hpl1.
  (* the Track Set itself is stopped *)
  assert (He1 : playingSounds (player st1) !! soundId = Some entry) by congruence.
  assert (Hp1 : audio (host st1) !! pi = Some p).
  { rewrite Ha1; [exact Hp | apply primaryOf_layer; exact Hprim]. }
  assert (Hstop : driftCheckEntry soundId entry st1 = stopAdaptiveSound soundId false st1).
  { unfold driftCheckEntry. rewrite Hprim, Hp1, Hplay, Hrep. cbn [negb andb].
    rewrite (proj2 (Qltb_true _ _) Hdur), (proj2 (Qleb_true _ _) Hend). reflexivity. }
  destruct (stopAdaptiveSound_registered soundId false st1 entry He1) as (Hmap & Haudio & _).
  destruct (requests_stopAdaptiveSound soundId false st1 entry He1) as (Hpl2 & _ & Hreq).
  cbv zeta in Hmap, Haudio, Hpl2, Hreq. rewrite <- Hstop in Hmap, Haudio, Hpl2, Hreq.
  set (st2 := driftCheckEntry soundId entry st1) in *.
  (* the Track Sets visited after *)
  destruct (driftLoop_frame soundId entry l2 st2 Hnd2 Hnot2) as [(Hm3 & _ & Ha3) _].
  { intros k e Hk. rewrite Hmap, lookup_delete_ne, Ho1.
    - apply Hall. apply elem_of_app. right. right. exact Hk.
    - intros Hc. apply (Hdisj k Hc). right.
      apply list_elem_of_fmap. exists (k, e). split; [reflexivity|exact Hk].
    - intros <-. apply Hnot2. apply list_elem_of_fmap. exists (soundId, e).
      split; [reflexivity|exact Hk]. }
  { apply Hsep'; [|exact Hnot2]. intros k e Hk. apply elem_of_app. right. right. exact Hk. }
  pose proof (requestsGrow_driftLoop l2 st2) as [_ [rs Hrs]].
  fold f in Hm3, Ha3, Hrs. set (st3 := foldl f st2 l2) in *.
  split; [|split].
  - rewrite Hm3, Hmap. apply lookup_delete_eq.
  - intros i s Hi Hs. rewrite (Ha3 i Hi), Haudio.
    rewrite bool_decide_eq_true_2
      by (rewrite !elem_of_cons in *; rewrite elem_of_nil in *; tauto).
    rewrite (Ha1 i Hi), Hs. reflexivity.
  - intros Hown Hpd (pl & Hpar & Hex).
    rewrite Hrs, Hreq, Hown, Hpd, Hpar, Hpl1.
    rewrite (bool_decide_eq_true_2 _ Hex). cbn [negb andb].
    rewrite !elem_of_app. left. right. left.
Qed.

(** A Track Set whose primary layer is not playing is passed over by
    the whole tick: it stays registered and none of its sound objects
    changes, whatever other Track Sets are registered. *)
Lemma driftTick_skips (soundId : string) (entry : Entry) (st : State)
    (pi : nat) (p : Sound.t) :
  separateLayers st ->
  playingSounds (player st) !! soundId = Some entry ->
  primaryOf entry = Some pi ->
  audio (host st) !! pi = Some p ->
  Sound.playing p = false ->
  sameView soundId entry st (driftTick st).
Proof.
  intros Hsep He Hprim Hp Hplay. unfold driftTick.
  assert (Hsz : (size (playingSounds (player st)) =? 0)%nat = false).
  { apply Nat.eqb_neq. intros Hz. apply map_size_empty_iff in Hz.
    rewrite Hz, lookup_empty in He. discriminate. }
  rewrite Hsz.
  pose proof (NoDup_fst_map_to_list (playingSounds (player st))) as Hnd.
  assert (Hin : (soundId, entry) ∈ map_to_list (playingSounds (player st)))
    by (apply elem_of_map_to_list; exact He).
  assert (Hall : forall k e, (k, e) ∈ map_to_list (playingSounds (player st)) ->
                             playingSounds (player st) !! k = Some e)
    by (intros k e; apply elem_of_map_to_list).
  apply list_elem_of_split in Hin as (l1 & l2 & Hl).
  rewrite Hl in Hnd, Hall |- *. clear Hl.
  rewrite fmap_app, fmap_cons in Hnd. cbn [fst] in Hnd.
  apply NoDup_app in Hnd as (Hnd1 & Hdisj & Hnd2).
  apply NoDup_cons in Hnd2 as [Hnot2 Hnd2].
  assert (Hnot1 : soundId ∉ l1.*1).
  { intros Hc. apply (Hdisj soundId Hc). left. }
  assert (Hsep' : forall l, (forall k e, (k, e) ∈ l -> (k, e) ∈ l1 ++ (soundId, entry) :: l2) ->
            soundId ∉ l.*1 ->
            forall k e i, (k, e) ∈ l ->
              Some i ∈ [highSound entry; midSound entry; lowSound entry] ->
              Some i ∉ [highSound e; midSound e; lowSound e]).
  { intros l Hsub Hnot k e i Hk Hi.
    apply (Hsep soundId k entry e i He); [apply Hall, Hsub, Hk | | exact Hi].
    intros <-. apply Hnot. apply list_elem_of_fmap. exists (soundId, e).
    split; [reflexivity|exact Hk]. }
  rewrite foldl_app. cbn [foldl].
  set (f := fun (st : State) '(soundId, entry) => driftCheckEntry soundId entry st).
  set (st1 := foldl f st l1).
  (* the Track Sets visited before *)
  destruct (driftLoop_frame soundId entry l1 st Hnd1 Hnot1) as [V1 Ho1].
  { intros k e Hk. apply Hall. apply elem_of_app. left. exact Hk. }
  { apply Hsep'; [|exact Hnot1]. intros k e Hk. apply elem_of_app. left. exact Hk. }
  fold f in V1, Ho1. fold st1 in V1, Ho1.
  (* the Track Set itself is passed over *)
  assert (Hp1 : audio (host st1) !! pi = Some p).
  { destruct V1 as (_ & _ & Ha1).
    rewrite Ha1; [exact Hp | apply primaryOf_layer; exact Hprim]. }
  assert (Hskip : driftCheckEntry soundId entry st1 = st1).
  { unfold driftCheckEntry. rewrite Hprim, Hp1, Hplay. reflexivity. }
  rewrite Hskip.
  (* the Track Sets visited after *)
  destruct (driftLoop_frame soundId entry l2 st1 Hnd2 Hnot2) as [V3 _].
  { intros k e Hk. rewrite Ho1.
    - apply Hall. apply elem_of_app. right. right. exact Hk.
    - intros Hc. apply (Hdisj k Hc). right.
      apply list_elem_of_fmap. exists (k, e). split; [reflexivity|exact Hk]. }
  { apply Hsep'; [|exact Hnot2]. intros k e Hk. apply elem_of_app. right. right. exact Hk. }
  fold f in V3.
  exact (sameView_trans _ _ _ _ _ V1 V3).
Qed.

(** X17.  The end of a track.  When the primary layer of a Track Set
    that does not loop plays within 0.2 s of its end, the monitor's tick
    stops the Track Set instead of resynchronising it: it is no longer
    registered, each of its layers is stopped where it was, and the
    host is asked to mark the document as not playing when the client
    owns a playing document of an existing playlist. *)
Theorem driftTick_end_of_track (soundId : string) (entry : Entry) (st : State)
    (pi : nat) (p : Sound.t) :
  separateLayers st ->
  playingSounds (player st) !! soundId = Some entry ->
  primaryOf entry = Some pi ->
  audio (host st) !! pi = Some p ->
  Sound.playing p = true ->
  PlaylistSound.repeat (sound entry) = false ->
  0 < Sound.duration p ->
  Sound.duration p - 0.2 <= Sound.currentTime p ->
  let st' := driftTick st in
  playingSounds (player st') !! soundId = None
  /\ (forall i s,
        Some i ∈ [highSound entry; midSound entry; lowSound entry] ->
        audio (host st) !! i = Some s ->
        audio (host st') !! i = Some (Sound.stop s))
  /\ (PlaylistSound.isOwner (sound entry) = true ->
      PlaylistSound.playing (sound entry) = true ->
      (exists pl, PlaylistSound.parent (sound entry) = Some pl
                  /\ Playlist.id pl ∈ playlists (host st)) ->
      UpdatePlaying (PlaylistSound.id (sound entry)) false ∈ requests (host st')).
Proof.
  intros Hsep He Hprim Hp Hplay Hrep Hdur Hend.
  exact (driftTick_stops_at_end soundId entry st pi p Hsep He Hprim Hp Hplay Hrep Hdur Hend).
Qed.

Lemma checkDrift_inSync soundId entry pi base lay label st :
  (forall i s, lay = Some i -> audio (host st) !! i = Some s -> drifted base s = false) ->
  checkDrift soundId entry pi base lay label st = st.
Proof.
  intros H. unfold checkDrift. destruct lay as [i|]; [|reflexivity].
  destruct (audio (host st) !! i) as [s|] eqn:Es; [|reflexivity].
  specialize (H i s eq_refl Es). unfold drifted in H.
  destruct (Sound.playing s); [|reflexivity]. cbn [negb andb] in H. cbv zeta.
  rewrite H. reflexivity.
Qed.

Lemma driftCheckEntry_inSync soundId entry st :
  inSync st entry -> driftCheckEntry soundId entry st = st.
Proof.
  intros H. unfold driftCheckEntry.
  destruct (primaryOf entry) as [pi|] eqn:Hprim; [|reflexivity].
  destruct (audio (host st) !! pi) as [p|] eqn:Hp; [|reflexivity].
  destruct (Sound.playing p) eqn:Hplay; [|reflexivity]. cbn [negb].
  destruct (H pi p Hprim Hp Hplay) as [Hgo Hsync].
  assert (Hend : negb (PlaylistSound.repeat (sound entry))
                 && Qltb 0 (Sound.duration p)
                 && Qleb (Sound.duration p - 0.2) (Sound.currentTime p) = false).
  { destruct Hgo as [Hr|[Hd|Hc]].
    - rewrite Hr. reflexivity.
    - rewrite (proj2 (Qltb_false _ _) Hd). apply andb_false_iff. left. apply andb_false_r.
    - rewrite (proj2 (Qleb_false _ _) Hc). apply andb_false_r. }
  rewrite Hend. cbv zeta.
  assert (Step : forall (b : bool) lay label,
            lay ∈ [highSound entry; midSound entry; lowSound entry] ->
            (if b then checkDrift soundId entry pi (Sound.currentTime p) lay label st else st)
            = st).
  { intros b lay label Hl. destruct b; [|reflexivity].
    apply checkDrift_inSync. intros i s -> Hs. apply (Hsync i s Hl Hs). }
  rewrite (Step _ (highSound entry) "High") by (rewrite !elem_of_cons; tauto).
  rewrite (Step _ (midSound entry) "Mid") by (rewrite !elem_of_cons; tauto).
  apply Step. rewrite !elem_of_cons; tauto.
Qed.

(** X18.  The monitor leaves Track Sets in sync alone.  When every
    registered Track Set is in sync (no layer more than 0.1 s away from
    its playing primary layer, and no track at its end), a tick changes
    nothing at all: no layer is restarted, no volume written, nothing
    logged. *)
Theorem driftTick_in_sync (st : State) :
  playingSounds (player st) <> ∅ ->
  (forall k e, playingSounds (player st) !! k = Some e -> inSync st e) ->
  driftTick st = st.
Proof.
  intros Hne Hall. unfold driftTick.
  assert (Hsz : (size (playingSounds (player st)) =? 0)%nat = false).
  { apply Nat.eqb_neq. intros Hz. apply map_size_empty_iff in Hz. contradiction. }
  rewrite Hsz.
  assert (Hl : forall k e, (k, e) ∈ map_to_list (playingSounds (player st)) -> inSync st e)
    by (intros k e Hk; apply (Hall k), elem_of_map_to_list, Hk).
  revert Hl. generalize (map_to_list (playingSounds (player st))).
  intros l. induction l as [|[k e] l IH]; intros Hl; cbn [foldl]; [reflexivity|].
  rewrite driftCheckEntry_inSync by (apply (Hl k e); left).
  apply IH. intros k' e' Hk'. apply (Hl k' e'). right. exact Hk'.
Qed.

(** ** Stopping several Track Sets: exclusivity and the clean-up hooks *)

Lemma playingSounds_stopAdaptiveSound soundId skipUpdate st :
  playingSounds (player (stopAdaptiveSound soundId skipUpdate st))
  = delete soundId (playingSounds (player st)).
Proof.
  destruct (playingSounds (player st) !! soundId) as [entry|] eqn:He.
  - apply (stopAdaptiveSound_registered soundId skipUpdate st entry He).
  - unfold stopAdaptiveSound. rewrite He. symmetry. apply delete_id, He.
Qed.

Lemma audio_stopAdaptiveSound soundId skipUpdate st i :
  audio (host (stopAdaptiveSound soundId skipUpdate st)) !! i
  = match playingSounds (player st) !! soundId with
    | Some entry =>
        if bool_decide (Some i ∈ [lowSound entry; midSound entry; highSound entry])
        then Sound.stop <$> audio (host st) !! i
        else audio (host st) !! i
    | None => audio (host st) !! i
    end.
Proof.
  destruct (playingSounds (player st) !! soundId) as [entry|] eqn:He.
  - apply (stopAdaptiveSound_registered soundId skipUpdate st entry He).
  - unfold stopAdaptiveSound. rewrite He. reflexivity.
Qed.

Lemma stop_fold_registrations b ks st k :
  playingSounds (player (foldl (fun st id => stopAdaptiveSound id b st) st ks)) !! k
  = if bool_decide (k ∈ ks) then None else playingSounds (player st) !! k.
Proof.
  revert st. induction ks as [|k0 ks IH]; intros st; cbn [foldl].
  - rewrite bool_decide_eq_false_2 by apply not_elem_of_nil. reflexivity.
  - rewrite IH, playingSounds_stopAdaptiveSound.
    destruct (decide (k = k0)) as [->|Hne].
    + rewrite (bool_decide_eq_true_2 (k0 ∈ k0 :: ks)) by left.
      rewrite lookup_delete_eq. destruct (bool_decide _); reflexivity.
    + rewrite lookup_delete_ne by congruence.
      destruct (decide (k ∈ ks)) as [Hin|Hin].
      * rewrite !bool_decide_eq_true_2; [reflexivity | right; exact Hin | exact Hin].
      * rewrite !bool_decide_eq_false_2; [reflexivity | | exact Hin].
        rewrite elem_of_cons. tauto.
Qed.

Lemma stop_fold_audio b ks st i :
  audio (host (foldl (fun st id => stopAdaptiveSound id b st) st ks)) !! i
  = audio (host st) !! i
  \/ audio (host (foldl (fun st id => stopAdaptiveSound id b st) st ks)) !! i
     = Sound.stop <$> audio (host st) !! i.
Proof.
  revert st. induction ks as [|k0 ks IH]; intros st; cbn [foldl]; [left; reflexivity|].
  pose proof (audio_stopAdaptiveSound k0 b st i) as H0.
  destruct (IH (stopAdaptiveSound k0 b st)) as [-> | ->]; rewrite H0;
    destruct (playingSounds (player st) !! k0) as [e|]; try destruct (bool_decide _);
    auto; right.
  destruct (audio (host st) !! i); reflexivity.
Qed.

Lemma stop_fold_untouched b ks st i :
  (forall k e, k ∈ ks -> playingSounds (player st) !! k = Some e ->
               Some i ∉ [lowSound e; midSound e; highSound e]) ->
  audio (host (foldl (fun st id => stopAdaptiveSound id b st) st ks)) !! i
  = audio (host st) !! i.
Proof.
  revert st. induction ks as [|k0 ks IH]; intros st H; cbn [foldl]; [reflexivity|].
  rewrite IH.
  - rewrite audio_stopAdaptiveSound.
    destruct (playingSounds (player st) !! k0) as [e|] eqn:He; [|reflexivity].
    rewrite bool_decide_eq_false_2; [reflexivity|]. apply (H k0 e); [left | exact He].
  - intros k e Hk He. rewrite playingSounds_stopAdaptiveSound in He.
    apply lookup_delete_Some in He as [_ He]. apply (H k e); [right; exact Hk | exact He].
Qed.

Lemma stop_fold_stopped b ks st k e i :
  k ∈ ks ->
  playingSounds (player st) !! k = Some e ->
  Some i ∈ [lowSound e; midSound e; highSound e] ->
  audio (host (foldl (fun st id => stopAdaptiveSound id b st) st ks)) !! i
  = Sound.stop <$> audio (host st) !! i.
Proof.
  revert st. induction ks as [|k0 ks IH]; intros st Hk He Hi; [inversion Hk|].
  cbn [foldl].
  assert (Hss : forall o : option Sound.t, Sound.stop <$> (Sound.stop <$> o) = Sound.stop <$> o)
    by (intros [s|]; reflexivity).
  destruct (decide (k = k0)) as [->|Hne].
  - destruct (stop_fold_audio b ks (stopAdaptiveSound k0 b st) i) as [-> | ->];
      rewrite audio_stopAdaptiveSound, He, bool_decide_eq_true_2 by exact Hi;
      [reflexivity | apply Hss].
  - apply elem_of_cons in Hk as [Hk|Hk]; [congruence|].
    rewrite (IH (stopAdaptiveSound k0 b st) Hk); [|
      rewrite playingSounds_stopAdaptiveSound, lookup_delete_ne by congruence; exact He
      | exact Hi].
    rewrite audio_stopAdaptiveSound.
    destruct (playingSounds (player st) !! k0) as [e0|]; [|reflexivity].
    destruct (bool_decide _); [apply Hss | reflexivity].
Qed.

Lemma stop_fold_quietly ks st :
  requests (host (foldl (fun st id => stopAdaptiveSound id true st) st ks))
  = requests (host st)
  /\ log (host (foldl (fun st id => stopAdaptiveSound id true st) st ks)) = log (host st).
Proof.
  revert st. induction ks as [|k0 ks IH]; intros st; cbn [foldl]; [auto|].
  destruct (IH (stopAdaptiveSound k0 true st)) as [-> ->].
  destruct (playingSounds (player st) !! k0) as [e|] eqn:He.
  - destruct (requests_stopAdaptiveSound k0 true st e He) as (_ & -> & ->).
    cbn [negb andb]. rewrite app_nil_r. auto.
  - unfold stopAdaptiveSound. rewrite He. auto.
Qed.

Lemma filtered_keys (c : string * Entry -> bool) (m : gmap string Entry) k :
  k ∈ (List.filter c (map_to_list m)).*1
  <-> exists e, m !! k = Some e /\ c (k, e) = true.
Proof.
  rewrite list_elem_of_fmap. split.
  - intros ([k' e] & -> & Hin). apply list_elem_of_In, filter_In in Hin as [Hin Hc].
    apply list_elem_of_In, elem_of_map_to_list in Hin. eauto.
  - intros (e & He & Hc). exists (k, e). split; [reflexivity|].
    apply list_elem_of_In, filter_In. split; [|exact Hc].
    apply list_elem_of_In, elem_of_map_to_list, He.
Qed.

Lemma conditional_stop_fold (c : string * Entry -> bool) b (l : list (string * Entry)) st :
  foldl (fun st '(soundId, entry) =>
           if c (soundId, entry) then stopAdaptiveSound soundId b st else st) st l
  = foldl (fun st id => stopAdaptiveSound id b st) st (List.filter c l).*1.
Proof.
  revert st. induction l as [|[k e] l IH]; intros st; cbn [foldl List.filter]; [reflexivity|].
  destruct (c (k, e)); cbn [fmap list_fmap foldl fst]; apply IH.
Qed.

(** X19.  Playlist exclusivity.  When a sound of a playlist that does
    not play its sounds simultaneously is started, every other Track Set
    of that playlist is unregistered and its layers are stopped where
    they were; Track Sets of other playlists, the Track Set of the sound
    itself and all other sound objects are left as they are.  For a
    sound of a simultaneous playlist, or of no playlist, nothing is
    stopped. *)
Theorem enforceExclusivity_spec (snd : PlaylistSound.t) (st : State) :
  let st' := enforceExclusivity snd st in
  let stopped k e :=
    match PlaylistSound.parent snd with
    | Some playlist =>
        negb (bool_decide (Playlist.mode playlist = SIMULTANEOUS))
        && sameContainer playlist e && negb (String.eqb k (PlaylistSound.id snd))
    | None => false
    end in
  (forall k,
     playingSounds (player st') !! k
     = match playingSounds (player st) !! k with
       | Some e => if stopped k e then None else Some e
       | None => None
       end)
  /\ (forall k e i,
        playingSounds (player st) !! k = Some e -> stopped k e = true ->
        Some i ∈ [lowSound e; midSound e; highSound e] ->
        audio (host st') !! i = Sound.stop <$> audio (host st) !! i)
  /\ (forall i,
        (forall k e, playingSounds (player st) !! k = Some e -> stopped k e = true ->
                     Some i ∉ [lowSound e; midSound e; highSound e]) ->
        audio (host st') !! i = audio (host st) !! i).
Proof.
  cbv zeta. unfold enforceExclusivity.
  destruct (PlaylistSound.parent snd) as [playlist|];
    [|split; [intros k; destruct (_ !! k); reflexivity | split; [discriminate | reflexivity]]].
  destruct (negb (bool_decide (Playlist.mode playlist = SIMULTANEOUS)));
    [|split; [intros k; destruct (_ !! k); reflexivity | split; [discriminate | reflexivity]]].
  cbv zeta. cbn [andb].
  set (c := fun '(otherId, entry) =>
              sameContainer playlist entry
              && negb (String.eqb otherId (PlaylistSound.id snd))).
  pose proof (filtered_keys c (playingSounds (player st))) as Hks.
  set (ks := (List.filter c (map_to_list (playingSounds (player st)))).*1) in *.
  split; [|split].
  - intros k. rewrite stop_fold_registrations.
    destruct (playingSounds (player st) !! k) as [e|] eqn:He.
    + change (sameContainer playlist e && negb (String.eqb k (PlaylistSound.id snd)))
        with (c (k, e)).
      destruct (c (k, e)) eqn:Hc.
      * rewrite bool_decide_eq_true_2; [reflexivity|]. apply Hks. eauto.
      * rewrite bool_decide_eq_false_2; [reflexivity|].
        intros Hin. apply Hks in Hin as (e' & He' & Hc'). congruence.
    + destruct (bool_decide _); reflexivity.
  - intros k e i He Hc Hi. apply (stop_fold_stopped false ks st k e i); [|exact He|exact Hi].
    apply Hks. eauto.
  - intros i H. apply stop_fold_untouched. intros k e Hk He.
    apply Hks in Hk as (e' & He' & Hc'). assert (e' = e) by congruence. subst e'.
    apply (H k e He Hc').
Qed.

(** X20.  The clean-up hooks.  [deletePlaylist] unregisters exactly the
    Track Sets of the deleted playlist and stops their layers where they
    were, and [deletePlaylistSound] does so for the Track Set of the
    deleted sound; neither asks the host to update a document or writes
    to the log, and sound objects of other Track Sets are left as they
    are. *)
Theorem cleanup_hooks (st : State) :
  (forall playlist,
     let st' := deletePlaylist playlist st in
     (forall k,
        playingSounds (player st') !! k
        = match playingSounds (player st) !! k with
          | Some e => if sameContainer playlist e then None else Some e
          | None => None
          end)
     /\ (forall k e i,
           playingSounds (player st) !! k = Some e -> sameContainer playlist e = true ->
           Some i ∈ [lowSound e; midSound e; highSound e] ->
           audio (host st') !! i = Sound.stop <$> audio (host st) !! i)
     /\ (forall i,
           (forall k e, playingSounds (player st) !! k = Some e ->
                        sameContainer playlist e = true ->
                        Some i ∉ [lowSound e; midSound e; highSound e]) ->
           audio (host st') !! i = audio (host st) !! i)
     /\ requests (host st') = requests (host st)
     /\ log (host st') = log (host st))
  /\ (forall snd,
        let st' := deletePlaylistSound snd st in
        playingSounds (player st') = delete (PlaylistSound.id snd) (playingSounds (player st))
        /\ (forall e i,
              playingSounds (player st) !! PlaylistSound.id snd = Some e ->
              audio (host st') !! i
              = if bool_decide (Some i ∈ [lowSound e; midSound e; highSound e])
                then Sound.stop <$> audio (host st) !! i
                else audio (host st) !! i)
        /\ requests (host st') = requests (host st)
        /\ log (host st') = log (host st)).
Proof.
  split.
  - intros playlist. cbv zeta. unfold deletePlaylist.
    set (c := fun x : string * Entry => sameContainer playlist x.2).
    change (foldl _ st (map_to_list (playingSounds (player st))))
      with (foldl (fun st '(soundId, entry) =>
                     if c (soundId, entry) then stopAdaptiveSound soundId true st else st)
                  st (map_to_list (playingSounds (player st)))).
    rewrite conditional_stop_fold.
    pose proof (filtered_keys c (playingSounds (player st))) as Hks.
    set (ks := (List.filter c (map_to_list (playingSounds (player st)))).*1) in *.
    split; [|split; [|split]].
    + intros k. rewrite stop_fold_registrations.
      destruct (playingSounds (player st) !! k) as [e|] eqn:He.
      * change (sameContainer playlist e) with (c (k, e)).
        destruct (c (k, e)) eqn:Hc.
        -- rewrite bool_decide_eq_true_2; [reflexivity|]. apply Hks. eauto.
        -- rewrite bool_decide_eq_false_2; [reflexivity|].
           intros Hin. apply Hks in Hin as (e' & He' & Hc'). congruence.
      * destruct (bool_decide _); reflexivity.
    + intros k e i He Hc Hi. apply (stop_fold_stopped true ks st k e i); [|exact He|exact Hi].
      apply Hks. eauto.
    + intros i H. apply stop_fold_untouched. intros k e Hk He.
      apply Hks in Hk as (e' & He' & Hc'). assert (e' = e) by congruence. subst e'.
      apply (H k e He Hc').
    + apply stop_fold_quietly.
  - intros snd. cbv zeta. unfold deletePlaylistSound.
    split; [apply playingSounds_stopAdaptiveSound|]. split.
    + intros e i He. rewrite audio_stopAdaptiveSound, He. reflexivity.
    + apply (stop_fold_quietly [PlaylistSound.id snd] st).
Qed.

(** ** Starting a Track Set *)

Lemma media_onSound snd f st : media (host (onSound snd f st)) = media (host st).
Proof. destruct snd; reflexivity. Qed.

Lemma media_stopAdaptiveSound soundId skipUpdate st :
  media (host (stopAdaptiveSound soundId skipUpdate st)) = media (host st).
Proof.
  unfold stopAdaptiveSound.
  destruct (playingSounds (player st) !! soundId) as [entry|]; [|reflexivity].
  cbv zeta.
  repeat match goal with
         | |- context [if ?c then _ else _] => destruct c
         end;
    unfold stopDriftMonitoring;
    repeat match goal with
           | |- context [match ?c with Some _ => _ | None => _ end] => destruct c
           end;
    cbn [host onHost onPlayer clearInterval set_timers set_requests media];
    rewrite !media_onSound; reflexivity.
Qed.

Lemma media_enforceExclusivity snd st :
  media (host (enforceExclusivity snd st)) = media (host st).
Proof.
  unfold enforceExclusivity.
  destruct (PlaylistSound.parent snd); [|reflexivity].
  destruct (negb _); [|reflexivity]. cbv zeta.
  generalize ((List.filter
                 (fun '(otherId, entry) =>
                    sameContainer t entry && negb (String.eqb otherId (PlaylistSound.id snd)))
                 (map_to_list (playingSounds (player st)))).*1).
  intros ks. revert st. induction ks as [|k ks IH]; intros st; cbn [foldl]; [reflexivity|].
  rewrite IH. apply media_stopAdaptiveSound.
Qed.

Lemma mixVolumes_ext p p' entry :
  intensity p' = intensity p ->
  masterVolume p' = masterVolume p ->
  customMixEnabled p' = customMixEnabled p ->
  customHighVolume p' = customHighVolume p ->
  customMidVolume p' = customMidVolume p ->
  customLowVolume p' = customLowVolume p ->
  mixVolumes p' entry = mixVolumes p entry.
Proof. intros A B C D E F. unfold mixVolumes. rewrite A, B, C, D, E, F. reflexivity. Qed.

Lemma newSound_spec path st :
  player (newSound path st).2 = player st
  /\ media (host (newSound path st).2) = media (host st)
  /\ ((newSound path st).1 = None /\ truthy path = false /\ (newSound path st).2 = st
      \/ exists src,
           path = Some src /\ truthy path = true
           /\ (newSound path st).1 = Some (nextSound (host st))
           /\ nextSound (host (newSound path st).2) = S (nextSound (host st))
           /\ audio (host (newSound path st).2)
              = <[nextSound (host st) := Sound.create src]> (audio (host st))).
Proof.
  unfold newSound. destruct path as [src|];
    [|split; [reflexivity|]; split; [reflexivity|]; left; repeat split; reflexivity].
  destruct (truthy (Some src)) eqn:E;
    [|split; [reflexivity|]; split; [reflexivity|]; left; repeat split; reflexivity].
  split; [reflexivity|]. split; [reflexivity|]. right. exists src.
  repeat split; reflexivity.
Qed.

Lemma loadSound_layer i s d st :
  audio (host st) !! i = Some s ->
  media (host st) !! Sound.src s = Some d ->
  loadSound (Some i) st = Some (onSound (Some i) (Sound.load d) st).
Proof. intros Hs Hd. unfold loadSound. rewrite Hs. cbn. rewrite Hd. reflexivity. Qed.

Lemma audio_startDriftMonitoring st :
  audio (host (startDriftMonitoring st)) = audio (host st).
Proof.
  unfold startDriftMonitoring, stopDriftMonitoring.
  destruct (driftMonitorInterval (player st)); reflexivity.
Qed.

Lemma assignedVolume_distinct vols entry l i :
  layerHandle entry l = Some i ->
  (forall j, highSound entry = Some j -> midSound entry <> Some j /\ lowSound entry <> Some j) ->
  (forall j, midSound entry = Some j -> lowSound entry <> Some j) ->
  assignedVolume vols entry i = Some (layerVolume vols l).
Proof.
  intros Hl Hh Hm. unfold assignedVolume.
  destruct l; cbn [layerHandle layerVolume] in *.
  - destruct (decide (highSound entry = Some i)) as [E|_]; [destruct (Hh i E); congruence|].
    destruct (decide (midSound entry = Some i)) as [E|_]; [destruct (Hm i E); congruence|].
    rewrite decide_True by exact Hl. reflexivity.
  - destruct (decide (highSound entry = Some i)) as [E|_]; [destruct (Hh i E); congruence|].
    rewrite decide_True by exact Hl. reflexivity.
  - rewrite decide_True by exact Hl. reflexivity.
Qed.

(** The three [new foundry.audio.Sound(path)] of [_playAdaptiveSound]. *)
Lemma newSounds_layers (snd : PlaylistSound.t) (s3 : State) :
  let r1 := newSound (PlaylistSound.path snd) s3 in
  let r2 := newSound (PlaylistSound.midIntensityPath snd) r1.2 in
  let r3 := newSound (PlaylistSound.lowIntensityPath snd) r2.2 in
  let entry := mkEntry r1.1 r2.1 r3.1 snd false in
  player r3.2 = player s3
  /\ media (host r3.2) = media (host s3)
  /\ (forall l, isSome (layerHandle entry l) = truthy (layerPath snd l))
  /\ (forall l i, layerHandle entry l = Some i ->
        exists src, layerPath snd l = Some src
                    /\ audio (host r3.2) !! i = Some (Sound.create src))
  /\ (forall j, r1.1 = Some j -> r2.1 <> Some j /\ r3.1 <> Some j)
  /\ (forall j, r2.1 = Some j -> r3.1 <> Some j).
Proof.
  cbv zeta.
  destruct (newSound_spec (PlaylistSound.path snd) s3) as (P1 & M1 & C1).
  set (r1 := newSound (PlaylistSound.path snd) s3) in *.
  destruct (newSound_spec (PlaylistSound.midIntensityPath snd) r1.2) as (P2 & M2 & C2).
  set (r2 := newSound (PlaylistSound.midIntensityPath snd) r1.2) in *.
  destruct (newSound_spec (PlaylistSound.lowIntensityPath snd) r2.2) as (P3 & M3 & C3).
  set (r3 := newSound (PlaylistSound.lowIntensityPath snd) r2.2) in *.
  split; [congruence|]. split; [congruence|].
  destruct C1 as [(H1 & T1 & E1)|(src1 & Q1 & T1 & H1 & N1 & A1)];
    destruct C2 as [(H2 & T2 & E2)|(src2 & Q2 & T2 & H2 & N2 & A2)];
    destruct C3 as [(H3 & T3 & E3)|(src3 & Q3 & T3 & H3 & N3 & A3)];
    rewrite ?E1, ?E2, ?E3 in *;
    (split; [intros []; cbn [layerHandle layerPath highSound midSound lowSound];
             rewrite ?H1, ?H2, ?H3, ?T1, ?T2, ?T3; reflexivity|]);
    (split; [intros [] i; cbn [layerHandle layerPath highSound midSound lowSound];
             rewrite ?H1, ?H2, ?H3; intros [= <-];
             eexists; (split; [eassumption|]);
             rewrite ?A3, ?A2, ?A1, ?N2, ?N1;
             repeat first [rewrite lookup_insert_eq; reflexivity
                          | rewrite lookup_insert_ne by lia]|]);
    (split; [intros j; rewrite ?H1, ?H2, ?H3, ?N2, ?N1; intros [= <-];
             split; first [discriminate | intros [= ?]; lia]
            | intros j; rewrite ?H1, ?H2, ?H3, ?N2, ?N1; intros [= <-];
              first [discriminate | intros [= ?]; lia]]).
Qed.

Lemma loadSound_ok h st :
  (forall i, h = Some i ->
     exists s d, audio (host st) !! i = Some s /\ media (host st) !! Sound.src s = Some d) ->
  exists st',
    loadSound h st = Some st'
    /\ player st' = player st
    /\ media (host st') = media (host st)
    /\ log (host st') = log (host st)
    /\ requests (host st') = requests (host st)
    /\ forall j,
         audio (host st') !! j
         = if decide (h = Some j)
           then (fun s => Sound.load (default 0 (media (host st) !! Sound.src s)) s)
                <$> audio (host st) !! j
           else audio (host st) !! j.
Proof.
  intros H. destruct h as [i|].
  - destruct (H i eq_refl) as (s & d & Hs & Hd).
    exists (onSound (Some i) (Sound.load d) st).
    split; [apply (loadSound_layer i s d st Hs Hd)|].
    repeat split; try reflexivity.
    intros j. rewrite audio_onSound. case_decide as E; [|reflexivity].
    inversion E; subst j. rewrite Hs. cbn. rewrite Hd. reflexivity.
  - exists st. repeat split; reflexivity.
Qed.

(** X21.  A start that succeeds.  When [_playAdaptiveSound] is called for
    a sound with a Mid or a Low path that is not being loaded, and the
    host can decode the media of every layer that has a path, then
    afterwards the sound is registered as a Track Set with exactly the
    layers that have a path; each layer is a sound object playing its
    path from position 0, looping as the sound repeats, at the volume
    the mix assigns to it; the loading guard is released; the drift
    monitor runs; and the owner of the document has asked the host to
    mark it as playing. *)
Theorem playAdaptiveSound_starts (snd : PlaylistSound.t) (st : State) :
  PlaylistSound.id snd ∉ loadingSounds (player st) ->
  truthy (PlaylistSound.midIntensityPath snd) || truthy (PlaylistSound.lowIntensityPath snd)
  = true ->
  (forall l src, layerPath snd l = Some src -> src <> "" ->
                 is_Some (media (host st) !! src)) ->
  let st' := playAdaptiveSound snd st in
  exists entry,
    playingSounds (player st') !! PlaylistSound.id snd = Some entry
    /\ sound entry = snd
    /\ (forall l, isSome (layerHandle entry l) = truthy (layerPath snd l))
    /\ (forall l i, layerHandle entry l = Some i ->
          exists src d,
            layerPath snd l = Some src
            /\ media (host st) !! src = Some d
            /\ audio (host st') !! i
               = Some (Sound.mk src true (layerVolume (mixVolumes (player st') entry) l) 0 d
                                (PlaylistSound.repeat snd)))
    /\ (PlaylistSound.id snd ∉ loadingSounds (player st'))
    /\ (isSome (driftMonitorInterval (player st')) = true)
    /\ (PlaylistSound.isOwner snd = true ->
        last (requests (host st')) = Some (UpdatePlaying (PlaylistSound.id snd) true)).
Proof.
  intros Hload Hconf Hmedia. cbv zeta.
  unfold playAdaptiveSound, playAdaptiveSound_begin.
  rewrite bool_decide_eq_false_2 by exact Hload. cbv zeta.
  assert (Hc : negb (truthy (PlaylistSound.midIntensityPath snd))
               && negb (truthy (PlaylistSound.lowIntensityPath snd)) = false).
  { destruct (truthy (PlaylistSound.midIntensityPath snd)),
             (truthy (PlaylistSound.lowIntensityPath snd)); try reflexivity; discriminate. }
  rewrite Hc.
  set (s1 := enforceExclusivity snd st).
  set (s2 := if isSome (playingSounds (player s1) !! PlaylistSound.id snd) then _ else s1).
  set (s3 := onPlayer (fun p => set_loadingSounds ({[PlaylistSound.id snd]} ∪ loadingSounds p) p) s2).
  assert (M3 : media (host s3) = media (host st)).
  { change (media (host s3)) with (media (host s2)). subst s2.
    destruct (isSome _); [rewrite media_stopAdaptiveSound|]; apply media_enforceExclusivity. }
  pose proof (newSounds_layers snd s3) as HL. cbv zeta in HL.
  destruct (newSound (PlaylistSound.path snd) s3) as [hi s4].
  cbn [fst Datatypes.snd] in HL.
  destruct (newSound (PlaylistSound.midIntensityPath snd) s4) as [mi s5].
  cbn [fst Datatypes.snd] in HL.
  destruct (newSound (PlaylistSound.lowIntensityPath snd) s5) as [lo s6].
  cbn [fst Datatypes.snd] in HL.
  destruct HL as (P6 & M6 & Hsome & Hcell & Dh & Dm).
  set (entry := mkEntry hi mi lo snd false) in *.
  set (s7 := if (1 <? _)%nat then _ else s6).
  assert (H7 : player s7 = player s3 /\ media (host s7) = media (host st)
               /\ audio (host s7) = audio (host s6)).
  { subst s7. destruct (1 <? _)%nat; cbn [logEvent player host onHost set_log media audio];
      rewrite P6, M6, M3; repeat split; reflexivity. }
  destruct H7 as (P7 & M7 & A7). clearbody s7.
  (* the loads *)
  assert (Hcell7 : forall l i, layerHandle entry l = Some i ->
            exists src d, layerPath snd l = Some src
                          /\ media (host st) !! src = Some d
                          /\ audio (host s7) !! i = Some (Sound.create src)).
  { intros l i Hl. destruct (Hcell l i Hl) as (src & Hp & Ha).
    assert (Ht : truthy (layerPath snd l) = true) by (rewrite <- Hsome, Hl; reflexivity).
    rewrite Hp in Ht. cbn [truthy] in Ht. apply negb_true_iff, String.eqb_neq in Ht.
    destruct (Hmedia l src Hp Ht) as [d Hd]. exists src, d. rewrite A7. auto. }
  destruct (loadSound_ok hi s7) as (a & La & Pa & Ma & Ga & Ra & Aa).
  { intros i Hi. destruct (Hcell7 High i Hi) as (src & d & _ & Hd & Hs).
    exists (Sound.create src), d. rewrite M7. auto. }
  destruct (loadSound_ok mi a) as (b & Lb & Pb & Mb & Gb & Rb & Ab).
  { intros i Hi. destruct (Hcell7 Mid i Hi) as (src & d & _ & Hd & Hs).
    exists (Sound.create src), d. rewrite Ma, M7, Aa.
    rewrite decide_False; [auto|]. intros E. destruct (Dh i E). contradiction. }
  destruct (loadSound_ok lo b) as (c & Lc & Pc & Mc & Gc & Rc & Ac).
  { intros i Hi. destruct (Hcell7 Low i Hi) as (src & d & _ & Hd & Hs).
    exists (Sound.create src), d. rewrite Mb, Ma, M7, Ab, Aa.
    rewrite !decide_False; [auto| |].
    - intros E. destruct (Dh i E). contradiction.
    - intros E. apply (Dm i E). exact Hi. }
  unfold playAdaptiveSound_loaded. rewrite La. cbn [mbind option_bind]. rewrite Lb.
  cbn [mbind option_bind]. rewrite Lc. cbv zeta. fold entry.
  assert (Hcellc : forall l i, layerHandle entry l = Some i ->
            exists src d, layerPath snd l = Some src
                          /\ media (host st) !! src = Some d
                          /\ audio (host c) !! i = Some (Sound.load d (Sound.create src))).
  { intros l i Hl. destruct (Hcell7 l i Hl) as (src & d & Hp & Hd & Hs).
    exists src, d. split; [exact Hp|]. split; [exact Hd|].
    rewrite Ac, Ab, Aa, Mb, Ma, M7.
    assert (Hx : forall x : option nat, x <> Some i \/ x = Some i)
      by (intros x; destruct (decide (x = Some i)); auto).
    destruct l; cbn [layerHandle highSound midSound lowSound entry] in Hl;
      destruct (decide (hi = Some i)) as [E1|E1];
      destruct (decide (mi = Some i)) as [E2|E2];
      destruct (decide (lo = Some i)) as [E3|E3];
      try (exfalso; pose proof (Dh i); pose proof (Dm i); intuition congruence);
      rewrite Hs; cbn; rewrite Hd; reflexivity. }
  (* registration, playback and the mix *)
  set (s9 := onPlayer (fun p => set_playingSounds
                         (<[PlaylistSound.id snd := entry]> (playingSounds p)) p) c).
  set (s9c := onSound lo (Sound.play 0 (PlaylistSound.repeat snd) 0)
                (onSound mi (Sound.play 0 (PlaylistSound.repeat snd) 0)
                   (onSound hi (Sound.play 0 (PlaylistSound.repeat snd) 0) s9))).
  assert (P9 : player s9c = player s9) by (subst s9c; rewrite !player_onSound; reflexivity).
  assert (E9 : playingSounds (player s9c) !! PlaylistSound.id snd = Some entry).
  { rewrite P9. subst s9. cbn [player onPlayer set_playingSounds playingSounds].
    apply lookup_insert_eq. }
  set (s10 := applyIntensityToSound (PlaylistSound.id snd) s9c).
  assert (P10 : player s10 = player s9) by (subst s10; rewrite player_applyIntensityToSound; exact P9).
  assert (A10 : forall l i, layerHandle entry l = Some i ->
            exists src d, layerPath snd l = Some src
              /\ media (host st) !! src = Some d
              /\ audio (host s10) !! i
                 = Some (Sound.mk src true (layerVolume (mixVolumes (player s9) entry) l) 0 d
                                  (PlaylistSound.repeat snd))).
  { intros l i Hl. destruct (Hcellc l i Hl) as (src & d & Hp & Hd & Hs).
    exists src, d. split; [exact Hp|]. split; [exact Hd|].
    subst s10. rewrite (audio_applyIntensityToSound _ entry _ i E9).
    rewrite (assignedVolume_distinct _ entry l i Hl Dh Dm), P9.
    subst s9c. rewrite !audio_onSound.
    change (audio (host s9)) with (audio (host c)). rewrite Hs.
    destruct l; cbn [layerHandle highSound midSound lowSound entry] in Hl;
      destruct (decide (hi = Some i)) as [E1|E1];
      destruct (decide (mi = Some i)) as [E2|E2];
      destruct (decide (lo = Some i)) as [E3|E3];
      try (exfalso; pose proof (Dh i); pose proof (Dm i); intuition congruence);
      reflexivity. }
  clearbody s10.
  set (s11 := if PlaylistSound.isOwner snd then _ else s10).
  assert (H11 : player s11 = player s9 /\ audio (host s11) = audio (host s10)
                /\ (PlaylistSound.isOwner snd = true ->
                    last (requests (host s11))
                    = Some (UpdatePlaying (PlaylistSound.id snd) true))).
  { subst s11. destruct (PlaylistSound.isOwner snd).
    - split; [exact P10|]. split; [reflexivity|]. intros _.
      cbn [host onHost set_requests requests]. apply last_snoc.
    - split; [exact P10|]. split; [reflexivity | discriminate]. }
  destruct H11 as (P11 & A11 & R11). clearbody s11.
  unfold playAdaptiveSound_finish, playAdaptiveSound_finally.
  set (s12 := if isSome (driftMonitorInterval (player s11)) then s11 else _).
  assert (H12 : exists x, player s12 = set_driftMonitorInterval (Some x) (player s11)
                          /\ audio (host s12) = audio (host s11)
                          /\ requests (host s12) = requests (host s11)).
  { subst s12. destruct (driftMonitorInterval (player s11)) as [x|] eqn:Ed; cbn [isSome].
    - exists x. split; [|split; reflexivity].
      destruct (player s11); cbn in Ed |- *; subst; reflexivity.
    - unfold startDriftMonitoring, stopDriftMonitoring. rewrite Ed. cbv zeta.
      eexists. repeat split; reflexivity. }
  destruct H12 as (x & P12 & A12 & R12). clearbody s12.
  exists entry.
  cbn [player host onPlayer set_loadingSounds playingSounds loadingSounds
       driftMonitorInterval].
  rewrite P12, A12, A11, R12.
  cbn [set_driftMonitorInterval playingSounds loadingSounds driftMonitorInterval isSome].
  rewrite P11.
  split; [subst s9; cbn [player onPlayer set_playingSounds playingSounds];
          apply lookup_insert_eq|].
  split; [reflexivity|]. split; [exact Hsome|]. split.
  - intros l i Hl. destruct (A10 l i Hl) as (src & d & Hp & Hd & Ha).
    exists src, d. split; [exact Hp|]. split; [exact Hd|]. rewrite Ha.
    do 2 f_equal.
  - split; [|split; [reflexivity | exact R11]].
    intros Hin. apply elem_of_difference in Hin as [_ Hin].
    apply Hin, elem_of_singleton. reflexivity.
Qed.

Lemma loadSound_Some h st st' :
  loadSound h st = Some st' ->
  (forall i, h = Some i ->
     exists s d, audio (host st) !! i = Some s /\ media (host st) !! Sound.src s = Some d)
  /\ media (host st') = media (host st)
  /\ forall j, Sound.src <$> audio (host st') !! j = Sound.src <$> audio (host st) !! j.
Proof.
  unfold loadSound. destruct h as [i|].
  - destruct (audio (host st) !! i) as [s|] eqn:Hs; [|discriminate].
    cbn [mbind option_bind].
    destruct (media (host st) !! Sound.src s) as [d|] eqn:Hd; [|discriminate].
    cbn [mbind option_bind]. intros [= <-].
    split; [intros ? [= <-]; eauto|]. split; [reflexivity|].
    intros j. pose proof (audio_onSound (Some i) (Sound.load d) st j) as Hj.
    cbn [onSound] in Hj. rewrite Hj. case_decide as E; [|reflexivity].
    inversion E; subst j. rewrite Hs. reflexivity.
  - intros [= <-]. split; [discriminate|]. split; reflexivity.
Qed.

(** X22.  A start that fails.  When the host cannot decode the media of
    one of the layers, [_playAdaptiveSound] registers no Track Set for
    the sound (one that was registered before the call is gone),
    releases the loading guard and reports the error. *)
Theorem playAdaptiveSound_load_fails (snd : PlaylistSound.t) (st : State)
    (l : Layer) (src : string) :
  PlaylistSound.id snd ∉ loadingSounds (player st) ->
  truthy (PlaylistSound.midIntensityPath snd) || truthy (PlaylistSound.lowIntensityPath snd)
  = true ->
  layerPath snd l = Some src ->
  src <> "" ->
  media (host st) !! src = None ->
  let st' := playAdaptiveSound snd st in
  playingSounds (player st') !! PlaylistSound.id snd = None
  /\ (PlaylistSound.id snd ∉ loadingSounds (player st'))
  /\ last (log (host st')) = Some (ErrorPlaying (PlaylistSound.name snd)).
Proof.
  intros Hload Hconf Hpath Hsrc Hmiss. cbv zeta.
  unfold playAdaptiveSound, playAdaptiveSound_begin.
  rewrite bool_decide_eq_false_2 by exact Hload. cbv zeta.
  assert (Hc : negb (truthy (PlaylistSound.midIntensityPath snd))
               && negb (truthy (PlaylistSound.lowIntensityPath snd)) = false).
  { destruct (truthy (PlaylistSound.midIntensityPath snd)),
             (truthy (PlaylistSound.lowIntensityPath snd)); try reflexivity; discriminate. }
  rewrite Hc.
  set (s1 := enforceExclusivity snd st).
  set (s2 := if isSome (playingSounds (player s1) !! PlaylistSound.id snd) then _ else s1).
  assert (N2 : playingSounds (player s2) !! PlaylistSound.id snd = None).
  { subst s2. destruct (playingSounds (player s1) !! PlaylistSound.id snd) eqn:E; cbn [isSome].
    - rewrite playingSounds_stopAdaptiveSound. apply lookup_delete_eq.
    - exact E. }
  set (s3 := onPlayer (fun p => set_loadingSounds ({[PlaylistSound.id snd]} ∪ loadingSounds p) p) s2).
  assert (M3 : media (host s3) = media (host st)).
  { change (media (host s3)) with (media (host s2)). subst s2.
    destruct (isSome _); [rewrite media_stopAdaptiveSound|]; apply media_enforceExclusivity. }
  pose proof (newSounds_layers snd s3) as HL. cbv zeta in HL.
  destruct (newSound (PlaylistSound.path snd) s3) as [hi s4].
  cbn [fst Datatypes.snd] in HL.
  destruct (newSound (PlaylistSound.midIntensityPath snd) s4) as [mi s5].
  cbn [fst Datatypes.snd] in HL.
  destruct (newSound (PlaylistSound.lowIntensityPath snd) s5) as [lo s6].
  cbn [fst Datatypes.snd] in HL.
  destruct HL as (P6 & M6 & Hsome & Hcell & Dh & Dm).
  set (entry := mkEntry hi mi lo snd false) in *.
  set (s7 := if (1 <? _)%nat then _ else s6).
  assert (H7 : player s7 = player s3 /\ media (host s7) = media (host st)
               /\ audio (host s7) = audio (host s6)).
  { subst s7. destruct (1 <? _)%nat; cbn [logEvent player host onHost set_log media audio];
      rewrite P6, M6, M3; repeat split; reflexivity. }
  destruct H7 as (P7 & M7 & A7). clearbody s7.
  (* the layer whose media is missing *)
  assert (Hi : exists i, layerHandle entry l = Some i
                         /\ Sound.src <$> audio (host s7) !! i = Some src).
  { assert (Ht : truthy (layerPath snd l) = true)
      by (rewrite Hpath; cbn [truthy]; apply negb_true_iff, String.eqb_neq, Hsrc).
    rewrite <- Hsome in Ht. destruct (layerHandle entry l) as [i|] eqn:Hl; [|discriminate].
    exists i. split; [reflexivity|].
    destruct (Hcell l i Hl) as (src' & Hp' & Ha). rewrite A7, Ha.
    assert (src' = src) by congruence. subst src'. reflexivity. }
  destruct Hi as (i & Hl & Hs7).
  unfold playAdaptiveSound_loaded.
  assert (Hfail : (loadSound hi s7 ≫= fun st1 => loadSound mi st1 ≫= fun st2 => loadSound lo st2)
                  = None).
  { destruct (loadSound hi s7) as [a|] eqn:La; [|reflexivity]. cbn [mbind option_bind].
    destruct (loadSound mi a) as [b|] eqn:Lb; [|reflexivity]. cbn [mbind option_bind].
    destruct (loadSound lo b) as [c|] eqn:Lc; [|reflexivity]. exfalso.
    destruct (loadSound_Some _ _ _ La) as (Ha & Ma & Sa).
    destruct (loadSound_Some _ _ _ Lb) as (Hb & Mb & Sb).
    destruct (loadSound_Some _ _ _ Lc) as (Hc' & _ & _).
    assert (Bad : forall (x : State) s d,
              media (host x) = media (host st) ->
              Sound.src <$> audio (host x) !! i = Some src ->
              audio (host x) !! i = Some s -> media (host x) !! Sound.src s = Some d -> False).
    { intros x s d Mx Sx Ax Dx. rewrite Ax in Sx. cbn in Sx. inversion Sx as [Sx'].
      rewrite Sx', Mx, Hmiss in Dx. discriminate. }
    destruct l; cbn [layerHandle highSound midSound lowSound entry] in Hl.
    - destruct (Hc' i Hl) as (s & d & As & Ds).
      apply (Bad b s d); [congruence | rewrite Sb, Sa; exact Hs7 | exact As | exact Ds].
    - destruct (Hb i Hl) as (s & d & As & Ds).
      apply (Bad a s d); [congruence | rewrite Sa; exact Hs7 | exact As | exact Ds].
    - destruct (Ha i Hl) as (s & d & As & Ds).
      apply (Bad s7 s d); [exact M7 | exact Hs7 | exact As | exact Ds]. }
  rewrite Hfail. unfold playAdaptiveSound_finally.
  cbn [player host onPlayer logEvent onHost set_loadingSounds set_log playingSounds
       loadingSounds log].
  rewrite P7.
  split; [exact N2|]. split; [|apply last_snoc].
  intros Hin. apply elem_of_difference in Hin as [_ Hin].
  apply Hin, elem_of_singleton. reflexivity.
Qed.

(** X23.  The loading guard.  Between the moment [_playAdaptiveSound]
    has created the layers of a sound and the moment their loads settle,
    the sound is marked as loading and is not registered: a second call
    for the same sound returns at once without any effect, a call of
    [_stopAdaptiveSound] for it finds nothing to stop, and once the
    loads have settled, successfully or not, the mark is removed. *)
Theorem loading_guard (snd : PlaylistSound.t) (st sb : State)
    (layers : option nat * option nat * option nat) :
  playAdaptiveSound_begin snd st = (sb, Some layers) ->
  PlaylistSound.id snd ∈ loadingSounds (player sb)
  /\ playingSounds (player sb) !! PlaylistSound.id snd = None
  /\ playAdaptiveSound_begin snd sb = (sb, None)
  /\ playAdaptiveSound snd sb = sb
  /\ (forall skipUpdate, stopAdaptiveSound (PlaylistSound.id snd) skipUpdate sb = sb)
  /\ (PlaylistSound.id snd ∉ loadingSounds (player (playAdaptiveSound snd st))).
Proof.
  intros Hb.
  assert (Hfin : PlaylistSound.id snd ∉ loadingSounds (player (playAdaptiveSound snd st))).
  { unfold playAdaptiveSound. rewrite Hb.
    unfold playAdaptiveSound_loaded. destruct layers as [[hi mi] lo].
    destruct (loadSound hi sb ≫= _);
      unfold playAdaptiveSound_finish, playAdaptiveSound_finally;
      cbn [player onPlayer set_loadingSounds loadingSounds];
      intros Hin; apply elem_of_difference in Hin as [_ Hin];
      apply Hin, elem_of_singleton; reflexivity. }
  unfold playAdaptiveSound_begin in Hb.
  case_bool_decide as Hl; [discriminate|]. cbv zeta in Hb.
  destruct (negb (truthy (PlaylistSound.midIntensityPath snd))
            && negb (truthy (PlaylistSound.lowIntensityPath snd))); [discriminate|].
  set (s1 := enforceExclusivity snd st) in *.
  set (s2 := if isSome (playingSounds (player s1) !! PlaylistSound.id snd) then _ else s1) in *.
  assert (N2 : playingSounds (player s2) !! PlaylistSound.id snd = None).
  { subst s2. destruct (playingSounds (player s1) !! PlaylistSound.id snd) eqn:E; cbn [isSome].
    - rewrite playingSounds_stopAdaptiveSound. apply lookup_delete_eq.
    - exact E. }
  set (s3 := onPlayer (fun p => set_loadingSounds ({[PlaylistSound.id snd]} ∪ loadingSounds p) p) s2) in *.
  pose proof (newSounds_layers snd s3) as HL. cbv zeta in HL.
  destruct (newSound (PlaylistSound.path snd) s3) as [hi s4].
  cbn [fst Datatypes.snd] in HL.
  destruct (newSound (PlaylistSound.midIntensityPath snd) s4) as [mi s5].
  cbn [fst Datatypes.snd] in HL.
  destruct (newSound (PlaylistSound.lowIntensityPath snd) s5) as [lo s6].
  cbn [fst Datatypes.snd] in HL.
  destruct HL as (P6 & _).
  assert (Pb : player sb = player s3).
  { destruct (1 <? _)%nat; inversion Hb; subst; exact P6. }
  assert (Hin : PlaylistSound.id snd ∈ loadingSounds (player sb)).
  { rewrite Pb. cbn [s3 player onPlayer set_loadingSounds loadingSounds].
    apply elem_of_union. left. apply elem_of_singleton. reflexivity. }
  assert (Hnone : playingSounds (player sb) !! PlaylistSound.id snd = None)
    by (rewrite Pb; exact N2).
  assert (Hagain : playAdaptiveSound_begin snd sb = (sb, None)).
  { unfold playAdaptiveSound_begin. rewrite bool_decide_eq_true_2 by exact Hin. reflexivity. }
  split; [exact Hin|]. split; [exact Hnone|]. split; [exact Hagain|].
  split; [unfold playAdaptiveSound; rewrite Hagain; reflexivity|].
  split; [|exact Hfin].
  intros skipUpdate. unfold stopAdaptiveSound. rewrite Hnone. reflexivity.
Qed.

(** ** The document hooks *)

(** X24.  One click, one call.  The [preUpdatePlaylistSound] hook
    intercepts a play or stop request exactly for the sounds whose
    native playback the patched [sync] blocks, unless the update is the
    engine's own.  After an intercepted play request the
    [updatePlaylistSound] hook calls [_playAdaptiveSound] exactly once,
    after an intercepted stop request it calls [_stopAdaptiveSound]
    once; for the engine's own updates and for sounds of playlists that
    are not adaptive it does nothing; and a call that waited for its
    loads completes to what [_playAdaptiveSound] does as a whole. *)
Theorem document_hooks (flag : Playlist.t -> bool) (snd : PlaylistSound.t) (st : State) :
  (forall changes options,
     preUpdatePlaylistSound flag snd changes options <> (changes, options) <->
     adaptiveAudioInternal options = false
     /\ blocksNativeSync flag snd = true
     /\ is_Some (ch_playing changes))
  /\ (forall volume,
        blocksNativeSync flag snd = true ->
        let play := preUpdatePlaylistSound flag snd (mkChanges (Some true) volume)
                      (mkOptions false false false) in
        let stop := preUpdatePlaylistSound flag snd (mkChanges (Some false) volume)
                      (mkOptions false false false) in
        ch_playing play.1 = None
        /\ ch_playing stop.1 = None
        /\ (volume = None ->
            updatePlaylistSound flag snd play.1 play.2 st = callPlay snd (st, [])
            /\ updatePlaylistSound flag snd stop.1 stop.2 st
               = (stopAdaptiveSound (PlaylistSound.id snd) false st, [])))
  /\ (forall changes options,
        adaptiveAudioInternal options = true \/ isAdaptive flag snd = false ->
        updatePlaylistSound flag snd changes options st = (st, []))
  /\ (forall sb layers,
        callPlay snd (st, []) = (sb, [(snd, layers)]) ->
        resume (snd, layers) sb = playAdaptiveSound snd st)
  /\ (forall sb,
        callPlay snd (st, []) = (sb, []) -> sb = playAdaptiveSound snd st).
Proof.
  split; [|split; [|split; [|split]]].
  - intros changes options. unfold preUpdatePlaylistSound, blocksNativeSync.
    destruct changes as [[[]|] v], options as [[] b c];
      cbn [adaptiveAudioInternal ch_playing ch_volume adaptiveAudioPlay adaptiveAudioStop];
      destruct (isAdaptive flag snd);
      destruct (truthy (PlaylistSound.midIntensityPath snd));
      destruct (truthy (PlaylistSound.lowIntensityPath snd));
      cbn [negb andb orb];
      (split;
       [intros H; first [exfalso; apply H; reflexivity | repeat split; eauto]
       |intros (H1 & H2 & H3);
        first [discriminate | destruct H3; discriminate | intros E; inversion E]]).
  - intros volume Hb. cbv zeta.
    unfold blocksNativeSync in Hb. apply andb_true_iff in Hb as [Ha Hc].
    unfold preUpdatePlaylistSound, updatePlaylistSound, handleSoundUpdate.
    cbn [adaptiveAudioInternal]. rewrite Ha. cbn [negb].
    assert (Hn : negb (truthy (PlaylistSound.midIntensityPath snd))
                 && negb (truthy (PlaylistSound.lowIntensityPath snd)) = false).
    { destruct (truthy (PlaylistSound.midIntensityPath snd)),
               (truthy (PlaylistSound.lowIntensityPath snd)); try reflexivity; discriminate. }
    rewrite Hn.
    cbn [ch_playing ch_volume fst Datatypes.snd adaptiveAudioInternal adaptiveAudioPlay
         adaptiveAudioStop andb negb].
    split; [reflexivity|]. split; [reflexivity|]. intros ->. cbn [isSome andb].
    split; [|reflexivity].
    destruct (callPlay snd (st, [])); reflexivity.
  - intros changes options [Hi|Ha]; unfold updatePlaylistSound, handleSoundUpdate.
    + rewrite Hi. reflexivity.
    + rewrite Ha. cbn [andb negb]. destruct (adaptiveAudioInternal options); reflexivity.
  - intros sb layers H. unfold callPlay in H. cbn [fst Datatypes.snd] in H.
    unfold playAdaptiveSound, resume.
    destruct (playAdaptiveSound_begin snd st) as [s [l|]]; [|discriminate].
    cbn [app] in H. inversion H; subst. reflexivity.
  - intros sb H. unfold callPlay in H. cbn [fst Datatypes.snd] in H.
    unfold playAdaptiveSound.
    destruct (playAdaptiveSound_begin snd st) as [s [l|]]; [discriminate|].
    inversion H; subst. reflexivity.
Qed.

(** ** The sidebar *)

Lemma curve_unit v l : 0 <= v <= 1 -> 0 <= layerVolume (calculateMix v) l <= 1.
Proof.
  intros Hv. destruct (curve_cases v Hv) as [C|[C|[C|C]]];
    destruct C as (? & ? & ? & ?); destruct l; cbn [layerVolume]; lra.
Qed.

Lemma player_setCustomVolume type volume fromSync st :
  player (setCustomVolume type volume fromSync st)
  = let p1 :=
      if String.eqb type "high" then set_customHighVolume (Some (clamp01 volume)) (player st)
      else if String.eqb type "mid" then set_customMidVolume (Some (clamp01 volume)) (player st)
      else if String.eqb type "low" then set_customLowVolume (Some (clamp01 volume)) (player st)
      else player st in
    if customMixEnabled (player st)
    then set_intensity (clamp01 (intensity (player st))) p1
    else p1.
Proof.
  unfold setCustomVolume. cbv zeta.
  set (st1 := if String.eqb type "high" then _ else _).
  assert (H1 : player st1
               = (if String.eqb type "high"
                  then set_customHighVolume (Some (clamp01 volume)) (player st)
                  else if String.eqb type "mid"
                  then set_customMidVolume (Some (clamp01 volume)) (player st)
                  else if String.eqb type "low"
                  then set_customLowVolume (Some (clamp01 volume)) (player st)
                  else player st)
               /\ customMixEnabled (player st1) = customMixEnabled (player st)
               /\ intensity (player st1) = intensity (player st)).
  { subst st1. destruct (String.eqb type "high"); [|destruct (String.eqb type "mid");
      [|destruct (String.eqb type "low")]]; repeat split; reflexivity. }
  destruct H1 as (H1 & C1 & I1).
  set (st2 := if customMixEnabled (player st1) then _ else st1).
  assert (H2 : player st2
               = if customMixEnabled (player st)
                 then set_intensity (clamp01 (intensity (player st))) (player st1)
                 else player st1).
  { subst st2. rewrite C1. destruct (customMixEnabled (player st)); [|reflexivity].
    rewrite player_setGlobalIntensity, I1. reflexivity. }
  match goal with
  | |- player ?x = _ => assert (H3 : player x = player st2)
  end.
  { destruct (negb fromSync && isGM (host st2)); [|reflexivity].
    destruct (String.eqb type "high"); [|destruct (String.eqb type "mid");
      [|destruct (String.eqb type "low")]]; reflexivity. }
  rewrite H3, H2, H1. reflexivity.
Qed.

(** X25.  The intensity slider drives the custom mix.  While the custom
    mix is enabled, moving the GM's intensity slider to a value between
    0 and 100 stores, as the three custom volumes, the volumes
    of the five-stage curve at that intensity: every Track Set, whatever
    layers it has, is then mixed by the curve.  The slider value is
    stored as [currentIntensity].  (The fallback the sidebar uses while
    no engine exists is a plain crossfade whose volumes add up to 1.) *)
Theorem slider_drives_custom_mix (value : Z) (st : State) :
  isGM (host st) = true ->
  (0 <= value <= 100)%Z ->
  customMixEnabled (player st) = true ->
  let st' := onIntensityInput value st in
  let curve := calculateMix (inject_Z value / 100) in
  intensity (player st') == inject_Z value / 100
  /\ customMixEnabled (player st') = true
  /\ (forall entry,
        Mix_equiv (mixVolumes (player st') entry)
          (mkMix (low curve * effectiveMasterVolume (player st) entry)
                 (mid curve * effectiveMasterVolume (player st) entry)
                 (high curve * effectiveMasterVolume (player st) entry)))
  /\ Settings.currentIntensity (settings (host st')) = value
  /\ (forall i, 0 <= i <= 1 ->
        low (fallbackVolumes i) + mid (fallbackVolumes i) + high (fallbackVolumes i) == 1
        /\ forall l, 0 <= layerVolume (fallbackVolumes i) l <= 1).
Proof.
  intros _ [V0 V1] Hc. cbv zeta.
  assert (Hv : 0 <= inject_Z value / 100 <= 1).
  { assert (0 <= inject_Z value) by (change 0 with (inject_Z 0); rewrite <- Zle_Qle; exact V0).
    assert (inject_Z value <= 100)
      by (change 100 with (inject_Z 100); rewrite <- Zle_Qle; exact V1).
    split; [apply Qle_shift_div_l; lra | apply Qle_shift_div_r; lra]. }
  set (i := inject_Z value / 100) in *.
  unfold onIntensityInput. cbv zeta. fold i.
  set (st0 := onHost (set_slider value) st).
  set (st1 := setGlobalIntensity i false st0).
  assert (P1 : customMixEnabled (player st1) = true
               /\ intensity (player st1) = clamp01 i
               /\ masterVolume (player st1) = masterVolume (player st)).
  { subst st1. rewrite player_setGlobalIntensity.
    destruct (negb false && isSome _); repeat split; assumption. }
  destruct P1 as (C1 & I1 & M1). rewrite C1.
  set (st2 := setCustomVolume "high" (high (calculateMix i)) false st1).
  set (st3 := setCustomVolume "mid" (mid (calculateMix i)) false st2).
  set (st4 := setCustomVolume "low" (low (calculateMix i)) false st3).
  cbn [host player onHost set_settings settings settings_set_currentIntensity
       Settings.currentIntensity].
  pose proof (player_setCustomVolume "high" (high (calculateMix i)) false st1) as P2.
  fold st2 in P2. cbv zeta in P2. rewrite C1 in P2. cbn [String.eqb Ascii.eqb Bool.eqb] in P2.
  pose proof (player_setCustomVolume "mid" (mid (calculateMix i)) false st2) as P3.
  fold st3 in P3. cbv zeta in P3. rewrite P2 in P3.
  cbn [String.eqb Ascii.eqb Bool.eqb customMixEnabled set_intensity set_customHighVolume
       intensity] in P3. rewrite C1 in P3.
  pose proof (player_setCustomVolume "low" (low (calculateMix i)) false st3) as P4.
  fold st4 in P4. cbv zeta in P4. rewrite P3 in P4.
  cbn [String.eqb Ascii.eqb Bool.eqb customMixEnabled set_intensity set_customHighVolume
       set_customMidVolume intensity] in P4. rewrite C1 in P4.
  rewrite P4.
  pose proof (curve_unit i Low Hv) as Ul. pose proof (curve_unit i Mid Hv) as Um.
  pose proof (curve_unit i High Hv) as Uh. cbn [layerVolume] in Ul, Um, Uh.
  split; [|split; [|split; [|split]]].
  - cbn [intensity set_intensity set_customLowVolume]. rewrite I1.
    rewrite !clamp01_idem. apply clamp01_id, Hv.
  - cbn. exact C1.
  - intros entry. unfold mixVolumes, effectiveMasterVolume.
    cbn [customMixEnabled set_intensity set_customLowVolume set_customMidVolume
         set_customHighVolume customLowVolume customMidVolume customHighVolume
         masterVolume default from_option id].
    rewrite C1, M1. cbv zeta. unfold Mix_equiv. cbn [low mid high].
    rewrite (clamp01_id _ Ul), (clamp01_id _ Um), (clamp01_id _ Uh).
    repeat split; reflexivity.
  - reflexivity.
  - intros x [X0 X1]. unfold fallbackVolumes.
    destruct (Qleb x 0.5) eqn:E; cbv zeta; cbn [low mid high].
    + apply Qleb_true in E.
      assert (D : x / 0.5 == 2 * x) by field.
      split; [rewrite D; lra|]. intros []; cbn [layerVolume low mid high]; rewrite ?D; lra.
    + apply Qleb_false in E.
      assert (D : (x - 0.5) / 0.5 == 2 * x - 1) by field.
      split; [rewrite D; lra|]. intros []; cbn [layerVolume low mid high]; rewrite ?D; lra.
Qed.

(** ** A whole encounter *)

Lemma fadeTick_combat_frame f now st :
  preCombatIntensity (player (fadeTick f now st)) = preCombatIntensity (player st)
  /\ userOverrideDuringCombat (player (fadeTick f now st))
     = userOverrideDuringCombat (player st)
  /\ Settings.autoSetCombatIntensity (settings (host (fadeTick f now st)))
     = Settings.autoSetCombatIntensity (settings (host st))
  /\ combats (host (fadeTick f now st)) = combats (host st)
  /\ nextTimer (host (fadeTick f now st)) = nextTimer (host st).
Proof.
  unfold fadeTick. cbv zeta.
  set (newI := startIntensity f + _).
  pose proof (player_setGlobalIntensity newI true st) as Hp2.
  pose proof (host_setGlobalIntensity newI true st) as Hh2.
  cbn [negb andb] in Hp2, Hh2.
  destruct (host_but_audio _ _ Hh2) as (S2 & _ & _ & N2 & _ & _ & C2 & _).
  set (s2 := setGlobalIntensity newI true st) in *.
  set (s3 := if updateUI f then _ else s2).
  assert (H3 : player s3 = player s2 /\ settings (host s3) = settings (host s2)
               /\ combats (host s3) = combats (host s2)
               /\ nextTimer (host s3) = nextTimer (host s2)).
  { subst s3. destruct (updateUI f); repeat split; reflexivity. }
  destruct H3 as (P3 & S3 & C3 & N3).
  destruct (Qleb 1.0 _).
  - destruct (fadeInterval (player s3));
      match goal with
      | |- context [if ?c then _ else _] => destruct c
      end;
      cbn [player host onPlayer onHost clearInterval set_fadeInterval set_timers set_settings
           settings combats nextTimer preCombatIntensity userOverrideDuringCombat
           settings_set_currentIntensity Settings.autoSetCombatIntensity];
      rewrite ?P3, ?S3, ?C3, ?N3, ?Hp2, ?S2, ?C2, ?N2; repeat split; reflexivity.
  - rewrite P3, S3, C3, N3, Hp2, S2, C2, N2. repeat split; reflexivity.
Qed.

(** X26.  An encounter from start to end.  With the automatic combat
    intensity on and no encounter running, [combatStart] stores the
    current intensity and fades to the combat intensity; when the
    encounter is deleted as the last one and the user has not touched
    the intensity, the engine fades back, and 2000 ms later the
    intensity is what it was before the encounter, the stored value is
    forgotten and no fade timer is left. *)
Theorem combat_round_trip (combat : Combat.t) (st : State) (t0 t1 t2 t3 : Q) :
  Settings.autoSetCombatIntensity (settings (host st)) = true ->
  preCombatIntensity (player st) = None ->
  0 <= intensity (player st) <= 1 ->
  otherActiveCombats combat st = [] ->
  t0 + 2000 <= t1 ->
  t2 + 2000 <= t3 ->
  let s1 := combatStart t0 st in
  let s2 := runTimer (nextTimer (host st)) t1 s1 in
  let s3 := deleteCombat combat t2 s2 in
  let s4 := runTimer (nextTimer (host s2)) t3 s3 in
  preCombatIntensity (player s1) = Some (intensity (player st))
  /\ intensity (player s2) == clamp01 (Settings.combatIntensity (settings (host st)) / 100)
  /\ preCombatIntensity (player s2) = Some (intensity (player st))
  /\ intensity (player s4) == intensity (player st)
  /\ preCombatIntensity (player s4) = None
  /\ userOverrideDuringCombat (player s4) = false.
Proof.
  intros Hauto Hpre Hi Hother H01 H23. cbv zeta.
  set (target := Settings.combatIntensity (settings (host st)) / 100).
  assert (E1 : combatStart t0 st
               = fadeTo target 2000 true t0
                   (onPlayer (fun p => set_userOverrideDuringCombat false
                                         (set_preCombatIntensity (Some (intensity p)) p)) st)).
  { unfold combatStart. rewrite Hauto, Hpre. reflexivity. }
  set (s0 := onPlayer (fun p => set_userOverrideDuringCombat false
                                  (set_preCombatIntensity (Some (intensity p)) p)) st) in *.
  destruct (fadeTo_fields target 2000 true t0 s0) as (F1 & F2 & F3 & _ & _ & F6).
  destruct (fadeTo_timer target 2000 true t0 s0) as (Htimer & _ & Hnext & _).
  cbv zeta in F1, F2, F3, F6, Htimer, Hnext. rewrite <- E1 in F1, F2, F3, F6, Htimer, Hnext.
  set (s1 := combatStart t0 st) in *.
  change (nextTimer (host s0)) with (nextTimer (host st)) in Htimer, Hnext.
  assert (C1 : combats (host s1) = combats (host st)).
  { subst s1. rewrite E1. unfold fadeTo. destruct (fadeInterval (player s0)); reflexivity. }
  assert (E2 : runTimer (nextTimer (host st)) t1 s1
               = fadeTick (mkFade (intensity (player st)) (target - intensity (player st))
                                  t0 2000 target true) t1 s1).
  { unfold runTimer. rewrite Htimer. reflexivity. }
  rewrite E2.
  set (f := mkFade (intensity (player st)) (target - intensity (player st)) t0 2000 target true).
  destruct (fadeTick_combat_frame f t1 s1) as (K1 & K2 & K3 & K4 & K5).
  set (s2 := fadeTick f t1 s1) in *.
  assert (I2 : intensity (player s2) == clamp01 target).
  { subst s2. rewrite intensity_fadeTick_ease.
    cbn [f startIntensity delta startTime fadeDuration].
    destruct (fade_progress t0 t1 2000 ltac:(lra) ltac:(lra)) as (_ & Hp & _).
    specialize (Hp H01).
    assert (He : easeInOut (Qmin ((t1 - t0) / 2000) 1.0) == 1).
    { unfold easeInOut. destruct (Qltb _ 0.5) eqn:E.
      - apply Qltb_true in E. rewrite Hp in E. lra.
      - assert (Hq : forall x, 1 - (-2 * x + 2) ^ 2 / 2 == 1 - 2 * (1 - x) * (1 - x))
          by (intros; simpl; field).
        rewrite Hq, Hp. lra. }
    unfold clamp01.
    assert (Hx : intensity (player st) + (target - intensity (player st))
                 * easeInOut (Qmin ((t1 - t0) / 2000) 1.0) == target)
      by (rewrite He; lra).
    rewrite Hx. reflexivity. }
  assert (Hpre2 : preCombatIntensity (player s2) = Some (intensity (player st)))
    by (rewrite K1, F2; reflexivity).
  assert (Hov2 : userOverrideDuringCombat (player s2) = false)
    by (rewrite K2, F3; reflexivity).
  assert (Hauto2 : Settings.autoSetCombatIntensity (settings (host s2)) = true)
    by (rewrite K3, F6; exact Hauto).
  assert (Hother2 : otherActiveCombats combat s2 = []).
  { unfold otherActiveCombats in *. rewrite K4, C1. exact Hother. }
  split; [rewrite F2; reflexivity|]. split; [exact I2|]. split; [exact Hpre2|].
  split; [apply (deleteCombat_fade_arrives combat t2 s2 (intensity (player st)) t3);
          assumption|].
  destruct (deleteCombat_last combat t2 s2 Hauto2 Hother2) as (D1 & D2 & _).
  cbv zeta in D1, D2.
  assert (Ht : forall x, timers (host (deleteCombat combat t2 s2)) !! nextTimer (host s2) = Some x ->
            exists g, x = FadeTimer g).
  { intros x Hx. unfold deleteCombat in Hx. rewrite Hauto2, Hother2, Hov2, Hpre2 in Hx.
    cbn [negb andb isSome length Nat.ltb Nat.leb] in Hx.
    cbn [host onPlayer] in Hx.
    destruct (fadeTo_timer (intensity (player st)) 2000 true t2 s2) as (Hn & _).
    cbv zeta in Hn. rewrite Hn in Hx. inversion Hx. eauto. }
  unfold runTimer.
  destruct (timers (host (deleteCombat combat t2 s2)) !! nextTimer (host s2)) as [x|] eqn:Ex.
  - destruct (Ht x eq_refl) as [g ->].
    destruct (fadeTick_combat_frame g t3 (deleteCombat combat t2 s2)) as (-> & -> & _).
    split; assumption.
  - split; assumption.
Qed.

(** ** Preloading *)

Lemma audioHelperPlay_spec src vol lp st :
  let n := nextSound (host st) in
  let r := audioHelperPlay src vol lp st in
  player r.2 = player st
  /\ nextSound (host r.2) = S n
  /\ timers (host r.2) = timers (host st)
  /\ nextTimer (host r.2) = nextTimer (host st)
  /\ requests (host r.2) = requests (host st)
  /\ settings (host r.2) = settings (host st)
  /\ media (host r.2) = media (host st)
  /\ (forall j, j <> n -> audio (host r.2) !! j = audio (host st) !! j)
  /\ match media (host st) !! src with
     | Some d => r.1 = Some n
                 /\ audio (host r.2) !! n = Some (Sound.mk src true vol 0 d lp)
     | None => r.1 = None /\ audio (host r.2) !! n = Some (Sound.create src)
     end.
Proof.
  cbv zeta. unfold audioHelperPlay. cbv zeta.
  set (n := nextSound (host st)).
  set (st1 := onHost _ st).
  assert (A1 : audio (host st1) !! n = Some (Sound.create src))
    by (cbn [st1 host onHost set_nextSound set_audio audio]; apply lookup_insert_eq).
  unfold loadSound. rewrite A1. cbn [mbind option_bind Sound.create Sound.src].
  change (media (host st1)) with (media (host st)).
  destruct (media (host st) !! src) as [d|]; cbn [mbind option_bind fst Datatypes.snd].
  - repeat split; try reflexivity.
    + intros j Hj. cbn [host onHost onSound set_audio audio st1 set_nextSound].
      rewrite !lookup_alter_ne, lookup_insert_ne by congruence. reflexivity.
    + cbn [host onHost onSound set_audio audio st1 set_nextSound].
      rewrite !lookup_alter_eq, lookup_insert_eq. reflexivity.
  - repeat split; try reflexivity; [|exact A1].
    intros j Hj. cbn [host onHost onSound set_audio audio st1 set_nextSound].
    rewrite lookup_insert_ne by congruence. reflexivity.
Qed.

Lemma onlySilentObjectsAdded_refl st : onlySilentObjectsAdded st st.
Proof. repeat split; auto. Qed.

Lemma onlySilentObjectsAdded_trans a b c :
  onlySilentObjectsAdded a b -> onlySilentObjectsAdded b c -> onlySilentObjectsAdded a c.
Proof.
  intros (A1 & A2 & A3 & A4 & A5 & A6 & A7 & A8) (B1 & B2 & B3 & B4 & B5 & B6 & B7 & B8).
  split; [congruence|]. split; [lia|]. split; [|split].
  - intros i Hi. rewrite B3 by lia. apply A3, Hi.
  - intros i s Hi Hs. destruct (decide (i < nextSound (host b))%nat) as [Hlt|Hge].
    + rewrite B3 in Hs by exact Hlt. apply (A4 i s Hi Hs).
    + destruct (B4 i s ltac:(lia) Hs) as [Hb|Hb]; [|right; exact Hb].
      apply (A4 i s Hi Hb).
  - repeat split; congruence.
Qed.

Lemma preloadUncached_silent path x :
  onlySilentObjectsAdded x.1 (preloadUncached path x).1
  /\ isPlaying (preloadUncached path x).2 = isPlaying x.2
  /\ isPaused (preloadUncached path x).2 = isPaused x.2
  /\ match media (host x.1) !! path with
     | Some _ => preloadedAudio (preloadUncached path x).2 = {[path]} ∪ preloadedAudio x.2
                 /\ notes (preloadUncached path x).2 = notes x.2
     | None => preloadedAudio (preloadUncached path x).2 = preloadedAudio x.2
               /\ notes (preloadUncached path x).2 = notes x.2 ++ [NotePreloadFailed path]
     end.
Proof.
  unfold preloadUncached.
  pose proof (audioHelperPlay_spec path 0 false x.1) as H. cbv zeta in H.
  destruct (audioHelperPlay path 0 false x.1) as [o st]. cbn [fst Datatypes.snd] in H.
  destruct H as (P & N & T & _ & R & S & M & A & C).
  destruct (media (host x.1) !! path) as [d|].
  - destruct C as [-> Hn]. cbn [fst Datatypes.snd preloadedAudio notes isPlaying isPaused].
    split; [|auto].
    split; [rewrite player_onSound; exact P|].
    split; [cbn [onSound host onHost set_audio nextSound]; rewrite N; lia|].
    split; [|split].
    + intros i Hi. rewrite audio_onSound, decide_False by (intros [= E]; lia).
      apply A. lia.
    + intros i s Hi Hs. rewrite audio_onSound in Hs. case_decide as E.
      * inversion E; subst i. rewrite Hn in Hs. inversion Hs. right. reflexivity.
      * left. rewrite <- Hs. symmetry. apply A. congruence.
    + repeat split; cbn; assumption.
  - destruct C as [-> Hn]. cbn [fst Datatypes.snd note preloadedAudio notes isPlaying isPaused].
    split; [|auto].
    split; [exact P|]. split; [lia|]. split; [|split].
    + intros i Hi. apply A. lia.
    + intros i s Hi Hs. destruct (decide (i = nextSound (host x.1))) as [->|Hne].
      * rewrite Hn in Hs. inversion Hs. right. reflexivity.
      * left. rewrite <- Hs. symmetry. apply A. exact Hne.
    + repeat split; assumption.
Qed.

Lemma preloadPath_silent path x :
  onlySilentObjectsAdded x.1 (preloadPath path x).1
  /\ preloadedAudio x.2 ⊆ preloadedAudio (preloadPath path x).2
  /\ (is_Some (media (host x.1) !! path) -> path ∈ preloadedAudio (preloadPath path x).2).
Proof.
  unfold preloadPath. case_bool_decide as Hc.
  - split; [apply onlySilentObjectsAdded_refl|]. split; [reflexivity | intros _; exact Hc].
  - destruct (preloadUncached_silent path x) as (S & _ & _ & C).
    split; [exact S|].
    destruct (media (host x.1) !! path) as [d|].
    + destruct C as [-> _]. split; [apply union_subseteq_r|].
      intros _. apply elem_of_union. left. apply elem_of_singleton. reflexivity.
    + destruct C as [-> _]. split; [reflexivity | intros [? [=]]].
Qed.

Lemma preloadUncached_fold_silent (ps : list string) x :
  let y := foldl (fun x p => preloadUncached p x) x ps in
  onlySilentObjectsAdded x.1 y.1
  /\ preloadedAudio x.2 ⊆ preloadedAudio y.2
  /\ (forall p, p ∈ ps -> is_Some (media (host x.1) !! p) -> p ∈ preloadedAudio y.2)
  /\ (exists ns, notes y.2 = notes x.2 ++ ns
                 /\ forall n, n ∈ ns -> exists p, n = NotePreloadFailed p).
Proof.
  revert x. induction ps as [|p ps IH]; intros x; cbn [foldl].
  - split; [apply onlySilentObjectsAdded_refl|]. split; [reflexivity|].
    split; [intros p Hp; inversion Hp|]. exists []. rewrite app_nil_r.
    split; [reflexivity | intros n Hn; inversion Hn].
  - destruct (IH (preloadUncached p x)) as (S2 & C2 & M2 & (ns & N2 & F2)).
    destruct (preloadUncached_silent p x) as (S1 & _ & _ & C1).
    assert (Hm : media (host (preloadUncached p x).1) = media (host x.1)) by apply S1.
    split; [eapply onlySilentObjectsAdded_trans; eassumption|].
    assert (Hsub : preloadedAudio x.2 ⊆ preloadedAudio (preloadUncached p x).2
                   /\ (is_Some (media (host x.1) !! p) ->
                       p ∈ preloadedAudio (preloadUncached p x).2)
                   /\ exists n1, notes (preloadUncached p x).2 = notes x.2 ++ n1
                                 /\ forall n, n ∈ n1 -> exists q, n = NotePreloadFailed q).
    { destruct (media (host x.1) !! p) as [d|].
      - destruct C1 as [-> ->]. split; [apply union_subseteq_r|].
        split; [intros _; apply elem_of_union; left; apply elem_of_singleton; reflexivity|].
        exists []. rewrite app_nil_r. split; [reflexivity | intros n Hn; inversion Hn].
      - destruct C1 as [-> ->]. split; [reflexivity|]. split; [intros [? [=]]|].
        exists [NotePreloadFailed p]. split; [reflexivity|].
        intros n Hn. apply list_elem_of_singleton in Hn. eauto. }
    destruct Hsub as (Hsub & Hp & (n1 & N1 & F1)).
    split; [etransitivity; eassumption|]. split.
    + intros q Hq Hd. apply elem_of_cons in Hq as [->|Hq].
      * apply C2, Hp, Hd.
      * apply M2; [exact Hq | rewrite Hm; exact Hd].
    + exists (n1 ++ ns). rewrite N2, N1, app_assoc. split; [reflexivity|].
      intros n Hn. apply elem_of_app in Hn as [Hn|Hn]; auto.
Qed.

(** X27.  Preloading is inaudible.  [_preloadSound], [preloadSound] and
    [_preloadPlaylistInternal] leave the engine's fields and the sound
    objects that exist untouched, and whatever sound object they create
    is not playing afterwards.  A path whose media the host can decode
    is cached, and preloading it again does nothing; a path that cannot
    be decoded is reported and not cached.  The count that
    [preloadSound] reports and [_preloadPlaylistInternal] returns is the
    number of layers that have a path, whether they could be loaded or
    not. *)
Theorem preloading_is_inaudible (x : State * Aux) :
  (forall path,
     let y := preloadPath path x in
     onlySilentObjectsAdded x.1 y.1
     /\ (is_Some (media (host x.1) !! path) ->
         (path ∈ preloadedAudio y.2) /\ preloadPath path y = y)
     /\ (media (host x.1) !! path = None -> path ∉ preloadedAudio x.2 ->
         (path ∉ preloadedAudio y.2)
         /\ last (notes y.2) = Some (NotePreloadFailed path)))
  /\ (forall snd,
        let y := preloadSound snd x in
        onlySilentObjectsAdded x.1 y.1
        /\ last (notes y.2)
           = Some (NotePreloaded (length (layerPaths snd)) (PlaylistSound.name snd))
        /\ (forall p, p ∈ layerPaths snd -> is_Some (media (host x.1) !! p) ->
                      p ∈ preloadedAudio y.2))
  /\ (forall sounds,
        let r := preloadPlaylistInternal sounds x in
        r.1 = length (sounds ≫= layerPaths)
        /\ onlySilentObjectsAdded x.1 r.2.1
        /\ (forall snd p, snd ∈ sounds -> p ∈ layerPaths snd ->
                          is_Some (media (host x.1) !! p) -> p ∈ preloadedAudio r.2.2)).
Proof.
  split; [|split].
  - intros path. cbv zeta.
    destruct (preloadPath_silent path x) as (S & Hsub & Hin).
    split; [exact S|]. split.
    + intros Hd. split; [apply Hin, Hd|].
      unfold preloadPath at 1. rewrite bool_decide_eq_true_2 by (apply Hin, Hd). reflexivity.
    + intros Hnone Hnc. unfold preloadPath. rewrite bool_decide_eq_false_2 by exact Hnc.
      destruct (preloadUncached_silent path x) as (_ & _ & _ & C). rewrite Hnone in C.
      destruct C as [-> ->]. split; [exact Hnc | apply last_snoc].
  - intros snd. cbv zeta. unfold preloadSound. cbv zeta. cbn [fst Datatypes.snd].
    set (x0 := (x.1, note (NotePreloading (PlaylistSound.name snd)) x.2)).
    set (todo := List.filter _ (layerPaths snd)).
    destruct (preloadUncached_fold_silent todo x0) as (S & Hsub & Hin & _).
    cbv zeta in S, Hsub, Hin.
    split; [exact S|]. split; [cbn [note notes]; apply last_snoc|].
    intros p Hp Hd. cbn [note preloadedAudio].
    destruct (decide (p ∈ preloadedAudio x.2)) as [Hc|Hc].
    + apply Hsub. exact Hc.
    + apply Hin; [|exact Hd]. subst todo. apply list_elem_of_In, filter_In.
      split; [apply list_elem_of_In, Hp|]. rewrite bool_decide_eq_false_2 by exact Hc.
      reflexivity.
  - intros sounds. cbv zeta. unfold preloadPlaylistInternal.
    assert (Hinner : forall ps count y,
              let r := foldl (fun '(count, x) p => (S count, preloadPath p x)) (count, y) ps in
              r.1 = (count + length ps)%nat
              /\ onlySilentObjectsAdded y.1 r.2.1
              /\ preloadedAudio y.2 ⊆ preloadedAudio r.2.2
              /\ (forall p, p ∈ ps -> is_Some (media (host y.1) !! p) ->
                            p ∈ preloadedAudio r.2.2)).
    { induction ps as [|p ps IH]; intros count y; cbn [foldl].
      - cbn. split; [lia|]. split; [apply onlySilentObjectsAdded_refl|].
        split; [reflexivity | intros p Hp; inversion Hp].
      - destruct (IH (S count) (preloadPath p y)) as (A & B & C & D).
        destruct (preloadPath_silent p y) as (S1 & Hsub & Hin).
        assert (Hm : media (host (preloadPath p y).1) = media (host y.1)) by apply S1.
        cbv zeta. cbn [length]. split; [rewrite A; lia|].
        split; [eapply onlySilentObjectsAdded_trans; eassumption|].
        split; [etransitivity; eassumption|].
        intros q Hq Hd. apply elem_of_cons in Hq as [->|Hq].
        + apply C, Hin, Hd.
        + apply D; [exact Hq | rewrite Hm; exact Hd]. }
    assert (Houter : forall count y,
              let r := foldl (fun '(count, x) snd =>
                                foldl (fun '(count, x) p => (S count, preloadPath p x))
                                      (count, x) (layerPaths snd)) (count, y) sounds in
              r.1 = (count + length (sounds ≫= layerPaths))%nat
              /\ onlySilentObjectsAdded y.1 r.2.1
              /\ preloadedAudio y.2 ⊆ preloadedAudio r.2.2
              /\ (forall snd p, snd ∈ sounds -> p ∈ layerPaths snd ->
                                is_Some (media (host y.1) !! p) ->
                                p ∈ preloadedAudio r.2.2)).
    { induction sounds as [|snd sounds IH]; intros count y; cbn [foldl].
      - cbn. split; [lia|]. split; [apply onlySilentObjectsAdded_refl|].
        split; [reflexivity | intros s p Hs; inversion Hs].
      - destruct (Hinner (layerPaths snd) count y) as (A1 & B1 & C1 & D1). cbv zeta in *.
        destruct (foldl _ (count, y) (layerPaths snd)) as [c1 y1] eqn:E1.
        cbn [fst Datatypes.snd] in A1, B1, C1, D1.
        destruct (IH c1 y1) as (A2 & B2 & C2 & D2).
        assert (Hm : media (host y1.1) = media (host y.1)) by apply B1.
        rewrite bind_cons, length_app.
        split; [rewrite A2, A1; lia|].
        split; [eapply onlySilentObjectsAdded_trans; eassumption|].
        split; [etransitivity; eassumption|].
        intros s p Hs Hp Hd. apply elem_of_cons in Hs as [->|Hs].
        + apply C2, D1; assumption.
        + apply (D2 s p Hs Hp). rewrite Hm. exact Hd. }
    destruct (Houter 0%nat x) as (A & B & _ & D). cbv zeta in A, B, D.
    split; [exact A|]. split; [exact B | exact D].
Qed.

(** ** The quick-test mode *)

Lemma nextSound_onSound snd f st : nextSound (host (onSound snd f st)) = nextSound (host st).
Proof. destruct snd; reflexivity. Qed.

Lemma nextSound_stopAdaptiveSound soundId skipUpdate st :
  nextSound (host (stopAdaptiveSound soundId skipUpdate st)) = nextSound (host st).
Proof.
  unfold stopAdaptiveSound.
  destruct (playingSounds (player st) !! soundId) as [entry|]; [|reflexivity].
  cbv zeta.
  repeat match goal with
         | |- context [if ?c then _ else _] => destruct c
         end;
    unfold stopDriftMonitoring;
    repeat match goal with
           | |- context [match ?c with Some _ => _ | None => _ end] => destruct c
           end;
    cbn [host onHost onPlayer clearInterval set_timers set_requests nextSound];
    rewrite !nextSound_onSound; reflexivity.
Qed.

Lemma truthy_Some s : truthy (Some s) = true <-> s <> "".
Proof. cbn [truthy]. rewrite negb_true_iff. apply String.eqb_neq. Qed.

(** X28.  The quick-test mode.  [play()] without both paths only warns.
    With both paths and decodable media it registers the Track Set
    'legacy-test' with a Low and a High layer and no Mid layer, both
    playing looped from position 0 at the volumes of the two-layer
    crossfade, marks the engine as playing and starts the drift monitor.
    [stop()] unregisters that Track Set and clears both marks.
    [pause()] halts the sound objects of 'legacy-test' where they are
    and stops the drift monitor while every Track Set stays
    registered; without a 'legacy-test' Track Set it does nothing. *)
Theorem quick_test (x : State * Aux) :
  (lowTrackPath x.2 = "" \/ highTrackPath x.2 = "" ->
   legacyPlay x = (false, (x.1, note NoteBothTracksRequired x.2)))
  /\ (forall dl dh,
        lowTrackPath x.2 <> "" -> highTrackPath x.2 <> "" ->
        media (host x.1) !! lowTrackPath x.2 = Some dl ->
        media (host x.1) !! highTrackPath x.2 = Some dh ->
        let r := legacyPlay x in
        let n := nextSound (host x.1) in
        let entry := mkEntry (Some (S n)) None (Some n) legacySound false in
        let vols := mixVolumes (player r.2.1) entry in
        r.1 = true
        /\ playingSounds (player r.2.1) !! "legacy-test" = Some entry
        /\ audio (host r.2.1) !! n = Some (Sound.mk (lowTrackPath x.2) true (low vols) 0 dl true)
        /\ audio (host r.2.1) !! S n
           = Some (Sound.mk (highTrackPath x.2) true (high vols) 0 dh true)
        /\ (customMixEnabled (player x.1) = false ->
            low vols = (1 - intensity (player x.1)) * (masterVolume (player x.1) * 1.0)
            /\ high vols = intensity (player x.1) * (masterVolume (player x.1) * 1.0))
        /\ isPlaying r.2.2 = true /\ isPaused r.2.2 = false
        /\ is_Some (driftMonitorInterval (player r.2.1)))
  /\ (playingSounds (player (legacyStop x).1) !! "legacy-test" = None
      /\ isPlaying (legacyStop x).2 = false /\ isPaused (legacyStop x).2 = false)
  /\ (playingSounds (player x.1) !! "legacy-test" = None -> legacyPause x = x)
  /\ (forall entry,
        playingSounds (player x.1) !! "legacy-test" = Some entry ->
        let y := legacyPause x in
        driftMonitorInterval (player y.1) = None
        /\ playingSounds (player y.1) = playingSounds (player x.1)
        /\ isPlaying y.2 = false /\ isPaused y.2 = true
        /\ forall i s,
             Some i ∈ [lowSound entry; highSound entry] ->
             audio (host x.1) !! i = Some s ->
             audio (host y.1) !! i = Some (Sound_pause s)).
Proof.
  split; [|split; [|split; [|split]]].
  - intros H. unfold legacyPlay. cbn [truthy].
    destruct H as [-> | ->]; cbn [String.eqb negb orb]; [reflexivity|].
    destruct (negb (negb _)); reflexivity.
  - intros dl dh Hl Hh Ml Mh. cbv zeta. unfold legacyPlay.
    rewrite (proj2 (truthy_Some _) Hl), (proj2 (truthy_Some _) Hh). cbn [negb orb].
    cbv zeta. unfold legacyStop. cbn [fst Datatypes.snd set_flags lowTrackPath highTrackPath].
    set (s0 := stopAdaptiveSound "legacy-test" false x.1).
    assert (H0 : media (host s0) = media (host x.1) /\ nextSound (host s0) = nextSound (host x.1)
                 /\ intensity (player s0) = intensity (player x.1)
                 /\ masterVolume (player s0) = masterVolume (player x.1)
                 /\ customMixEnabled (player s0) = customMixEnabled (player x.1)).
    { split; [apply media_stopAdaptiveSound|]. split; [apply nextSound_stopAdaptiveSound|].
      subst s0. unfold stopAdaptiveSound.
      destruct (playingSounds (player x.1) !! "legacy-test") as [e|]; [|auto].
      cbv zeta.
      repeat match goal with
             | |- context [if ?c then _ else _] => destruct c
             end;
        unfold stopDriftMonitoring;
        repeat match goal with
               | |- context [match ?c with Some _ => _ | None => _ end] => destruct c
               end;
        cbn [player onPlayer onHost set_playingSounds set_driftMonitorInterval intensity
             masterVolume customMixEnabled];
        rewrite !player_onSound; auto. }
    destruct H0 as (M0 & N0 & I0 & V0 & C0).
    pose proof (audioHelperPlay_spec (lowTrackPath x.2) 1.0 true s0) as H1. cbv zeta in H1.
    destruct (audioHelperPlay (lowTrackPath x.2) 1.0 true s0) as [lo s1].
    cbn [fst Datatypes.snd] in H1.
    destruct H1 as (P1 & N1 & _ & _ & _ & _ & M1 & A1 & C1).
    rewrite M0, Ml in C1. destruct C1 as [-> L1].
    pose proof (audioHelperPlay_spec (highTrackPath x.2) 1.0 true s1) as H2. cbv zeta in H2.
    destruct (audioHelperPlay (highTrackPath x.2) 1.0 true s1) as [hi s2].
    cbn [fst Datatypes.snd] in H2.
    destruct H2 as (P2 & N2 & _ & _ & _ & _ & M2 & A2 & C2).
    rewrite M1, M0, Mh in C2. destruct C2 as [-> L2].
    rewrite N1, N0 in *.
    set (n := nextSound (host x.1)) in *.
    set (entry := mkEntry (Some (S n)) None (Some n) legacySound false).
    set (s3 := onPlayer (fun p => set_playingSounds (<["legacy-test" := entry]> (playingSounds p)) p) s2).
    assert (E3 : playingSounds (player s3) !! "legacy-test" = Some entry)
      by (cbn [s3 player onPlayer set_playingSounds playingSounds]; apply lookup_insert_eq).
    set (s4 := applyIntensityToSound "legacy-test" s3).
    assert (P4 : player s4 = player s3) by apply player_applyIntensityToSound.
    assert (Hst : exists t, player (startDriftMonitoring s4)
                            = set_driftMonitorInterval (Some t) (player s4)
                            /\ audio (host (startDriftMonitoring s4)) = audio (host s4)).
    { unfold startDriftMonitoring, stopDriftMonitoring.
      destruct (driftMonitorInterval (player s4)); cbv zeta; eexists; split; reflexivity. }
    destruct Hst as (t & P5 & A5).
    cbn [fst Datatypes.snd set_flags isPlaying isPaused].
    rewrite P5, A5, P4.
    cbn [set_driftMonitorInterval playingSounds driftMonitorInterval].
    assert (Hmix : mixVolumes (set_driftMonitorInterval (Some t) (player s3)) entry
                   = mixVolumes (player s3) entry) by reflexivity.
    rewrite Hmix.
    split; [reflexivity|]. split; [exact E3|].
    assert (Ha : forall i, audio (host s4) !! i
                 = match assignedVolume (mixVolumes (player s3) entry) entry i with
                   | Some v => Sound.setVolume v <$> audio (host s2) !! i
                   | None => audio (host s2) !! i
                   end)
      by (intros i; apply (audio_applyIntensityToSound "legacy-test" entry s3 i E3)).
    split; [|split; [|split]].
    + rewrite Ha. unfold assignedVolume. cbn [entry highSound midSound lowSound].
      rewrite decide_False by (intros [= E]; lia).
      rewrite decide_False by discriminate. rewrite decide_True by reflexivity.
      rewrite A2 by lia. rewrite L1. reflexivity.
    + rewrite Ha. unfold assignedVolume. cbn [entry highSound midSound lowSound].
      rewrite decide_True by reflexivity. rewrite L2. reflexivity.
    + intros Hc. unfold mixVolumes.
      change (player s3) with (set_playingSounds (<["legacy-test" := entry]> (playingSounds (player s2))) (player s2)).
      rewrite P2, P1.
      cbn [customMixEnabled set_playingSounds intensity masterVolume entry highSound midSound
           lowSound sound isSome negb andb legacySound PlaylistSound.volume default
           from_option id].
      rewrite C0, Hc, I0, V0. cbn [low high]. split; reflexivity.
    + split; [reflexivity|]. split; [reflexivity|]. eauto.
  - unfold legacyStop. cbn [fst Datatypes.snd set_flags isPlaying isPaused].
    rewrite playingSounds_stopAdaptiveSound, lookup_delete_eq. auto.
  - intros H. unfold legacyPause. rewrite H. reflexivity.
  - intros entry He. cbv zeta. unfold legacyPause. rewrite He. cbv zeta.
    cbn [fst Datatypes.snd set_flags isPlaying isPaused].
    split; [apply stopDriftMonitoring_halts|].
    split; [rewrite playingSounds_stopDriftMonitoring, !player_onSound; reflexivity|].
    split; [reflexivity|]. split; [reflexivity|].
    intros i s Hi Hs. rewrite audio_stopDriftMonitoring, !audio_onSound, Hs.
    rewrite !elem_of_cons, elem_of_nil in Hi.
    destruct (decide (highSound entry = Some i)) as [E1|E1];
      destruct (decide (lowSound entry = Some i)) as [E2|E2];
      try reflexivity; try (exfalso; intuition congruence).
Qed.

(** ** The drift monitor's tick, case by case *)

(** C4, as the code has it.  A tick of the drift monitor visits every
    registered Track Set; what it does to one of them, [entry], whose
    primary layer is the sound object [p], depends on two tests made
    before any drift is measured.  Provided no two registered Track Sets
    share a sound object:
    - when the primary plays and the sound loops, or the primary is more
      than 0.2 s before its end (or its length is not known), the drift
      is corrected: every other present layer that plays more than 0.1 s
      away from the primary is stopped and restarted at the primary's
      position with the volume the mix gives it, no other layer is
      restarted, the primary keeps playing where it was, and the Track
      Set stays registered;
    - when the primary does not play, the Track Set is passed over: it
      stays registered and none of its sound objects changes, drifted
      or not;
    - when the primary plays, the sound does not loop and the primary is
      within 0.2 s of its end, the Track Set is stopped as a whole: it
      is no longer registered and each of its layers, the primary
      included, is stopped where it was. *)
Theorem driftTick_corrects_drift (soundId : string) (entry : Entry) (st : State)
    (pi : nat) (p : Sound.t) :
  separateLayers st ->
  playingSounds (player st) !! soundId = Some entry ->
  primaryOf entry = Some pi ->
  audio (host st) !! pi = Some p ->
  (Sound.playing p = true ->
   (PlaylistSound.repeat (sound entry) = true
    \/ Sound.duration p <= 0
    \/ Sound.currentTime p < Sound.duration p - 0.2) ->
   driftCorrected entry st (driftTick st)
   /\ playingSounds (player (driftTick st)) !! soundId = Some entry)
  /\ (Sound.playing p = false ->
      playingSounds (player (driftTick st)) !! soundId = Some entry
      /\ forall i, Some i ∈ [highSound entry; midSound entry; lowSound entry] ->
                   audio (host (driftTick st)) !! i = audio (host st) !! i)
  /\ (Sound.playing p = true ->
      PlaylistSound.repeat (sound entry) = false ->
      0 < Sound.duration p ->
      Sound.duration p - 0.2 <= Sound.currentTime p ->
      playingSounds (player (driftTick st)) !! soundId = None
      /\ forall i s,
           Some i ∈ [highSound entry; midSound entry; lowSound entry] ->
           audio (host st) !! i = Some s ->
           audio (host (driftTick st)) !! i = Some (Sound.stop s)).
Proof.
  intros Hsep He Hprim Hp. split; [|split].
  - intros Hplay Hgo.
    exact (driftTick_resyncs soundId entry st pi p Hsep He Hprim Hp Hplay Hgo).
  - intros Hplay.
    destruct (driftTick_skips soundId entry st pi p Hsep He Hprim Hp Hplay)
      as (Hm & _ & Ha).
    split; [rewrite Hm; exact He | exact Ha].
  - intros Hplay Hrep Hdur Hend.
    destruct (driftTick_stops_at_end soundId entry st pi p
                Hsep He Hprim Hp Hplay Hrep Hdur Hend) as (Hm & Ha & _).
    split; [exact Hm | exact Ha].
Qed.

(** One tick with two Track Sets registered: sound A, whose Mid layer is
    0.15 s behind its primary, is corrected while sound S is served in
    the same tick. *)
Lemma driftTick_corrects_drift_witness :
  playingSounds (player sessionTwo) = {["A" := entryA; "S" := entryS]}
  /\ primaryOf entryA = Some 2%nat
  /\ audio (host sessionTwo) !! 2%nat
     = Some (Sound.mk "battle-low.ogg" true (20000000000000 # 25000000000000) 42 180 true)
  /\ audio (host sessionTwo) !! 1%nat
     = Some (Sound.mk "battle-mid.ogg" true (60000000000000 # 75000000000000) 41.85 180 true)
  /\ driftCorrected entryA sessionTwo (driftTick sessionTwo)
  /\ Sound.currentTime <$> audio (host (driftTick sessionTwo)) !! 1%nat = Some 42.
Proof.
  assert (Hm : playingSounds (player sessionTwo) = {["A" := entryA; "S" := entryS]})
    by (vm_compute; reflexivity).
  assert (Hsep : separateLayers sessionTwo).
  { intros id1 id2 e1 e2 i H1 H2 Hne Hi. rewrite Hm in H1, H2.
    apply lookup_insert_Some in H1 as [[<- <-]|[_ H1]];
      [|apply lookup_singleton_Some in H1 as [<- <-]];
      (apply lookup_insert_Some in H2 as [[<- <-]|[_ H2]];
       [|apply lookup_singleton_Some in H2 as [<- <-]]);
      try congruence;
      cbn in Hi |- *; rewrite !elem_of_cons, elem_of_nil in Hi |- *;
      intuition congruence. }
  assert (He : playingSounds (player sessionTwo) !! "A" = Some entryA)
    by (vm_compute; reflexivity).
  assert (Hp : audio (host sessionTwo) !! 2%nat
               = Some (Sound.mk "battle-low.ogg" true
                                (20000000000000 # 25000000000000) 42 180 true))
    by (vm_compute; reflexivity).
  destruct (driftTick_corrects_drift "A" entryA sessionTwo 2%nat _
              Hsep He eq_refl Hp) as (Hgo & _).
  destruct (Hgo eq_refl (or_introl eq_refl)) as (Hc & _).
  split; [exact Hm|]. split; [reflexivity|]. split; [exact Hp|].
  split; [vm_compute; reflexivity|]. split; [exact Hc|].
  vm_compute. reflexivity.
Defined.

(** C4, as stated, fails in the two cases the monitor tests for first.
    At the end of a track: sound C does not loop and its primary (Low)
    layer is within 0.2 s of its end while its Mid layer plays 0.15 s
    behind; the tick stops the whole Track Set, the primary included,
    and restarts nothing.  With a primary that does not play: the Low
    layer of sound A has halted while its Mid layer plays 0.15 s away
    from it; the tick changes nothing, and the Mid layer is not
    restarted. *)
Lemma driftTick_guards_counterexample :
  (playingSounds (player sessionEnding) = {["C" := entryC]}
  /\ primaryOf entryC = Some 2%nat
  /\ audio (host sessionEnding) !! 2%nat
     = Some (Sound.mk "finale-low.ogg" true (20000000000000 # 25000000000000) 89.9 90 false)
  /\ audio (host sessionEnding) !! 1%nat
     = Some (Sound.mk "finale-mid.ogg" true (60000000000000 # 75000000000000) 89.75 90 false)
  /\ Qabs (89.75 - 89.9) == 0.15
  /\ Sound.playing <$> audio (host (driftTick sessionEnding)) !! 2%nat = Some false
  /\ Sound.playing <$> audio (host (driftTick sessionEnding)) !! 1%nat = Some false
  /\ Sound.currentTime <$> audio (host (driftTick sessionEnding)) !! 1%nat = Some 89.75
  /\ playingSounds (player (driftTick sessionEnding)) !! "C" = None
  /\ ~ driftCorrected entryC sessionEnding (driftTick sessionEnding))
  /\ (playingSounds (player sessionPrimaryHalted) = {["A" := entryA]}
      /\ primaryOf entryA = Some 2%nat
      /\ audio (host sessionPrimaryHalted) !! 2%nat
         = Some (Sound.mk "battle-low.ogg" false (20000000000000 # 25000000000000) 42 180 true)
      /\ audio (host sessionPrimaryHalted) !! 1%nat
         = Some (Sound.mk "battle-mid.ogg" true (60000000000000 # 75000000000000) 41.85 180 true)
      /\ Qabs (41.85 - 42) == 0.15
      /\ driftTick sessionPrimaryHalted = sessionPrimaryHalted
      /\ ~ driftCorrected entryA sessionPrimaryHalted (driftTick sessionPrimaryHalted)).
Proof.
  split.
  {
  assert (Hp : audio (host sessionEnding) !! 2%nat
               = Some (Sound.mk "finale-low.ogg" true
                                (20000000000000 # 25000000000000) 89.9 90 false))
    by (vm_compute; reflexivity).
  assert (Hs : audio (host sessionEnding) !! 1%nat
               = Some (Sound.mk "finale-mid.ogg" true
                                (60000000000000 # 75000000000000) 89.75 90 false))
    by (vm_compute; reflexivity).
  split; [vm_compute; reflexivity|]. split; [reflexivity|].
  split; [exact Hp|]. split; [exact Hs|].
  split; [vm_compute; reflexivity|].
  split; [vm_compute; reflexivity|].
  split; [vm_compute; reflexivity|].
  split; [vm_compute; reflexivity|].
  split; [vm_compute; reflexivity|].
  intros Hc.
  destruct (Hc 2%nat _ eq_refl Hp) as [(p' & Ep' & (_ & Hplay & _) & _) _].
  vm_compute in Ep'. injection Ep' as <-. discriminate Hplay.
  }
  assert (Hp : audio (host sessionPrimaryHalted) !! 2%nat
               = Some (Sound.mk "battle-low.ogg" false
                                (20000000000000 # 25000000000000) 42 180 true))
    by (vm_compute; reflexivity).
  assert (Hs : audio (host sessionPrimaryHalted) !! 1%nat
               = Some (Sound.mk "battle-mid.ogg" true
                                (60000000000000 # 75000000000000) 41.85 180 true))
    by (vm_compute; reflexivity).
  assert (Hsame : driftTick sessionPrimaryHalted = sessionPrimaryHalted)
    by (vm_compute; reflexivity).
  split; [vm_compute; reflexivity|]. split; [reflexivity|].
  split; [exact Hp|]. split; [exact Hs|].
  split; [vm_compute; reflexivity|].
  split; [exact Hsame|].
  intros Hc. rewrite Hsame in Hc.
  destruct (Hc 2%nat _ eq_refl Hp) as [_ Hsec].
  assert (Hmid : Some 1%nat ∈ [highSound entryA; midSound entryA; lowSound entryA])
    by (cbn; rewrite !elem_of_cons; tauto).
  assert (Hne : 1%nat <> 2%nat) by discriminate.
  destruct (Hsec 1%nat _ Hmid Hne Hs) as (s' & Es' & Hre).
  rewrite Hs in Es'. injection Es' as <-.
  vm_compute in Hre. destruct Hre as (_ & Ht & _). discriminate Ht.
Qed.

(** ** The [deleteCombat] hook with the setting switched off *)

(** C5, as stated, fails when the automatic combat intensity has been
    switched off while an encounter was running.  The snapshot taken at
    the start of the encounter is held and the user has not overridden
    the intensity; the encounter, the only one, ends: the hook returns
    at once, so no fade back is started and the snapshot is kept. *)
Lemma deleteCombat_setting_off_counterexample :
  Settings.autoSetCombatIntensity (settings (host sessionSettingOff)) = false
  /\ otherActiveCombats combat1 sessionSettingOff = []
  /\ preCombatIntensity (player sessionSettingOff) = Some (50 / 100)
  /\ userOverrideDuringCombat (player sessionSettingOff) = false
  /\ intensity (player sessionSettingOff) == 1
  /\ deleteCombat combat1 5000 sessionSettingOff = sessionSettingOff
  /\ preCombatIntensity (player (deleteCombat combat1 5000 sessionSettingOff))
     = Some (50 / 100)
  /\ ~ fadeStarted (50 / 100) 2000 5000 sessionSettingOff
        (deleteCombat combat1 5000 sessionSettingOff).
Proof.
  assert (Hsame : deleteCombat combat1 5000 sessionSettingOff = sessionSettingOff)
    by (vm_compute; reflexivity).
  split; [vm_compute; reflexivity|]. split; [vm_compute; reflexivity|].
  split; [vm_compute; reflexivity|]. split; [vm_compute; reflexivity|].
  split; [vm_compute; reflexivity|]. split; [exact Hsame|].
  split; [vm_compute; reflexivity|].
  intros (Hn & _). rewrite Hsame in Hn. exact (Pos.succ_discr _ Hn).
Qed.

(** * The properties at work in the example session *)

(** Sound S has a High and a Mid layer and no Low layer. *)
Lemma mixVolumes_degraded_witness :
  customMixEnabled (player sessionTwo) = false
  /\ layerVolume (mixVolumes (player sessionTwo) entryS) Mid
     = (1 - intensity (player sessionTwo)) * effectiveMasterVolume (player sessionTwo) entryS
  /\ layerVolume (mixVolumes (player sessionTwo) entryS) Low = 0.
Proof.
  assert (H : customMixEnabled (player sessionTwo) = false) by (vm_compute; reflexivity).
  split; [exact H|].
  destruct (mixVolumes_degraded (player sessionTwo) entryS H) as [A _].
  destruct (A Mid High Low) as (B & _ & C & _); [left | reflexivity..|].
  split; [exact B | exact C].
Defined.

Lemma mixVolumes_bounded_witness :
  0 <= intensity (player sessionA) <= 1
  /\ 0 <= layerVolume (mixVolumes (player sessionA) entryA) Mid
     <= effectiveMasterVolume (player sessionA) entryA.
Proof.
  assert (Hi : 0 <= intensity (player sessionA) <= 1) by (split; vm_compute; discriminate).
  split; [exact Hi|].
  apply (mixVolumes_bounded (player sessionA) entryA);
    try exact Hi; split; vm_compute; discriminate.
Defined.

(** With sounds A and S playing, an intensity change reaches the Mid
    layer of A. *)
Lemma controls_reapply_mix_witness :
  separateLayers sessionTwo
  /\ layersExist sessionTwo
  /\ Sound.volume <$> audio (host (setGlobalIntensity 0.9 false sessionTwo)) !! 1%nat
     = Some (mid (mixVolumes (player (setGlobalIntensity 0.9 false sessionTwo)) entryA)).
Proof.
  destruct (reachable_wellFormed sessionTwo reachable_sessionTwo) as (_ & (_ & E & S) & _).
  split; [exact S|]. split; [exact E|].
  destruct (controls_reapply_mix sessionTwo S E) as (A & _).
  apply (A 0.9 false "A" entryA 1%nat); vm_compute; reflexivity.
Defined.

Lemma intensity_follows_GM_witness :
  isGM (host sessionA) = true
  /\ Qabs (intensity
             (player (onChange_currentIntensity
                        (inject_Z (Settings.currentIntensity
                                     (settings (host (setGlobalIntensity 0.333 false sessionA)))))
                        sessionTwo))
           - intensity (player (setGlobalIntensity 0.333 false sessionA))) <= 0.005.
Proof.
  assert (H : isGM (host sessionA) = true) by reflexivity.
  split; [exact H|].
  apply (intensity_follows_GM 0.333 sessionA sessionTwo H).
Defined.

(** The fade that a combat start would request, from 50 to 100 percent. *)
Lemma fade_never_overshoots_witness :
  0 <= intensity (player sessionA) <= 1
  /\ intensity (player (runTimer (nextTimer (host sessionA)) 2000
                          (fadeTo 1 2000 true 0 sessionA))) == 1
  /\ intensity (player (runTimer (nextTimer (host sessionA)) 500
                          (fadeTo 1 2000 true 0 sessionA))) <= 1.
Proof.
  assert (Hi : 0 <= intensity (player sessionA) <= 1) by (split; vm_compute; discriminate).
  assert (Hd : 0 < 2000) by reflexivity.
  assert (Ht : 0 <= 1 <= 1) by (split; vm_compute; discriminate).
  split; [exact Hi|].
  destruct (fade_never_overshoots 1 2000 0 true sessionA Hd Hi Ht) as (A & _ & _ & D).
  split.
  - apply D. vm_compute. discriminate.
  - eapply Qle_trans; [apply (A 500); vm_compute; discriminate|].
    vm_compute. discriminate.
Defined.

Lemma fade_timer_lifecycle_witness :
  0 <= intensity (player sessionA) <= 1
  /\ fadeInterval (player (runTimer (nextTimer (host sessionA)) 500
                             (fadeTo 1 2000 true 0 sessionA)))
     = Some (nextTimer (host sessionA))
  /\ fadeInterval (player (runTimer (nextTimer (host sessionA)) 2000
                             (fadeTo 1 2000 true 0 sessionA))) = None.
Proof.
  assert (Hi : 0 <= intensity (player sessionA) <= 1) by (split; vm_compute; discriminate).
  assert (Hd : 0 < 2000) by reflexivity.
  assert (Ht : 0 <= 1 <= 1) by (split; vm_compute; discriminate).
  split; [exact Hi|]. split.
  - destruct (fade_timer_lifecycle 1 2000 0 500 true sessionA Hd) as (A & _);
      try assumption; [vm_compute; discriminate|].
    apply A. reflexivity.
  - destruct (fade_timer_lifecycle 1 2000 0 2000 true sessionA Hd) as (_ & B & _);
      try assumption; [vm_compute; discriminate|].
    apply B. vm_compute. discriminate.
Defined.

Lemma reachable_timers_tracked_witness :
  reachable sessionCombat
  /\ timersTracked sessionCombat
  /\ fadeInterval (player sessionCombat) = Some 2%positive.
Proof.
  split; [exact reachable_sessionCombat|].
  split; [apply (reachable_timers_tracked sessionCombat reachable_sessionCombat)|].
  vm_compute. reflexivity.
Defined.

Lemma reachable_layers_separate_witness :
  reachable sessionTwo /\ separateLayers sessionTwo /\ layersExist sessionTwo.
Proof.
  split; [exact reachable_sessionTwo|].
  destruct (reachable_layers_separate sessionTwo reachable_sessionTwo) as (A & B & _).
  split; [exact B | exact A].
Defined.

Lemma reachable_in_range_witness :
  reachable sessionCombat /\ inRange sessionCombat.
Proof.
  split; [exact reachable_sessionCombat|].
  apply (reachable_in_range sessionCombat reachable_sessionCombat).
Defined.

Lemma reachable_monitor_while_playing_witness :
  reachable sessionTwo
  /\ playingSounds (player sessionTwo) <> ∅
  /\ exists id, timers (host sessionTwo) !! id = Some DriftTimer.
Proof.
  split; [exact reachable_sessionTwo|].
  destruct (reachable_monitor_while_playing sessionTwo reachable_sessionTwo) as (_ & B & _).
  assert (Hne : playingSounds (player sessionTwo) <> ∅).
  { intros H. apply (f_equal (fun m => m !! "A")) in H. vm_compute in H. discriminate. }
  split; [exact Hne|]. apply B, Hne.
Defined.

(** Sound C does not loop and is 0.1 s from its end. *)
Lemma driftTick_end_of_track_witness :
  playingSounds (player sessionEnding) !! "C" = Some entryC
  /\ primaryOf entryC = Some 2%nat
  /\ playingSounds (player (driftTick sessionEnding)) !! "C" = None
  /\ Sound.playing <$> audio (host (driftTick sessionEnding)) !! 1%nat = Some false.
Proof.
  assert (Hm : playingSounds (player sessionEnding) = {["C" := entryC]})
    by (vm_compute; reflexivity).
  assert (He : playingSounds (player sessionEnding) !! "C" = Some entryC)
    by (vm_compute; reflexivity).
  assert (Hp : audio (host sessionEnding) !! 2%nat
               = Some (Sound.mk "finale-low.ogg" true (20000000000000 # 25000000000000)
                                89.9 90 false))
    by (vm_compute; reflexivity).
  split; [exact He|]. split; [reflexivity|].
  destruct (driftTick_end_of_track "C" entryC sessionEnding 2%nat _
              (separateLayers_single "C" entryC sessionEnding Hm) He eq_refl Hp)
    as (A & B & _); try reflexivity; [vm_compute; discriminate|].
  split; [exact A|].
  rewrite (B 1%nat (Sound.mk "finale-mid.ogg" true (60000000000000 # 75000000000000)
                             89.75 90 false));
    [reflexivity | rewrite !elem_of_cons; right; left; reflexivity | vm_compute; reflexivity].
Defined.

(** Right after its start the three layers of sound A are at position
    0: a tick changes nothing. *)
Lemma driftTick_in_sync_witness :
  playingSounds (player sessionA) <> ∅ /\ driftTick sessionA = sessionA.
Proof.
  assert (Hm : playingSounds (player sessionA) = {["A" := entryA]})
    by (vm_compute; reflexivity).
  assert (Hne : playingSounds (player sessionA) <> ∅)
    by (rewrite Hm; apply insert_non_empty).
  split; [exact Hne|].
  apply (driftTick_in_sync sessionA Hne).
  intros k e Hk. rewrite Hm in Hk. apply lookup_singleton_Some in Hk as [_ <-].
  intros pi p Hprim Hp Hplay. inversion Hprim; subst pi.
  vm_compute in Hp. inversion Hp; subst p. split; [left; reflexivity|].
  intros i s Hi Hs. rewrite !elem_of_cons, elem_of_nil in Hi.
  destruct Hi as [Hi|[Hi|[Hi|[]]]]; inversion Hi; subst i;
    vm_compute in Hs; inversion Hs; subst s; reflexivity.
Defined.

Lemma playAdaptiveSound_starts_witness :
  ("A" ∉ loadingSounds (player session0))
  /\ exists entry,
       playingSounds (player (playAdaptiveSound soundA session0)) !! "A" = Some entry
       /\ sound entry = soundA
       /\ isSome (driftMonitorInterval (player (playAdaptiveSound soundA session0))) = true.
Proof.
  assert (Hl : PlaylistSound.id soundA ∉ loadingSounds (player session0))
    by apply not_elem_of_empty.
  split; [exact Hl|].
  destruct (playAdaptiveSound_starts soundA session0 Hl eq_refl)
    as (entry & A & B & _ & _ & _ & F & _).
  - intros l src Hp _. destruct l; cbn in Hp; inversion Hp; subst src;
      vm_compute; eauto.
  - exists entry. split; [exact A|]. split; [exact B | exact F].
Defined.

(** Sound M cannot be started, playing before or not. *)
Lemma playAdaptiveSound_load_fails_witness :
  media (host sessionA) !! "no-such-file.ogg" = None
  /\ playingSounds (player (playAdaptiveSound soundM sessionA)) !! "M" = None
  /\ last (log (host (playAdaptiveSound soundM sessionA))) = Some (ErrorPlaying "Broken").
Proof.
  assert (Hm : media (host sessionA) !! "no-such-file.ogg" = None) by (vm_compute; reflexivity).
  split; [exact Hm|].
  destruct (playAdaptiveSound_load_fails soundM sessionA Mid "no-such-file.ogg")
    as (A & _ & C); try reflexivity; try exact Hm.
  - vm_compute. discriminate.
  - discriminate.
  - split; [exact A | exact C].
Defined.

Lemma loading_guard_witness :
  playAdaptiveSound_begin soundA session0
  = ((playAdaptiveSound_begin soundA session0).1, Some (Some 0, Some 1, Some 2)%nat)
  /\ playAdaptiveSound soundA (playAdaptiveSound_begin soundA session0).1
     = (playAdaptiveSound_begin soundA session0).1.
Proof.
  assert (H : playAdaptiveSound_begin soundA session0
              = ((playAdaptiveSound_begin soundA session0).1,
                 Some (Some 0, Some 1, Some 2)%nat))
    by (vm_compute; reflexivity).
  split; [exact H|].
  apply (loading_guard soundA session0 _ _ H).
Defined.

Lemma slider_drives_custom_mix_witness :
  isGM (host sessionCustom) = true
  /\ customMixEnabled (player sessionCustom) = true
  /\ Mix_equiv (mixVolumes (player (onIntensityInput 75 sessionCustom)) entryA)
       (mkMix (low (calculateMix (inject_Z 75 / 100))
               * effectiveMasterVolume (player sessionCustom) entryA)
              (mid (calculateMix (inject_Z 75 / 100))
               * effectiveMasterVolume (player sessionCustom) entryA)
              (high (calculateMix (inject_Z 75 / 100))
               * effectiveMasterVolume (player sessionCustom) entryA)).
Proof.
  assert (G : isGM (host sessionCustom) = true) by (vm_compute; reflexivity).
  assert (H : customMixEnabled (player sessionCustom) = true) by (vm_compute; reflexivity).
  split; [exact G|]. split; [exact H|].
  assert (Hv : (0 <= 75 <= 100)%Z) by lia.
  destruct (slider_drives_custom_mix 75 sessionCustom G Hv H) as (_ & _ & A & _).
  exact (A entryA).
Defined.

(** An encounter that starts at time 0 and is deleted at 5000 ms. *)
Lemma combat_round_trip_witness :
  preCombatIntensity (player (withCombats [combat1] sessionA)) = None
  /\ intensity
       (player
          (runTimer
             (nextTimer (host (runTimer (nextTimer (host (withCombats [combat1] sessionA)))
                                 2000 (combatStart 0 (withCombats [combat1] sessionA)))))
             7000
             (deleteCombat combat1 5000
                (runTimer (nextTimer (host (withCombats [combat1] sessionA))) 2000
                   (combatStart 0 (withCombats [combat1] sessionA))))))
     == intensity (player (withCombats [combat1] sessionA)).
Proof.
  split; [reflexivity|].
  apply (combat_round_trip combat1 (withCombats [combat1] sessionA) 0 2000 5000 7000);
    try reflexivity; try (vm_compute; discriminate).
  split; vm_compute; discriminate.
Defined.
